(* ===== verification/_CoqProject ===== *)
-Q . S2P
Prelude.v
Breaker.v
Prog.v
Contracts.v
Cql.v
Session.v
CassStore.v
StoreInv.v
Keys.v
Torn.v
Lease.v
StoreSpec.v
StoreThms.v
Cleanup.v
Inbox.v
GoStrings.v
Connector.v
Tls.v
Coord.v
NatsBus.v
CassLife.v
Config.v
Limits.v
App.v
Relay.v
Handlers.v
Process.v
Lifecycle.v
System.v
StoreSystem.v
Delivery.v
Linked.v
AppThms.v
Lanes.v
NodeState.v
