(* ===== verification/Prelude.v ===== *)
(** * Verification of the Shiro control plane

    The program under src/ is a control plane for durable event delivery: an
    HTTP API accepts events, a Cassandra store keeps them together with an
    outbox, a NATS JetStream bus carries them to consumers, an etcd election
    chooses the node that relays the outbox, and a core of middleware,
    breakers, limiters and background loops holds the parts together.  This
    library models the Go code as executable definitions and proves what the
    parts promise each other and their callers.

    ** Parts and files

    - [Prelude]: 64-bit integers with their wrap-around, durations and
      instants, errors and results, list lemmas, the hint database [shiro] and
      the shared tactics.
    - [Prog]: effectful Go code as finite trees of interactions ([prog]), with
      sequential runs ([run]), weakest preconditions over every permitted
      environment ([wp]), interleavings of any number of calls with crashes
      ([reachable]), a rely-guarantee rule for them ([sound]), and programs
      carried out by other programs ([translate], [interp]).
    - [Contracts]: the records and interfaces of internal/modules/contracts.go.
    - [Breaker]: the circuit breaker of internal/core/app.go.
    - [Limits]: the IP and subject rate limiters, the authentication failure
      guard and the channel guards of app.go.
    - [GoStrings]: the functions of packages strings and strconv the code uses.
    - [Config]: internal/config/config.go, [FromEnv] and [Validate].
    - [Cql], [Session]: the ten tables of the schema, the statements of
      cassstore, what a database session may answer ([legal]), and concrete
      in-memory sessions, with and without failures.
    - [CassStore]: every data method of internal/modules/cassstore/module.go.
      [StoreInv], [Keys], [Lease] and [Inbox] prove what holds in all
      interleavings, [Torn] what holds when batches are applied piecemeal;
      [StoreSpec], [StoreThms] and [Cleanup] what each method returns.
    - [Connector]: the shape the three modules share (handles under a mutex and
      calls of a client library).  [Tls] is internal/security/tls.go; [Coord]
      is internal/modules/etcdcoord/module.go; [NatsBus] is
      internal/modules/natsbus/module.go; [CassLife] is the connection part of
      the store, [Start], [Ready], [Stop] and [normalizeHosts].
    - [App]: the [App] struct, [New], the breaker wrappers, [publishWithRetry],
      the outbox relay and the cleanup loop of app.go.  [Handlers]: the HTTP
      handlers, [secure], the middleware chain, the routes, and [Run].
      [AppThms] and [Lanes] prove their properties for every environment;
      [NodeState] the invariant of the state a node's goroutines share;
      [Relay] that the relay makes progress.
    - [System]: the cluster, the broker and the invariant of any number of
      nodes; the class [OutboxStore] is what the application expects of its
      store.  [StoreSystem] shows that the methods of [CassStore] keep it and
      [Delivery] that every program of the application is sound with any store
      that does.
    - [Process]: cmd/controlplane/main.go and internal/telemetry/otel.go, and
      [link], which carries out the application's calls by the code of the
      three modules.  [Linked] proves the delivery guarantees of the linked
      process; [Lifecycle] what [main] opens and releases.

    ** How code becomes definitions

    A Go function without effects is a Rocq function with the source's name.
    A method that reads the clock, sends a statement, calls a client library,
    or enters a critical section is a [prog]: its nodes are those interactions
    in program order, its branches the answers.  One critical section of a
    mutex, one operation on an atomic variable or a channel is one node, so
    interleavings happen exactly where goroutines can interleave.  Errors are
    values ([result], [option error]); an error carries its text and whether it
    is [gocql.ErrNotFound].  Structs are records, maps are [gmap], interfaces
    are records of operations ([EventStore]) or type classes ([UUID],
    [RateLimiter]).  Loops over slices are structural; the retry loops recurse
    on the attempts left, which the configuration bounds; loops that run until
    a context ends ([runOutboxRelay], [runCleanupLoop], [observeLeader]) take a
    number of rounds, and theorems quantify over it.

    ** What the theorems show

    - Delivery ([Linked], on [System], [StoreSystem] and [Delivery]): whatever
      any number of processes do, with the modules' own code behind the
      interfaces, failing statements, lost answers and crashes, an event marked
      published has been accepted by the broker, and an acknowledged publish
      request is durable.
    - Progress ([Relay]): with a healthy cluster and broker, enough ticks of
      the relay deliver every stored event.
    - The process ([Lifecycle]): no call with an invalid configuration, no
      connection, client or session left open when [main] returns.
    - The store ([StoreInv], [Keys], [Lease], [Inbox]): appends exactly once
      per idempotency key while no key expires, keys that stay unusable after a
      failure, exclusive relay leases and single consumption, in every
      interleaving; [inv] is the invariant of the tables these rest on.
    - Torn batches ([Torn]): the copies of an event agree in content and time
      however the statements of the batches arrive.
    - Its methods ([StoreSpec], [StoreThms], [Cleanup]): results and effects of
      append, mark, failure, replay, relay scan, stream read and cleanup in
      sessions without failures, the backoff in closed form, and the states a
      failure leaves behind that the code does not repair.
    - The core ([Breaker], [Limits], [AppThms], [Lanes], [NodeState]): a shared
      state that stays well-formed in every interleaving; breaker, limiters and
      guards against abstract specifications and bounds; authorization;
      bounded publish retries; silent followers; ordered start and stop; no
      lane leaked by any request, panics included; recovery from panics; no
      call through an open circuit.
    - The modules ([Coord], [NatsBus], [CassLife], [Tls]): grounded leadership,
      no leaked connection, a complete schema, one publication per call, TLS
      settings that are never weakened.
    - Configuration ([Config]): validation accepts exactly the well-formed
      configurations, the defaults are among them, tables round-trip.

    ** Parameters and bounds

    Third-party packages are parameters.  [UUID] is the identifier type of
    gocql; [legal] is what its sessions may answer.  [legal] leaves open
    whether a scan fails when the destinations do not match the columns;
    [answers] with [lenient] unset is the driver that fails it, as gocql
    documents.  Two simplifications of [legal] are not promises of Cassandra: a
    logged batch is one step that takes effect when it is answered, or never,
    and statements take effect in the order of their answers, without write
    timestamps.  The theorems of [StoreInv], [Lease], [StoreThms], [Cleanup],
    [Relay] and [Linked] are about clusters that behave so; [Torn] drops the
    first one.  [RateLimiter] is golang.org/x/time/rate.  JSON
    decoding, the label values the Prometheus client takes,
    [netip.ParseAddrPort], [strconv.Quote], the order in which the runtime
    visits a map, the metrics handler, the etcd and NATS clients, the
    OpenTelemetry SDK, the file system and the crypto packages are parameters
    too.  Every theorem with
    a hypothesis on them has a witness that instantiates it with concrete
    functions.  Numbers stay at their width: the bounds in hypotheses (counters
    below 2^63-1, durations of at most 2^61 ns, a retry count below 2^31-1)
    exclude overflow that the code does not handle.

    ** Not modelled

    Panics other than those of the metric labels in [instrument].  Of the
    modelled statements, [make([]EventRecord, 0, limit)] of [ListDeadLetters]
    panics when the capacity, the unbounded [?limit=] of the request, is too
    large to allocate; lists here have no capacity.  The index expression
    [m.endpoints[0]] of etcdcoord is behind a client that [clientv3.New] does
    not build without endpoints.  The overlap of a timed-out request with its
    response: [http.TimeoutHandler] answers 503 while the handler's goroutine
    still runs and holds its lanes; [withRequestTimeout] gives the same answer
    after the handler has ended.  Merging of concurrent writes column by
    column; tracing spans, log lines, histograms and latencies; the HTTP server
    itself; signals and the deadlines of contexts other than as waits, server
    ends and calls that may fail.

    ** Plan

    Progress of the relay with finitely many failures; the subscription of
    natsbus up to the stream's consumer; leadership hand-over between several
    linked processes. *)

From stdpp Require Export base tactics option list gmap strings pretty sorting.
From Stdlib Require Export ZArith Lia.

#[global] Open Scope Z_scope.

(** ** Machine integers

    Go's [int], [int64] and [time.Duration] are 64-bit two's complement.
    They are kept in [Z]; every product or sum of the source that can leave
    the range goes through [wrap64]. *)

Definition int_min : Z := - 2 ^ 63.
Definition int_max : Z := 2 ^ 63 - 1.
Definition wrap64 (z : Z) : Z := (z + 2 ^ 63) mod 2 ^ 64 - 2 ^ 63.
Definition in_int64 (z : Z) : Prop := int_min <= z <= int_max.

Lemma wrap64_id z : in_int64 z -> wrap64 z = z.
Proof.
  unfold in_int64, int_min, int_max, wrap64; intros.
  rewrite Z.mod_small; lia.
Qed.

Lemma wrap64_range z : in_int64 (wrap64 z).
Proof.
  unfold in_int64, int_min, int_max, wrap64.
  pose proof (Z.mod_pos_bound (z + 2 ^ 63) (2 ^ 64)). lia.
Qed.

(** [max] of app.go. *)
Definition gomax (a b : Z) : Z := if a >? b then a else b.

Lemma gomax_max a b : gomax a b = Z.max a b.
Proof. unfold gomax. destruct (Z.gtb_spec a b); lia. Qed.

(** Go's integer division truncates towards zero. *)
Definition goquot (a b : Z) : Z := Z.quot a b.

(** ** Time

    [time.Time] is the number of nanoseconds since the Unix epoch, unbounded
    (Go keeps seconds in 64 bits beside the nanoseconds); [time.Duration] is a
    64-bit number of nanoseconds. *)

Abbreviation gotime := Z (only parsing).
Abbreviation duration := Z (only parsing).

Definition Millisecond : duration := 1000000.
Definition Second : duration := 1000 * Millisecond.
Definition Minute : duration := 60 * Second.
Definition Hour : duration := 60 * Minute.

(** [time.Duration(n) * unit]. *)
Definition dur (n unit : Z) : duration := wrap64 (n * unit).

(** [time.Time{}] is the first of January of year 1. *)
Definition zero_time : gotime := - 62135596800 * Second.
Definition IsZero (t : gotime) : bool := t =? zero_time.
Definition After (t u : gotime) : bool := u <? t.
Definition Before (t u : gotime) : bool := t <? u.
Definition Add (t : gotime) (d : duration) : gotime := t + d.

(** [time.Since(t)] read at the instant [now]; [Time.Sub] saturates. *)
Definition Since (now t : gotime) : duration :=
  Z.max int_min (Z.min int_max (now - t)).

(** [time.Unix(0, 0).UTC()]. *)
Definition unix_epoch : gotime := 0.

Lemma After_spec t u : reflect (u < t) (After t u).
Proof. apply Z.ltb_spec0. Qed.

Lemma Before_spec t u : reflect (t < u) (Before t u).
Proof. apply Z.ltb_spec0. Qed.

Lemma dur_id n unit : in_int64 (n * unit) -> dur n unit = n * unit.
Proof. apply wrap64_id. Qed.

(** ** Errors

    A Go [error] is its message together with the answer of
    [errors.Is(err, gocql.ErrNotFound)], the only sentinel the code tests. *)

Record error := mkError { err_notfound : bool; err_msg : string }.

Definition newError (msg : string) : error := mkError false msg.

#[global] Instance error_eq_dec : EqDecision error.
Proof. solve_decision. Defined.

(** A call that returns [(A, error)] with the zero value beside the error. *)
Inductive result (A : Type) : Type :=
| Ok (a : A)
| Err (e : error).
Arguments Ok {A} _.
Arguments Err {A} _.

Definition is_ok {A} (r : result A) : bool :=
  match r with Ok _ => true | Err _ => false end.

(** ** Lists *)

Lemma StronglySorted_sublist {A} (R : relation A) (l k : list A) :
  sublist l k -> StronglySorted R k -> StronglySorted R l.
Proof.
  induction 1 as [|x l k Hs IH|x l k Hs IH]; rewrite ?StronglySorted_cons; [done| |naive_solver].
  intros [HF Hk]. split; [|by apply IH]. rewrite Forall_forall in HF |- *.
  intros y Hy. apply HF. by eapply sublist_subseteq.
Qed.

Lemma StronglySorted_reverse {A} (R : relation A) (l : list A) :
  StronglySorted R l -> StronglySorted (fun a b => R b a) (reverse l).
Proof.
  induction l as [|x l IH]; [constructor|]. rewrite StronglySorted_cons, reverse_cons. intros [HF Hl].
  apply IH in Hl. revert Hl.
  assert (Forall (fun y => R x y) (reverse l)) as HF'.
  { rewrite Forall_forall in HF |- *. intros y Hy. apply HF. by apply elem_of_reverse. }
  clear HF IH. induction HF' as [|y l' Hy HF' IH]; cbn; intros Hl; [repeat constructor|].
  rewrite StronglySorted_cons in *. destruct Hl as [HF Hl]. split; [|by apply IH].
  apply Forall_app. split; [done|by constructor].
Qed.

Lemma filter_sublist {A} (P : A -> Prop) `{forall x, Decision (P x)} (l : list A) :
  sublist (filter P l) l.
Proof. induction l as [|x l IH]; cbn; [constructor|]. case_decide; by constructor. Qed.

Lemma elem_of_take_1 {A} n (l : list A) x : x ∈ take n l -> x ∈ l.
Proof. apply sublist_subseteq, sublist_take. Qed.

Lemma filter_nothing {A} (P : A -> Prop) `{forall x, Decision (P x)} (l : list A) :
  Forall (fun x => ~ P x) l -> filter P l = [].
Proof. induction 1 as [|x l Hx _ IH]; cbn; [done|]. by rewrite decide_False. Qed.

(** ** Automation *)

Create HintDb shiro discriminated.

(** Case analysis on every boolean comparison of integers in the context. *)
Ltac zify_bools :=
  repeat match goal with
  | H : (_ <? _) = true |- _ => apply Z.ltb_lt in H
  | H : (_ <? _) = false |- _ => apply Z.ltb_ge in H
  | H : (_ <=? _) = true |- _ => apply Z.leb_le in H
  | H : (_ <=? _) = false |- _ => apply Z.leb_gt in H
  | H : (_ >=? _) = true |- _ => rewrite Z.geb_leb in H; apply Z.leb_le in H
  | H : (_ >=? _) = false |- _ => rewrite Z.geb_leb in H; apply Z.leb_gt in H
  | H : (_ >? _) = true |- _ => rewrite Z.gtb_ltb in H; apply Z.ltb_lt in H
  | H : (_ >? _) = false |- _ => rewrite Z.gtb_ltb in H; apply Z.ltb_ge in H
  | H : (_ =? _) = true |- _ => apply Z.eqb_eq in H
  | H : (_ =? _) = false |- _ => apply Z.eqb_neq in H
  end.

(** Split every [if] of the goal and turn the tests into inequalities. *)
Ltac split_ifs :=
  repeat (case_match; zify_bools); try (exfalso; lia).

(** Destruct conjunctions and existentials of the context. *)
Ltac deex :=
  repeat match goal with
  | H : exists x, _ |- _ => let x' := fresh x in destruct H as [x' H]
  | H : _ /\ _ |- _ => destruct H
  end.
