(* ===== verification/Breaker.v ===== *)
(** * Circuit breaker (internal/core/app.go, [circuitBreaker])

    The three operations [Allow], [Success] and [Failure] run under the
    breaker's mutex, so each is one atomic step; [time.Now()] is read inside
    the critical section and is the argument [now].  The second half gives an
    abstract breaker that only remembers what callers can observe and proves
    that the code refines it, over any interleaving of calls by any number of
    goroutines. *)

From S2P Require Import Prelude.

Module Breaker.

Inductive breakerState := breakerClosed | breakerOpen | breakerHalfOpen.

#[global] Instance breakerState_eq_dec : EqDecision breakerState.
Proof. solve_decision. Defined.

Record circuitBreaker := mkBreaker {
  name : string;
  failureThreshold : Z;
  openDuration : duration;
  halfOpenSuccesses : Z;
  state : breakerState;
  consecutiveFailures : Z;
  consecutiveSuccess : Z;
  openedAt : gotime
}.

Definition newCircuitBreaker (nm : string) (threshold : Z) (od : duration) (hos : Z)
    : circuitBreaker :=
  mkBreaker nm (gomax 1 threshold) od (gomax 1 hos) breakerClosed 0 0 zero_time.

(** The mutable part of the struct, the configuration kept. *)
Definition set_state (b : circuitBreaker) (st : breakerState) (cf cs : Z) (oa : gotime)
    : circuitBreaker :=
  mkBreaker (name b) (failureThreshold b) (openDuration b) (halfOpenSuccesses b)
    st cf cs oa.

Definition Allow (now : gotime) (b : circuitBreaker) : bool * circuitBreaker :=
  match state b with
  | breakerClosed => (true, b)
  | breakerOpen =>
      if Since now (openedAt b) >=? openDuration b
      then (true, set_state b breakerHalfOpen (consecutiveFailures b) 0 (openedAt b))
      else (false, b)
  | breakerHalfOpen => (true, b)
  end.

Definition Success (b : circuitBreaker) : circuitBreaker :=
  match state b with
  | breakerHalfOpen =>
      let cs := wrap64 (consecutiveSuccess b + 1) in
      if cs >=? halfOpenSuccesses b
      then set_state b breakerClosed 0 0 (openedAt b)
      else set_state b breakerHalfOpen (consecutiveFailures b) cs (openedAt b)
  | breakerClosed => set_state b breakerClosed 0 (consecutiveSuccess b) (openedAt b)
  | breakerOpen => b
  end.

(** The test [b.state == breakerHalfOpen]. *)
Definition is_half_open (s : breakerState) : bool :=
  match s with breakerHalfOpen => true | _ => false end.

Definition Failure (now : gotime) (b : circuitBreaker) : circuitBreaker :=
  let cf := wrap64 (consecutiveFailures b + 1) in
  if (cf >=? failureThreshold b) || is_half_open (state b)
  then set_state b breakerOpen cf 0 now
  else set_state b (state b) cf 0 (openedAt b).

(** ** Steps of concurrent callers *)

Inductive call := CAllow | CSuccess | CFailure.

(** One atomic call at the instant [now]: the answer of [Allow], if the call
    was one, and the new breaker. *)
Definition exec_call (now : gotime) (c : call) (b : circuitBreaker)
    : option bool * circuitBreaker :=
  match c with
  | CAllow => let '(r, b') := Allow now b in (Some r, b')
  | CSuccess => (None, Success b)
  | CFailure => (None, Failure now b)
  end.

(** A history of calls, oldest first, by whichever goroutine made them. *)
Fixpoint exec_calls (h : list (gotime * call)) (b : circuitBreaker)
    : list (option bool) * circuitBreaker :=
  match h with
  | [] => ([], b)
  | (now, c) :: h' =>
      let '(r, b') := exec_call now c b in
      let '(rs, b'') := exec_calls h' b' in
      (r :: rs, b'')
  end.

(** ** Invariant *)

Definition wf (b : circuitBreaker) : Prop :=
  1 <= failureThreshold b /\ 1 <= halfOpenSuccesses b /\ halfOpenSuccesses b <= int_max /\
  match state b with
  | breakerClosed => 0 <= consecutiveFailures b < failureThreshold b
  | breakerOpen => failureThreshold b <= consecutiveFailures b
  | breakerHalfOpen =>
      failureThreshold b <= consecutiveFailures b /\
      0 <= consecutiveSuccess b < halfOpenSuccesses b
  end.

(** The counter has room for [n] more failures. *)
Definition room (n : Z) (b : circuitBreaker) : Prop := consecutiveFailures b + n <= int_max.

Lemma new_wf nm t od hos :
  t <= int_max -> hos <= int_max -> wf (newCircuitBreaker nm t od hos).
Proof.
  intros. unfold wf, newCircuitBreaker; cbn.
  rewrite !gomax_max. unfold int_max in *. lia.
Qed.

Lemma Allow_wf now b : wf b -> wf (snd (Allow now b)).
Proof.
  unfold wf, Allow. intros (? & ? & ? & H).
  destruct (state b) eqn:E; cbn; rewrite ?E; try (repeat split; lia || easy).
  destruct (_ >=? _); cbn; rewrite ?E; lia.
Qed.

Lemma Success_wf b : wf b -> wf (Success b).
Proof.
  unfold wf, Success. intros (? & ? & ? & H).
  destruct (state b) eqn:E; cbn; rewrite ?E; try lia.
  rewrite wrap64_id by (unfold in_int64, int_min, int_max in *; lia).
  destruct (_ >=? _) eqn:G; zify_bools; cbn; lia.
Qed.

Lemma Failure_wf now b : wf b -> room 1 b -> wf (Failure now b).
Proof.
  unfold wf, Failure, room. intros (? & ? & ? & H) Hr.
  assert (0 <= consecutiveFailures b) by (destruct (state b); lia).
  rewrite wrap64_id by (unfold in_int64, int_min, int_max in *; lia).
  destruct (_ >=? _) eqn:G, (state b) eqn:E; zify_bools; cbn; lia.
Qed.

Lemma exec_call_wf now c b : wf b -> room 1 b -> wf (snd (exec_call now c b)).
Proof.
  intros Hw Hr. destruct c; cbn.
  - pose proof (Allow_wf now b Hw). by destruct (Allow now b).
  - by apply Success_wf.
  - by apply Failure_wf.
Qed.

Lemma exec_call_room n now c b :
  1 <= n -> wf b -> room n b -> room (n - 1) (snd (exec_call now c b)).
Proof.
  unfold room, wf. intros Hn (? & ? & ? & H) Hr.
  assert (0 <= consecutiveFailures b) by (destruct (state b); lia).
  destruct c; cbn; unfold Allow, Success, Failure.
  - destruct (state b); cbn; try destruct (_ >=? _); cbn; lia.
  - destruct (state b); cbn; try destruct (_ >=? _); cbn; unfold int_max in *; lia.
  - rewrite wrap64_id by (unfold in_int64, int_min, int_max in *; lia).
    destruct (_ || _); cbn; lia.
Qed.

#[export] Hint Resolve new_wf Allow_wf Success_wf Failure_wf exec_call_wf : shiro.

(** ** Abstract breaker

    Closed with the number of failures since the last success, open since an
    instant, or probing with the number of successful probes. *)

Inductive spec :=
| SClosed (failures : Z)
| SOpen (since : gotime)
| SProbing (successes : Z) (since : gotime).

Definition abs (b : circuitBreaker) : spec :=
  match state b with
  | breakerClosed => SClosed (consecutiveFailures b)
  | breakerOpen => SOpen (openedAt b)
  | breakerHalfOpen => SProbing (consecutiveSuccess b) (openedAt b)
  end.

Section Spec.
Variables (threshold probes : Z) (open_for : duration).

Definition spec_call (now : gotime) (c : call) (s : spec) : option bool * spec :=
  match c, s with
  | CAllow, SOpen t =>
      if Since now t >=? open_for then (Some true, SProbing 0 t) else (Some false, s)
  | CAllow, _ => (Some true, s)
  | CSuccess, SClosed _ => (None, SClosed 0)
  | CSuccess, SOpen _ => (None, s)
  | CSuccess, SProbing n t => (None, if n + 1 >=? probes then SClosed 0 else SProbing (n + 1) t)
  | CFailure, SClosed n => (None, if n + 1 >=? threshold then SOpen now else SClosed (n + 1))
  | CFailure, _ => (None, SOpen now)
  end.

Fixpoint spec_calls (h : list (gotime * call)) (s : spec) : list (option bool) * spec :=
  match h with
  | [] => ([], s)
  | (now, c) :: h' =>
      let '(r, s') := spec_call now c s in
      let '(rs, s'') := spec_calls h' s' in
      (r :: rs, s'')
  end.
End Spec.

(** The configuration never changes. *)
Lemma exec_call_cfg now c b :
  let b' := snd (exec_call now c b) in
  failureThreshold b' = failureThreshold b /\ openDuration b' = openDuration b /\
  halfOpenSuccesses b' = halfOpenSuccesses b.
Proof.
  destruct c; cbn; unfold Allow, Success, Failure;
    destruct (state b); cbn; repeat case_match; cbn; auto;
    unfold set_state in *; simplify_eq; auto.
Qed.

Lemma exec_call_refines now c b :
  wf b -> room 1 b ->
  let '(r, b') := exec_call now c b in
  spec_call (failureThreshold b) (halfOpenSuccesses b) (openDuration b) now c (abs b)
    = (r, abs b').
Proof.
  unfold wf, room, abs. intros (? & ? & ? & H) Hr.
  assert (0 <= consecutiveFailures b) by (destruct (state b); lia).
  destruct c; cbn.
  - unfold Allow. destruct (state b) eqn:E; cbn; rewrite ?E; try done.
    destruct (_ >=? _); cbn; by rewrite ?E.
  - unfold Success. destruct (state b) eqn:E; cbn; rewrite ?E; try done.
    rewrite wrap64_id by (unfold in_int64, int_min, int_max in *; lia).
    by destruct (_ >=? _).
  - unfold Failure.
    rewrite wrap64_id by (unfold in_int64, int_min, int_max in *; lia).
    destruct (state b) eqn:E; cbn; rewrite ?orb_false_r, ?orb_true_r; cbn; try done.
    + by destruct (_ >=? _).
    + destruct (_ >=? _) eqn:G; [done|]. zify_bools. lia.
Qed.

(** The code refines the abstract breaker over every history short enough for
    the failure counter not to overflow. *)
Lemma exec_calls_refines h b :
  wf b -> room (Z.of_nat (length h)) b ->
  let '(rs, b') := exec_calls h b in
  spec_calls (failureThreshold b) (halfOpenSuccesses b) (openDuration b) h (abs b)
    = (rs, abs b') /\ wf b'.
Proof.
  revert b. induction h as [|[now c] h IH]; intros b Hw Hr; [done|]. cbn [exec_calls spec_calls].
  cbn [length] in Hr.
  assert (room 1 b) as Hr1 by (unfold room in *; lia).
  pose proof (exec_call_refines now c b Hw Hr1) as Href.
  pose proof (exec_call_wf now c b Hw Hr1) as Hw'.
  pose proof (exec_call_room (Z.of_nat (S (length h))) now c b ltac:(lia) Hw Hr) as Hroom.
  destruct (exec_call_cfg now c b) as (E1 & E2 & E3).
  destruct (exec_call now c b) as [r b1] eqn:E; cbn in *.
  rewrite Href.
  specialize (IH b1 Hw' ltac:(unfold room in *; lia)).
  rewrite E1, E2, E3 in IH.
  destruct (exec_calls h b1) as [rs b'] eqn:E4.
  destruct IH as [-> ?]. done.
Qed.

(** ** Properties of the abstract breaker that callers rely on *)

(** Failures at the end of a history, newest last. *)
Fixpoint run_of_failures (acc : Z) (outcomes : list bool) : Z :=
  match outcomes with
  | [] => acc
  | ok :: os => run_of_failures (if ok then 0 else acc + 1) os
  end.

Definition outcome_call (ok : bool) : call := if ok then CSuccess else CFailure.

Lemma spec_outcomes_closed thr pr od (os : list (gotime * bool)) n :
  (forall k, (k <= length os)%nat -> run_of_failures n (take k (snd <$> os)) < thr) ->
  snd (spec_calls thr pr od (prod_map id outcome_call <$> os) (SClosed n))
    = SClosed (run_of_failures n (snd <$> os)).
Proof.
  revert n. induction os as [|[t ok] os IH]; intros n Hk; [done|].
  assert (forall k, (k <= length os)%nat ->
            run_of_failures (if ok then 0 else n + 1) (take k (snd <$> os)) < thr) as Hk'.
  { intros k Hle. apply (Hk (S k)). cbn. lia. }
  specialize (IH _ Hk').
  destruct ok; cbn in *.
  - by destruct (spec_calls _ _ _ _ (SClosed 0)).
  - destruct (n + 1 >=? thr) eqn:G; zify_bools.
    + pose proof (Hk' 0%nat ltac:(lia)) as Hk0. rewrite take_0 in Hk0. cbn in Hk0. lia.
    + by destruct (spec_calls _ _ _ _ (SClosed (n + 1))).
Qed.

(** While open, and while every call happens before [open_for] has elapsed
    since the last trip, [Allow] refuses. *)
Lemma spec_open_refuses thr pr od h t rs s' :
  Forall (fun '(now, _) => t <= now < t + od) h -> od <= int_max ->
  spec_calls thr pr od h (SOpen t) = (rs, s') ->
  Forall (fun r => r <> Some true) rs /\ exists t', t <= t' /\ s' = SOpen t'.
Proof.
  intros Hall Hod. revert rs s'.
  assert (forall t1 rs s', t <= t1 ->
    spec_calls thr pr od h (SOpen t1) = (rs, s') ->
    Forall (fun r => r <> Some true) rs /\ exists t', t <= t' /\ s' = SOpen t') as Hgen.
  { induction h as [|[now c] h IH]; intros t1 rs s' Ht1 Hrun; cbn in Hrun.
    { simplify_eq. eauto. }
    apply Forall_cons in Hall as [Hnow Hall].
    destruct c; cbn in Hrun.
    - destruct (_ >=? _) eqn:G; zify_bools.
      { exfalso. unfold Since, int_max, int_min in *. lia. }
      destruct (spec_calls _ _ _ h _) as [rs1 s1] eqn:E. simplify_eq.
      edestruct IH as [? ?]; eauto.
    - destruct (spec_calls _ _ _ h _) as [rs1 s1] eqn:E. simplify_eq.
      edestruct IH as [? ?]; eauto.
    - destruct (spec_calls _ _ _ h _) as [rs1 s1] eqn:E. simplify_eq.
      destruct (IH Hall now _ _ ltac:(lia) E) as [? ?]; eauto. }
  intros rs s'. by apply Hgen.
Qed.

(** [k] successful probes in a row from a fresh probing state. *)
Lemma spec_probes_close thr pr od (ts : list gotime) n t0 :
  0 <= n < pr -> Z.of_nat (length ts) = pr - n ->
  snd (spec_calls thr pr od ((., CSuccess) <$> ts) (SProbing n t0)) = SClosed 0.
Proof.
  revert n. induction ts as [|t ts IH]; intros n Hn Hlen; cbn in *; [lia|].
  destruct (n + 1 >=? pr) eqn:G; zify_bools.
  - assert (ts = []) as -> by (destruct ts; cbn in *; [done|lia]). done.
  - specialize (IH (n + 1) ltac:(lia) ltac:(lia)).
    by destruct (spec_calls _ _ _ _ (SProbing (n + 1) t0)).
Qed.

(** A freshly made breaker is the abstract breaker with no failure. *)
Lemma new_refines nm t od hos h :
  t <= int_max -> hos <= int_max -> Z.of_nat (length h) <= int_max ->
  let '(rs, b') := exec_calls h (newCircuitBreaker nm t od hos) in
  spec_calls (Z.max 1 t) (Z.max 1 hos) od h (SClosed 0) = (rs, abs b').
Proof.
  intros Ht Hh Hl.
  pose proof (exec_calls_refines h _ (new_wf nm t od hos Ht Hh)) as H.
  destruct (exec_calls h _) as [rs b'].
  destruct H as [H _]; [unfold room; cbn; lia|].
  cbn in H. rewrite !gomax_max in H. done.
Qed.

Lemma exec_calls_app h1 h2 b :
  exec_calls (h1 ++ h2) b =
    let '(rs1, b1) := exec_calls h1 b in
    let '(rs2, b2) := exec_calls h2 b1 in (rs1 ++ rs2, b2).
Proof.
  revert b. induction h1 as [|[now c] h1 IH]; intros b; cbn.
  { by destruct (exec_calls h2 b). }
  destruct (exec_call now c b) as [r b1]. rewrite IH.
  destruct (exec_calls h1 b1) as [rs1 b2]. by destruct (exec_calls h2 b2).
Qed.

Lemma exec_calls_cfg h b : failureThreshold (snd (exec_calls h b)) = failureThreshold b.
Proof.
  revert b. induction h as [|[now c] h IH]; intros b; [done|]. cbn.
  destruct (exec_call_cfg now c b) as (E & _ & _).
  destruct (exec_call now c b) as [r b1]; cbn in E. rewrite <- E, <- (IH b1).
  by destruct (exec_calls h b1).
Qed.

(** ** Main theorems *)

(** C9: The breaker of app.go refines the abstract breaker: over every history
    of [Allow], [Success] and [Failure] calls, at any instants and by any
    goroutines, it gives the answers of the abstract breaker and ends in a
    state that represents the abstract one. *)
Theorem breaker_refines_spec nm t od hos h :
  t <= int_max -> hos <= int_max -> Z.of_nat (length h) <= int_max ->
  fst (exec_calls h (newCircuitBreaker nm t od hos)) =
    fst (spec_calls (Z.max 1 t) (Z.max 1 hos) od h (SClosed 0)) /\
  abs (snd (exec_calls h (newCircuitBreaker nm t od hos))) =
    snd (spec_calls (Z.max 1 t) (Z.max 1 hos) od h (SClosed 0)).
Proof.
  intros Ht Hh Hl. pose proof (new_refines nm t od hos h Ht Hh Hl) as H.
  destruct (exec_calls h _) as [rs b']. by rewrite H.
Qed.

Lemma breaker_refines_spec_witness :
  let h := [(0, CFailure); (1, CFailure); (5, CAllow); (20, CAllow); (21, CSuccess)] in
  fst (exec_calls h (newCircuitBreaker "nats" 2 10 1)) =
    [None; None; Some false; Some true; None] /\
  abs (snd (exec_calls h (newCircuitBreaker "nats" 2 10 1))) = SClosed 0.
Proof.
  intros h.
  destruct (breaker_refines_spec "nats" 2 10 1 h) as [H1 H2];
    [unfold int_max; lia | unfold int_max; lia | unfold int_max; cbn; lia |].
  rewrite H1, H2. vm_compute. done.
Defined.

(** A closed breaker trips exactly at the threshold: as long as no run of
    consecutive failures reaches the threshold it stays closed with that run
    as its counter, and the failure that completes a run of [threshold]
    failures opens it at that instant. *)
Theorem breaker_trips_at_threshold nm t od hos (os : list (gotime * bool)) now :
  1 <= t <= int_max -> hos <= int_max -> Z.of_nat (length os) < int_max ->
  (forall k, (k <= length os)%nat -> run_of_failures 0 (take k (snd <$> os)) < t) ->
  let b := snd (exec_calls (prod_map id outcome_call <$> os) (newCircuitBreaker nm t od hos)) in
  state b = breakerClosed /\
  consecutiveFailures b = run_of_failures 0 (snd <$> os) /\
  (run_of_failures 0 (snd <$> os) + 1 = t ->
    state (Failure now b) = breakerOpen /\ openedAt (Failure now b) = now).
Proof.
  intros Ht Hh Hl Hk b.
  pose proof (spec_outcomes_closed t (Z.max 1 hos) od os 0 Hk) as Hspec.
  pose proof (new_refines nm t od hos (prod_map id outcome_call <$> os)) as Href.
  rewrite length_fmap in Href. specialize (Href ltac:(lia) Hh ltac:(lia)).
  replace (Z.max 1 t) with t in Href by lia.
  pose proof (exec_calls_refines (prod_map id outcome_call <$> os) _
    (new_wf nm t od hos ltac:(lia) Hh)) as Hwf.
  rewrite length_fmap in Hwf. subst b.
  destruct (exec_calls _ _) as [rs b] eqn:Eb; cbn [snd].
  destruct Hwf as [_ Hwf]; [unfold room; cbn; lia|].
  assert (failureThreshold b = t) as Hcfg.
  { pose proof (exec_calls_cfg (prod_map id outcome_call <$> os) (newCircuitBreaker nm t od hos))
      as Hc. rewrite Eb in Hc. cbn in Hc. rewrite gomax_max in Hc. lia. }
  rewrite Href in Hspec. cbn [snd] in Hspec. unfold abs in Hspec.
  destruct (state b) eqn:E; simplify_eq/=. split_and!; [done..|].
  intros Hrun. unfold Failure.
  rewrite wrap64_id by (unfold in_int64, int_min, int_max in *; lia).
  replace (_ >=? failureThreshold b) with true; [done|]. symmetry. rewrite Z.geb_leb. apply Z.leb_le. lia.
Qed.

Lemma breaker_trips_at_threshold_witness :
  let b := snd (exec_calls (prod_map id outcome_call <$> [(1, false); (2, true); (3, false)])
                  (newCircuitBreaker "cassandra" 2 10 1)) in
  state b = breakerClosed /\ state (Failure 4 b) = breakerOpen.
Proof.
  destruct (breaker_trips_at_threshold "cassandra" 2 10 1
              [(1, false); (2, true); (3, false)] 4) as (H1 & _ & H3);
    [unfold int_max; lia | unfold int_max; lia | unfold int_max; cbn; lia | |].
  - intros k Hk. destruct k as [|[|[|[|k]]]]; cbn in *; lia.
  - split; [exact H1|]. apply H3. reflexivity.
Defined.

(** Once a breaker has been opened by a failure at the instant [t], no
    interleaving of calls by any goroutines makes [Allow] answer [true] before
    [openDuration] has elapsed. *)
Theorem breaker_open_refuses b t h :
  wf b -> room (1 + Z.of_nat (length h)) b -> openDuration b <= int_max ->
  state (Failure t b) = breakerOpen -> openedAt (Failure t b) = t ->
  Forall (fun '(now, _) => t <= now < t + openDuration b) h ->
  Forall (fun r => r <> Some true) (fst (exec_calls h (Failure t b))).
Proof.
  intros Hw Hr Hod Hst Hat Hall.
  pose proof (Failure_wf t b Hw ltac:(unfold room in *; lia)) as Hw'.
  pose proof (exec_call_room (1 + Z.of_nat (length h)) t CFailure b ltac:(lia) Hw Hr) as Hr'.
  destruct (exec_call_cfg t CFailure b) as (_ & Ecfg & _). cbn in Hr', Ecfg.
  pose proof (exec_calls_refines h (Failure t b) Hw') as Href.
  destruct (exec_calls h (Failure t b)) as [rs b'].
  destruct Href as [Href _]; [unfold room in *; lia|].
  unfold abs at 1 in Href. rewrite Hst, Hat, Ecfg in Href.
  by eapply spec_open_refuses in Href as [? _].
Qed.

Lemma breaker_open_refuses_witness :
  fst (exec_calls [(3, CAllow); (5, CSuccess); (6, CFailure); (7, CAllow)]
         (Failure 2 (newCircuitBreaker "nats" 1 10 1))) = [Some false; None; None; Some false] /\
  Forall (fun r => r <> Some true)
    (fst (exec_calls [(3, CAllow); (5, CSuccess); (6, CFailure); (7, CAllow)]
            (Failure 2 (newCircuitBreaker "nats" 1 10 1)))).
Proof.
  split; [reflexivity|].
  apply (breaker_open_refuses (newCircuitBreaker "nats" 1 10 1) 2).
  - apply new_wf; unfold int_max; lia.
  - unfold room, int_max; cbn; lia.
  - unfold int_max; cbn; lia.
  - reflexivity.
  - reflexivity.
  - cbn. repeat constructor; lia.
Defined.

(** Recovery: when [openDuration] has elapsed the next [Allow] lets a probe
    through; [halfOpenSuccesses] successful probes in a row close the breaker,
    and one failed probe opens it again at that instant. *)
Theorem breaker_recovers b now (ts : list gotime) :
  wf b -> room 1 b -> state b = breakerOpen -> openDuration b <= Since now (openedAt b) ->
  let b1 := snd (Allow now b) in
  fst (Allow now b) = true /\ state b1 = breakerHalfOpen /\
  (Z.of_nat (length ts) = halfOpenSuccesses b -> room (Z.of_nat (length ts)) b ->
    state (snd (exec_calls ((., CSuccess) <$> ts) b1)) = breakerClosed) /\
  (forall t, state (Failure t b1) = breakerOpen /\ openedAt (Failure t b1) = t).
Proof.
  intros Hw Hr Hst Hsince b1.
  pose proof (Allow_wf now b Hw) as Hw1.
  destruct (exec_call_cfg now CAllow b) as (_ & _ & Ecfg).
  assert (Allow now b = (true, set_state b breakerHalfOpen (consecutiveFailures b) 0 (openedAt b)))
    as EA.
  { unfold Allow. rewrite Hst.
    replace (_ >=? _) with true; [done|]. symmetry. rewrite Z.geb_leb. by apply Z.leb_le. }
  subst b1. rewrite EA in *. cbn [fst snd] in *. split_and!; [done..| |].
  - intros Hlen Hroom.
    pose proof (exec_calls_refines ((., CSuccess) <$> ts) _ Hw1) as Href.
    rewrite length_fmap in Href.
    destruct (exec_calls _ _) as [rs b']. cbn [snd].
    destruct Href as [Href _]; [exact Hroom|].
    pose proof (spec_probes_close (failureThreshold b) (halfOpenSuccesses b) (openDuration b)
      ts 0 (openedAt b)) as Hp.
    unfold abs at 1 in Href. cbn in Href. rewrite Href in Hp. cbn in Hp.
    unfold abs in Hp. destruct (state b'); try done;
      destruct Hw as (_ & ? & _); specialize (Hp ltac:(lia) ltac:(lia)); done.
  - intros t. unfold Failure. cbn. by rewrite orb_true_r.
Qed.

Lemma breaker_recovers_witness :
  let b := Failure 2 (newCircuitBreaker "nats" 1 10 2) in
  fst (Allow 12 b) = true /\
  state (snd (exec_calls ((., CSuccess) <$> [13; 14]) (snd (Allow 12 b)))) = breakerClosed.
Proof.
  destruct (breaker_recovers (Failure 2 (newCircuitBreaker "nats" 1 10 2)) 12 [13; 14])
    as (H1 & _ & H3 & _).
  - apply Failure_wf; [apply new_wf; unfold int_max; lia | unfold room, int_max; cbn; lia].
  - unfold room, int_max; vm_compute; done.
  - reflexivity.
  - vm_compute. done.
  - split; [exact H1|]. apply H3; [reflexivity|]. unfold room, int_max. vm_compute. done.
Defined.

End Breaker.
