(* ===== verification/Prog.v ===== *)
(** * Effectful programs and their interleavings

    A Go method that talks to the outside (the clock, the database session,
    the bus, a mutex-protected structure) is a [prog]: a finite tree whose
    nodes are the atomic interactions of the source, in program order, and
    whose branches are the answers.  The same tree is run sequentially by a
    handler ([run]), described for every permitted environment ([exec]), and
    interleaved with other calls, crashes included ([reachable]). *)

From S2P Require Import Prelude.

Inductive prog (E : Type -> Type) (A : Type) : Type :=
| Ret (a : A)
| Vis {X : Type} (e : E X) (k : X -> prog E A).
Arguments Ret {E A} _.
Arguments Vis {E A X} _ _.

Declare Scope prog_scope.
Delimit Scope prog_scope with prog.

Fixpoint pbind {E A B} (p : prog E A) (f : A -> prog E B) : prog E B :=
  match p with
  | Ret a => f a
  | Vis e k => Vis e (fun x => pbind (k x) f)
  end.

Definition perform {E X} (e : E X) : prog E X := Vis e Ret.

(** [x := p; q]. *)
Notation "'let!' x := p 'in' q" := (pbind p (fun x => q))
  (at level 10, x pattern, p at level 100, q at level 200) : prog_scope.
(** [x, err := p; if err != nil { return h }; q]. *)
Notation "'try!' x := p 'catch' e => h 'in' q" :=
  (pbind p (fun r => match r with Ok x => q | Err e => h end))
  (at level 10, x pattern, e name, p at level 100, h at level 100, q at level 200) : prog_scope.

#[global] Open Scope prog_scope.

(** Programs inside programs: an effect becomes an effect of the larger
    system, or a whole program that carries it out. *)
Fixpoint translate {E F : Type -> Type} (i : forall X, E X -> F X) {A} (p : prog E A) : prog F A :=
  match p with
  | Ret a => Ret a
  | Vis e k => Vis (i _ e) (fun x => translate i (k x))
  end.

Fixpoint interp {E F : Type -> Type} (h : forall X, E X -> prog F X) {A} (p : prog E A) : prog F A :=
  match p with
  | Ret a => Ret a
  | Vis e k => pbind (h _ e) (fun x => interp h (k x))
  end.

(** ** Sequential runs *)

(** An environment answers every interaction and moves its state. *)
Definition handler (E : Type -> Type) (S : Type) : Type := forall X, E X -> S -> X * S.

Fixpoint run {E S A} (h : handler E S) (p : prog E A) (s : S) : A * S :=
  match p with
  | Ret a => (a, s)
  | Vis e k => let '(x, s') := h _ e s in run h (k x) s'
  end.

Lemma run_bind {E S A B} (h : handler E S) (p : prog E A) (f : A -> prog E B) s :
  run h (pbind p f) s = let '(a, s') := run h p s in run h (f a) s'.
Proof.
  revert s. induction p as [a|X e k IH]; intros s; cbn; [done|].
  destruct (h X e s) as [x s']. apply IH.
Qed.

(** ** Permitted environments *)

(** [legal e s x s']: in the state [s] the interaction [e] may answer [x] and
    leave the state [s']. *)
Definition legality (E : Type -> Type) (S : Type) : Type :=
  forall X, E X -> S -> X -> S -> Prop.

Definition respects {E S} (h : handler E S) (L : legality E S) : Prop :=
  forall X (e : E X) s, L X e s (fst (h X e s)) (snd (h X e s)).

Fixpoint exec {E S A} (L : legality E S) (p : prog E A) (s : S) (a : A) (s' : S) : Prop :=
  match p with
  | Ret b => a = b /\ s' = s
  | Vis e k => exists x s1, L _ e s x s1 /\ exec L (k x) s1 a s'
  end.

Lemma run_exec {E S A} (h : handler E S) (L : legality E S) (p : prog E A) s :
  respects h L -> exec L p s (fst (run h p s)) (snd (run h p s)).
Proof.
  intros HL. revert s. induction p as [a|X e k IH]; intros s; cbn; [done|].
  pose proof (HL X e s) as He. destruct (h X e s) as [x s']. eauto.
Qed.

Lemma exec_bind {E S A B} (L : legality E S) (p : prog E A) (f : A -> prog E B) s b s' :
  exec L (pbind p f) s b s' <-> exists a s1, exec L p s a s1 /\ exec L (f a) s1 b s'.
Proof.
  revert s. induction p as [a|X e k IH]; intros s; cbn.
  - split; [by eauto|]. by intros (? & ? & [-> ->] & ?).
  - split.
    + intros (x & s1 & HL & Hk). apply IH in Hk as (a & s2 & ? & ?). eauto 10.
    + intros (a & s1 & (x & s2 & HL & Hk) & Hf). exists x, s2. split; [done|].
      apply IH. eauto.
Qed.

(** Weakest precondition over every permitted environment. *)
Fixpoint wp {E S A} (L : legality E S) (p : prog E A) (Q : A -> S -> Prop) (s : S) : Prop :=
  match p with
  | Ret a => Q a s
  | Vis e k => forall x s', L _ e s x s' -> wp L (k x) Q s'
  end.

Lemma wp_exec {E S A} (L : legality E S) (p : prog E A) Q s :
  wp L p Q s <-> forall a s', exec L p s a s' -> Q a s'.
Proof.
  revert s. induction p as [a|X e k IH]; intros s; cbn.
  - split; [by intros ? ? ? [-> ->] | eauto].
  - split.
    + intros Hw a s' (x & s1 & HL & He). eapply IH; eauto.
    + intros He x s1 HL. apply IH. eauto.
Qed.

Lemma wp_run {E S A} (h : handler E S) (L : legality E S) (p : prog E A) Q s :
  respects h L -> wp L p Q s -> Q (fst (run h p s)) (snd (run h p s)).
Proof. intros HL Hw. rewrite wp_exec in Hw. by apply Hw, run_exec. Qed.

Lemma wp_bind {E S A B} (L : legality E S) (p : prog E A) (f : A -> prog E B) Q s :
  wp L (pbind p f) Q s <-> wp L p (fun a s' => wp L (f a) Q s') s.
Proof.
  revert s. induction p as [a|X e k IH]; intros s; cbn; [done|].
  split; intros H x s' HL; apply IH; eauto.
Qed.

Lemma wp_mono {E S A} (L : legality E S) (p : prog E A) (Q Q' : A -> S -> Prop) s :
  (forall a s', Q a s' -> Q' a s') -> wp L p Q s -> wp L p Q' s.
Proof.
  intros HQ. revert s. induction p as [a|X e k IH]; intros s; cbn; eauto.
Qed.

#[export] Instance wp_proper {E S A} (L : legality E S) (p : prog E A) :
  Proper (pointwise_relation A (pointwise_relation S iff) ==> eq ==> iff) (wp L p).
Proof.
  intros Q Q' HQ s ? <-. split; apply wp_mono; intros; by apply HQ.
Qed.

(** A program of a part, run inside a larger state: [put] stores the part. *)
Lemma wp_translate {E F : Type -> Type} {S T A} (i : forall X, E X -> F X) (LE : legality E S) (LF : legality F T)
    (get : T -> S) (put : S -> T -> T) (p : prog E A) Q t :
  (forall X (e : E X) t x t', LF X (i X e) t x t' -> exists s, LE X e (get t) x s /\ t' = put s t) ->
  (forall s t, get (put s t) = s) -> (forall s s' t, put s' (put s t) = put s' t) -> (forall t, put (get t) t = t) ->
  wp LE p Q (get t) -> wp LF (translate i p) (fun r t' => exists s, Q r s /\ t' = put s t) t.
Proof.
  intros HL Hgp Hpp Hpg. revert t. induction p as [a|X e k IH]; intros t Hp; cbn in *.
  - exists (get t). by rewrite Hpg.
  - intros x t' Ht. destruct (HL _ _ _ _ _ Ht) as (s & He & ->).
    eapply wp_mono; [|apply IH; rewrite Hgp; by apply Hp].
    cbn. intros r t' (s' & HQ & ->). exists s'. by rewrite Hpp.
Qed.

Lemma wp_interp_bind {E F : Type -> Type} {S A B} (h : forall X, E X -> prog F X) (L : legality F S)
    (p : prog E A) (f : A -> prog E B) Q s :
  wp L (interp h (pbind p f)) Q s <-> wp L (interp h p) (fun a s' => wp L (interp h (f a)) Q s') s.
Proof.
  revert s. induction p as [a|X e k IH]; intros s; cbn; [done|].
  rewrite !wp_bind. apply wp_proper; [|done]. intros x s'. apply IH.
Qed.

(** ** Interleavings

    A system runs any number of calls at once over one shared state.  A call
    that has finished stays in the pool as [Ret r]; a crash of the node that
    runs a call removes the call wherever it stands. *)

Section Interleaving.
Context {E : Type -> Type} {S A : Type}.
Variable (L : legality E S).
(** The programs callers may start, each with the postcondition it promises. *)
Variable (calls : prog E A -> (A -> S -> Prop) -> Prop).

Record thread := mkThread { code : prog E A; goal : A -> S -> Prop }.

Inductive step : list thread * S -> list thread * S -> Prop :=
| step_spawn ts s p Q : calls p Q -> step (ts, s) (mkThread p Q :: ts, s)
| step_crash ts1 t ts2 s : step (ts1 ++ t :: ts2, s) (ts1 ++ ts2, s)
| step_run ts1 Q ts2 X (e : E X) k s x s' :
    L X e s x s' ->
    step (ts1 ++ mkThread (Vis e k) Q :: ts2, s) (ts1 ++ mkThread (k x) Q :: ts2, s').

Definition reachable (s0 : S) : list thread * S -> Prop := rtc step ([], s0).
End Interleaving.

Arguments thread E S A : clear implicits.
Arguments mkThread {E S A} _ _.
Arguments code {E S A} _.
Arguments goal {E S A} _.

(** Every thread of a reachable pool was started as a permitted call. *)
Lemma reachable_goals {E : Type -> Type} {S A} (L : legality E S)
    (calls : prog E A -> (A -> S -> Prop) -> Prop) s0 ts s :
  reachable L calls s0 (ts, s) -> Forall (fun t => exists p, calls p (goal t)) ts.
Proof.
  intros Hr.
  assert (forall c, reachable L calls s0 c -> Forall (fun t => exists p, calls p (goal t)) c.1) as Hg;
    [|by apply (Hg (ts, s))].
  clear Hr. apply rtc_ind_r; [constructor|].
  intros c1 c2 _ Hstep HF.
  destruct Hstep as [ts1 s1 p Q Hc|ts1 t ts2 s1|ts1 Q ts2 X e k s1 x s2 HL]; cbn in *.
  - constructor; cbn; eauto.
  - apply Forall_app in HF as [? [_ ?]%Forall_cons]. by apply Forall_app.
  - apply Forall_app in HF as [? [? ?]%Forall_cons]. apply Forall_app; split; [done|].
    by constructor.
Qed.

(** An invariant [J] of the shared state that the steps of well-behaved programs
    keep holds in every reachable state, and may be assumed of every state in
    which a step is taken; the programs stay well-behaved. *)
Lemma reachable_strengthen {E : Type -> Type} {S A} (L : legality E S)
    (calls : prog E A -> (A -> S -> Prop) -> Prop) (J : S -> Prop) (ok : prog E A -> Prop) s0 c :
  J s0 -> (forall p Q, calls p Q -> ok p) ->
  (forall X (e : E X) k s x s', ok (Vis e k) -> J s -> L X e s x s' -> J s' /\ ok (k x)) ->
  reachable L calls s0 c ->
  J c.2 /\ Forall (fun t => ok (code t)) c.1 /\
  reachable (fun X e s x s' => L X e s x s' /\ J s) calls s0 c.
Proof.
  intros HJ Hcalls Hstep Hr. revert c Hr. apply rtc_ind_r; [split_and!; [done|constructor|apply rtc_refl]|].
  intros c1 c2 _ Hs (HJ1 & HF & Hr).
  destruct Hs as [ts1 s1 p Q Hc|ts1 t ts2 s1|ts1 Q ts2 X e k s1 x s2 HL]; cbn in *.
  - split_and!; [done|by constructor; eauto|]. eapply rtc_r; [exact Hr|]. by apply step_spawn.
  - apply Forall_app in HF as [? [_ ?]%Forall_cons].
    split_and!; [done|by apply Forall_app|]. eapply rtc_r; [exact Hr|]. by apply step_crash.
  - apply Forall_app in HF as [? [Hok ?]%Forall_cons].
    destruct (Hstep _ _ _ _ _ _ Hok HJ1 HL) as [HJ2 Hok'].
    split_and!; [done|apply Forall_app; split; [done|by constructor]|].
    eapply rtc_r; [exact Hr|]. by apply (step_run _ calls ts1 Q ts2 X e k).
Qed.

(** A call may run to its end with no other call interleaved. *)
Lemma reachable_run {E : Type -> Type} {S A} (L : legality E S)
    (calls : prog E A -> (A -> S -> Prop) -> Prop) s0 ts s p Q a s' :
  reachable L calls s0 (ts, s) -> calls p Q -> exec L p s a s' ->
  reachable L calls s0 (mkThread (Ret a) Q :: ts, s').
Proof.
  intros Hr Hc He. eapply rtc_r in Hr; [|by apply step_spawn]. clear Hc.
  revert s Hr He. induction p as [b|X e k IH]; intros s Hr He; cbn in He.
  - by destruct He as [-> ->].
  - destruct He as (x & s1 & HL & He). eapply (IH x s1); [|done].
    eapply rtc_r; [exact Hr|]. by apply (step_run L calls [] Q ts X e k).
Qed.

(** ** Rely-guarantee reasoning

    [I] is the invariant of the shared state.  A call may own tokens (the
    fresh identifiers it has drawn and not used yet); [tok s] are the tokens
    drawn so far.  [R g s s'] are the changes a call that owns [g] may see the
    others make; every step must be such a change for all other owners. *)

Section RelyGuarantee.
Context {E : Type -> Type} {S A : Type} `{Countable K}.
Variable (L : legality E S).
Variables (I : S -> Prop) (tok : S -> gset K) (R : gset K -> S -> S -> Prop).

Fixpoint sound {B} (g : gset K) (p : prog E B) (Q : gset K -> B -> S -> Prop) (s : S) : Prop :=
  match p with
  | Ret a => forall s', R g s s' -> I s' -> Q g a s'
  | Vis e k => forall s' x s'', R g s s' -> I s' -> g ⊆ tok s' -> L _ e s' x s'' ->
      I s'' /\ tok s' ⊆ tok s'' /\ (forall f, f ## g -> f ⊆ tok s' -> R f s' s'') /\
      exists g', g' ⊆ g ∪ (tok s'' ∖ tok s') /\ sound g' (k x) Q s''
  end.

Context {HR : forall g, PreOrder (R g)}.

Lemma sound_mono {B} g (p : prog E B) Q s s' : R g s s' -> sound g p Q s -> sound g p Q s'.
Proof.
  destruct p as [a|X e k]; cbn; intros Hs Hp.
  - intros s1 ?. apply Hp. by trans s'.
  - intros s1 x s2 ?. apply Hp. by trans s'.
Qed.

Lemma sound_weaken {B} g (p : prog E B) (Q Q' : gset K -> B -> S -> Prop) s :
  (forall g' a s', I s' -> Q g' a s' -> Q' g' a s') -> sound g p Q s -> sound g p Q' s.
Proof.
  intros HQ. revert g s. induction p as [a|X e k IH]; cbn; intros g s Hp; [eauto|].
  intros s1 x s2 HR1 HI1 Hg HL. destruct (Hp s1 x s2 HR1 HI1 Hg HL) as (? & ? & ? & g' & ? & ?).
  split_and!; eauto.
Qed.

Lemma sound_bind {B C} g (p : prog E B) (f : B -> prog E C) Q s :
  sound g p (fun g' a s' => sound g' (f a) Q s') s -> sound g (pbind p f) Q s.
Proof.
  revert g s. induction p as [a|X e k IH]; intros g s Hp; cbn in *.
  - destruct (f a) as [b|X e k]; cbn in *.
    + intros s' Hs HI. by apply (Hp s' Hs HI s').
    + intros s' x s'' Hs HI. by apply (Hp s' Hs HI s').
  - intros s1 x s2 HR1 HI1 Hg HL. destruct (Hp s1 x s2 HR1 HI1 Hg HL) as (? & ? & ? & g' & ? & ?).
    split_and!; eauto.
Qed.

(** The pool [ts] has disjoint tokens out of [avail]. *)
Fixpoint pool_ok (ts : list (thread E S A)) (avail : gset K) (s : S) : Prop :=
  match ts with
  | [] => True
  | t :: ts' => exists g, g ⊆ avail /\ sound g (code t) (fun _ => goal t) s /\
      pool_ok ts' (avail ∖ g) s
  end.

Lemma pool_ok_avail ts (a a' : gset K) s : a ⊆ a' -> pool_ok ts a s -> pool_ok ts a' s.
Proof.
  revert a a'. induction ts as [|t ts IH]; cbn; intros a a' Ha; [done|].
  intros (g & ? & ? & ?). exists g. split_and!; [set_solver|done|].
  eapply IH; [|done]. set_solver.
Qed.

Lemma pool_ok_perm ts ts' (a : gset K) s : ts ≡ₚ ts' -> pool_ok ts a s -> pool_ok ts' a s.
Proof.
  intros Hp. revert a. induction Hp as [|t ts ts' _ IH|t1 t2 ts|ts ts1 ts2 _ IH1 _ IH2];
    intros a; cbn; [done| | |by eauto].
  - intros (g & ? & ? & ?). exists g. split_and!; eauto.
  - intros (g & ? & ? & g' & ? & ? & ?). exists g'. split_and!; [set_solver|done|].
    exists g. split_and!; [set_solver|done|].
    eapply pool_ok_avail; [|done]. set_solver.
Qed.

Lemma pool_ok_frame ts (a : gset K) s s' :
  (forall f, f ⊆ a -> R f s s') -> pool_ok ts a s -> pool_ok ts a s'.
Proof.
  revert a. induction ts as [|t ts IH]; cbn; intros a Ha; [done|].
  intros (g & ? & ? & ?). exists g. split_and!; [done|eauto using sound_mono|].
  apply IH; [|done]. intros f ?. apply Ha. set_solver.
Qed.

Lemma pool_ok_results ts (a : gset K) s :
  I s -> pool_ok ts a s -> Forall (fun t : thread E S A => forall r, code t = Ret r -> goal t r s) ts.
Proof.
  intros HI. revert a. induction ts as [|t ts IH]; cbn; intros a; [constructor|].
  intros (g & ? & Hs & ?). constructor; [|eauto].
  intros r Hr. rewrite Hr in Hs. cbn in Hs. by apply Hs.
Qed.

(** If every call is sound on its own, then in every reachable state, whatever
    the interleaving and the crashes, the invariant holds and every call that
    has returned satisfies its postcondition. *)
Lemma reachable_sound (calls : prog E A -> (A -> S -> Prop) -> Prop) s0 ts s :
  I s0 -> (forall p Q s, calls p Q -> I s -> sound ∅ p (fun _ => Q) s) ->
  reachable L calls s0 (ts, s) ->
  I s /\ Forall (fun t : thread E S A => forall r, code t = Ret r -> goal t r s) ts.
Proof.
  intros HI Hcalls Hr.
  assert (forall c, reachable L calls s0 c -> I c.2 /\ pool_ok c.1 (tok c.2) c.2) as Hinv.
  { apply rtc_ind_r; [done|].
    intros c1 c2 _ Hstep (HI1 & Hpool).
    destruct Hstep as [ts1 s1 p Q Hc|ts1 t ts2 s1|ts1 Q ts2 X e k s1 x s2 HL]; cbn in *.
    - split; [done|]. exists ∅. split_and!; [set_solver|by apply Hcalls|].
      eapply pool_ok_avail; [|done]. set_solver.
    - split; [done|].
      eapply pool_ok_perm in Hpool; [|symmetry; apply Permutation_middle].
      destruct Hpool as (g & _ & _ & Hrest). eapply pool_ok_avail; [|done]. set_solver.
    - eapply pool_ok_perm in Hpool; [|symmetry; apply Permutation_middle].
      destruct Hpool as (g & Hg & Hs & Hrest). cbn in Hs.
      destruct (Hs s1 x s2 ltac:(reflexivity) HI1 Hg HL) as (HI2 & Htok & HG & g' & Hg' & Hk).
      split; [done|]. eapply pool_ok_perm; [apply Permutation_middle|].
      exists g'. split_and!; [set_solver|done|].
      apply (pool_ok_avail _ (tok s1 ∖ g)); [set_solver|].
      apply (pool_ok_frame _ _ s1); [|done].
      intros f Hf. apply HG; set_solver. }
  destruct (Hinv _ Hr) as [HIs Hpool]. split; [done|]. by eapply pool_ok_results.
Qed.
End RelyGuarantee.

(** Soundness in fewer environments. *)
Lemma sound_sub {E : Type -> Type} {S B} `{Countable K} (L L' : legality E S) I (tok : S -> gset K) R
    g (p : prog E B) Q s :
  (forall X e s x s', L' X e s x s' -> L X e s x s') ->
  sound L I tok R g p Q s -> sound L' I tok R g p Q s.
Proof.
  intros HL. revert g s. induction p as [a|X e k IH]; cbn; intros g s Hp; [done|].
  intros s1 x s2 ??? He. destruct (Hp s1 x s2) as (? & ? & ? & g' & ? & ?); [eauto..|].
  split_and!; eauto.
Qed.
