(* ===== verification/Contracts.v ===== *)
(** * Module contracts (internal/modules/contracts.go)

    The records the components exchange and the interfaces they implement.
    An interface method that talks to the outside is a [prog] over the effects
    [E] of the implementation. *)

From S2P Require Import Prelude Prog.

(** [BusMessage]; the payload bytes are a byte string. *)
Record BusMessage := mkBusMessage {
  bm_Subject : string;
  bm_MessageID : string;
  bm_Data : string;
  bm_ReceivedAt : gotime
}.

Record EventRecord := mkEventRecord {
  ID : string;
  IdempotencyKey : string;
  Stream : string;
  Subject : string;
  EType : string;
  Payload : string;
  OccurredAt : gotime;
  RetryCount : Z;
  LastError : string;
  QuarantinedAt : gotime
}.

#[global] Instance EventRecord_eq_dec : EqDecision EventRecord.
Proof. solve_decision. Defined.

Record AppendResult := mkAppendResult {
  Event : EventRecord;
  Duplicate : bool;
  Published : bool
}.

#[global] Instance AppendResult_eq_dec : EqDecision AppendResult.
Proof. solve_decision. Defined.

(** [Module]: what every connector has. *)
Record Module (E : Type -> Type) := mkModuleOps {
  mo_Name : string;
  mo_Start : prog E (option error);
  mo_Ready : prog E (option error);
  mo_Stop : prog E (option error)
}.
Arguments mkModuleOps {E} _ _ _ _.
Arguments mo_Name {E} _.
Arguments mo_Start {E} _.
Arguments mo_Ready {E} _.
Arguments mo_Stop {E} _.

(** [EventBus]; a subscription is the messages its handler is called with, in
    order, until the caller's context ends. *)
Record EventBus (E : Type -> Type) := mkEventBus {
  eb_Publish : string -> string -> string -> prog E (result string);
  eb_Subscribe : string -> prog E (result (list BusMessage))
}.
Arguments mkEventBus {E} _ _.
Arguments eb_Publish {E} _ _ _ _.
Arguments eb_Subscribe {E} _ _.

Record Coordinator (E : Type -> Type) := mkCoordinator {
  co_IsLeader : prog E bool;
  co_LeaderID : prog E string
}.
Arguments mkCoordinator {E} _ _.
Arguments co_IsLeader {E} _.
Arguments co_LeaderID {E} _.

(** The methods [AdvancedEventStore] adds to [EventStore]. *)
Record AdvancedEventStore (E : Type -> Type) := mkAdvancedEventStore {
  es_ClaimOutboxLease : string -> string -> duration -> prog E (result bool);
  (** [(quarantined, retryCount, err)]; all three are used by the caller. *)
  es_RecordOutboxFailure :
    string -> string -> duration -> duration -> Z -> Z -> prog E (bool * Z * option error);
  es_ListDeadLetters : Z -> prog E (result (list EventRecord));
  es_ReplayDeadLetter : string -> prog E (option error);
  es_CleanupExpired : gotime -> gotime -> Z -> prog E (Z * Z * option error)
}.
Arguments es_ClaimOutboxLease {E} _ _ _ _.
Arguments es_RecordOutboxFailure {E} _ _ _ _ _ _ _.
Arguments es_ListDeadLetters {E} _ _.
Arguments es_ReplayDeadLetter {E} _ _.
Arguments es_CleanupExpired {E} _ _ _ _.

(** [EventStore]; [es_advanced] is the answer of the type assertion
    [store.(modules.AdvancedEventStore)]. *)
Record EventStore (E : Type -> Type) := mkEventStore {
  es_AppendEventExactlyOnce : EventRecord -> prog E (result AppendResult);
  es_MarkOutboxPublished : string -> string -> prog E (option error);
  es_PendingOutboxEvents : Z -> prog E (result (list EventRecord));
  es_ClaimInboxMessage : string -> string -> prog E (result bool);
  es_RecentEvents : string -> Z -> prog E (result (list EventRecord));
  es_advanced : option (AdvancedEventStore E)
}.
Arguments es_AppendEventExactlyOnce {E} _ _.
Arguments es_MarkOutboxPublished {E} _ _ _.
Arguments es_PendingOutboxEvents {E} _ _.
Arguments es_ClaimInboxMessage {E} _ _ _.
Arguments es_RecentEvents {E} _ _ _.
Arguments es_advanced {E} _.
