(* ===== verification/Cql.v ===== *)
(** * The Cassandra schema and statements (internal/modules/cassstore/module.go)

    The tables are those the module's DDL creates, the statements those its
    methods send.  What a statement means on the tables is CQL: an INSERT or
    UPDATE writes the named columns of the row with the given primary key and
    creates the row if there is none, a DELETE removes the row, a SELECT reads
    the partition in clustering order, [IF ...] makes the write conditional.
    What the cluster and the gocql driver do with a statement is not in the
    repository: it is a parameter, constrained by [legal]. *)

From S2P Require Import Prelude Prog.

(** ** Identifiers

    [gocql.UUID]: text form, parser and the clustering order of [timeuuid]. *)
Class UUID := {
  uuid : Type;
  uuid_eq_dec :: EqDecision uuid;
  uuid_countable :: Countable uuid;
  uuid_zero : uuid;
  uuid_String : uuid -> string;
  ParseUUID : string -> result uuid;
  uuid_le : relation uuid;
  uuid_le_dec :: RelDecision uuid_le;
  uuid_le_total :: Total uuid_le;
  uuid_le_trans :: Transitive uuid_le;
  ParseUUID_String : forall u, ParseUUID (uuid_String u) = Ok u
}.

(** Column type [timestamp]: milliseconds since the epoch. *)
Definition cql_ts (t : gotime) : gotime := t / Millisecond * Millisecond.

Lemma cql_ts_idemp t : cql_ts (cql_ts t) = cql_ts t.
Proof. unfold cql_ts. rewrite Z.div_mul; [done|]. unfold Millisecond. lia. Qed.

Lemma cql_ts_bounds t : cql_ts t <= t < cql_ts t + Millisecond.
Proof.
  unfold cql_ts, Millisecond.
  pose proof (Z.div_mod t 1000000). pose proof (Z.mod_pos_bound t 1000000). lia.
Qed.

Lemma cql_ts_mono t u : t <= u -> cql_ts t <= cql_ts u.
Proof.
  unfold cql_ts, Millisecond. intros. pose proof (Z.div_le_mono t u 1000000). lia.
Qed.


(** ** Rows *)

(** The columns [stream, subject, event_type, payload], which every statement
    of the module writes together. *)
Record content := mkContent {
  c_stream : string; c_subject : string; c_type : string; c_payload : string
}.

#[global] Instance content_eq_dec : EqDecision content.
Proof. solve_decision. Defined.

(** What scanning null columns into Go variables leaves in them. *)
Definition null_content : content := mkContent "" "" "" "".

Record dead_row := mkDead { d_content : content; d_retry_count : Z; d_last_error : string }.

(** [outbox_events]: an INSERT writes the content, [occurred_at] and the state;
    the UPDATE of [MarkOutboxPublished] the last three columns. *)
Record outbox_row := mkOutbox {
  o_body : option (content * gotime);
  o_state : option string;
  o_published_at : option gotime;
  o_broker_message_id : option string
}.

(** [outbox_retry_state]: every INSERT and UPDATE that can create a row writes
    the first six columns, so only the last two can be null. *)
Record retry_row := mkRetry {
  r_count : Z;
  r_next_attempt_at : gotime;
  r_last_error : string;
  r_lease_owner : string;
  r_lease_until : gotime;
  r_quarantined : bool;
  r_quarantined_at : option gotime;
  r_first_failed_at : option gotime
}.

Section Tables.
Context {UU : UUID}.

Record idem_row := mkIdem { i_event_id : uuid; i_payload_hash : string; i_created_at : gotime }.

(** The ten tables by primary key.  The partition columns [bucket] (always
    ["all"]) and [outbox_by_state.publish_state] (always ["pending"]) are
    constant in every statement and are left out of the keys. *)
Record tables := mkTables {
  events_by_stream : gmap (string * (gotime * uuid)) content;
  events_by_id : gmap uuid (content * gotime);
  idempotency_keys : gmap (string * string) idem_row;
  idempotency_by_created : gmap (gotime * (string * string)) uuid;
  outbox_events : gmap uuid outbox_row;
  outbox_retry_state : gmap uuid retry_row;
  outbox_by_state : gmap (gotime * uuid) content;
  inbox_consumed : gmap (string * string) gotime;
  dead_letters_by_time : gmap (gotime * uuid) dead_row;
  dead_letters_by_id : gmap uuid (gotime * dead_row)
}.

Definition empty_tables : tables := mkTables ∅ ∅ ∅ ∅ ∅ ∅ ∅ ∅ ∅ ∅.

(** ** Writes, one constructor per statement text *)
Inductive mutation :=
| InsertIdempotencyByCreated (created_at : gotime) (stream key : string) (id : uuid)
| InsertEventsByStream (occurred_at : gotime) (id : uuid) (c : content)
| InsertEventsById (id : uuid) (occurred_at : gotime) (c : content)
| InsertOutboxEvents (id : uuid) (c : content) (occurred_at : gotime) (state : string)
| InsertOutboxByState (occurred_at : gotime) (id : uuid) (c : content)
| InsertRetryState (id : uuid) (count : Z) (next : gotime) (last_error owner : string)
    (lease_until : gotime) (quarantined : bool)
| UpdateOutboxPublished (id : uuid) (state : string) (published_at : gotime) (broker : string)
| DeleteOutboxByState (occurred_at : gotime) (id : uuid)
| DeleteRetryState (id : uuid)
| UpdateRetryFailure (id : uuid) (count : Z) (next : gotime) (last_error owner : string)
    (lease_until : gotime) (quarantined : bool) (quarantined_at first_failed_at : gotime)
| UpdateRetryReplay (id : uuid) (quarantined : bool) (quarantined_at : gotime) (count : Z)
    (next : gotime) (last_error owner : string) (lease_until : gotime)
| InsertDeadByTime (quarantined_at : gotime) (id : uuid) (d : dead_row)
| InsertDeadById (id : uuid) (quarantined_at : gotime) (d : dead_row)
| DeleteDeadByTime (quarantined_at : gotime) (id : uuid)
| DeleteDeadById (id : uuid)
| DeleteIdempotencyKey (stream key : string)
| DeleteIdempotencyByCreated (created_at : gotime) (stream key : string).

(** Upserts keep the columns the statement does not name. *)
Definition insert_outbox (c : content) (occ : gotime) (st : string) (old : option outbox_row)
    : outbox_row :=
  mkOutbox (Some (c, occ)) (Some st) (old ≫= o_published_at) (old ≫= o_broker_message_id).

Definition update_outbox (st : string) (at_ : gotime) (broker : string) (old : option outbox_row)
    : outbox_row :=
  mkOutbox (old ≫= o_body) (Some st) (Some at_) (Some broker).

Definition apply_mutation (mu : mutation) (t : tables) : tables :=
  let '(mkTables ebs ebi ik ic oe rs ob inb dt di) := t in
  match mu with
  | InsertIdempotencyByCreated ca st k id =>
      mkTables ebs ebi ik (<[(cql_ts ca, (st, k)) := id]> ic) oe rs ob inb dt di
  | InsertEventsByStream occ id c =>
      mkTables (<[(c_stream c, (cql_ts occ, id)) := c]> ebs) ebi ik ic oe rs ob inb dt di
  | InsertEventsById id occ c =>
      mkTables ebs (<[id := (c, cql_ts occ)]> ebi) ik ic oe rs ob inb dt di
  | InsertOutboxEvents id c occ st =>
      mkTables ebs ebi ik ic (<[id := insert_outbox c (cql_ts occ) st (oe !! id)]> oe) rs ob inb dt di
  | InsertOutboxByState occ id c =>
      mkTables ebs ebi ik ic oe rs (<[(cql_ts occ, id) := c]> ob) inb dt di
  | InsertRetryState id n nx le ow lu q =>
      mkTables ebs ebi ik ic oe
        (<[id := mkRetry n (cql_ts nx) le ow (cql_ts lu) q
                   (rs !! id ≫= r_quarantined_at) (rs !! id ≫= r_first_failed_at)]> rs) ob inb dt di
  | UpdateOutboxPublished id st pa br =>
      mkTables ebs ebi ik ic (<[id := update_outbox st (cql_ts pa) br (oe !! id)]> oe) rs ob inb dt di
  | DeleteOutboxByState occ id =>
      mkTables ebs ebi ik ic oe rs (delete (cql_ts occ, id) ob) inb dt di
  | DeleteRetryState id =>
      mkTables ebs ebi ik ic oe (delete id rs) ob inb dt di
  | UpdateRetryFailure id n nx le ow lu q qa ff =>
      mkTables ebs ebi ik ic oe
        (<[id := mkRetry n (cql_ts nx) le ow (cql_ts lu) q (Some (cql_ts qa)) (Some (cql_ts ff))]> rs)
        ob inb dt di
  | UpdateRetryReplay id q qa n nx le ow lu =>
      mkTables ebs ebi ik ic oe
        (<[id := mkRetry n (cql_ts nx) le ow (cql_ts lu) q (Some (cql_ts qa))
                   (rs !! id ≫= r_first_failed_at)]> rs) ob inb dt di
  | InsertDeadByTime qa id d =>
      mkTables ebs ebi ik ic oe rs ob inb (<[(cql_ts qa, id) := d]> dt) di
  | InsertDeadById id qa d =>
      mkTables ebs ebi ik ic oe rs ob inb dt (<[id := (cql_ts qa, d)]> di)
  | DeleteDeadByTime qa id =>
      mkTables ebs ebi ik ic oe rs ob inb (delete (cql_ts qa, id) dt) di
  | DeleteDeadById id =>
      mkTables ebs ebi ik ic oe rs ob inb dt (delete id di)
  | DeleteIdempotencyKey st k =>
      mkTables ebs ebi (delete (st, k) ik) ic oe rs ob inb dt di
  | DeleteIdempotencyByCreated ca st k =>
      mkTables ebs ebi ik (delete (cql_ts ca, (st, k)) ic) oe rs ob inb dt di
  end.

(** A logged batch applies all its statements. *)
Definition apply_batch (b : list mutation) (t : tables) : tables :=
  foldl (fun t mu => apply_mutation mu t) t b.

(** ** Conditional writes *)
Inductive cas : Type -> Type :=
| CasInsertIdempotencyKey (stream key : string) (id : uuid) (hash : string) (created : gotime)
    : cas uuid
| CasInsertInbox (consumer message_id : string) (consumed_at : gotime) : cas unit
| CasUpdateLease (id : uuid) (owner : string) (lease_until now : gotime) : cas unit.

(** Whether the condition holds, the destination variable after the scan (the
    zero value unless the condition fails on an existing row), and the tables
    after the write. *)
Definition apply_cas {X} (c : cas X) (t : tables) : bool * X * tables :=
  let '(mkTables ebs ebi ik ic oe rs ob inb dt di) := t in
  match c in cas X return bool * X * tables with
  | CasInsertIdempotencyKey st k id h ca =>
      match ik !! (st, k) with
      | Some row => (false, i_event_id row, t)
      | None =>
          (true, uuid_zero,
           mkTables ebs ebi (<[(st, k) := mkIdem id h (cql_ts ca)]> ik) ic oe rs ob inb dt di)
      end
  | CasInsertInbox co mid ca =>
      match inb !! (co, mid) with
      | Some _ => (false, tt, t)
      | None => (true, tt, mkTables ebs ebi ik ic oe rs ob (<[(co, mid) := cql_ts ca]> inb) dt di)
      end
  | CasUpdateLease id ow lu now =>
      match rs !! id with
      | Some r =>
          if r_lease_until r <? cql_ts now
          then (true, tt,
                mkTables ebs ebi ik ic oe
                  (<[id := mkRetry (r_count r) (r_next_attempt_at r) (r_last_error r) ow (cql_ts lu)
                             (r_quarantined r) (r_quarantined_at r) (r_first_failed_at r)]> rs)
                  ob inb dt di)
          else (false, tt, t)
      | None => (false, tt, t)
      end
  end.

(** ** Reads *)

Inductive query : Type -> Type :=
| SelectEventById (id : uuid) : query (content * gotime)
| SelectPublishState (id : uuid) : query string
| SelectOutboxEvent (id : uuid) : query (content * gotime)
| SelectRetryFailure (id : uuid) : query (Z * gotime)
| SelectRetryState (id : uuid) : query (Z * gotime * bool * gotime)
| SelectDeadById (id : uuid) : query (gotime * dead_row).

(** The scanned values, [None] when there is no row ([gocql.ErrNotFound]). *)
Definition eval_query {X} (q : query X) (t : tables) : option X :=
  match q in query X return option X with
  | SelectEventById id => events_by_id t !! id
  | SelectPublishState id => (fun o => default "" (o_state o)) <$> outbox_events t !! id
  | SelectOutboxEvent id =>
      (fun o => default (null_content, zero_time) (o_body o)) <$> outbox_events t !! id
  | SelectRetryFailure id =>
      (fun r => (r_count r, default zero_time (r_first_failed_at r))) <$> outbox_retry_state t !! id
  | SelectRetryState id =>
      (fun r => (r_count r, r_next_attempt_at r, r_quarantined r, r_lease_until r)) <$>
        outbox_retry_state t !! id
  | SelectDeadById id => dead_letters_by_id t !! id
  end.

(** Clustering order of the keys [(timestamp, event_id)], ascending. *)
Definition key_le (a b : gotime * uuid) : Prop :=
  a.1 < b.1 \/ (a.1 = b.1 /\ uuid_le a.2 b.2).

#[global] Instance key_le_dec : RelDecision key_le.
Proof. unfold RelDecision, key_le. intros a b. apply _. Defined.

#[global] Instance key_le_total : Total key_le.
Proof.
  intros [t1 u1] [t2 u2]. unfold key_le; cbn.
  destruct (Z.lt_trichotomy t1 t2) as [?|[->|?]]; [by auto| |by auto].
  destruct (total uuid_le u1 u2); auto.
Qed.

#[global] Instance key_le_trans : Transitive key_le.
Proof.
  intros [t1 u1] [t2 u2] [t3 u3]. unfold key_le; cbn.
  intros [?|[-> ?]] [?|[-> ?]]; [lia..|]. right. split; [done|]. by trans u2.
Qed.

(** Rows of a partition in ascending clustering order. *)
Definition row_le {V} (a b : (gotime * uuid) * V) : Prop := key_le a.1 b.1.
#[global] Instance row_le_dec {V} : RelDecision (@row_le V).
Proof. intros a b. apply key_le_dec. Defined.
#[global] Instance row_le_total {V} : Total (@row_le V).
Proof. intros a b. apply key_le_total. Qed.
#[global] Instance row_le_trans {V} : Transitive (@row_le V).
Proof. intros a b c. apply key_le_trans. Qed.

Definition ascending {V} (m : gmap (gotime * uuid) V) : list ((gotime * uuid) * V) :=
  merge_sort row_le (map_to_list m).

(** The rows of one stream. *)
Definition stream_rows (st : string) (m : gmap (string * (gotime * uuid)) content)
    : list ((gotime * uuid) * content) :=
  merge_sort row_le
    (omap (fun '((s, k), c) => if bool_decide (s = st) then Some (k, c) else None) (map_to_list m)).

Inductive scan : Type -> Type :=
| ScanPending (limit : Z) : scan ((gotime * uuid) * content)
| ScanRecent (stream : string) (limit : Z) : scan ((gotime * uuid) * content)
| ScanDeadLetters (limit : Z) : scan ((gotime * uuid) * dead_row)
| ScanIdempotency (limit : Z) : scan (gotime * (string * string)).

(** Order of [idempotency_by_created] within a creation time; CQL orders text
    by its bytes. *)
Definition string_ltb (s t : string) : bool :=
  match String.compare s t with Lt => true | _ => false end.

Definition idem_key_le (a b : (gotime * (string * string)) * uuid) : Prop :=
  let '((t1, (s1, k1)), _) := a in
  let '((t2, (s2, k2)), _) := b in
  t1 < t2 \/ (t1 = t2 /\ (string_ltb s1 s2 = true \/
    (s1 = s2 /\ string_ltb k2 k1 = false))).

#[global] Instance idem_key_le_dec : RelDecision idem_key_le.
Proof. intros [[t1 [s1 k1]] u1] [[t2 [s2 k2]] u2]. unfold idem_key_le. apply _. Defined.

(** [LIMIT n] keeps the first [n] rows; [events_by_stream] is clustered in
    descending order, the other tables ascending. *)
Definition eval_scan {X} (q : scan X) (t : tables) : list X :=
  match q in scan X return list X with
  | ScanPending n => take (Z.to_nat n) (ascending (outbox_by_state t))
  | ScanRecent st n => take (Z.to_nat n) (reverse (stream_rows st (events_by_stream t)))
  | ScanDeadLetters n => take (Z.to_nat n) (ascending (dead_letters_by_time t))
  | ScanIdempotency n =>
      take (Z.to_nat n) ((fun r => r.1) <$> merge_sort idem_key_le (map_to_list (idempotency_by_created t)))
  end.

(** ** Effects of the store methods *)
Inductive storeE : Type -> Type :=
| ENow : storeE gotime
| ETimeUUID : storeE uuid
| EIntn (n : Z) : storeE Z
| ERead {X} (q : query X) : storeE (result X)
| EIter {X} (q : scan X) : storeE (list X * option error)
| EExec (b : list mutation) : storeE (option error)
| ECas {X} (dests : nat) (c : cas X) : storeE (result (bool * X)).

(** The shared state: the tables as quorum reads see them and the identifiers
    drawn so far. *)
Record world := mkWorld { w_tables : tables; w_issued : gset uuid }.

Definition with_tables (s : world) (t : tables) : world := mkWorld t (w_issued s).

(** The columns of the row a conditional write returns, beside [[applied]]:
    none when it applied; the whole existing row, as if by [SELECT *], for a
    refused [INSERT .. IF NOT EXISTS] (five columns in [idempotency_keys],
    three in [inbox_consumed]); the columns of the condition for a refused
    [UPDATE .. IF] on an existing row. *)
Definition cas_columns {X} (c : cas X) (t : tables) : nat :=
  match c with
  | CasInsertIdempotencyKey st k _ _ _ =>
      if bool_decide (is_Some (idempotency_keys t !! (st, k))) then 5 else 0
  | CasInsertInbox co mid _ =>
      if bool_decide (is_Some (inbox_consumed t !! (co, mid))) then 3 else 0
  | CasUpdateLease id _ _ now =>
      match outbox_retry_state t !! id with
      | Some r => if (r_lease_until r <? cql_ts now)%Z then 0 else 1
      | None => 0
      end
  end%nat.

(** [ScanCAS] scans the returned row into [dests] destinations when it has
    columns beside [[applied]]; their numbers must agree. *)
Definition column_mismatch {X} (dests : nat) (c : cas X) (t : tables) : bool :=
  (0 <? cas_columns c t)%nat && negb (cas_columns c t =? dests)%nat.

(** The one destination of the lease's update always fits. *)
Lemma lease_scan_fits id owner lu now t : column_mismatch 1 (CasUpdateLease id owner lu now) t = false.
Proof. unfold column_mismatch, cas_columns. destruct (outbox_retry_state t !! id); [by destruct (_ <? _)%Z|done]. Qed.

(** What an environment may do.  Clocks are unconstrained: the nodes' clocks
    need not agree or advance.  A fresh identifier was never drawn before.  A
    statement that succeeds has its CQL effect; one that fails, when [faults]
    allows failures, has either no effect or its whole effect; a failed
    iteration delivers a prefix.  A scan whose destinations do not match the
    columns may fail; with [lenient] unset, as gocql documents its scans, it
    does.

    Two simplifications are part of this legality.  A logged batch is one
    step, although Cassandra does not isolate the partitions a batch writes,
    and a batch that failed does not take effect later; [Torn] has the
    legality without them.  Statements take effect in the order in which they
    are answered: the write timestamps by which Cassandra orders concurrent
    writes are not modelled. *)
Definition answers (faults lenient : bool) : legality storeE world :=
  fun X e =>
  match e in storeE X return world -> X -> world -> Prop with
  | ENow => fun s _ s' => s' = s
  | ETimeUUID => fun s u s' => (u ∉ w_issued s) /\ s' = mkWorld (w_tables s) ({[u]} ∪ w_issued s)
  | EIntn n => fun s i s' => (0 < n -> 0 <= i < n) /\ s' = s
  | ERead q => fun s r s' => s' = s /\
      match r with
      | Ok x => eval_query q (w_tables s) = Some x
      | Err e => if err_notfound e then eval_query q (w_tables s) = None else faults = true
      end
  | EIter q => fun s r s' => s' = s /\
      match r with
      | (rows, None) => rows = eval_scan q (w_tables s)
      | (rows, Some _) => faults = true /\ (rows `prefix_of` eval_scan q (w_tables s))
      end
  | EExec b => fun s r s' =>
      match r with
      | None => s' = with_tables s (apply_batch b (w_tables s))
      | Some _ => faults = true /\
          (s' = s \/ s' = with_tables s (apply_batch b (w_tables s)))
      end
  | ECas dests c => fun s r s' =>
      let '(applied, x, t') := apply_cas c (w_tables s) in
      let mismatch := column_mismatch dests c (w_tables s) in
      match r with
      | Ok (a, y) => a = applied /\ y = x /\ s' = with_tables s t' /\ (mismatch = true -> lenient = true)
      | Err _ => (faults = true \/ mismatch = true) /\ (s' = s \/ s' = with_tables s t')
      end
  end.

(** Drivers that check the number of columns and drivers that do not. *)
Definition legal (faults : bool) : legality storeE world := answers faults true.

(** A faultless environment is permitted where faults are. *)
Lemma legal_faultless X (e : storeE X) s x s' :
  legal false X e s x s' -> legal true X e s x s'.
Proof.
  unfold legal. destruct e; cbn -[column_mismatch]; try done.
  - intros [-> H]. split; [done|]. destruct x as [|[nf m]]; [done|]. cbn in *. by destruct nf.
  - destruct x as [rows [err|]]; naive_solver.
  - destruct x; naive_solver.
  - destruct (apply_cas c (w_tables s)) as [[a y] t']. destruct x as [[? ?]|?]; naive_solver.
Qed.

(** ** Sorted scans *)

Lemma ascending_perm {V} (m : gmap (gotime * uuid) V) : ascending m ≡ₚ map_to_list m.
Proof. apply merge_sort_Permutation. Qed.

Lemma ascending_sorted {V} (m : gmap (gotime * uuid) V) : StronglySorted row_le (ascending m).
Proof. apply (StronglySorted_merge_sort row_le). Qed.

Lemma elem_of_ascending {V} (m : gmap (gotime * uuid) V) k v :
  (k, v) ∈ ascending m <-> m !! k = Some v.
Proof. rewrite ascending_perm. apply elem_of_map_to_list. Qed.

Lemma NoDup_ascending {V} (m : gmap (gotime * uuid) V) : NoDup (fst <$> ascending m).
Proof. rewrite ascending_perm. apply NoDup_fst_map_to_list. Qed.
End Tables.
