(* ===== verification/Session.v ===== *)
(** * Database sessions as environments

    A session is a state, the world it stands for, and a handler that answers
    the effects of a program; [session_ok] says it keeps to a legality such as
    [legal false] or [clocked P (legal true)].  Theorems
    about what a method returns quantify over all such sessions.  The last
    part builds concrete in-memory sessions, one without failures and one with
    a schedule of failures, which show that the requirement can be met. *)

From S2P Require Import Prelude Prog Cql.

Section Sessions.
Context {E : Type -> Type} {W S : Type}.
Variables (L : legality E W) (view : S -> W) (h : handler E S).

Definition session_ok : Prop :=
  forall X (e : E X) s, L X e (view s) (fst (h X e s)) (view (snd (h X e s))).

Lemma session_wp {A} (p : prog E A) Q s :
  session_ok -> wp L p Q (view s) ->
  Q (fst (run h p s)) (view (snd (run h p s))).
Proof.
  intros Hok. revert s. induction p as [a|X e k IH]; intros s; cbn; [done|].
  intros Hw. specialize (Hw _ _ (Hok X e s)). destruct (h X e s) as [x s']. by apply IH.
Qed.

Lemma session_exec {A} (p : prog E A) s :
  session_ok -> exec L p (view s) (fst (run h p s)) (view (snd (run h p s))).
Proof. intros Hok. apply session_wp; [done|]. by apply wp_exec. Qed.
End Sessions.

(** An environment whose clocks only show instants in [P]. *)
Definition clocked {UU : UUID} (P : gotime -> Prop) (L : legality storeE world)
    : legality storeE world := fun X e s x s' =>
  L X e s x s' /\
  match e in storeE X return X -> Prop with ENow => P | _ => fun _ => True end x.

(** Every environment without failures is one where failures are allowed. *)
Lemma wp_faultless {UU : UUID} {A} (p : prog storeE A) Q s :
  wp (legal true) p Q s -> wp (legal false) p Q s.
Proof.
  revert s. induction p as [a|X e k IH]; intros s; cbn; [done|].
  intros Hw x s' HL. apply IH, Hw. by apply legal_faultless.
Qed.

(** ** Concrete identifiers: a number, written in unary *)

Fixpoint unary (n : nat) : string :=
  match n with O => "" | S n' => "1" +:+ unary n' end.

Lemma unary_length n : String.length (unary n) = n.
Proof. induction n as [|n IH]; [done|]. cbn [unary]. change (S (String.length (unary n)) = S n). by rewrite IH. Qed.

#[global] Instance nat_uuid : UUID.
Proof.
  refine {|
    uuid := nat; uuid_zero := 0%nat; uuid_String := unary;
    ParseUUID := fun s => Ok (String.length s); uuid_le := le |}.
  intros u. by rewrite unary_length.
Defined.

(** ** In-memory sessions *)

Record mem := mkMem { m_tables : tables; m_next : nat; m_clock : gotime }.

Definition mem_view (m : mem) : world := mkWorld (m_tables m) (list_to_set (seq 0 (m_next m))).

Definition mem_init (clock : gotime) : mem := mkMem empty_tables 0 clock.

Definition mem_handler : handler storeE mem := fun X e m =>
  let '(mkMem t n c) := m in
  match e in storeE X return X * mem with
  | ENow => (c, mkMem t n (c + Millisecond))
  | ETimeUUID => (n : uuid, mkMem t (S n) c)
  | EIntn k => (0, m)
  | ERead q =>
      (match eval_query q t with Some x => Ok x | None => Err (mkError true "not found") end, m)
  | EIter q => ((eval_scan q t, None), m)
  | EExec b => (None, mkMem (apply_batch b t) n c)
  | ECas _ cs => let '(a, x, t') := apply_cas cs t in (Ok (a, x), mkMem t' n c)
  end.

Lemma mem_issued (n : nat) :
  list_to_set (seq 0 (S n)) =@{gset nat} {[n]} ∪ list_to_set (seq 0 n).
Proof. rewrite seq_S, list_to_set_app_L. cbn. set_solver. Qed.

Lemma mem_session_ok : session_ok (legal false) mem_view mem_handler.
Proof.
  intros X e [t n c]. destruct e; unfold mem_view; cbn -[list_to_set seq]; try done.
  - rewrite mem_issued. split; [|done].
    rewrite elem_of_list_to_set, elem_of_seq. lia.
  - split; [done|]. destruct (eval_query q t); done.
  - destruct (apply_cas c0 t) as [[a x] t']. cbn. done.
Qed.

(** The same session with a clock that stands still. *)
Definition frozen_handler (now : gotime) : handler storeE mem := fun X e m =>
  match e in storeE X return X * mem with
  | ENow => (now, m)
  | e' => mem_handler _ e' m
  end.

Lemma frozen_session_ok now :
  session_ok (clocked (fun t => t = now) (legal false)) mem_view (frozen_handler now).
Proof.
  intros X e m. split; [|by destruct e].
  pose proof (mem_session_ok X e m) as Hm. by destruct e.
Qed.

(** A driver that checks the number of columns. *)
Definition strict_handler (now : gotime) : handler storeE mem := fun X e m =>
  match e in storeE X return X * mem with
  | ECas n c => if column_mismatch n c (m_tables m)
              then (Err (newError "gocql: not enough columns to scan into"), m)
              else mem_handler _ (ECas n c) m
  | e' => frozen_handler now _ e' m
  end.

Lemma strict_session_ok now :
  session_ok (clocked (fun t => t = now) (answers false false)) mem_view (strict_handler now).
Proof.
  intros X e m. split; [|by destruct e; cbn; try case_match].
  pose proof (mem_session_ok X e m) as Hm. destruct e as [| | | | | |Y d c]; try exact Hm; try done.
  unfold strict_handler. destruct (column_mismatch d c (m_tables m)) eqn:Er.
  - destruct m as [t n c0]. cbn -[apply_cas column_mismatch] in *.
    destruct (apply_cas c t) as [[a x] t']. eauto.
  - destruct m as [t n c0]. cbn -[apply_cas column_mismatch] in *. rewrite Er.
    by destruct (apply_cas c t) as [[a x] t'].
Qed.

(** A schedule of failures, one entry per statement, before or after it took
    effect. *)
Inductive fault := NoFault | FailBefore | FailAfter.

Definition fault_err : error := newError "timeout".

Definition next_fault (fs : list fault) : fault * list fault :=
  match fs with [] => (NoFault, []) | f :: fs' => (f, fs') end.

(** The same answer with the failure, and whether the effect is kept. *)
Definition with_fault (f : fault) {X} (r : storeE X) (ok : X * mem) (m : mem) : X * mem :=
  match f with
  | NoFault => ok
  | _ =>
      match r in storeE X return X * mem -> X * mem with
      | ERead q => fun ok => (Err fault_err, m)
      | EIter q => fun ok => (([], Some fault_err), m)
      | EExec b => fun ok => (Some fault_err, match f with FailAfter => ok.2 | _ => m end)
      | ECas _ c => fun ok => (Err fault_err, match f with FailAfter => ok.2 | _ => m end)
      | _ => fun ok => ok
      end ok
  end.

Definition is_statement {X} (e : storeE X) : bool :=
  match e with ENow | ETimeUUID | EIntn _ => false | _ => true end.

Definition fmem : Type := mem * list fault.
Definition fmem_view (m : fmem) : world := mem_view m.1.

Definition fmem_handler : handler storeE fmem := fun X e '(m, fs) =>
  if is_statement e then
    let '(f, fs') := next_fault fs in
    let '(x, m') := with_fault f e (mem_handler X e m) m in (x, (m', fs'))
  else let '(x, m') := mem_handler X e m in (x, (m', fs)).

Lemma fmem_session_ok : session_ok (legal true) fmem_view fmem_handler.
Proof.
  intros X e [m fs]. unfold fmem_handler, fmem_view.
  pose proof (legal_faultless X e _ _ _ (mem_session_ok X e m)) as Hm.
  destruct (is_statement e) eqn:Es.
  - destruct (next_fault fs) as [f fs'].
    destruct f; cbn [with_fault]; [by destruct (mem_handler X e m)| |];
      destruct e as [| |k|Y q|Y q|b|Y d cs]; try done; destruct m as [t n c]; cbn;
      repeat split; eauto using prefix_nil;
      destruct (apply_cas cs t) as [[a x] t']; cbn; eauto.
  - by destruct (mem_handler X e m).
Qed.
