(* ===== verification/CassStore.v ===== *)
(** * The Cassandra event store (internal/modules/cassstore/module.go)

    Each method is the [prog] of its statements in program order; [m] is the
    module value whose [session] field the method reads once, under the read
    lock, before anything else.  Spans and attributes are not modelled. *)

From S2P Require Import Prelude Prog Contracts Cql.

Module CassStore.

Definition allBucket : string := "all".

Record Module_ := mkModule {
  hosts : list string;
  keyspace : string;
  user : string;
  password : string;
  tlsCAFile : string;
  tlsCertFile : string;
  tlsKeyFile : string;
  tlsServerName : string;
  tlsInsecureSkipVerify : bool;
  (** [m.session != nil] *)
  session : bool
}.

Definition New (h : list string) (ks us pw ca cert key sn : string) (skip : bool) : Module_ :=
  mkModule h ks us pw ca cert key sn skip false.

Definition Name : string := "cassstore".

Definition session_err : error := newError "cassandra session not available".

Section Methods.
Context {UU : UUID}.
(** [hex(sha256(data))]; the hash is stored and never read back. *)
Variable sha256Hex : string -> string.

(** [event.Stream], defaulted. *)
Definition default_stream (s : string) : string := if bool_decide (s = "") then "default" else s.

Definition isOutboxPublished (eventID : uuid) : prog storeE (result bool) :=
  try! state := perform (ERead (SelectPublishState eventID)) catch e => Ret (Err e) in
  Ret (Ok (bool_decide (state = "published"))).

(** The five statements of the logged batch that stores a new event. *)
Definition append_batch (newID : uuid) (c : content) (occurredAt : gotime) : list mutation :=
  [ InsertEventsByStream occurredAt newID c;
    InsertEventsById newID occurredAt c;
    InsertOutboxEvents newID c occurredAt "pending";
    InsertOutboxByState occurredAt newID c;
    InsertRetryState newID 0 occurredAt "" "" unix_epoch false ].

Definition event_with (event : EventRecord) (id : string) (st : string) (occ : gotime) : EventRecord :=
  mkEventRecord id (IdempotencyKey event) st (Subject event) (EType event) (Payload event) occ
    (RetryCount event) (LastError event) (QuarantinedAt event).

(** The tail of [AppendEventExactlyOnce], from [session.NewBatch]. *)
Definition append_new (event : EventRecord) (st : string) (occ : gotime) (newID : uuid)
    : prog storeE (result AppendResult) :=
  let c := mkContent st (Subject event) (EType event) (Payload event) in
  let! err := perform (EExec (append_batch newID c occ)) in
  match err with
  | Some e => Ret (Err e)
  | None => Ret (Ok (mkAppendResult (event_with event (uuid_String newID) st occ) false false))
  end.

(** The branch [!applied]: the event the key already belongs to. *)
Definition append_existing (event : EventRecord) (existingID : uuid)
    : prog storeE (result AppendResult) :=
  try! row := perform (ERead (SelectEventById existingID)) catch e => Ret (Err e) in
  let '(c, occ) := row in
  let existing :=
    mkEventRecord (uuid_String existingID) (IdempotencyKey event) (c_stream c) (c_subject c)
      (c_type c) (c_payload c) occ 0 "" zero_time in
  try! published := isOutboxPublished existingID catch e => Ret (Err e) in
  Ret (Ok (mkAppendResult existing true published)).

Definition AppendEventExactlyOnce (m : Module_) (event : EventRecord)
    : prog storeE (result AppendResult) :=
  if negb (session m) then Ret (Err session_err) else
  let st := default_stream (Stream event) in
  let! occ := (if IsZero (OccurredAt event) then perform ENow else Ret (OccurredAt event)) in
  let! newID := perform ETimeUUID in
  if bool_decide (IdempotencyKey event = "") then append_new event st occ newID else
  let! now1 := perform ENow in
  try! cas := perform (ECas 1 (CasInsertIdempotencyKey st (IdempotencyKey event) newID
                               (sha256Hex (Payload event)) now1)) catch e => Ret (Err e) in
  let '(applied, existingID) := cas in
  if negb applied then append_existing event existingID else
  let! now2 := perform ENow in
  let! err := perform (EExec [InsertIdempotencyByCreated now2 st (IdempotencyKey event) newID]) in
  match err with
  | Some e => Ret (Err e)
  | None => append_new event st occ newID
  end.

Definition published_batch (id : uuid) (now occurredAt : gotime) (broker : string) : list mutation :=
  [ UpdateOutboxPublished id "published" now broker;
    DeleteOutboxByState occurredAt id;
    DeleteRetryState id ].

Definition MarkOutboxPublished (m : Module_) (eventID brokerMessageID : string)
    : prog storeE (option error) :=
  if negb (session m) then Ret (Some session_err) else
  match ParseUUID eventID with
  | Err e => Ret (Some e)
  | Ok id =>
      try! row := perform (ERead (SelectOutboxEvent id)) catch e => Ret (Some e) in
      let! now := perform ENow in
      perform (EExec (published_batch id now row.2 brokerMessageID))
  end.

(** [(retryCount, nextAttempt, quarantined, leaseUntil, err)]. *)
Definition loadRetryState (id : uuid) : prog storeE (result (Z * gotime * bool * gotime)) :=
  try! row := perform (ERead (SelectRetryState id)) catch e =>
    (if err_notfound e then Ret (Ok (0, unix_epoch, false, unix_epoch)) else Ret (Err e)) in
  Ret (Ok row).

(** The limits of [PendingOutboxEvents]. *)
Definition pending_limit (limit : Z) : Z :=
  let limit := if limit <=? 0 then 100 else limit in
  if limit >? 2000 then 2000 else limit.

Definition pending_fetch_limit (limit : Z) : Z :=
  let f := limit * 5 in if f <? 100 then 100 else f.

Definition pending_event (id : uuid) (c : content) (occ : gotime) (retries : Z) : EventRecord :=
  mkEventRecord (uuid_String id) "" (c_stream c) (c_subject c) (c_type c) (c_payload c) occ
    retries "" zero_time.

(** The loop over the scanned rows; [out] is built in reverse. *)
Fixpoint pending_loop (limit : Z) (rows : list ((gotime * uuid) * content)) (out : list EventRecord)
    : prog storeE (list EventRecord) :=
  match rows with
  | [] => Ret (reverse out)
  | ((occ, id), c) :: rows' =>
      let! st := loadRetryState id in
      match st with
      | Err _ => pending_loop limit rows' out
      | Ok (retryCount, nextAttemptAt, quarantined, leaseUntil) =>
          let! now := perform ENow in
          if quarantined || After nextAttemptAt now || After leaseUntil now
          then pending_loop limit rows' out
          else
            let out := pending_event id c occ retryCount :: out in
            if Z.of_nat (length out) >=? limit then Ret (reverse out)
            else pending_loop limit rows' out
      end
  end.

Definition PendingOutboxEvents (m : Module_) (limit : Z) : prog storeE (result (list EventRecord)) :=
  if negb (session m) then Ret (Err session_err) else
  let limit := pending_limit limit in
  let! (rows, close_err) := perform (EIter (ScanPending (pending_fetch_limit limit))) in
  let! out := pending_loop limit rows [] in
  match close_err with
  | Some e => Ret (Err e)
  | None => Ret (Ok out)
  end.

Definition ClaimInboxMessage (m : Module_) (consumer messageID : string) : prog storeE (result bool) :=
  if negb (session m) then Ret (Err session_err) else
  let! now := perform ENow in
  try! cas := perform (ECas 1 (CasInsertInbox consumer messageID now)) catch e => Ret (Err e) in
  Ret (Ok cas.1).

Definition recent_limit (limit : Z) : Z :=
  let limit := if limit <=? 0 then 50 else limit in
  if limit >? 500 then 500 else limit.

Definition recent_event (stream : string) (row : (gotime * uuid) * content) : EventRecord :=
  let '((occ, id), c) := row in
  mkEventRecord (uuid_String id) "" stream (c_subject c) (c_type c) (c_payload c) occ 0 "" zero_time.

Definition RecentEvents (m : Module_) (stream : string) (limit : Z)
    : prog storeE (result (list EventRecord)) :=
  if negb (session m) then Ret (Err session_err) else
  let! (rows, close_err) := perform (EIter (ScanRecent stream (recent_limit limit))) in
  match close_err with
  | Some e => Ret (Err e)
  | None => Ret (Ok (map (recent_event stream) rows))
  end.

Definition ClaimOutboxLease (m : Module_) (eventID owner : string) (leaseDuration : duration)
    : prog storeE (result bool) :=
  if negb (session m) then Ret (Err session_err) else
  match ParseUUID eventID with
  | Err e => Ret (Err e)
  | Ok id =>
      let! now := perform ENow in
      try! cas := perform (ECas 1 (CasUpdateLease id owner (Add now leaseDuration) now))
        catch e => Ret (Err e) in
      Ret (Ok cas.1)
  end.

(** [for i := 1; i < retryCount; i++ { wait *= 2; if wait >= max {...break} }]
    with [n = retryCount - 1] iterations. *)
Fixpoint backoff_loop (n : nat) (wait maxBackoff : duration) : duration :=
  match n with
  | O => wait
  | S n' =>
      let wait := wrap64 (wait * 2) in
      if wait >=? maxBackoff then maxBackoff else backoff_loop n' wait maxBackoff
  end.

Definition backoff (retryCount : Z) (base maxBackoff : duration) : duration :=
  backoff_loop (Z.to_nat (retryCount - 1)) base maxBackoff.

(** [int(wait.Milliseconds()) * jitterPercent / 100]. *)
Definition jitter_range (wait : duration) (jitterPercent : Z) : Z :=
  goquot (wrap64 (goquot wait Millisecond * jitterPercent)) 100.

Definition jitter (wait : duration) (jitterPercent : Z) : prog storeE duration :=
  if jitterPercent >? 0 then
    let jr := jitter_range wait jitterPercent in
    if jr >? 0 then
      let! i := perform (EIntn (wrap64 (jr * 2 + 1))) in
      let wait := wrap64 (wait + dur (i - jr) Millisecond) in
      Ret (if wait <? 10 * Millisecond then 10 * Millisecond else wait)
    else Ret wait
  else Ret wait.

Definition dead_batch (id : uuid) (now : gotime) (c : content) (retryCount : Z) (lastError : string)
    : list mutation :=
  [ InsertDeadByTime now id (mkDead c retryCount lastError);
    InsertDeadById id now (mkDead c retryCount lastError) ].

(** The part of [RecordOutboxFailure] after the retry state has been read. *)
Definition record_failure (id : uuid) (lastError : string) (base maxBackoff : duration)
    (jitterPercent quarantineAfter : Z) (retryCount : Z) (firstFailed : gotime)
    : prog storeE (bool * Z * option error) :=
  let retryCount := wrap64 (retryCount + 1) in
  let! wait := jitter (backoff retryCount base maxBackoff) jitterPercent in
  let! now := perform ENow in
  let quarantined := retryCount >=? quarantineAfter in
  let firstFailed := if IsZero firstFailed then now else firstFailed in
  let! err := perform (EExec [UpdateRetryFailure id retryCount (Add now wait) lastError "" unix_epoch
                                quarantined now firstFailed]) in
  match err with
  | Some e => Ret (false, retryCount, Some e)
  | None =>
      if negb quarantined then Ret (false, retryCount, None) else
      try! row := perform (ERead (SelectOutboxEvent id)) catch e => Ret (true, retryCount, Some e) in
      let! err := perform (EExec (dead_batch id now row.1 retryCount lastError)) in
      Ret (true, retryCount, err)
  end.

Definition RecordOutboxFailure (m : Module_) (eventID lastError : string)
    (base maxBackoff : duration) (jitterPercent quarantineAfter : Z)
    : prog storeE (bool * Z * option error) :=
  if negb (session m) then Ret (false, 0, Some session_err) else
  match ParseUUID eventID with
  | Err e => Ret (false, 0, Some e)
  | Ok id =>
      let! r := perform (ERead (SelectRetryFailure id)) in
      match r with
      | Ok (retryCount, firstFailed) =>
          record_failure id lastError base maxBackoff jitterPercent quarantineAfter
            retryCount firstFailed
      | Err e =>
          if err_notfound e then
            record_failure id lastError base maxBackoff jitterPercent quarantineAfter 0 zero_time
          else Ret (false, 0, Some e)
      end
  end.

Definition dead_event (row : (gotime * uuid) * dead_row) : EventRecord :=
  let '((qa, id), d) := row in
  let c := d_content d in
  mkEventRecord (uuid_String id) "" (c_stream c) (c_subject c) (c_type c) (c_payload c) zero_time
    (d_retry_count d) (d_last_error d) qa.

(** The code allocates the result with [limit] as its capacity, and panics if
    that is too large to allocate; here the limit only bounds the rows. *)
Definition ListDeadLetters (m : Module_) (limit : Z) : prog storeE (result (list EventRecord)) :=
  if negb (session m) then Ret (Err session_err) else
  let limit := if limit <=? 0 then 50 else limit in
  let! (rows, close_err) := perform (EIter (ScanDeadLetters limit)) in
  match close_err with
  | Some e => Ret (Err e)
  | None => Ret (Ok (map dead_event rows))
  end.

Definition replay_batch (id : uuid) (c : content) (occurredAt now quarantinedAt : gotime)
    (retryCount : Z) : list mutation :=
  [ InsertOutboxEvents id c occurredAt "pending";
    InsertOutboxByState occurredAt id c;
    UpdateRetryReplay id false unix_epoch retryCount now "" "" unix_epoch;
    DeleteDeadByTime quarantinedAt id;
    DeleteDeadById id ].

Definition ReplayDeadLetter (m : Module_) (eventID : string) : prog storeE (option error) :=
  if negb (session m) then Ret (Some session_err) else
  match ParseUUID eventID with
  | Err e => Ret (Some e)
  | Ok id =>
      try! row := perform (ERead (SelectDeadById id)) catch e => Ret (Some e) in
      let '(quarantinedAt, d) := row in
      let! now := perform ENow in
      let! r := perform (ERead (SelectOutboxEvent id)) in
      match r with
      | Err e =>
          if negb (err_notfound e) then Ret (Some e)
          else perform (EExec (replay_batch id (d_content d) now now quarantinedAt (d_retry_count d)))
      | Ok (_, occurredAt) =>
          perform (EExec (replay_batch id (d_content d) occurredAt now quarantinedAt (d_retry_count d)))
      end
  end.

(** [for _, row := range rows { ... if err == nil { deleted++ } }]. *)
Fixpoint delete_loop {X} (batch : X -> list mutation) (rows : list X) (deleted : Z)
    : prog storeE Z :=
  match rows with
  | [] => Ret deleted
  | row :: rows' =>
      let! err := perform (EExec (batch row)) in
      delete_loop batch rows' (match err with None => deleted + 1 | Some _ => deleted end)
  end.

Definition idem_batch (row : gotime * (string * string)) : list mutation :=
  let '(createdAt, (st, k)) := row in
  [ DeleteIdempotencyKey st k; DeleteIdempotencyByCreated createdAt st k ].

Definition dl_batch (row : gotime * uuid) : list mutation :=
  [ DeleteDeadByTime row.1 row.2; DeleteDeadById row.2 ].

Definition CleanupExpired (m : Module_) (idempotencyBefore deadLetterBefore : gotime) (limit : Z)
    : prog storeE (Z * Z * option error) :=
  if negb (session m) then Ret (0, 0, Some session_err) else
  let limit := if limit <=? 0 then 200 else limit in
  let! (irows, ierr) := perform (EIter (ScanIdempotency limit)) in
  match ierr with
  | Some e => Ret (0, 0, Some e)
  | None =>
      let! idemDeleted := delete_loop idem_batch
        (filter (fun row => Before row.1 idempotencyBefore = true) irows) 0 in
      let! (drows, derr) := perform (EIter (ScanDeadLetters limit)) in
      match derr with
      | Some e => Ret (idemDeleted, 0, Some e)
      | None =>
          let! dlDeleted := delete_loop dl_batch
            (filter (fun row => Before row.1 deadLetterBefore = true) (map fst drows)) 0 in
          Ret (idemDeleted, dlDeleted, None)
      end
  end.

(** The module as the [AdvancedEventStore] the application uses. *)
Definition cass_store (m : Module_) : EventStore storeE :=
  mkEventStore storeE (AppendEventExactlyOnce m) (MarkOutboxPublished m) (PendingOutboxEvents m)
    (ClaimInboxMessage m) (RecentEvents m)
    (Some (mkAdvancedEventStore storeE (ClaimOutboxLease m) (RecordOutboxFailure m)
             (ListDeadLetters m) (ReplayDeadLetter m) (CleanupExpired m))).
End Methods.
End CassStore.
