(* ===== verification/StoreInv.v ===== *)
(** * The outbox invariant of the store, under every interleaving

    Any number of nodes run the store's methods at once, statement by
    statement, on shared tables; clocks are arbitrary, statements may fail
    with or without having taken effect, and nodes may crash between any two
    statements.  [inv] is what stays true throughout. *)

From S2P Require Import Prelude Prog Contracts Cql Session CassStore.

Module StoreInv.
Import CassStore.

Section Invariant.
Context {UU : UUID}.

(** The event is waiting for the relay: its outbox row is pending, it is in the
    pending partition under its own time, and it has a retry row, so that a
    lease on it can be claimed. *)
Definition waiting (t : tables) (id : uuid) (c : content) (occ : gotime) : Prop :=
  (exists o, outbox_events t !! id = Some o /\ o_body o = Some (c, occ) /\
     o_state o = Some "pending") /\
  outbox_by_state t !! (occ, id) = Some c /\
  is_Some (outbox_retry_state t !! id).

(** The event has been handed to the broker: its outbox row says so, with a
    broker id, and it is out of the pending partition. *)
Definition delivered (t : tables) (id : uuid) (c : content) (occ : gotime) : Prop :=
  (exists o, outbox_events t !! id = Some o /\ o_body o = Some (c, occ) /\
     o_state o = Some "published" /\ is_Some (o_broker_message_id o)) /\
  outbox_by_state t !! (occ, id) = None.

Record inv (s : world) : Prop := mkInv {
  inv_issued id : is_Some (events_by_id (w_tables s) !! id) -> id ∈ w_issued s;
  inv_ts id c occ : events_by_id (w_tables s) !! id = Some (c, occ) -> cql_ts occ = occ;
  inv_stream st occ id c :
    events_by_stream (w_tables s) !! (st, (occ, id)) = Some c <->
    events_by_id (w_tables s) !! id = Some (c, occ) /\ c_stream c = st;
  inv_status id c occ :
    events_by_id (w_tables s) !! id = Some (c, occ) ->
    waiting (w_tables s) id c occ \/ delivered (w_tables s) id c occ;
  inv_outbox id : is_Some (outbox_events (w_tables s) !! id) ->
    is_Some (events_by_id (w_tables s) !! id);
  inv_pending occ id c :
    outbox_by_state (w_tables s) !! (occ, id) = Some c ->
    events_by_id (w_tables s) !! id = Some (c, occ);
  inv_dead_id id q d :
    dead_letters_by_id (w_tables s) !! id = Some (q, d) ->
    cql_ts q = q /\ dead_letters_by_time (w_tables s) !! (q, id) = Some d /\
    exists occ, events_by_id (w_tables s) !! id = Some (d_content d, occ);
  inv_dead_time q id d :
    dead_letters_by_time (w_tables s) !! (q, id) = Some d ->
    exists occ, events_by_id (w_tables s) !! id = Some (d_content d, occ)
}.

(** What the others may do while a call owns the fresh identifiers [g]: events
    are added and never changed, with other identifiers; with [keep] set,
    claimed idempotency keys stay claimed. *)
Record rely (keep : bool) (g : gset uuid) (s s' : world) : Prop := mkRely {
  rely_events : events_by_id (w_tables s) ⊆ events_by_id (w_tables s');
  rely_issued : w_issued s ⊆ w_issued s';
  rely_fresh id : id ∈ g -> events_by_id (w_tables s) !! id = None ->
    events_by_id (w_tables s') !! id = None;
  rely_keys : keep = true -> idempotency_keys (w_tables s) ⊆ idempotency_keys (w_tables s')
}.

#[global] Instance rely_preorder keep g : PreOrder (rely keep g).
Proof.
  split.
  - intros s. by constructor.
  - intros s1 s2 s3 [E1 I1 F1 K1] [E2 I2 F2 K2]. constructor.
    + by trans (events_by_id (w_tables s2)).
    + by trans (w_issued s2).
    + auto.
    + intros Hk. trans (idempotency_keys (w_tables s2)); auto.
Qed.

Lemma rely_lookup keep g s s' id v :
  rely keep g s s' -> events_by_id (w_tables s) !! id = Some v ->
  events_by_id (w_tables s') !! id = Some v.
Proof. intros [He _ _ _] Hl. eapply lookup_weaken; eauto. Qed.

Lemma inv_empty : inv (mkWorld empty_tables ∅).
Proof.
  constructor; cbn; intros *; rewrite ?lookup_empty; try (by intros [? ?]); naive_solver.
Qed.

(** The content read from an outbox row is the event's. *)
Lemma inv_outbox_body s id o :
  inv s -> outbox_events (w_tables s) !! id = Some o ->
  exists c occ, o_body o = Some (c, occ) /\ events_by_id (w_tables s) !! id = Some (c, occ).
Proof.
  intros Hinv Ho. destruct (inv_outbox _ Hinv id) as [[c occ] He]; [eauto|].
  exists c, occ. split; [|done].
  destruct (inv_status _ Hinv _ _ _ He) as [[(o' & ? & ? & _) _]|[(o' & ? & ? & _) _]]; congruence.
Qed.

Lemma inv_select_outbox s id x :
  inv s -> eval_query (SelectOutboxEvent id) (w_tables s) = Some x ->
  events_by_id (w_tables s) !! id = Some x.
Proof.
  cbn. intros Hinv (o & Ho & ->)%fmap_Some_1.
  by destruct (inv_outbox_body _ _ _ Hinv Ho) as (c & occ & -> & ?).
Qed.

(** ** Each batch keeps the invariant *)

(** The world after a batch has been applied. *)
Definition after (b : list mutation) (s : world) : world :=
  with_tables s (apply_batch b (w_tables s)).

(** A step of one owner of [g] is a step the owners of other identifiers rely on. *)
Definition step_ok (keep : bool) (g : gset uuid) (s s' : world) : Prop :=
  inv s' /\ w_issued s ⊆ w_issued s' /\
  (forall f, f ## g -> f ⊆ w_issued s -> rely keep f s s').

Ltac open_world s :=
  destruct s as [[ebs ebi ik ic oe rs ob inb dt di] iss]; cbn in *.

Lemma append_batch_ok keep g s id c occ :
  inv s -> id ∈ g -> g ⊆ w_issued s -> events_by_id (w_tables s) !! id = None ->
  step_ok keep g s (after (append_batch id c occ) s).
Proof.
  intros [Iss Its Ist Isa Iou Ipe Idi Idt] Hid Hg Hnew. open_world s.
  assert (oe !! id = None) as Hoe.
  { apply eq_None_not_Some. intros ?%Iou. rewrite Hnew in *. by eapply is_Some_None. }
  assert (forall q, ob !! (q, id) = None) as Hob.
  { intros q. apply eq_None_not_Some. intros [c' Hc]. apply Ipe in Hc. congruence. }
  split_and!; [|done|].
  - constructor; cbn.
    + intros i. rewrite lookup_insert. case_decide as E; [subst; set_solver|]. apply Iss.
    + intros i c' o'. rewrite lookup_insert. case_decide; [|by apply Its].
      intros. simplify_eq. apply cql_ts_idemp.
    + intros st o i c'. rewrite !lookup_insert.
      destruct (decide (id = i)) as [<-|Hne].
      * case_decide as E; simplify_eq; [naive_solver|].
        rewrite Ist, Hnew. naive_solver.
      * rewrite decide_False by congruence. apply Ist.
    + intros i c' o'. rewrite lookup_insert. case_decide as E.
      * intros; simplify_eq. left. unfold waiting; cbn.
        rewrite !lookup_insert_eq. eauto 10.
      * intros He. unfold waiting, delivered; cbn.
        rewrite !lookup_insert_ne by congruence. by apply Isa.
    + intros i. rewrite !lookup_insert. case_decide; [by eauto|]. apply Iou.
    + intros o i c'. rewrite !lookup_insert.
      destruct (decide (id = i)) as [<-|Hne].
      * case_decide as E; [by intros; simplify_eq/=|]. by rewrite Hob.
      * rewrite decide_False by congruence. apply Ipe.
    + intros i q d Hd. destruct (Idi _ _ _ Hd) as (? & ? & o & Ho). split_and!; [done..|].
      exists o. rewrite lookup_insert_ne; [done|]. congruence.
    + intros q i d Hd. destruct (Idt _ _ _ Hd) as [o Ho]. exists o.
      rewrite lookup_insert_ne; [done|]. congruence.
  - intros f Hf Hfi. constructor; cbn; [by apply insert_subseteq|done| |done].
    intros i Hi. rewrite lookup_insert_ne; [done|]. set_solver.
Qed.

(** The other batches leave [events_by_id] and the idempotency keys alone. *)
Lemma rely_same_events keep f (s s' : world) :
  events_by_id (w_tables s') = events_by_id (w_tables s) ->
  idempotency_keys (w_tables s') = idempotency_keys (w_tables s) ->
  w_issued s' = w_issued s -> rely keep f s s'.
Proof. intros E1 E2 E3. constructor; rewrite ?E1, ?E2, ?E3; done. Qed.

Lemma published_batch_ok keep g s id c occ now broker :
  inv s -> events_by_id (w_tables s) !! id = Some (c, occ) ->
  step_ok keep g s (after (published_batch id now occ broker) s).
Proof.
  intros [Iss Its Ist Isa Iou Ipe Idi Idt] He. open_world s.
  assert (exists o, oe !! id = Some o /\ o_body o = Some (c, occ)) as (o & Ho & Hb).
  { destruct (Isa _ _ _ He) as [[(o & ? & ? & _) _]|[(o & ? & ? & _) _]]; eauto. }
  assert (cql_ts occ = occ) as Hts by eauto.
  split_and!; [|done|by intros; apply rely_same_events].
  constructor; cbn; try done; rewrite ?Hts.
  - intros i c' o' Hi. destruct (decide (id = i)) as [<-|Hne].
    + simplify_eq. right. unfold delivered; cbn. rewrite lookup_insert_eq, lookup_delete_eq.
      rewrite Ho. cbn. eauto 10.
    + unfold waiting, delivered; cbn.
      rewrite lookup_insert_ne, lookup_delete_ne, (lookup_delete_ne rs) by congruence.
      by apply Isa.
  - intros i. rewrite lookup_insert. case_decide; [by subst; eauto|]. apply Iou.
  - intros o' i c'. rewrite lookup_delete. case_decide; [done|]. apply Ipe.
Qed.

Lemma retry_failure_ok keep g s id n nx le ow lu q qa ff :
  inv s ->
  step_ok keep g s (after [UpdateRetryFailure id n nx le ow lu q qa ff] s).
Proof.
  intros [Iss Its Ist Isa Iou Ipe Idi Idt]. open_world s.
  split_and!; [|done|by intros; apply rely_same_events].
  constructor; cbn; try done.
  intros i c' o' Hi. destruct (Isa _ _ _ Hi) as [(? & ? & Hr)|Hd]; [left|right; done].
  unfold waiting in *; cbn in *. split_and!; [done|done|].
  rewrite lookup_insert. case_decide; [by eauto|done].
Qed.

Lemma dead_batch_ok keep g s id now c occ n le :
  inv s -> events_by_id (w_tables s) !! id = Some (c, occ) ->
  step_ok keep g s (after (dead_batch id now c n le) s).
Proof.
  intros [Iss Its Ist Isa Iou Ipe Idi Idt] He. open_world s.
  split_and!; [|done|by intros; apply rely_same_events].
  constructor; cbn; try done.
  - intros i q d. rewrite !lookup_insert. destruct (decide (id = i)) as [<-|Hne].
    + intros ?; simplify_eq/=. rewrite cql_ts_idemp, decide_True by done. eauto.
    + rewrite decide_False by congruence. apply Idi.
  - intros q i d. rewrite lookup_insert. case_decide; [intros; simplify_eq; eauto|]. apply Idt.
Qed.

Lemma replay_batch_ok keep g s id c occ now qa n :
  inv s -> events_by_id (w_tables s) !! id = Some (c, occ) ->
  step_ok keep g s (after (replay_batch id c occ now qa n) s).
Proof.
  intros [Iss Its Ist Isa Iou Ipe Idi Idt] He. open_world s.
  assert (cql_ts occ = occ) as Hts by eauto.
  split_and!; [|done|by intros; apply rely_same_events].
  constructor; cbn; try done; rewrite ?Hts.
  - intros i c' o' Hi. destruct (decide (id = i)) as [<-|Hne].
    + simplify_eq. left. unfold waiting; cbn. rewrite !lookup_insert_eq. eauto 10.
    + unfold waiting, delivered; cbn. rewrite !lookup_insert_ne by congruence. by apply Isa.
  - intros i. rewrite lookup_insert. case_decide; [by subst; eauto|]. apply Iou.
  - intros o i c'. rewrite lookup_insert. case_decide; [by intros; simplify_eq|]. apply Ipe.
  - intros i q d. rewrite !lookup_delete. case_decide; [done|].
    rewrite decide_False by congruence. apply Idi.
  - intros q i d. rewrite lookup_delete. case_decide; [done|]. apply Idt.
Qed.

Lemma dl_batch_ok keep g s row : inv s -> step_ok keep g s (after (dl_batch row) s).
Proof.
  intros [Iss Its Ist Isa Iou Ipe Idi Idt]. open_world s.
  split_and!; [|done|by intros; apply rely_same_events].
  constructor; cbn; try done.
  - intros i q d. rewrite !lookup_delete. case_decide; [done|].
    rewrite decide_False by congruence. apply Idi.
  - intros q i d. rewrite lookup_delete. case_decide; [done|]. apply Idt.
Qed.

Lemma idem_by_created_ok keep g s ca st k id :
  inv s -> step_ok keep g s (after [InsertIdempotencyByCreated ca st k id] s).
Proof.
  intros [Iss Its Ist Isa Iou Ipe Idi Idt]. open_world s.
  split_and!; [by constructor|done|by intros; apply rely_same_events].
Qed.

(** Removing an idempotency key is not a step that [keep] allows. *)
Lemma idem_batch_ok g s row : inv s -> step_ok false g s (after (idem_batch row) s).
Proof.
  intros [Iss Its Ist Isa Iou Ipe Idi Idt]. destruct row as [ca [st k]]. open_world s.
  split_and!; [by constructor|done|by intros; constructor].
Qed.

(** Conditional writes. *)
Lemma cas_ok keep g s X (c : cas X) :
  inv s -> step_ok keep g s (with_tables s (apply_cas c (w_tables s)).2).
Proof.
  intros [Iss Its Ist Isa Iou Ipe Idi Idt].
  destruct c as [st k id h ca|co mid ca|id ow lu now]; open_world s.
  - destruct (ik !! (st, k)) eqn:E; cbn; (split_and!; [by constructor|done|]); intros.
    + by apply rely_same_events.
    + constructor; cbn; try done. intros. by apply insert_subseteq.
  - destruct (inb !! (co, mid)) eqn:E; cbn;
      (split_and!; [by constructor|done|by intros; apply rely_same_events]).
  - destruct (rs !! id) as [r|] eqn:E; cbn; [destruct (_ <? _); cbn|];
      (split_and!; [|done|by intros; apply rely_same_events]); [|by constructor..].
    constructor; cbn; try done.
    intros i c' o' Hi. destruct (Isa _ _ _ Hi) as [(? & ? & Hr)|Hd]; [left|right; done].
    unfold waiting in *; cbn in *. split_and!; [done|done|].
    rewrite lookup_insert. case_decide; [by eauto|done].
Qed.

(** ** Proof rules for the effects *)

Abbreviation ssound keep := (sound (legal true) inv w_issued (rely keep)) (only parsing).

Section Rules.
Context {B : Type} (keep : bool) (Q : gset uuid -> B -> world -> Prop).

Lemma step_ok_refl g s : inv s -> step_ok keep g s s.
Proof. intros. split_and!; [done..|]. intros. reflexivity. Qed.

(** Effects that leave the shared state alone. *)
Lemma sound_pure {X} g (e : storeE X) k s :
  (forall s x s', legal true X e s x s' -> s' = s) ->
  (forall s' x, rely keep g s s' -> inv s' -> legal true X e s' x s' ->
    ssound keep g (k x) Q s') ->
  ssound keep g (Vis e k) Q s.
Proof.
  intros Hpure Hk s1 x s2 HR HI Hg HL. pose proof (Hpure _ _ _ HL) as ->.
  split_and!; [done|done|by intros; reflexivity|].
  exists g. split; [set_solver|]. by apply Hk.
Qed.

Lemma sound_now g k s :
  (forall s' now, rely keep g s s' -> inv s' -> ssound keep g (k now) Q s') ->
  ssound keep g (Vis ENow k) Q s.
Proof. intros Hk. apply sound_pure; [done|]. intros; by apply Hk. Qed.

Lemma sound_intn g n k s :
  (forall s' i, rely keep g s s' -> inv s' -> ssound keep g (k i) Q s') ->
  ssound keep g (Vis (EIntn n) k) Q s.
Proof. intros Hk. apply sound_pure; [by intros ??? [_ ?]|]. intros; by apply Hk. Qed.

Lemma sound_iter {X} g (q : scan X) k s :
  (forall s' r, rely keep g s s' -> inv s' -> ssound keep g (k r) Q s') ->
  ssound keep g (Vis (EIter q) k) Q s.
Proof. intros Hk. apply sound_pure; [by intros ??? [? _]|]. intros; by apply Hk. Qed.

Lemma sound_read {X} g (q : query X) k s :
  (forall s' x, rely keep g s s' -> inv s' -> eval_query q (w_tables s') = Some x ->
    ssound keep g (k (Ok x)) Q s') ->
  (forall s' e, rely keep g s s' -> inv s' ->
    (err_notfound e = true -> eval_query q (w_tables s') = None) ->
    ssound keep g (k (Err e)) Q s') ->
  ssound keep g (Vis (ERead q) k) Q s.
Proof.
  intros Hok Herr. apply sound_pure; [by intros ??? [? _]|].
  intros s' [x|e] HR HI [_ HL]; [by apply Hok|].
  apply Herr; [done..|]. intros E. by rewrite E in HL.
Qed.

Lemma sound_uuid g k s :
  (forall s' u, rely keep g s s' -> inv s' -> u ∈ w_issued s' ->
    events_by_id (w_tables s') !! u = None ->
    ssound keep ({[u]} ∪ g) (k u) Q s') ->
  ssound keep g (Vis ETimeUUID k) Q s.
Proof.
  intros Hk s1 u s2 HR HI Hg [Hu ->].
  assert (forall f, rely keep f s1 (mkWorld (w_tables s1) ({[u]} ∪ w_issued s1))) as Hrely.
  { intros f. constructor; cbn; [done|set_solver|done|done]. }
  assert (inv (mkWorld (w_tables s1) ({[u]} ∪ w_issued s1))) as HI'.
  { destruct HI. constructor; cbn; try done. intros. apply elem_of_union_r. eauto. }
  split_and!; [done|set_solver|by intros; apply Hrely|].
  exists ({[u]} ∪ g). split; [set_solver|].
  apply Hk; [by trans s1|done|set_solver|].
  cbn. apply eq_None_not_Some. intros ?%(inv_issued _ HI). done.
Qed.

Lemma sound_exec g b k s :
  (forall s', rely keep g s s' -> inv s' -> g ⊆ w_issued s' ->
    step_ok keep g s' (after b s') /\
    forall r, exists g', g' ⊆ g /\ ssound keep g' (k r) Q (after b s')) ->
  (forall s' e, rely keep g s s' -> inv s' -> ssound keep g (k (Some e)) Q s') ->
  ssound keep g (Vis (EExec b) k) Q s.
Proof.
  intros Happ Hfail s1 r s2 HR HI Hg HL.
  destruct (Happ s1 HR HI Hg) as [(HI' & Hiss & HG) Hk].
  assert (s2 = after b s1 \/ (s2 = s1 /\ exists e, r = Some e)) as Hcase.
  { destruct r as [e|]; cbn in HL; [|by left]. destruct HL as [_ [-> | ->]]; [right|left]; eauto. }
  destruct Hcase as [->|(-> & e & ->)].
  - destruct (Hk r) as (g' & Hg' & Hs).
    split_and!; [done..|]. exists g'. split; [set_solver|done].
  - split_and!; [done|done|by intros; reflexivity|].
    exists g. split; [set_solver|]. by apply Hfail.
Qed.

Lemma sound_cas {X} g n (c : cas X) k s :
  (forall s', rely keep g s s' -> inv s' ->
    let '(a, x, t') := apply_cas c (w_tables s') in
    ssound keep g (k (Ok (a, x))) Q (with_tables s' t')) ->
  (forall s' e, inv s' -> ssound keep g (k (Err e)) Q s') ->
  ssound keep g (Vis (ECas n c) k) Q s.
Proof.
  intros Hok Herr s1 r s2 HR HI Hg HL. specialize (Hok s1 HR HI).
  destruct (cas_ok keep g s1 X c HI) as (HI' & Hiss & HG).
  cbn in HL. destruct (apply_cas c (w_tables s1)) as [[a x] t']. cbn in *.
  assert (s2 = with_tables s1 t' \/ s2 = s1) as Hs2.
  { destruct r as [[a' y]|e]; naive_solver. }
  assert (inv s2) as HI2 by (destruct Hs2 as [-> | ->]; done).
  split_and!; [done|by destruct Hs2 as [-> | ->]| |exists g; split; [set_solver|]].
  - intros f Hf Hfi. destruct Hs2 as [-> | ->]; [by apply HG|reflexivity].
  - destruct r as [[a' y]|e]; [|by apply Herr]. by destruct HL as (-> & -> & -> & _).
Qed.

Lemma sound_ret g a s :
  (forall s', rely keep g s s' -> inv s' -> Q g a s') -> ssound keep g (Ret a) Q s.
Proof. done. Qed.
End Rules.

(** ** Every method is sound *)

#[local] Arguments sound : simpl never.

(** The step lemmas as one tactic: advance one effect of the program. *)
Ltac sstep :=
  match goal with
  | |- sound _ _ _ _ _ (Ret _) _ _ => apply sound_ret; intros
  | |- sound _ _ _ _ _ (if ?b then _ else _) _ _ => destruct b eqn:?
  | |- sound _ _ _ _ _ (Vis ENow _) _ _ => apply sound_now; intros
  | |- sound _ _ _ _ _ (Vis (EIntn _) _) _ _ => apply sound_intn; intros
  | |- sound _ _ _ _ _ (Vis (EIter _) _) _ _ => apply sound_iter; intros
  | |- sound _ _ _ _ _ (Vis (ERead _) _) _ _ => apply sound_read; intros
  | |- sound _ _ _ _ _ (Vis ETimeUUID _) _ _ => apply sound_uuid; intros
  | |- sound _ _ _ _ _ (Vis (EExec _) _) _ _ => apply sound_exec; intros
  end; unfold perform; cbn [pbind].

Section Methods.
Variable sha256Hex : string -> string.
Variable keep : bool.

Definition no_post {A} : gset uuid -> A -> world -> Prop := fun _ _ _ => True.

(** What [AppendEventExactlyOnce] promises when it returns without error. *)
Definition append_post (ev : EventRecord) (r : result AppendResult) (s : world) : Prop :=
  match r with
  | Err _ => True
  | Ok res => exists id c occ,
      ID (Event res) = uuid_String id /\
      events_by_id (w_tables s) !! id = Some (c, occ) /\
      mkContent (Stream (Event res)) (Subject (Event res)) (EType (Event res)) (Payload (Event res)) = c /\
      (keep = true -> IdempotencyKey ev <> "" ->
        exists row, idempotency_keys (w_tables s) !! (default_stream (Stream ev), IdempotencyKey ev)
                      = Some row /\ i_event_id row = id)
  end.

(** The key [k] of stream [st] is claimed for the event [id]. *)
Definition claimed (st k : string) (id : uuid) (s : world) : Prop :=
  exists row, idempotency_keys (w_tables s) !! (st, k) = Some row /\ i_event_id row = id.

Lemma claimed_rely g st k id s s' :
  keep = true -> rely keep g s s' -> claimed st k id s -> claimed st k id s'.
Proof.
  intros Hk HR (row & Hl & He). exists row. split; [|done].
  eapply lookup_weaken; [done|]. by apply (rely_keys _ _ _ _ HR).
Qed.

Lemma append_new_sound ev occ id g s :
  id ∈ g -> events_by_id (w_tables s) !! id = None ->
  (keep = true -> IdempotencyKey ev <> "" ->
    claimed (default_stream (Stream ev)) (IdempotencyKey ev) id s) ->
  ssound keep g (append_new ev (default_stream (Stream ev)) occ id) (fun _ => append_post ev) s.
Proof.
  intros Hid Hnew Hcl. unfold append_new. cbn [pbind perform]. sstep.
  - split; [apply append_batch_ok; eauto using rely_fresh|].
    intros [e|]; exists ∅; (split; [set_solver|]); sstep; [done|].
    exists id, (mkContent (default_stream (Stream ev)) (Subject ev) (EType ev) (Payload ev)), (cql_ts occ).
    split_and!; [done| |done|].
    + eapply rely_lookup; [done|]. cbn. destruct (w_tables s'). cbn. by rewrite lookup_insert_eq.
    + intros Hk Hne. eapply claimed_rely; [done..|].
      assert (claimed (default_stream (Stream ev)) (IdempotencyKey ev) id s') as (row & Hr & Hi)
        by (eapply claimed_rely; eauto).
      exists row. split; [|done]. by destruct s' as [[] ?].
  - sstep. done.
Qed.

Lemma append_existing_sound ev id g s :
  (keep = true -> IdempotencyKey ev <> "" ->
    claimed (default_stream (Stream ev)) (IdempotencyKey ev) id s) ->
  ssound keep g (append_existing ev id) (fun _ => append_post ev) s.
Proof.
  intros Hcl. unfold append_existing, isOutboxPublished. cbn [pbind perform].
  sstep; [|by sstep]. destruct x as [c occ]. cbn [pbind perform].
  sstep; [|by sstep]. sstep.
  exists id, c, occ. cbn. split_and!; [done| |by destruct c|].
  - eapply rely_lookup; [done|]. by eapply rely_lookup.
  - intros Hk Hne. do 3 (eapply claimed_rely; [done|done|]). eauto.
Qed.

Lemma claim_key_sound ev occ id g s now hash :
  id ∈ g -> events_by_id (w_tables s) !! id = None ->
  ssound keep g
    (try! cas := perform (ECas 1 (CasInsertIdempotencyKey (default_stream (Stream ev))
                                  (IdempotencyKey ev) id hash now)) catch e => Ret (Err e) in
     let '(applied, existingID) := cas in
     if negb applied then append_existing ev existingID else
     let! now2 := perform ENow in
     let! err := perform (EExec [InsertIdempotencyByCreated now2 (default_stream (Stream ev))
                                   (IdempotencyKey ev) id]) in
     match err with
     | Some e => Ret (Err e)
     | None => append_new ev (default_stream (Stream ev)) occ id
     end) (fun _ => append_post ev) s.
Proof.
  intros Hid Hnew. cbn [pbind perform].
  apply sound_cas; [|by intros; sstep].
  intros s' HR HI. pose proof (rely_fresh _ _ _ _ HR id Hid Hnew) as Hnew'.
  destruct s' as [[ebs ebi ik ic oe rs ob inb dt di] iss]. cbn in *.
  destruct (ik !! _) as [row|] eqn:E; cbn [negb].
  - apply append_existing_sound. intros _ _. exists row. cbn. done.
  - sstep. apply sound_exec.
    + intros s2 HR2 HI2 _. split; [by apply idem_by_created_ok|].
      intros [e|]; exists g; (split; [done|]); [by sstep|].
      apply append_new_sound; [done| |].
      * assert (events_by_id (w_tables s2) !! id = None).
        { eapply rely_fresh; [exact HR2|done|]. eapply rely_fresh; eauto. }
        by destruct s2 as [[] ?].
      * intros Hk Hne.
        assert (claimed (default_stream (Stream ev)) (IdempotencyKey ev) id s2) as (row & ? & ?).
        { do 2 (eapply claimed_rely; [done|eassumption|]). eexists. cbn.
          split; [apply lookup_insert_eq|done]. }
        exists row. by destruct s2 as [[] ?].
    + intros; by sstep.
Qed.

Lemma AppendEventExactlyOnce_sound m ev s :
  ssound keep ∅ (AppendEventExactlyOnce sha256Hex m ev) (fun _ => append_post ev) s.
Proof.
  unfold AppendEventExactlyOnce. sstep; [by sstep|].
  assert (forall s1 occ, ssound keep ∅
    (let! newID := perform ETimeUUID in
     if bool_decide (IdempotencyKey ev = "")
     then append_new ev (default_stream (Stream ev)) occ newID else
     let! now1 := perform ENow in
     try! cas := perform (ECas 1 (CasInsertIdempotencyKey (default_stream (Stream ev))
       (IdempotencyKey ev) newID (sha256Hex (Payload ev)) now1)) catch e => Ret (Err e) in
     let '(applied, existingID) := cas in
     if negb applied then append_existing ev existingID else
     let! now2 := perform ENow in
     let! err := perform (EExec [InsertIdempotencyByCreated now2 (default_stream (Stream ev))
                                   (IdempotencyKey ev) newID]) in
     match err with
     | Some e => Ret (Err e)
     | None => append_new ev (default_stream (Stream ev)) occ newID
     end) (fun _ => append_post ev) s1) as Hrest.
  { intros s1 occ. cbn [pbind perform]. sstep. case_bool_decide as Hkey.
    - apply append_new_sound; [set_solver|done|done].
    - cbn [pbind perform]. sstep. apply claim_key_sound; [set_solver|].
      eapply rely_fresh; [eassumption|set_solver|done]. }
  destruct (IsZero (OccurredAt ev)).
  - cbn [pbind perform]. sstep. apply Hrest.
  - cbn [pbind]. apply Hrest.
Qed.

Lemma MarkOutboxPublished_sound m id broker s :
  ssound keep ∅ (MarkOutboxPublished m id broker) no_post s.
Proof.
  unfold MarkOutboxPublished. sstep; [by sstep|].
  destruct (ParseUUID id) as [u|e]; [|by sstep]. cbn [pbind perform].
  sstep; [|by sstep]. destruct x as [c occ]. sstep. sstep.
  - split; [|intros r; exists ∅; split; [done|by sstep]].
    eapply published_batch_ok; [done|].
    do 2 (eapply rely_lookup; [eassumption|]). by apply inv_select_outbox.
  - by sstep.
Qed.

Lemma pending_loop_sound limit rows out s :
  ssound keep ∅ (pending_loop limit rows out) no_post s.
Proof.
  revert out s. induction rows as [|[[occ id] c] rows IH]; intros out s; cbn [pending_loop].
  { by sstep. }
  unfold loadRetryState. cbn [pbind perform]. sstep.
  - cbn [pbind]. destruct x as [[[n nx] q] lu]. sstep. sstep; [apply IH|]. sstep; [by sstep|apply IH].
  - destruct (err_notfound e); cbn [pbind]; [|apply IH].
    sstep. sstep; [apply IH|]. sstep; [by sstep|apply IH].
Qed.

Lemma PendingOutboxEvents_sound m limit s :
  ssound keep ∅ (PendingOutboxEvents m limit) no_post s.
Proof.
  unfold PendingOutboxEvents. sstep; [by sstep|]. cbn [pbind perform]. sstep.
  destruct r as [rows err]. apply sound_bind; [apply _|]. eapply sound_weaken; [|apply pending_loop_sound].
  intros. destruct err; by sstep.
Qed.

Lemma ClaimInboxMessage_sound m co mid s :
  ssound keep ∅ (ClaimInboxMessage m co mid) no_post s.
Proof.
  unfold ClaimInboxMessage. sstep; [by sstep|]. cbn [pbind perform]. sstep.
  apply sound_cas; [|intros; by sstep].
  intros. destruct (apply_cas _ _) as [[a x] t']. by sstep.
Qed.

Lemma RecentEvents_sound m st limit s : ssound keep ∅ (RecentEvents m st limit) no_post s.
Proof.
  unfold RecentEvents. sstep; [by sstep|]. cbn [pbind perform]. sstep.
  destruct r as [rows [e|]]; by sstep.
Qed.

Lemma ClaimOutboxLease_sound m id ow d s : ssound keep ∅ (ClaimOutboxLease m id ow d) no_post s.
Proof.
  unfold ClaimOutboxLease. sstep; [by sstep|].
  destruct (ParseUUID id) as [u|e]; [|by sstep]. cbn [pbind perform]. sstep.
  apply sound_cas; [|intros; by sstep].
  intros. destruct (apply_cas _ _) as [[a x] t']. by sstep.
Qed.

Lemma jitter_sound w p s : ssound keep ∅ (jitter w p) no_post s.
Proof. unfold jitter. sstep; [|by sstep]. sstep; [|by sstep]. cbn [pbind perform]. sstep. by sstep. Qed.

Lemma record_failure_sound id le b mx j qa n ff s :
  ssound keep ∅ (record_failure id le b mx j qa n ff) no_post s.
Proof.
  unfold record_failure. apply sound_bind; [apply _|]. eapply sound_weaken; [|apply jitter_sound].
  intros g wait s' HI _. unfold perform; cbn [pbind]. sstep. sstep; [|by sstep].
  split; [by apply retry_failure_ok|]. intros r. exists g. split; [done|].
  destruct r as [e|]; [by sstep|]. sstep; [by sstep|]. cbn [pbind perform].
  sstep; [|by sstep]. sstep; [|by sstep]. destruct x as [c occ].
  split; [|intros r; exists g; split; [done|by sstep]].
  eapply dead_batch_ok; [done|]. eapply rely_lookup; [eassumption|].
  by apply inv_select_outbox.
Qed.

Lemma RecordOutboxFailure_sound m id le b mx j qa s :
  ssound keep ∅ (RecordOutboxFailure m id le b mx j qa) no_post s.
Proof.
  unfold RecordOutboxFailure. sstep; [by sstep|].
  destruct (ParseUUID id) as [u|e]; [|by sstep]. cbn [pbind perform].
  sstep; [destruct x as [n ff]; apply record_failure_sound|].
  destruct (err_notfound e); [apply record_failure_sound|by sstep].
Qed.

Lemma ListDeadLetters_sound m limit s : ssound keep ∅ (ListDeadLetters m limit) no_post s.
Proof.
  unfold ListDeadLetters. sstep; [by sstep|]. cbn [pbind perform]. sstep.
  destruct r as [rows [e|]]; by sstep.
Qed.

Lemma ReplayDeadLetter_sound m id s : ssound keep ∅ (ReplayDeadLetter m id) no_post s.
Proof.
  unfold ReplayDeadLetter. sstep; [by sstep|].
  destruct (ParseUUID id) as [u|e]; [|by sstep]. cbn [pbind perform].
  sstep; [|by sstep]. destruct x as [qa d]. cbn [pbind perform].
  match goal with H : inv ?s', E : eval_query _ _ = Some _ |- _ =>
    destruct (inv_dead_id _ H _ _ _ E) as (_ & _ & occ & Hocc) end.
  sstep. sstep.
  - destruct x as [c occ']. sstep; [|by sstep].
    split; [|intros r; exists ∅; split; [done|by sstep]].
    eapply replay_batch_ok; [done|].
    match goal with E : eval_query (SelectOutboxEvent u) _ = Some _, H : inv ?s |- _ =>
      apply (inv_select_outbox s) in E; [|done] end.
    eapply rely_lookup; [eassumption|].
    do 2 (eapply rely_lookup in Hocc; [|eassumption]). congruence.
  - destruct (err_notfound e) eqn:Hnf; cbn [negb]; [|by sstep].
    (* the outbox row of a dead letter exists *)
    exfalso. do 2 (eapply rely_lookup in Hocc; [|eassumption]).
    match goal with H : inv ?s, E : true = true -> eval_query _ (w_tables ?s) = None |- _ =>
      specialize (E eq_refl);
      destruct (inv_status s H _ _ _ Hocc) as [[(o & Ho & _) _]|[(o & Ho & _) _]]
    end; cbn in *; rewrite Ho in *; done.
Qed.

Lemma delete_loop_sound {X} (batch : X -> list mutation) rows n g s :
  (forall row s', inv s' -> step_ok keep g s' (after (batch row) s')) ->
  ssound keep g (delete_loop batch rows n) no_post s.
Proof.
  intros Hb. revert n s. induction rows as [|row rows IH]; intros n s; cbn [delete_loop].
  { by sstep. }
  unfold perform; cbn [pbind]. sstep; [|apply IH].
  split; [by apply Hb|]. intros r. exists g. split; [done|apply IH].
Qed.
End Methods.

(** [CleanupExpired] after the expired keys are gone. *)
Definition cleanup_dead (deadLetterBefore : gotime) (limit idemDeleted : Z)
    : prog storeE (Z * Z * option error) :=
  let! (drows, derr) := perform (EIter (ScanDeadLetters limit)) in
  match derr with
  | Some e => Ret (idemDeleted, 0, Some e)
  | None =>
      let! dlDeleted := delete_loop dl_batch
        (filter (fun row => Before row.1 deadLetterBefore = true) (map fst drows)) 0 in
      Ret (idemDeleted, dlDeleted, None)
  end.

Lemma cleanup_dead_sound keep db limit n g s : ssound keep g (cleanup_dead db limit n) no_post s.
Proof.
  unfold cleanup_dead, perform; cbn [pbind]. sstep. destruct r as [drows [e|]]; [by sstep|].
  apply sound_bind; [apply _|]. eapply sound_weaken; [|apply delete_loop_sound; intros; by apply dl_batch_ok].
  intros. by sstep.
Qed.

Lemma CleanupExpired_sound m ib db limit s :
  ssound false ∅ (CleanupExpired m ib db limit) no_post s.
Proof.
  unfold CleanupExpired. sstep; [by sstep|]. unfold perform; cbn [pbind]. sstep.
  destruct r as [irows [e|]]; [by sstep|].
  apply sound_bind; [apply _|]. eapply sound_weaken; [|apply delete_loop_sound; intros; by apply idem_batch_ok].
  intros g n s2 _ _. apply cleanup_dead_sound.
Qed.

(** ** The system: any calls, by any nodes *)

Inductive answer :=
| AnsAppend (ev : EventRecord) (r : result AppendResult)
| AnsErr (e : option error)
| AnsEvents (r : result (list EventRecord))
| AnsBool (r : result bool)
| AnsFailure (r : bool * Z * option error)
| AnsCleanup (r : Z * Z * option error).

Definition pmap {E A B} (f : A -> B) (p : prog E A) : prog E B := pbind p (fun a => Ret (f a)).

Definition append_answer (keep : bool) (a : answer) (s : world) : Prop :=
  match a with AnsAppend ev r => append_post keep ev r s | _ => True end.

(** The calls of the nodes' handlers, relays and cleanup loops; [cleanup]
    says whether the cleanup loop runs. *)
Inductive store_prog (sha : string -> string) (cleanup : bool) : prog storeE answer -> Prop :=
| call_append m ev : store_prog sha cleanup
    (pmap (AnsAppend ev) (AppendEventExactlyOnce sha m ev))
| call_mark m id br : store_prog sha cleanup (pmap AnsErr (MarkOutboxPublished m id br))
| call_pending m n : store_prog sha cleanup (pmap AnsEvents (PendingOutboxEvents m n))
| call_inbox m co mid : store_prog sha cleanup (pmap AnsBool (ClaimInboxMessage m co mid))
| call_recent m st n : store_prog sha cleanup (pmap AnsEvents (RecentEvents m st n))
| call_lease m id ow d : store_prog sha cleanup (pmap AnsBool (ClaimOutboxLease m id ow d))
| call_failure m id le b mx j q :
    store_prog sha cleanup (pmap AnsFailure (RecordOutboxFailure m id le b mx j q))
| call_dead m n : store_prog sha cleanup (pmap AnsEvents (ListDeadLetters m n))
| call_replay m id : store_prog sha cleanup (pmap AnsErr (ReplayDeadLetter m id))
| call_cleanup m ib db n : cleanup = true ->
    store_prog sha cleanup (pmap AnsCleanup (CleanupExpired m ib db n)).

Definition store_call (sha : string -> string) (cleanup : bool)
    (p : prog storeE answer) (Q : answer -> world -> Prop) : Prop :=
  store_prog sha cleanup p /\ Q = append_answer (negb cleanup).

Lemma pmap_sound {A} keep (f : A -> answer) p (Q : gset uuid -> A -> world -> Prop)
    (Q' : answer -> world -> Prop) s :
  (forall g a s', Q g a s' -> rely keep g s' s' -> Q' (f a) s') ->
  (forall g a s s', Q g a s -> rely keep g s s' -> Q g a s') ->
  ssound keep ∅ p Q s -> ssound keep ∅ (pmap f p) (fun _ => Q') s.
Proof.
  intros HQ Hst Hs. apply sound_bind; [apply _|]. eapply sound_weaken; [|exact Hs].
  intros g a s' _ Ha. apply sound_ret. intros s'' HR _.
  apply (HQ g); [by eapply Hst|reflexivity].
Qed.

Lemma append_post_stable keep ev g r s s' :
  append_post keep ev r s -> rely keep g s s' -> append_post keep ev r s'.
Proof.
  destruct r as [res|e]; [|done]. intros (id & c & occ & ? & ? & ? & Hk) HR.
  exists id, c, occ. split_and!; [done|by eapply rely_lookup|done|].
  intros Hkeep Hne. destruct (Hk Hkeep Hne) as (row & Hr & ?). exists row. split; [|done].
  eapply lookup_weaken; [done|]. by apply (rely_keys _ _ _ _ HR).
Qed.

Lemma store_call_sound sha cleanup p Q s :
  store_call sha cleanup p Q -> ssound (negb cleanup) ∅ p (fun _ => Q) s.
Proof.
  intros [Hp ->]. destruct Hp; eapply pmap_sound;
    try (apply MarkOutboxPublished_sound || apply PendingOutboxEvents_sound ||
         apply ClaimInboxMessage_sound || apply RecentEvents_sound ||
         apply ClaimOutboxLease_sound || apply RecordOutboxFailure_sound ||
         apply ListDeadLetters_sound || apply ReplayDeadLetter_sound ||
         apply AppendEventExactlyOnce_sound); try done; cbn.
  - intros g a s0 s'. apply append_post_stable.
  - instantiate (1 := no_post). done.
  - subst. apply CleanupExpired_sound.
Qed.

(** A session whose state satisfies the invariant still does after a call. *)
Lemma session_inv {S} (L : legality storeE world) (view : S -> world) (h : handler storeE S)
    sha p s :
  session_ok L view h -> (forall X e s x s', L X e s x s' -> legal true X e s x s') ->
  inv (view s) -> store_prog sha true p -> inv (view (run h p s).2).
Proof.
  intros Hok HL Hinv Hp.
  assert (session_ok (legal true) view h) as Hok' by (intros X e s'; by apply HL).
  eapply (reachable_sound (legal true) inv w_issued (rely false) (store_call sha true) (view s));
    [done|intros p' Q s' Hc _; exact (store_call_sound sha true p' Q s' Hc)|].
  eapply reachable_run; [apply rtc_refl|by split|]. by apply session_exec.
Qed.

(** In every state that any number of nodes can reach by running the store's
    methods concurrently, with failed statements, arbitrary clocks, crashes and
    cleanup, and each logged batch as one step, the invariant holds. *)
Lemma inv_reachable sha cleanup ts s :
  reachable (legal true) (store_call sha cleanup) (mkWorld empty_tables ∅) (ts, s) -> inv s.
Proof.
  intros Hr. eapply (reachable_sound (legal true) inv w_issued (rely (negb cleanup)));
    [apply inv_empty| |exact Hr].
  intros. by eapply store_call_sound.
Qed.

(** ** Keys within their lifetime

    [P] are the instants the nodes' clocks show, [cut] the cutoffs their
    cleanup runs use for idempotency keys.  While no cutoff lies after an
    instant shown (in the milliseconds the tables keep), cleanup finds no key
    to expire. *)
Section Lifetime.
Variables (P cut : gotime -> Prop).
Hypothesis cut_before : forall t b, P t -> cut b -> b <= cql_ts t.

(** Keys are filed under instants the clocks have shown. *)
Definition stamped (s : world) : Prop :=
  forall k id, idempotency_by_created (w_tables s) !! k = Some id -> exists t, P t /\ k.1 = cql_ts t.

Lemma stamped_empty : stamped (mkWorld empty_tables ∅).
Proof. intros k id. cbn. by rewrite lookup_empty. Qed.

Definition timely (mu : mutation) : Prop :=
  match mu with InsertIdempotencyByCreated ca _ _ _ => P ca | _ => True end.

(** Programs that file keys under the instants they are shown. *)
Fixpoint stamps {A} (p : prog storeE A) : Prop :=
  match p with
  | Ret _ => True
  | Vis e k =>
      match e with EExec b => Forall timely b | _ => True end /\
      forall x, match e in storeE X return X -> Prop with ENow => P | _ => fun _ => True end x ->
        stamps (k x)
  end.

Lemma stamps_bind {A B} (p : prog storeE A) (f : A -> prog storeE B) :
  stamps p -> (forall a, stamps (f a)) -> stamps (pbind p f).
Proof. intros Hp Hf. induction p as [a|X e k IH]; cbn in *; [done|]. naive_solver. Qed.

Lemma stamped_mutation mu t iss :
  timely mu -> stamped (mkWorld t iss) -> stamped (mkWorld (apply_mutation mu t) iss).
Proof.
  intros Hmu Hs. destruct t as [ebs ebi ik ic oe rs ob inb dt di], mu; try exact Hs;
    intros k i; cbn in *.
  - rewrite lookup_insert. case_decide as E; [intros _; subst; by exists created_at|]. apply Hs.
  - rewrite lookup_delete. case_decide; [done|]. apply Hs.
Qed.

Lemma stamped_batch b s : Forall timely b -> stamped s -> stamped (after b s).
Proof.
  unfold after, with_tables, apply_batch. destruct s as [t iss]. cbn.
  intros Hb. revert t. induction Hb as [|mu b ? _ IH]; intros t Hs; cbn; [done|].
  by apply IH, stamped_mutation.
Qed.

Lemma stamped_step {A} X (e : storeE X) (k : X -> prog storeE A) s x s' :
  stamps (Vis e k) -> stamped s -> clocked P (legal true) X e s x s' -> stamped s' /\ stamps (k x).
Proof.
  intros [Hb Hk] Hs [HL HP]. split; [|by apply Hk].
  destruct e; cbn -[apply_cas column_mismatch] in HL.
  - by subst.
  - by destruct HL as [_ ->].
  - by destruct HL as [_ ->].
  - by destruct HL as [-> _].
  - by destruct HL as [-> _].
  - assert (s' = s \/ s' = after b s) as [->| ->] by (destruct x; naive_solver); [done|].
    by apply stamped_batch.
  - assert (s' = s \/ s' = with_tables s (apply_cas c (w_tables s)).2) as [->| ->]; [|done|].
    { destruct (apply_cas c (w_tables s)) as [[a y] t']. destruct x as [[a' y']|]; naive_solver. }
    clear HL Hk Hb. destruct s as [[ebs ebi ik ic oe rs ob inb dt di] iss].
    destruct c; cbn; repeat case_match; exact Hs.
Qed.

Ltac stamp :=
  repeat first
    [ done
    | match goal with |- stamps (Vis _ _) => split; [repeat first [constructor|assumption]|intros ? ?] end
    | progress unfold perform; cbn [pbind]
    | match goal with |- stamps (match ?x with _ => _ end) => destruct x end
    | progress cbn [pbind]
    | apply stamps_bind; intros ].

Lemma pending_loop_stamps limit rows out : stamps (pending_loop limit rows out).
Proof.
  revert out. induction rows as [|[[occ id] c] rows IH]; intros out; cbn [pending_loop]; [done|].
  apply stamps_bind; [unfold loadRetryState; stamp|].
  intros [[[[n nx] q] lu]|e]; [|apply IH]. split; [done|]. intros now _.
  cbn [pbind]. destruct (_ || _ || _); [apply IH|]. destruct (_ >=? _); [done|apply IH].
Qed.

Lemma delete_loop_stamps {X} (batch : X -> list mutation) rows n :
  (forall row, Forall timely (batch row)) -> stamps (delete_loop batch rows n).
Proof.
  intros Hb. revert n. induction rows as [|row rows IH]; intros n; cbn; [done|]. split; [done|]. intros. apply IH.
Qed.

Lemma record_failure_stamps id le b mx j qa n ff : stamps (record_failure id le b mx j qa n ff).
Proof.
  unfold record_failure. generalize (wrap64 (n + 1)). intros n'. apply stamps_bind.
  - unfold jitter. destruct (_ >? _); [|exact I]. destruct (_ >? _); [|exact I]. split; [exact I|]. intros. exact I.
  - intros wait. split; [exact I|]. intros now _. cbn [pbind perform].
    split; [repeat constructor|]. intros [e|] _; [exact I|]. destruct (negb _); [exact I|].
    split; [exact I|]. intros [row|e] _; [|exact I]. split; [repeat constructor|]. intros. exact I.
Qed.

Lemma store_prog_stamps sha cleanup p : store_prog sha cleanup p -> stamps p.
Proof.
  destruct 1; apply stamps_bind; try done.
  - unfold AppendEventExactlyOnce, append_new, append_existing, isOutboxPublished. stamp.
  - unfold MarkOutboxPublished. stamp.
  - unfold PendingOutboxEvents. stamp. apply pending_loop_stamps.
  - unfold ClaimInboxMessage. stamp.
  - unfold RecentEvents. stamp.
  - unfold ClaimOutboxLease. stamp.
  - unfold RecordOutboxFailure. destruct (negb _); [exact I|]. destruct (ParseUUID _); [|exact I].
    split; [exact I|]. intros [[n ff]|e] _; cbn [pbind]; [apply record_failure_stamps|].
    destruct (err_notfound e); [apply record_failure_stamps|exact I].
  - unfold ListDeadLetters. stamp.
  - unfold ReplayDeadLetter. stamp.
  - unfold CleanupExpired. stamp; apply delete_loop_stamps; intros; unfold idem_batch; repeat case_match; repeat constructor.
Qed.

(** The environments of the lifetime: a step is taken in a stamped state. *)
Definition lively : legality storeE world := fun X e s x s' =>
  clocked P (legal true) X e s x s' /\ stamped s.

Lemma lively_legal X e s x s' : lively X e s x s' -> legal true X e s x s'.
Proof. by intros [[HL _] _]. Qed.

Lemma nothing_expired s ib n rows :
  stamped s -> cut ib -> rows `prefix_of` eval_scan (ScanIdempotency n) (w_tables s) ->
  filter (fun row => Before row.1 ib = true) rows = [].
Proof.
  intros Hs Hib [rest Hrows]. apply filter_nothing, Forall_forall. intros row Hrow Hb.
  assert (row ∈ eval_scan (ScanIdempotency n) (w_tables s)) as Hin
    by (rewrite Hrows; apply elem_of_app; by left).
  cbn in Hin. apply elem_of_take in Hin as (i & Hin%list_elem_of_lookup_2 & _).
  apply list_elem_of_fmap in Hin as ([k id] & -> & Hk).
  rewrite merge_sort_Permutation in Hk. apply elem_of_map_to_list in Hk.
  destruct (Hs _ _ Hk) as (t & Ht & E). cbn in *. rewrite E in Hb.
  pose proof (cut_before t ib Ht Hib). unfold Before in Hb. lia.
Qed.

(** Cleanup keeps the keys. *)
Lemma CleanupExpired_keeps m ib db limit s :
  cut ib ->
  sound lively inv w_issued (rely true) ∅ (CleanupExpired m ib db limit) no_post s.
Proof.
  intros Hib. unfold CleanupExpired. destruct (negb _); [done|].
  unfold perform; cbn [pbind].
  intros s1 [irows ierr] s2 HR HI Hg [[HL _] Hst]. cbn in HL. destruct HL as [-> Hrows].
  split_and!; [done|done|by intros; reflexivity|]. exists ∅. split; [set_solver|].
  destruct ierr as [e|]; [done|].
  rewrite (nothing_expired s1 ib (if limit <=? 0 then 200 else limit) irows Hst Hib) by (by subst irows). cbn [delete_loop pbind].
  eapply sound_sub; [exact lively_legal|]. apply cleanup_dead_sound.
Qed.

(** The store's calls, with the cleanup runs of this lifetime. *)
Definition lifetime_call (sha : string -> string) (p : prog storeE answer) (Q : answer -> world -> Prop)
    : Prop :=
  (store_prog sha false p \/
   exists m ib db n, cut ib /\ p = pmap AnsCleanup (CleanupExpired m ib db n)) /\
  Q = append_answer true.

Lemma lifetime_call_sound sha p Q s :
  lifetime_call sha p Q -> sound lively inv w_issued (rely true) ∅ p (fun _ => Q) s.
Proof.
  intros [[Hp|(m & ib & db & n & Hib & ->)] ->].
  - eapply sound_sub; [exact lively_legal|]. by apply (store_call_sound sha false).
  - apply sound_bind; [apply _|]. eapply sound_weaken; [|by apply CleanupExpired_keeps].
    intros g a s' _ _ s'' _ _. done.
Qed.

Lemma lifetime_stamps sha p Q : lifetime_call sha p Q -> stamps p.
Proof.
  intros [[Hp|(m & ib & db & n & _ & ->)] _]; eapply store_prog_stamps; [done|].
  by apply (call_cleanup sha true).
Qed.

(** Every append that has returned without error keeps its promise. *)
Lemma lifetime_appends sha ts s t ev r :
  reachable (clocked P (legal true)) (lifetime_call sha) (mkWorld empty_tables ∅) (ts, s) ->
  t ∈ ts -> code t = Ret (AnsAppend ev (Ok r)) -> append_post true ev (Ok r) s.
Proof.
  intros Hr Ht Ct.
  destruct (reachable_strengthen _ _ stamped stamps _ _ stamped_empty (lifetime_stamps sha)
    stamped_step Hr) as (_ & _ & Hr').
  pose proof (reachable_goals _ _ _ _ _ Hr') as Hgoals.
  destruct (reachable_sound lively inv w_issued (rely true) (lifetime_call sha) _ ts s
    inv_empty (fun p Q s' Hc _ => lifetime_call_sound sha p Q s' Hc) Hr') as [_ Hres].
  rewrite Forall_forall in Hgoals, Hres.
  destruct (Hgoals t Ht) as (p & _ & Hg). specialize (Hres t Ht _ Ct). by rewrite Hg in Hres.
Qed.
End Lifetime.

End Invariant.

(** ** A concrete run

    One node appends an event, runs the cleanup, and appends the event again
    with the same idempotency key, all at 5 ms. *)

Definition demo_module : Module_ := mkModule [] "shirods" "" "" "" "" "" "" false true.
Definition demo_event : EventRecord :=
  mkEventRecord "" "order-A1001-v1" "orders" "events.orders" "order.created" "{}" 5000000 0 "" zero_time.
Definition demo_append : prog storeE answer :=
  pmap (AnsAppend demo_event) (AppendEventExactlyOnce (fun s => s) demo_module demo_event).
Definition demo_cleanup : prog storeE answer :=
  pmap AnsCleanup (CleanupExpired demo_module 5000000 5000000 100).
Definition demo_run (p : prog storeE answer) (s : mem) : answer * mem := run (frozen_handler 5000000) p s.
Definition demo_start : mem := mem_init 0.
Definition demo_stored : mem := (demo_run demo_append demo_start).2.
Definition demo_cleaned : mem := (demo_run demo_cleanup demo_stored).2.
Definition demo_end : mem := (demo_run demo_append demo_cleaned).2.
Definition demo_pool : list (thread storeE world answer) :=
  [mkThread (Ret (demo_run demo_append demo_cleaned).1) (append_answer true);
   mkThread (Ret (demo_run demo_cleanup demo_stored).1) (append_answer true);
   mkThread (Ret (demo_run demo_append demo_start).1) (append_answer true)].

Definition demo_clock (t : gotime) : Prop := t = 5000000.
Definition demo_cut (b : gotime) : Prop := b <= 5000000.

Lemma demo_session : session_ok (clocked demo_clock (legal true)) mem_view (frozen_handler 5000000).
Proof.
  intros X e s. destruct (frozen_session_ok 5000000 X e s) as [HL HP].
  split; [by apply legal_faultless|done].
Qed.

Lemma demo_reachable :
  reachable (clocked demo_clock (legal true)) (lifetime_call demo_cut (fun s => s))
    (mkWorld empty_tables ∅) (demo_pool, mem_view demo_end).
Proof.
  assert (lifetime_call demo_cut (fun s => s) demo_append (append_answer true)) as Ha
    by (split; [left; apply call_append|done]).
  assert (lifetime_call demo_cut (fun s => s) demo_cleanup (append_answer true)) as Hc
    by (split; [right; repeat eexists; unfold demo_cut; lia|done]).
  eapply reachable_run; [eapply reachable_run; [eapply reachable_run; [apply rtc_refl|exact Ha|]|exact Hc|]|exact Ha|].
  - exact (session_exec _ mem_view _ demo_append demo_start demo_session).
  - exact (session_exec _ mem_view _ demo_cleanup demo_stored demo_session).
  - exact (session_exec _ mem_view _ demo_append demo_cleaned demo_session).
Qed.

(** The result inside a successful append answer. *)
Definition append_ok (a : answer) : option AppendResult :=
  match a with AnsAppend _ (Ok r) => Some r | _ => None end.

Lemma demo_answer (s : mem) r :
  append_ok (demo_run demo_append s).1 = Some r -> (demo_run demo_append s).1 = AnsAppend demo_event (Ok r).
Proof.
  unfold demo_run, demo_append, pmap. rewrite run_bind.
  destruct (run (frozen_handler 5000000) _ s) as [[r'|e] s']; cbn; congruence.
Qed.

Lemma demo_first : exists r, append_ok (demo_run demo_append demo_start).1 = Some r /\ Duplicate r = false.
Proof. eexists. split; vm_compute; reflexivity. Qed.

Lemma demo_second : exists r, append_ok (demo_run demo_append demo_cleaned).1 = Some r /\ Duplicate r = true.
Proof. eexists. split; vm_compute; reflexivity. Qed.

(** ** Main theorem *)

(** C3: Appends are exactly once while no key expires.  Any number of nodes run
    the store's methods concurrently, with failed statements and crashes;
    their clocks show the instants [P] and their cleanup runs use the cutoffs
    [cut], none of which lies after an instant of [P] in milliseconds (no
    cleanup at all, with arbitrary clocks, is the case where [cut] is empty).
    Then two calls of [AppendEventExactlyOnce] for the same stream and
    non-empty idempotency key that both return without error return the same
    event identifier, and that event is stored with the payload both results
    report. *)
Theorem append_exactly_once {UU : UUID} (P cut : gotime -> Prop) sha ts s i j ti tj ev1 ev2 r1 r2 :
  (forall t b, P t -> cut b -> b <= cql_ts t) ->
  reachable (clocked P (legal true)) (lifetime_call cut sha) (mkWorld empty_tables ∅) (ts, s) ->
  ts !! i = Some ti -> ts !! j = Some tj ->
  code ti = Ret (AnsAppend ev1 (Ok r1)) -> code tj = Ret (AnsAppend ev2 (Ok r2)) ->
  default_stream (Stream ev1) = default_stream (Stream ev2) ->
  IdempotencyKey ev1 = IdempotencyKey ev2 -> IdempotencyKey ev1 <> "" ->
  exists id c occ,
    ID (Event r1) = uuid_String id /\ ID (Event r2) = uuid_String id /\
    events_by_id (w_tables s) !! id = Some (c, occ) /\
    Payload (Event r1) = c_payload c /\ Payload (Event r2) = c_payload c.
Proof.
  intros Hcut Hr Hi Hj Ci Cj Hst Hk Hne.
  destruct (lifetime_appends P cut Hcut sha ts s ti ev1 r1) as (id1 & c1 & o1 & E1 & L1 & K1 & I1);
    [done|by eapply list_elem_of_lookup_2|done|].
  destruct (lifetime_appends P cut Hcut sha ts s tj ev2 r2) as (id2 & c2 & o2 & E2 & L2 & K2 & I2);
    [done|by eapply list_elem_of_lookup_2|done|].
  destruct (I1 eq_refl Hne) as (row1 & R1 & <-).
  destruct (I2 eq_refl ltac:(congruence)) as (row2 & R2 & <-).
  rewrite Hst, Hk in R1.
  assert (row1 = row2) as -> by congruence.
  assert (c1 = c2) as -> by congruence.
  exists (i_event_id row2), c2, o2.
  split_and!; [done|done|done|by rewrite <- K1|by rewrite <- K2].
Qed.

Lemma append_exactly_once_witness :
  exists r1 r2, append_ok (demo_run demo_append demo_start).1 = Some r1 /\
    append_ok (demo_run demo_append demo_cleaned).1 = Some r2 /\
    Duplicate r1 = false /\ Duplicate r2 = true /\
    exists id, ID (Event r1) = uuid_String id /\ ID (Event r2) = uuid_String id.
Proof.
  destruct demo_first as (r1 & E1 & D1). destruct demo_second as (r2 & E2 & D2).
  exists r1, r2. split_and!; [done..|].
  destruct (append_exactly_once demo_clock demo_cut (fun s => s) _ _ 2 0 _ _ demo_event demo_event r1 r2
    ltac:(intros t b -> Hb; exact Hb)
    demo_reachable eq_refl eq_refl (f_equal Ret (demo_answer _ _ E1))
    (f_equal Ret (demo_answer _ _ E2)) eq_refl eq_refl) as (id & c & occ & ? & ? & _);
    [discriminate|].
  eauto.
Defined.
End StoreInv.
