(* ===== verification/Keys.v ===== *)
(** * Idempotency keys that can no longer be used

    [AppendEventExactlyOnce] claims the key, files it for the cleanup, and
    stores the event, in three statements.  If the second one fails, the key
    belongs to an event that does not exist, and the cleanup, which finds keys
    by their filing, never sees it.  [stuck] is that state; it is kept by every
    call of the store. *)

From S2P Require Import Prelude Prog Contracts Cql Session CassStore StoreInv.

Module Keys.
Import CassStore StoreInv.

Section Stuck.
Context {UU : UUID}.
Variables (st k : string) (id : uuid).

(** The key [k] of stream [st] is claimed for [id], no event has that
    identifier, and the cleanup has no record of the key. *)
Record stuck (s : world) : Prop := mkStuck {
  stuck_claimed : claimed st k id s;
  stuck_lost : events_by_id (w_tables s) !! id = None;
  stuck_unfiled t : idempotency_by_created (w_tables s) !! (t, (st, k)) = None;
  stuck_issued : id ∈ w_issued s
}.

(** Writes that keep a stuck key stuck. *)
Definition harmless (mu : mutation) : Prop :=
  match mu with
  | InsertEventsById i _ _ => i <> id
  | InsertIdempotencyByCreated _ st' k' _ | DeleteIdempotencyKey st' k' => (st', k') <> (st, k)
  | _ => True
  end.

(** Answers that statements can have while the key is stuck. *)
Definition possible_read {X} (q : query X) : result X -> Prop :=
  match q in query X return result X -> Prop with
  | SelectEventById i => fun r => i = id -> forall x, r <> Ok x
  | _ => fun _ => True
  end.

Definition possible_scan {X} (q : scan X) : list X -> Prop :=
  match q in scan X return list X -> Prop with
  | ScanIdempotency _ => Forall (fun row => row.2 <> (st, k))
  | _ => fun _ => True
  end.

Definition possible_cas {X} (c : cas X) : result (bool * X) -> Prop :=
  match c in cas X return result (bool * X) -> Prop with
  | CasInsertIdempotencyKey st' k' _ _ _ => fun r =>
      (st', k') = (st, k) -> forall x, r = Ok x -> x = (false, id)
  | _ => fun _ => True
  end.

Definition possible {X} (e : storeE X) : X -> Prop :=
  match e in storeE X return X -> Prop with
  | ETimeUUID => fun u => u <> id
  | ERead q => possible_read q
  | EIter q => fun r => possible_scan q r.1
  | ECas _ c => possible_cas c
  | _ => fun _ => True
  end.

(** Programs that write nothing harmful as long as they get such answers, and
    then return something in [Q]. *)
Fixpoint careful {A} (p : prog storeE A) (Q : A -> Prop) : Prop :=
  match p with
  | Ret a => Q a
  | Vis e f =>
      match e with EExec b => Forall harmless b | _ => True end /\
      forall x, possible e x -> careful (f x) Q
  end.

Lemma careful_bind {A B} (p : prog storeE A) (f : A -> prog storeE B) Q :
  careful p (fun a => careful (f a) Q) -> careful (pbind p f) Q.
Proof. induction p as [a|X e g IH]; cbn; [done|]. naive_solver. Qed.

Lemma careful_weaken {A} (p : prog storeE A) (Q Q' : A -> Prop) :
  (forall a, Q a -> Q' a) -> careful p Q -> careful p Q'.
Proof. intros HQ. induction p as [a|X e g IH]; cbn; [by apply HQ|]. naive_solver. Qed.

(** ** The state stays stuck *)

Lemma stuck_mutation mu t iss :
  harmless mu -> stuck (mkWorld t iss) -> stuck (mkWorld (apply_mutation mu t) iss).
Proof.
  intros Hmu [(row & Hk & Hi) Hl Hf Hs]. destruct t as [ebs ebi ik ic oe rs ob inb dt di].
  destruct mu; cbn in *; constructor; cbn in *; try done; try (by exists row).
  - intros t. rewrite lookup_insert_ne; [apply Hf|congruence].
  - by rewrite lookup_insert_ne.
  - exists row. cbn. by rewrite lookup_delete_ne by congruence.
  - intros t. rewrite lookup_delete. case_decide; [done|]. apply Hf.
Qed.

Lemma stuck_batch b s : Forall harmless b -> stuck s -> stuck (after b s).
Proof.
  unfold after, with_tables, apply_batch. destruct s as [t iss]. cbn.
  intros Hb. revert t. induction Hb as [|mu b ? _ IH]; intros t Hs; cbn; [done|].
  by apply IH, stuck_mutation.
Qed.

Lemma stuck_cas X (c : cas X) s : stuck s -> stuck (with_tables s (apply_cas c (w_tables s)).2).
Proof.
  intros [(row & Hk & Hi) Hl Hf Hs]. destruct s as [[ebs ebi ik ic oe rs ob inb dt di] iss]. cbn in *.
  destruct c; cbn; repeat case_match; constructor; cbn in *; try done; try (by exists row).
  exists row. cbn. rewrite lookup_insert_ne; [done|]. congruence.
Qed.

(** What is answered while the key is stuck. *)
Lemma stuck_scan s n : stuck s -> possible_scan (ScanIdempotency n) (eval_scan (ScanIdempotency n) (w_tables s)).
Proof.
  intros Hs. cbn. apply Forall_take, Forall_forall.
  intros row ([[t [st' k']] i] & -> & Hin)%list_elem_of_fmap E. cbn in E. simplify_eq.
  rewrite merge_sort_Permutation in Hin. apply elem_of_map_to_list in Hin.
  by rewrite (stuck_unfiled _ Hs) in Hin.
Qed.

Lemma stuck_step {A} X (e : storeE X) (f : X -> prog storeE A) Q s x s' :
  careful (Vis e f) Q -> stuck s -> legal true X e s x s' -> stuck s' /\ careful (f x) Q.
Proof.
  intros [Hb Hf] Hs HL.
  enough (stuck s' /\ possible e x) by naive_solver.
  destruct e as [| |n|Y q|Y q|b|Y d c]; cbn -[apply_cas column_mismatch] in HL |- *.
  - by subst.
  - destruct HL as [Hu ->]. split; [|intros ->; destruct Hs; done].
    destruct Hs. constructor; cbn; try done. set_solver.
  - by destruct HL as [_ ->].
  - destruct HL as [-> HL]. split; [done|]. destruct q; try done. intros -> y ->. cbn in HL.
    by rewrite (stuck_lost _ Hs) in HL.
  - destruct HL as [-> HL]. split; [done|]. destruct q; try done.
    pose proof (stuck_scan s limit Hs) as Hscan. destruct x as [rows [err|]]; cbn in *; [|by subst].
    destruct HL as [_ [rest Hrest]]. rewrite Hrest in Hscan. by apply Forall_app in Hscan as [? _].
  - split; [|done].
    assert (s' = s \/ s' = after b s) as [->| ->] by (destruct x; naive_solver); [done|].
    by apply stuck_batch.
  - assert (s' = s \/ s' = with_tables s (apply_cas c (w_tables s)).2) as Hs'.
    { destruct (apply_cas c (w_tables s)) as [[a y] t']. destruct x as [[a' y']|]; naive_solver. }
    split; [destruct Hs' as [->| ->]; [done|by apply stuck_cas]|].
    destruct c; try done. cbn. intros E [a y] ->. simplify_eq.
    destruct (stuck_claimed _ Hs) as (row & Hk & <-). destruct s as [[] iss]. cbn in *. rewrite Hk in HL.
    naive_solver.
Qed.

(** ** Every call of the store is careful *)

Ltac careful_step :=
  repeat first
    [ exact I
    | match goal with |- careful (Vis _ _) _ => split; [repeat constructor|intros ? ?] end
    | progress unfold perform; cbn [pbind]
    | match goal with |- careful (match ?x with _ => _ end) _ => destruct x end
    | progress cbn [pbind careful] ].

Definition any {A} : A -> Prop := fun _ => True.

Lemma append_new_careful ev occ i Q :
  i <> id -> (forall r, Q r) -> careful (append_new ev (default_stream (Stream ev)) occ i) Q.
Proof.
  intros Hi HQ. unfold append_new, perform; cbn [pbind].
  split; [repeat constructor; done|]. intros [e|] _; apply HQ.
Qed.

(** What an append under the key returns. *)
Definition rejected (ev : EventRecord) (r : result AppendResult) : Prop :=
  default_stream (Stream ev) = st -> IdempotencyKey ev = k -> exists e, r = Err e.

Lemma rejected_err ev e : rejected ev (Err e).
Proof. intros _ _. eauto. Qed.

Lemma append_existing_careful ev i :
  (default_stream (Stream ev) = st -> IdempotencyKey ev = k -> i = id) ->
  careful (append_existing ev i) (rejected ev).
Proof.
  intros Hi. unfold append_existing, perform; cbn [pbind]. split; [done|].
  intros [[c occ]|e] Hr; [|apply rejected_err]. cbn in Hr.
  assert (forall r, rejected ev r) as Hany.
  { intros r E1 E2. by destruct (Hr (Hi E1 E2) (c, occ)). }
  unfold isOutboxPublished, perform. cbn [pbind]. split; [done|].
  intros [state|e] _; apply Hany.
Qed.

(** The append from the drawing of the identifier on. *)
Lemma append_careful sha m ev :
  k <> "" -> careful (AppendEventExactlyOnce sha m ev) (rejected ev).
Proof.
  intros Hne. unfold AppendEventExactlyOnce. destruct (negb _); [apply rejected_err|].
  apply careful_bind. eapply (careful_weaken _ any); [|by destruct (IsZero _)].
  intros occ _. split; [done|]. intros i Hi. cbn in Hi. cbn [pbind]. case_bool_decide as Hkey.
  { apply append_new_careful; [done|]. intros r _ E. congruence. }
  split; [done|]. intros now1 _. split; [done|]. intros [[applied existing]|e] Hc; [|apply rejected_err].
  cbn in Hc. cbn [pbind]. destruct applied; cbn [negb].
  2: { apply append_existing_careful. intros E1 E2.
       by injection (Hc ltac:(congruence) (false, existing) eq_refl) as ->. }
  assert ((default_stream (Stream ev), IdempotencyKey ev) <> (st, k)) as Hother.
  { intros E. discriminate (Hc E (true, existing) eq_refl). }
  split; [done|]. intros now2 _. split; [by repeat constructor|]. intros [e|] _; [apply rejected_err|].
  apply append_new_careful; [done|]. intros r E1 E2. congruence.
Qed.

Lemma pending_loop_careful limit rows out : careful (pending_loop limit rows out) any.
Proof.
  revert out. induction rows as [|[[occ i] c] rows IH]; intros out; cbn [pending_loop]; [done|].
  apply careful_bind. eapply (careful_weaken _ any);
    [|unfold loadRetryState; split; [done|]; intros [row|e] _; cbn [pbind]; [done|by destruct (err_notfound e)]].
  intros [[[[n nx] q] lu]|e] _; [|apply IH]. split; [done|]. intros now _.
  cbn [pbind]. destruct (_ || _ || _); [apply IH|]. destruct (_ >=? _); [done|apply IH].
Qed.

Lemma delete_loop_careful {X} (batch : X -> list mutation) rows n :
  Forall (fun row => Forall harmless (batch row)) rows -> careful (delete_loop batch rows n) any.
Proof.
  intros Hb. revert n. induction Hb as [|row rows ? _ IH]; intros n; cbn; [done|].
  split; [done|]. intros. apply IH.
Qed.

Lemma CleanupExpired_careful m ib db limit : careful (CleanupExpired m ib db limit) any.
Proof.
  unfold CleanupExpired. destruct (negb _); [done|]. split; [done|]. intros [rows err] Hrows. cbn in Hrows.
  destruct err as [e|]; [done|]. cbn [pbind]. apply careful_bind. eapply (careful_weaken _ any).
  - intros n _. split; [done|]. intros [drows [e|]] _; [done|]. cbn [pbind].
    apply careful_bind. eapply (careful_weaken _ any); [done|].
    apply delete_loop_careful, Forall_true. intros [q i]. by repeat constructor.
  - apply delete_loop_careful, Forall_forall. rewrite Forall_forall in Hrows.
    intros [t [st' k']] [_ Hne%Hrows]%list_elem_of_filter. by repeat constructor.
Qed.

Lemma record_failure_careful i le b mx j qa n ff : careful (record_failure i le b mx j qa n ff) any.
Proof.
  unfold record_failure. generalize (wrap64 (n + 1)). intros n'. apply careful_bind.
  eapply (careful_weaken _ any).
  - intros wait _. split; [done|]. intros now _. cbn [pbind perform].
    split; [by repeat constructor|]. intros [e|] _; [done|]. destruct (negb _); [done|].
    split; [done|]. intros [row|e] _; [|done]. split; [by repeat constructor|]. done.
  - unfold jitter. destruct (_ >? _); [|exact I]. destruct (_ >? _); [|exact I]. by split.
Qed.

Definition answer_rejected (a : answer) : Prop :=
  match a with AnsAppend ev r => rejected ev r | _ => True end.

Lemma store_prog_careful sha cleanup p : k <> "" -> store_prog sha cleanup p -> careful p answer_rejected.
Proof.
  intros Hne. destruct 1 as [m ev|m i br|m n|m co mid|m st' n|m i ow d|m i le b mx j q|m n|m i|m ib db n _];
    apply careful_bind; [by apply append_careful|..]; (eapply (careful_weaken _ any); [done|]).
  - unfold MarkOutboxPublished. careful_step.
  - unfold PendingOutboxEvents. destruct (negb _); [done|]. split; [done|]. intros [rows err] _. cbn [pbind].
    apply careful_bind. eapply careful_weaken; [|apply pending_loop_careful]. by destruct err.
  - unfold ClaimInboxMessage. careful_step.
  - unfold RecentEvents. careful_step.
  - unfold ClaimOutboxLease. careful_step.
  - unfold RecordOutboxFailure. destruct (negb _); [done|]. destruct (ParseUUID _); [|done].
    split; [done|]. intros [[n ff]|e] _; cbn [pbind]; [apply record_failure_careful|].
    destruct (err_notfound e); [apply record_failure_careful|done].
  - unfold ListDeadLetters. careful_step.
  - unfold ReplayDeadLetter. careful_step.
  - apply CleanupExpired_careful.
Qed.
End Stuck.

(** C34: A key whose append was cut short stays broken for good.  If the key is
    claimed for an event that was never stored and the claim was never filed
    for the cleanup, then whatever the nodes run afterwards, any methods of
    the store with any interleaving, clocks, failures, crashes and cleanup
    cutoffs: the key stays in that state, and every append under it that
    returns, returns an error. *)
Theorem append_stuck_key {UU : UUID} sha st k id s0 ts s :
  k <> "" -> stuck st k id s0 ->
  reachable (legal true) (store_call sha true) s0 (ts, s) ->
  stuck st k id s /\
  forall t ev r, t ∈ ts -> code t = Ret (AnsAppend ev r) ->
    default_stream (Stream ev) = st -> IdempotencyKey ev = k -> exists e, r = Err e.
Proof.
  intros Hne Hs Hr.
  destruct (reachable_strengthen (legal true) (store_call sha true) (stuck st k id)
    (fun p => careful st k id p (answer_rejected st k)) s0 (ts, s)) as (Hs' & HF & _); [done| | |done|].
  - intros p Q [Hp _]. by eapply store_prog_careful.
  - intros X e f s1 x s2. apply stuck_step.
  - split; [done|]. intros t ev r Ht Ct. rewrite Forall_forall in HF. specialize (HF t Ht).
    rewrite Ct in HF. exact HF.
Qed.

(** ** A concrete run

    The statement that files the key times out without taking effect; then the
    cleanup runs with a cutoff in the far future, and the append is repeated. *)

Definition cut_short : answer * fmem := run fmem_handler demo_append (mem_init 0, [NoFault; FailBefore]).
Definition swept : prog storeE answer :=
  pmap AnsCleanup (CleanupExpired demo_module (1000000 * Second) (1000000 * Second) 100).
Definition after_sweep : answer * fmem := run fmem_handler swept cut_short.2.
Definition retried : answer * fmem := run fmem_handler demo_append after_sweep.2.

Lemma append_stuck_key_witness :
  exists e, retried.1 = AnsAppend demo_event (Err e) /\
  stuck "orders" "order-A1001-v1" (0%nat : uuid) (fmem_view retried.2).
Proof.
  assert (exists r, retried.1 = AnsAppend demo_event r) as [r Hr].
  { unfold retried, demo_append, pmap. rewrite run_bind. destruct (run fmem_handler _ _). cbn. eauto. }
  destruct (append_stuck_key (UU := nat_uuid) (fun s => s) "orders" "order-A1001-v1" 0%nat (fmem_view cut_short.2)
    [mkThread (Ret retried.1) (append_answer false); mkThread (Ret after_sweep.1) (append_answer false)]
    (fmem_view retried.2)) as [H1 H2].
  - discriminate.
  - constructor; [exists (@mkIdem nat_uuid 0%nat "{}" 0)|..]; vm_compute; repeat split; reflexivity.
  - eapply reachable_run; [eapply reachable_run; [apply rtc_refl| |]| |].
    + split; [by apply (call_cleanup (fun s => s) true demo_module (1000000 * Second) (1000000 * Second) 100)|reflexivity].
    + exact (session_exec _ fmem_view _ swept cut_short.2 fmem_session_ok).
    + split; [apply call_append|reflexivity].
    + exact (session_exec _ fmem_view _ demo_append after_sweep.2 fmem_session_ok).
  - destruct (H2 (mkThread (Ret retried.1) (append_answer false)) demo_event r) as [e ->];
      [by left|exact (f_equal Ret Hr)|reflexivity|reflexivity|]. eauto.
Defined.
End Keys.
