(* ===== verification/Torn.v ===== *)
(** * The store when batches are torn

    Cassandra applies a logged batch partition by partition: readers may see
    some of its statements and not others, and a statement of a batch whose
    coordinator answered with a timeout may still arrive later.  Here every
    statement of a batch takes effect on its own, in any order, at any time
    after it was sent, repeatedly or never, whatever was answered.  What
    survives is the agreement of the copies of an event. *)

From S2P Require Import Prelude Prog Contracts Cql Session CassStore StoreInv.

Module Torn.
Import CassStore StoreInv.

Section Copies.
Context {UU : UUID}.

(** The shared state with the statements sent so far. *)
Record tworld := mkTorn { t_world : world; t_sent : list mutation }.

Definition t_tables (s : tworld) : tables := w_tables (t_world s).
Definition t_issued (s : tworld) : gset uuid := w_issued (t_world s).

(** A statement that was sent arrives. *)
Definition arrive (mu : mutation) (s : tworld) : tworld :=
  mkTorn (with_tables (t_world s) (apply_mutation mu (t_tables s))) (t_sent s).

Definition arrives (s s' : tworld) : Prop := exists mu, mu ∈ t_sent s /\ s' = arrive mu s.

Definition send (b : list mutation) (s : tworld) : tworld := mkTorn (t_world s) (b ++ t_sent s).

(** While an effect is carried out, statements sent earlier, and those of the
    batch itself, may arrive; the answer to a batch says nothing about it. *)
Definition torn : legality storeE tworld := fun X e s x s' =>
  match e with
  | EExec b => rtc arrives (send b s) s'
  | e => exists s1, rtc arrives s s1 /\ legal true X e (t_world s1) x (t_world s') /\
      t_sent s' = t_sent s1
  end.

(** ** What stays true *)

(** The event [id] was sent with content [c] and time [occ]. *)
Definition origin (l : list mutation) (id : uuid) (c : content) (occ : gotime) : Prop :=
  exists o, InsertEventsById id o c ∈ l /\ cql_ts o = occ.

(** The statement writes a copy of the event that was sent under its id. *)
Definition conforms (l : list mutation) (t : tables) (mu : mutation) : Prop :=
  match mu with
  | InsertEventsByStream occ id c | InsertOutboxEvents id c occ _ | InsertOutboxByState occ id c =>
      origin l id c (cql_ts occ)
  | UpdateOutboxPublished id _ _ _ => is_Some (outbox_events t !! id)
  | InsertDeadByTime _ id d | InsertDeadById id _ d =>
      (exists occ, origin l id (d_content d) occ) /\ is_Some (outbox_events t !! id)
  | _ => True
  end.

Record tinv (s : tworld) : Prop := mkTinv {
  ti_issued id c occ : origin (t_sent s) id c occ -> id ∈ t_issued s;
  ti_unique id c occ c' occ' :
    origin (t_sent s) id c occ -> origin (t_sent s) id c' occ' -> c = c' /\ occ = occ';
  ti_sent mu : mu ∈ t_sent s -> conforms (t_sent s) (t_tables s) mu;
  ti_by_id id c occ : events_by_id (t_tables s) !! id = Some (c, occ) -> origin (t_sent s) id c occ;
  ti_by_stream st occ id c : events_by_stream (t_tables s) !! (st, (occ, id)) = Some c ->
    origin (t_sent s) id c occ /\ c_stream c = st;
  ti_outbox id o : outbox_events (t_tables s) !! id = Some o ->
    exists c occ, o_body o = Some (c, occ) /\ origin (t_sent s) id c occ;
  ti_pending occ id c : outbox_by_state (t_tables s) !! (occ, id) = Some c -> origin (t_sent s) id c occ;
  ti_dead_time q id d : dead_letters_by_time (t_tables s) !! (q, id) = Some d ->
    exists occ, origin (t_sent s) id (d_content d) occ;
  ti_dead_id id q d : dead_letters_by_id (t_tables s) !! id = Some (q, d) ->
    (exists occ, origin (t_sent s) id (d_content d) occ) /\ is_Some (outbox_events (t_tables s) !! id)
}.

(** What others may do to a call that owns the fresh identifiers [g]: more is
    sent, under other identifiers, and outbox rows stay. *)
Record trely (g : gset uuid) (s s' : tworld) : Prop := mkTrely {
  tr_sent : t_sent s ⊆ t_sent s';
  tr_issued : t_issued s ⊆ t_issued s';
  tr_fresh id : id ∈ g -> (forall c occ, ~ origin (t_sent s) id c occ) -> forall c occ, ~ origin (t_sent s') id c occ;
  tr_outbox id : is_Some (outbox_events (t_tables s) !! id) -> is_Some (outbox_events (t_tables s') !! id)
}.

#[global] Instance trely_preorder g : PreOrder (trely g).
Proof.
  split.
  - intros s. by constructor.
  - intros s1 s2 s3 [A1 A2 A3 A4] [B1 B2 B3 B4]. constructor; [by trans (t_sent s2)|by trans (t_issued s2)|auto..].
Qed.

Lemma origin_mono l l' id c occ : l ⊆ l' -> origin l id c occ -> origin l' id c occ.
Proof. intros Hl (o & Ho & E). exists o. split; [by apply Hl|done]. Qed.

Lemma conforms_mono l l' t t' mu :
  l ⊆ l' -> (forall id, is_Some (outbox_events t !! id) -> is_Some (outbox_events t' !! id)) ->
  conforms l t mu -> conforms l' t' mu.
Proof.
  intros Hl Ht. destruct mu; cbn; eauto using origin_mono.
  all: intros [[occ ?] ?]; eauto using origin_mono.
Qed.

Lemma tinv_start : tinv (mkTorn (mkWorld empty_tables ∅) []).
Proof.
  constructor; unfold t_tables, origin; cbn; intros *; rewrite ?lookup_empty; try done.
  - by intros (? & ?%not_elem_of_nil & _).
  - by intros (? & ?%not_elem_of_nil & _).
  - by intros ?%not_elem_of_nil.
Qed.

(** An arriving statement never removes an outbox row. *)
Lemma mutation_outbox mu t id :
  is_Some (outbox_events t !! id) -> is_Some (outbox_events (apply_mutation mu t) !! id).
Proof.
  destruct t, mu; cbn; try done; intros [o Ho]; rewrite lookup_insert; case_decide; eauto.
Qed.

Lemma arrive_ok mu s : tinv s -> mu ∈ t_sent s -> tinv (arrive mu s).
Proof.
  intros [Iss Iun Ise Iid Ist Iou Ipe Idt Idi] Hmu. pose proof (Ise mu Hmu) as Hc.
  assert (forall mu', mu' ∈ t_sent s -> conforms (t_sent s) (apply_mutation mu (t_tables s)) mu') as Ise'.
  { intros mu' ?. eapply conforms_mono; [done| |by apply Ise]. intros. by apply mutation_outbox. }
  unfold t_tables, t_issued in *. destruct s as [[[ebs ebi ik ic oe rs ob inb dt di] iss] l]. cbn in *.
  destruct mu; (constructor; unfold t_tables, t_issued; cbn in *; [exact Iss|exact Iun|exact Ise'|..]); try done.
  - intros st o i c'. rewrite lookup_insert. case_decide; [intros; simplify_eq; done|apply Ist].
  - intros i c' o. rewrite lookup_insert. case_decide; [|apply Iid].
    intros; simplify_eq. by exists occurred_at.
  - intros i o. rewrite lookup_insert. case_decide; [|apply Iou]. intros; simplify_eq. eauto.
  - intros i q d Hd. destruct (Idi _ _ _ Hd) as [? [o Ho]]. split; [done|].
    rewrite lookup_insert. case_decide; eauto.
  - intros o i c'. rewrite lookup_insert. case_decide; [intros; simplify_eq; done|apply Ipe].
  - intros i o. rewrite lookup_insert. case_decide; [|apply Iou]. intros; simplify_eq.
    destruct Hc as [o Ho]. rewrite Ho. cbn. by apply Iou.
  - intros i q d Hd. destruct (Idi _ _ _ Hd) as [? [o Ho]]. split; [done|].
    rewrite lookup_insert. case_decide; eauto.
  - intros o i c'. rewrite lookup_delete. case_decide; [done|apply Ipe].
  - intros q i d'. rewrite lookup_insert. case_decide; [intros; simplify_eq; naive_solver|apply Idt].
  - intros i q d'. rewrite lookup_insert. case_decide; [intros; simplify_eq; naive_solver|apply Idi].
  - intros q i d'. rewrite lookup_delete. case_decide; [done|apply Idt].
  - intros i q d'. rewrite lookup_delete. case_decide; [done|apply Idi].
Qed.

Lemma arrives_ok s s' : rtc arrives s s' -> tinv s -> tinv s' /\ forall f, trely f s s'.
Proof.
  induction 1 as [|s1 s2 s3 (mu & Hmu & ->) _ IH]; intros Hinv; [by split; [|reflexivity]|].
  destruct (IH (arrive_ok _ _ Hinv Hmu)) as [? HR]. split; [done|].
  intros f. trans (arrive mu s1); [|by apply HR]. constructor; [done|done|done|].
  intros id. apply mutation_outbox.
Qed.
(** Statements that insert no event. *)
Definition no_event (mu : mutation) : Prop := match mu with InsertEventsById _ _ _ => False | _ => True end.

Lemma origin_send l b id c occ : Forall no_event b -> origin (b ++ l) id c occ <-> origin l id c occ.
Proof.
  intros Hb. rewrite Forall_forall in Hb. split; [|apply origin_mono; set_solver].
  intros (o & [Ho|Ho]%elem_of_app & E); [by destruct (Hb _ Ho)|by exists o].
Qed.

Lemma send_ok b s :
  tinv s -> Forall no_event b -> Forall (conforms (t_sent s) (t_tables s)) b ->
  tinv (send b s) /\ forall f, trely f s (send b s).
Proof.
  intros [Iss Iun Ise Iid Ist Iou Ipe Idt Idi] Hno Hb.
  assert (t_sent s ⊆ b ++ t_sent s) as Hsub by set_solver.
  split.
  - constructor; unfold send; cbn; try setoid_rewrite origin_send; try done.
    intros mu [Hmu|Hmu]%elem_of_app; (eapply conforms_mono; [done|done|]); [|by apply Ise].
    rewrite Forall_forall in Hb. by apply Hb.
  - intros f. constructor; [done|done| |done]. cbn. intros id _. by setoid_rewrite origin_send.
Qed.

(** The batch of a new event, under an identifier not used before. *)
Lemma origin_append l i c o id c' occ' :
  origin (append_batch i c o ++ l) id c' occ' <->
  origin l id c' occ' \/ (id = i /\ c' = c /\ occ' = cql_ts o).
Proof.
  unfold origin, append_batch. split.
  - intros (o' & [Ho|Ho]%elem_of_app & <-); [right|left; by exists o'].
    apply list_elem_of_In in Ho. cbn in Ho. naive_solver.
  - intros [(o' & Ho & E)|(-> & -> & ->)]; [exists o'; set_solver|exists o].
    split; [apply elem_of_app; left; apply list_elem_of_In; cbn; tauto|done].
Qed.

Lemma send_append_ok g i c o s :
  tinv s -> i ∈ g -> g ⊆ t_issued s -> (forall c occ, ~ origin (t_sent s) i c occ) ->
  tinv (send (append_batch i c o) s) /\ forall f, f ## g -> trely f s (send (append_batch i c o) s).
Proof.
  intros [Iss Iun Ise Iid Ist Iou Ipe Idt Idi] Hi Hg Hnew. set (b := append_batch i c o).
  assert (t_sent s ⊆ b ++ t_sent s) as Hsub by set_solver.
  assert (forall id c' occ', origin (t_sent s) id c' occ' -> origin (b ++ t_sent s) id c' occ') as Hmono
    by (intros; by eapply origin_mono).
  split.
  - constructor; change (t_tables (send _ _)) with (t_tables s);
      change (t_issued (send _ _)) with (t_issued s); unfold send; cbn [t_sent].
    + intros id c' occ' [?|(-> & _)]%origin_append; [by eapply Iss|set_solver].
    + intros id c1 o1 c2 o2 [H1|(-> & -> & ->)]%origin_append [H2|(E & -> & ->)]%origin_append;
        [by eapply Iun|subst; by destruct (Hnew c1 o1)|by destruct (Hnew c2 o2)|done].
    + intros mu [Hmu|Hmu]%elem_of_app; [|eapply conforms_mono; [done|done|by apply Ise]].
      assert (origin (b ++ t_sent s) i c (cql_ts o)) by (apply origin_append; by right).
      apply list_elem_of_In in Hmu. cbn in Hmu. by destruct Hmu as [<-|[<-|[<-|[<-|[<-|[]]]]]].
    + eauto.
    + intros st o' id c' H. destruct (Ist _ _ _ _ H). eauto.
    + intros id o' H. destruct (Iou _ _ H) as (? & ? & ? & ?). eauto.
    + eauto.
    + intros q id d H. destruct (Idt _ _ _ H). eauto.
    + intros id q d H. destruct (Idi _ _ _ H) as [[? ?] ?]. eauto.
  - intros f Hf. constructor; [done|done| |done]. intros id Hid Hn c' occ' [H|(-> & _)]%origin_append;
      [by eapply Hn|set_solver].
Qed.

(** ** Proof rules for the effects *)

Abbreviation tsound := (sound torn tinv t_issued trely).

Section Rules.
Context {B : Type} (Q : gset uuid -> B -> tworld -> Prop).

(** Effects that neither write nor draw an identifier. *)
Lemma torn_pure {X} g (e : storeE X) k s :
  (forall s x s', legal true X e s x s' -> s' = s) ->
  (forall s x s', torn X e s x s' -> exists s1, rtc arrives s s1 /\
     legal true X e (t_world s1) x (t_world s') /\ t_sent s' = t_sent s1) ->
  (forall s' x, trely g s s' -> tinv s' -> legal true X e (t_world s') x (t_world s') ->
    tsound g (k x) Q s') ->
  tsound g (Vis e k) Q s.
Proof.
  intros Hpure Htorn Hk s1 x s2 HR HI Hg HL.
  destruct (Htorn _ _ _ HL) as (s3 & Harr & HL' & Hsent). pose proof (Hpure _ _ _ HL') as Hw.
  assert (s2 = s3) as -> by (destruct s2, s3; cbn in *; by subst).
  destruct (arrives_ok _ _ Harr HI) as [HI' HR'].
  split_and!; [done|by apply (tr_issued ∅)|by intros; apply HR'|].
  exists g. split; [set_solver|]. apply Hk; [by trans s1|done..].
Qed.

Lemma torn_now g k s :
  (forall s' now, trely g s s' -> tinv s' -> tsound g (k now) Q s') -> tsound g (Vis ENow k) Q s.
Proof. intros Hk. apply torn_pure; [done|done|]. intros; by apply Hk. Qed.

Lemma torn_intn g n k s :
  (forall s' i, trely g s s' -> tinv s' -> tsound g (k i) Q s') -> tsound g (Vis (EIntn n) k) Q s.
Proof. intros Hk. apply torn_pure; [by intros ??? [_ ?]|done|]. intros; by apply Hk. Qed.

Lemma torn_iter {X} g (q : scan X) k s :
  (forall s' r, trely g s s' -> tinv s' -> tsound g (k r) Q s') -> tsound g (Vis (EIter q) k) Q s.
Proof. intros Hk. apply torn_pure; [by intros ??? [? _]|done|]. intros; by apply Hk. Qed.

Lemma torn_read {X} g (q : query X) k s :
  (forall s' x, trely g s s' -> tinv s' -> eval_query q (t_tables s') = Some x ->
    tsound g (k (Ok x)) Q s') ->
  (forall s' e, trely g s s' -> tinv s' ->
    (err_notfound e = true -> eval_query q (t_tables s') = None) -> tsound g (k (Err e)) Q s') ->
  tsound g (Vis (ERead q) k) Q s.
Proof.
  intros Hok Herr. apply torn_pure; [by intros ??? [? _]|done|].
  intros s' [x|e] HR HI [_ HL]; [by apply Hok|].
  apply Herr; [done..|]. intros E. by rewrite E in HL.
Qed.

Lemma torn_uuid g k s :
  (forall s' u, trely g s s' -> tinv s' -> (forall c occ, ~ origin (t_sent s') u c occ) ->
    tsound ({[u]} ∪ g) (k u) Q s') ->
  tsound g (Vis ETimeUUID k) Q s.
Proof.
  intros Hk s1 u s2 HR HI Hg (s3 & Harr & [Hu Hw] & Hsent).
  destruct (arrives_ok _ _ Harr HI) as [HI3 HR3].
  assert (s2 = mkTorn (mkWorld (t_tables s3) ({[u]} ∪ t_issued s3)) (t_sent s3)) as ->
    by (destruct s2; cbn in *; by subst).
  assert (forall f, trely f s1 (mkTorn (mkWorld (t_tables s3) ({[u]} ∪ t_issued s3)) (t_sent s3))) as HR2.
  { intros f. trans s3; [done|]. constructor; cbn; [done|set_solver|done|done]. }
  assert (tinv (mkTorn (mkWorld (t_tables s3) ({[u]} ∪ t_issued s3)) (t_sent s3))) as HI2.
  { destruct HI3 as [Iss]. constructor; cbn; try done. intros. apply elem_of_union_r. eauto. }
  pose proof (tr_issued _ _ _ (HR2 ∅)).
  split_and!; [done|done|by intros|].
  exists ({[u]} ∪ g). split.
  { pose proof (tr_issued _ _ _ (HR3 ∅)). cbn. unfold t_issued in *. set_solver. }
  apply Hk; [by trans s1|done|]. cbn. intros c occ ?%(ti_issued _ HI3). done.
Qed.

Lemma torn_cas {X} g n (c : cas X) k s :
  (forall s' r, trely g s s' -> tinv s' -> tsound g (k r) Q s') -> tsound g (Vis (ECas n c) k) Q s.
Proof.
  intros Hk s1 r s2 HR HI Hg (s3 & Harr & HL & Hsent).
  destruct (arrives_ok _ _ Harr HI) as [HI3 HR3].
  assert (tinv s2 /\ forall f, trely f s3 s2) as [HI2 HR2].
  { assert (t_world s2 = t_world s3 \/
            t_world s2 = with_tables (t_world s3) (apply_cas c (t_tables s3)).2) as Hw.
    { unfold t_tables. cbn -[column_mismatch] in HL. destruct (apply_cas c _) as [[a x] t'].
      destruct r as [[? ?]|?]; naive_solver. }
    clear -HI3 Hsent Hw. destruct s2 as [w2 l2], s3 as [[[ebs ebi ik ic oe rs ob inb dt di] iss] l3].
    unfold t_tables in *. cbn in *. subst l2.
    destruct Hw as [->| ->]; [by split|].
    destruct HI3. destruct c; cbn; repeat case_match; (split; [by constructor|by intros; constructor]). }
  split_and!; [done|by trans (t_issued s3); apply (tr_issued ∅)|intros; by trans s3|].
  exists g. split; [set_solver|]. apply Hk; [|done]. trans s1; [done|]. by trans s3.
Qed.

(** A batch that inserts no event. *)
Lemma torn_exec g b k s :
  Forall no_event b ->
  (forall s', trely g s s' -> tinv s' -> Forall (conforms (t_sent s') (t_tables s')) b) ->
  (forall s' r, trely g s s' -> tinv s' -> tsound g (k r) Q s') ->
  tsound g (Vis (EExec b) k) Q s.
Proof.
  intros Hno Hb Hk s1 r s2 HR HI Hg HL. cbn in HL.
  destruct (send_ok b s1 HI Hno (Hb _ HR HI)) as [HIs HRs].
  destruct (arrives_ok _ _ HL HIs) as [HI2 HR2].
  assert (forall f, trely f s1 s2) as HR12 by (intros f; trans (send b s1); done).
  split_and!; [done|by apply (tr_issued ∅)|by intros|].
  exists g. split; [set_solver|]. apply Hk; [by trans s1|done].
Qed.

(** The batch of a new event. *)
Lemma torn_append g i c o k s :
  i ∈ g -> (forall c occ, ~ origin (t_sent s) i c occ) ->
  (forall s' r, tinv s' -> tsound ∅ (k r) Q s') ->
  tsound g (Vis (EExec (append_batch i c o)) k) Q s.
Proof.
  intros Hi Hnew Hk s1 r s2 HR HI Hg HL. cbn in HL.
  destruct (send_append_ok g i c o s1 HI Hi Hg (tr_fresh _ _ _ HR i Hi Hnew)) as [HIs HRs].
  destruct (arrives_ok _ _ HL HIs) as [HI2 HR2].
  assert (forall f, f ## g -> trely f s1 s2) as HR12 by (intros f ?; trans (send (append_batch i c o) s1); auto).
  split_and!; [done|apply (tr_issued ∅), HR12; set_solver|by intros; apply HR12|].
  exists ∅. split; [set_solver|]. by apply Hk.
Qed.
End Rules.

(** ** Every method keeps the copies in agreement *)

#[local] Arguments sound : simpl never.

(** Advance one effect. *)
Ltac tstep :=
  match goal with
  | |- sound _ _ _ _ _ (Ret _) _ _ => intros ? ? ?
  | |- sound _ _ _ _ _ (if ?b then _ else _) _ _ => destruct b eqn:?
  | |- sound _ _ _ _ _ (Vis ENow _) _ _ => apply torn_now; intros
  | |- sound _ _ _ _ _ (Vis (EIntn _) _) _ _ => apply torn_intn; intros
  | |- sound _ _ _ _ _ (Vis (EIter _) _) _ _ => apply torn_iter; intros
  | |- sound _ _ _ _ _ (Vis (ERead _) _) _ _ => apply torn_read; intros
  | |- sound _ _ _ _ _ (Vis ETimeUUID _) _ _ => apply torn_uuid; intros
  | |- sound _ _ _ _ _ (Vis (ECas _ _) _) _ _ => apply torn_cas; intros
  | |- sound _ _ _ _ _ (Vis (EExec _) _) _ _ => apply torn_exec; [by repeat constructor|intros|intros]
  end; unfold perform; cbn [pbind].

Definition t_any {A} : gset uuid -> A -> tworld -> Prop := fun _ _ _ => True.

Section Methods.
Variable sha256Hex : string -> string.

Lemma trely_origin g s s' id c occ :
  trely g s s' -> origin (t_sent s) id c occ -> origin (t_sent s') id c occ.
Proof. intros HR. apply origin_mono, (tr_sent _ _ _ HR). Qed.

(** The outbox row of an event has its content and time. *)
Lemma tinv_select s id x :
  tinv s -> eval_query (SelectOutboxEvent id) (t_tables s) = Some x ->
  origin (t_sent s) id x.1 x.2 /\ is_Some (outbox_events (t_tables s) !! id).
Proof.
  cbn. intros Hinv (o & Ho & ->)%fmap_Some_1.
  destruct (ti_outbox _ Hinv _ _ Ho) as (c & occ & -> & ?). eauto.
Qed.

(** Stored times are whole milliseconds. *)
Lemma origin_ts l id c occ : origin l id c occ -> origin l id c (cql_ts occ).
Proof. intros (o & Ho & <-). exists o. by rewrite cql_ts_idemp. Qed.

Lemma append_new_torn ev st occ i g s :
  i ∈ g -> (forall c occ, ~ origin (t_sent s) i c occ) ->
  tsound g (append_new ev st occ i) t_any s.
Proof.
  intros Hi Hnew. unfold append_new, perform; cbn [pbind]. apply torn_append; [done..|].
  intros s' [e|] _; by tstep.
Qed.

Lemma append_existing_torn ev i g s : tsound g (append_existing ev i) t_any s.
Proof.
  unfold append_existing, isOutboxPublished, perform; cbn [pbind].
  tstep; [|by tstep]. destruct x as [c occ]. cbn [pbind]. tstep; by tstep.
Qed.

Lemma append_torn m ev s : tsound ∅ (AppendEventExactlyOnce sha256Hex m ev) t_any s.
Proof.
  unfold AppendEventExactlyOnce. tstep; [by tstep|].
  apply sound_bind; [apply _|]. eapply (sound_weaken _ _ _ _ _ _ (fun g _ _ => g = ∅)).
  2: { destruct (IsZero _); [unfold perform; tstep|]; by tstep. }
  intros g occ s' _ ->. unfold perform; cbn [pbind]. tstep.
  case_bool_decide; [apply append_new_torn; [set_solver|done]|].
  unfold perform; cbn [pbind]. tstep.
  tstep. destruct r as [[applied existing]|e]; [|by tstep]. tstep; [apply append_existing_torn|]. tstep.
  tstep; [by repeat constructor|]. destruct r as [e|]; [by tstep|].
  apply append_new_torn; [set_solver|].
  repeat match goal with H : trely _ ?s ?s' |- forall c occ, ~ origin (t_sent ?s') _ _ _ =>
    apply (tr_fresh _ _ _ H); [set_solver|clear H] end. done.
Qed.

Lemma mark_torn m i broker s : tsound ∅ (MarkOutboxPublished m i broker) t_any s.
Proof.
  unfold MarkOutboxPublished. tstep; [by tstep|].
  destruct (ParseUUID i) as [u|e]; [|by tstep]. unfold perform; cbn [pbind].
  tstep; [|by tstep]. tstep. tstep; [|by tstep].
  match goal with E : eval_query _ _ = Some _, H : tinv ?s |- _ =>
    apply (tinv_select s) in E as [_ Hrow]; [|done] end.
  repeat constructor. cbn. do 2 (eapply tr_outbox; [eassumption|]). done.
Qed.

Lemma pending_loop_torn limit rows out g s : tsound g (pending_loop limit rows out) t_any s.
Proof.
  revert out s. induction rows as [|[[occ id] c] rows IH]; intros out s; cbn [pending_loop]; [by tstep|].
  apply sound_bind; [apply _|]. eapply (sound_weaken _ _ _ _ _ _ (fun g' _ _ => g' = g)).
  2: { unfold loadRetryState, perform; cbn [pbind]. tstep; [by tstep|]. destruct (err_notfound e); by tstep. }
  intros g' st s' _ ->. destruct st as [[[[n nx] q] lu]|e]; [|apply IH].
  unfold perform; cbn [pbind]. tstep. tstep; [apply IH|]. tstep; [by tstep|apply IH].
Qed.

Lemma record_failure_torn i le b mx j qa n ff s :
  tsound ∅ (record_failure i le b mx j qa n ff) t_any s.
Proof.
  unfold record_failure. generalize (wrap64 (n + 1)). intros n'. apply sound_bind; [apply _|].
  eapply (sound_weaken _ _ _ _ _ _ t_any).
  2: { unfold jitter. tstep; [|by tstep]. tstep; [|by tstep]. unfold perform; cbn [pbind]. tstep. by tstep. }
  intros g wait s' _ _. unfold perform; cbn [pbind]. tstep. tstep; [by repeat constructor|].
  destruct r as [e|]; [by tstep|]. tstep; [by tstep|]. tstep; [|by tstep]. tstep; [|by tstep].
  match goal with E : eval_query _ _ = Some _, H : tinv ?s |- _ =>
    apply (tinv_select s) in E as [Ho Hrow]; [|done] end.
  match goal with |- Forall (conforms (t_sent ?z) _) _ =>
    assert (exists occ, origin (t_sent z) i x.1 occ) by eauto using trely_origin end.
  repeat constructor; cbn; try done; by eapply tr_outbox.
Qed.

Lemma RecordOutboxFailure_torn m i le b mx j qa s :
  tsound ∅ (RecordOutboxFailure m i le b mx j qa) t_any s.
Proof.
  unfold RecordOutboxFailure. tstep; [by tstep|].
  destruct (ParseUUID i) as [u|e]; [|by tstep]. unfold perform; cbn [pbind].
  tstep; [destruct x as [n ff]; apply record_failure_torn|].
  destruct (err_notfound e); [apply record_failure_torn|by tstep].
Qed.

Lemma replay_torn m i s : tsound ∅ (ReplayDeadLetter m i) t_any s.
Proof.
  unfold ReplayDeadLetter. tstep; [by tstep|].
  destruct (ParseUUID i) as [u|e]; [|by tstep]. unfold perform; cbn [pbind].
  tstep; [|by tstep]. destruct x as [qa d]. unfold perform; cbn [pbind].
  match goal with H : tinv ?s', E : eval_query _ _ = Some _ |- _ =>
    destruct (ti_dead_id _ H _ _ _ E) as [[occ0 Horg] Hrow] end.
  tstep. tstep.
  - destruct x as [c occ]. tstep; [|by tstep].
    match goal with E : eval_query (SelectOutboxEvent u) _ = Some _, H : tinv ?s |- _ =>
      apply (tinv_select s) in E as [Ho _]; [|done]; cbn in Ho end.
    match goal with |- Forall (conforms (t_sent ?z) _) _ =>
      assert (origin (t_sent z) u (d_content d) occ0) as Ho1 by eauto using trely_origin;
      assert (origin (t_sent z) u c occ) as Ho2 by eauto using trely_origin;
      assert (tinv z) as Hz by done end.
    destruct (ti_unique _ Hz _ _ _ _ _ Ho1 Ho2) as [<- <-].
    repeat constructor; cbn; by apply origin_ts.
  - destruct (err_notfound e) eqn:Hnf; cbn [negb]; [|by tstep].
    (* the outbox row of a dead letter exists *)
    exfalso. do 2 (eapply tr_outbox in Hrow; [|eassumption]). destruct Hrow as [o Ho].
    match goal with E : true = true -> eval_query _ _ = None |- _ => specialize (E eq_refl); cbn in E end.
    by rewrite Ho in *.
Qed.

Lemma delete_loop_torn {X} (batch : X -> list mutation) rows n g s :
  (forall row, Forall no_event (batch row)) -> (forall row l t, Forall (conforms l t) (batch row)) ->
  tsound g (delete_loop batch rows n) t_any s.
Proof.
  intros Hn Hc. revert n s. induction rows as [|row rows IH]; intros n s; cbn [delete_loop]; [by tstep|].
  unfold perform; cbn [pbind]. apply torn_exec; [done|done|]. intros. apply IH.
Qed.

Lemma cleanup_torn m ib db limit s : tsound ∅ (CleanupExpired m ib db limit) t_any s.
Proof.
  unfold CleanupExpired. tstep; [by tstep|]. unfold perform; cbn [pbind]. tstep.
  destruct r as [irows [e|]]; [by tstep|]. apply sound_bind; [apply _|].
  eapply sound_weaken; [|apply delete_loop_torn; intros [? [? ?]]; by repeat constructor].
  intros g n s2 _ _. unfold perform; cbn [pbind]. tstep.
  destruct r as [drows [e|]]; [by tstep|]. apply sound_bind; [apply _|].
  eapply sound_weaken; [|apply delete_loop_torn; by repeat constructor]. intros. by tstep.
Qed.

(** The calls of the nodes' handlers, relays and cleanup loops. *)
Definition torn_call (p : prog storeE answer) (Q : answer -> tworld -> Prop) : Prop :=
  store_prog sha256Hex true p /\ Q = fun _ _ => True.

Lemma torn_call_sound p Q s : torn_call p Q -> tsound ∅ p (fun _ => Q) s.
Proof.
  intros [Hp ->]. destruct Hp; (apply sound_bind; [apply _|];
    eapply (sound_weaken _ _ _ _ _ _ t_any); [by intros; tstep|]).
  - apply append_torn.
  - apply mark_torn.
  - unfold PendingOutboxEvents. tstep; [by tstep|]. unfold perform; cbn [pbind]. tstep.
    destruct r as [rows err]. apply sound_bind; [apply _|].
    eapply sound_weaken; [|apply pending_loop_torn]. intros. destruct err; by tstep.
  - unfold ClaimInboxMessage. tstep; [by tstep|]. unfold perform; cbn [pbind]. tstep. tstep. destruct r; by tstep.
  - unfold RecentEvents. tstep; [by tstep|]. unfold perform; cbn [pbind]. tstep. destruct r as [? [?|]]; by tstep.
  - unfold ClaimOutboxLease. tstep; [by tstep|]. destruct (ParseUUID _); [|by tstep].
    unfold perform; cbn [pbind]. tstep. tstep. destruct r; by tstep.
  - apply RecordOutboxFailure_torn.
  - unfold ListDeadLetters. tstep; [by tstep|]. unfold perform; cbn [pbind]. tstep. destruct r as [? [?|]]; by tstep.
  - apply replay_torn.
  - apply cleanup_torn.
Qed.
End Methods.

(** ** Copies of an event *)

(** A table holds the event [id] with content [c] and time [occ]. *)
Inductive copy (t : tables) (id : uuid) : content -> gotime -> Prop :=
| copy_by_id c occ : events_by_id t !! id = Some (c, occ) -> copy t id c occ
| copy_by_stream c occ : events_by_stream t !! (c_stream c, (occ, id)) = Some c -> copy t id c occ
| copy_outbox o c occ : outbox_events t !! id = Some o -> o_body o = Some (c, occ) -> copy t id c occ
| copy_pending c occ : outbox_by_state t !! (occ, id) = Some c -> copy t id c occ.

(** A dead letter of the event [id] has content [c]. *)
Inductive dead_copy (t : tables) (id : uuid) : content -> Prop :=
| dead_by_time q d : dead_letters_by_time t !! (q, id) = Some d -> dead_copy t id (d_content d)
| dead_by_id q d : dead_letters_by_id t !! id = Some (q, d) -> dead_copy t id (d_content d).

Lemma copy_origin s id c occ : tinv s -> copy (t_tables s) id c occ -> origin (t_sent s) id c occ.
Proof.
  intros Hs [c' o' H|c' o' H|o c' o' H Hb|c' o' H].
  - by apply (ti_by_id _ Hs).
  - by apply (ti_by_stream _ Hs) in H as [? _].
  - destruct (ti_outbox _ Hs _ _ H) as (? & ? & Hb' & ?). congruence.
  - by apply (ti_pending _ Hs).
Qed.

Lemma dead_copy_origin s id c : tinv s -> dead_copy (t_tables s) id c -> exists occ, origin (t_sent s) id c occ.
Proof.
  intros Hs [q d H|q d H]; [by apply (ti_dead_time _ Hs) in H|].
  by destruct (ti_dead_id _ Hs _ _ _ H) as [? _].
Qed.
End Copies.

(** C4: The copies of an event agree even when batches are torn.  Any number of
    nodes run the store's methods, cleanup included, with arbitrary clocks,
    failures and crashes, on a cluster that applies each statement of a batch
    on its own: in any order, at any time after it was sent, repeatedly or
    never, also after a reported failure.  In every reachable state, any two
    rows of [events_by_id], [events_by_stream], [outbox_events] and
    [outbox_by_state] for the same identifier have the same content and time,
    every dead letter of it has that content too, a row of [events_by_stream]
    is filed under its own stream, and no outbox row lacks its content. *)
Theorem copies_agree {UU : UUID} sha ts s :
  reachable torn (torn_call sha) (mkTorn (mkWorld empty_tables ∅) []) (ts, s) ->
  (forall id c occ c' occ', copy (t_tables s) id c occ -> copy (t_tables s) id c' occ' ->
     c = c' /\ occ = occ') /\
  (forall id c c' occ, dead_copy (t_tables s) id c -> copy (t_tables s) id c' occ -> c = c') /\
  (forall id c c', dead_copy (t_tables s) id c -> dead_copy (t_tables s) id c' -> c = c') /\
  (forall st occ id c, events_by_stream (t_tables s) !! (st, (occ, id)) = Some c -> c_stream c = st) /\
  (forall id o, outbox_events (t_tables s) !! id = Some o -> is_Some (o_body o)).
Proof.
  intros Hr.
  destruct (reachable_sound torn tinv t_issued trely (torn_call sha) _ ts s tinv_start
    (fun p Q s' Hc _ => torn_call_sound sha p Q s' Hc) Hr) as [Hs _].
  split_and!.
  - intros id c occ c' occ' H1 H2. eapply (ti_unique _ Hs); by eapply copy_origin.
  - intros id c c' occ H1 H2. destruct (dead_copy_origin _ _ _ Hs H1) as [occ' Ho].
    eapply (ti_unique _ Hs); [exact Ho|by eapply copy_origin].
  - intros id c c' H1 H2. destruct (dead_copy_origin _ _ _ Hs H1), (dead_copy_origin _ _ _ Hs H2).
    by eapply (ti_unique _ Hs).
  - intros st occ id c H. by apply (ti_by_stream _ Hs) in H as [_ ?].
  - intros id o H. destruct (ti_outbox _ Hs _ _ H) as (? & ? & -> & _). eauto.
Qed.

(** ** A concrete run

    Of every batch only the first two statements arrive; the append of an
    event stores it by stream and by id, and not in the outbox. *)

Definition torn_view (s : mem * list mutation) : tworld := mkTorn (mem_view s.1) s.2.

Definition torn_handler : handler storeE (mem * list mutation) := fun X e '(m, l) =>
  match e in storeE X return X * (mem * list mutation) with
  | EExec b =>
      (if (length b <=? 2)%nat then None else Some fault_err,
       (mkMem (apply_batch (take 2 b) (m_tables m)) (m_next m) (m_clock m), b ++ l))
  | e' => let '(x, m') := mem_handler _ e' m in (x, (m', l))
  end.

Lemma arrives_batch b (s : tworld) :
  b ⊆ t_sent s ->
  rtc arrives s (mkTorn (with_tables (t_world s) (apply_batch b (t_tables s))) (t_sent s)).
Proof.
  revert s. induction b as [|mu b IH]; intros s Hb.
  - destruct s as [[t iss] l]. apply rtc_refl.
  - eapply rtc_l; [exists mu; split; [apply Hb; by left|reflexivity]|].
    apply (IH (arrive mu s)). intros x Hx. apply Hb. by right.
Qed.

Lemma torn_session_ok : session_ok torn torn_view torn_handler.
Proof.
  intros X e [m l].
  pose proof (legal_faultless X e _ _ _ (mem_session_ok X e m)) as Hm.
  destruct e as [| |n|Y q|Y q|b|Y d c];
    try (exists (torn_view (m, l)); split; [apply rtc_refl|]; unfold torn_handler;
         by destruct (mem_handler _ _ m)).
  apply (arrives_batch (take 2 b) (send b (torn_view (m, l)))).
  intros x Hx. cbn. apply elem_of_app. left. by apply elem_of_take in Hx as (i & ?%list_elem_of_lookup_2 & _).
Qed.

Definition torn_run : answer * (mem * list mutation) := run torn_handler demo_append (mem_init 0, []).

Lemma copies_agree_witness :
  append_ok torn_run.1 = None /\
  exists c occ, copy (t_tables (torn_view torn_run.2)) (0%nat : uuid) c occ /\
    outbox_events (t_tables (torn_view torn_run.2)) !! (0%nat : uuid) = None /\
    forall c' occ', copy (t_tables (torn_view torn_run.2)) (0%nat : uuid) c' occ' -> c = c' /\ occ = occ'.
Proof.
  split; [vm_compute; reflexivity|].
  exists (mkContent "orders" "events.orders" "order.created" "{}"), 5000000.
  assert (copy (t_tables (torn_view torn_run.2)) (0%nat : uuid)
    (mkContent "orders" "events.orders" "order.created" "{}") 5000000) as Hc
    by (apply copy_by_id; vm_compute; reflexivity).
  split_and!; [exact Hc|vm_compute; reflexivity|].
  destruct (copies_agree (UU := nat_uuid) (fun s => s) [mkThread (Ret torn_run.1) (fun _ _ => True)]
    (torn_view torn_run.2)) as [H _].
  - eapply reachable_run; [apply rtc_refl|split; [apply call_append|reflexivity]|].
    exact (session_exec torn torn_view torn_handler demo_append (mem_init 0, []) torn_session_ok).
  - intros c' occ'. exact (H _ _ _ _ _ Hc).
Defined.
End Torn.
