(* ===== verification/Lease.v ===== *)
(** * Outbox leases exclude each other, under every interleaving

    A lease granted to one relay keeps every other relay away from the event
    until it expires, whatever all the other calls in the system do in the
    meantime, as long as nobody releases it (by publishing the event, by
    recording a failure for it, or by replaying it). *)

From S2P Require Import Prelude Prog Contracts Cql Session CassStore StoreInv.

Module Lease.
Import CassStore StoreInv.

Section Lease.
Context {UU : UUID}.

(** Who holds the lease on an event and until when. *)
Definition lease_of (s : world) (id : uuid) : option (string * gotime) :=
  (fun r => (r_lease_owner r, r_lease_until r)) <$> outbox_retry_state (w_tables s) !! id.

(** Statements that leave the retry row of [id] alone. *)
Definition mutation_keeps (id : uuid) (mu : mutation) : Prop :=
  match mu with
  | InsertRetryState i _ _ _ _ _ _ | DeleteRetryState i
  | UpdateRetryFailure i _ _ _ _ _ _ _ _ | UpdateRetryReplay i _ _ _ _ _ _ _ => i <> id
  | _ => True
  end.

Lemma mutation_keeps_retry id mu t :
  mutation_keeps id mu ->
  outbox_retry_state (apply_mutation mu t) !! id = outbox_retry_state t !! id.
Proof.
  destruct t, mu; cbn; try done; intros Hne; by simplify_map_eq.
Qed.

Lemma batch_keeps_retry id b t :
  Forall (mutation_keeps id) b ->
  outbox_retry_state (apply_batch b t) !! id = outbox_retry_state t !! id.
Proof.
  intros Hb. revert t. induction Hb as [|mu b Hmu Hb IH]; intros t; [done|].
  change (apply_batch (mu :: b) t) with (apply_batch b (apply_mutation mu t)).
  rewrite IH. by apply mutation_keeps_retry.
Qed.

Lemma batch_keeps_lease id b s :
  Forall (mutation_keeps id) b -> lease_of (after b s) id = lease_of s id.
Proof. intros Hb. unfold lease_of. cbn. by rewrite batch_keeps_retry. Qed.

Section Held.
Variables (id : uuid) (owner : string) (until : gotime).

(** [id] has been drawn, and the lease on it is held by [owner]. *)
Definition held (s : world) : Prop :=
  id ∈ w_issued s /\ lease_of s id = Some (owner, until).

(** No clock shows an instant after the end of the lease. *)
Definition before_expiry : gotime -> Prop := fun t => cql_ts t <= until.

Abbreviation hsound := (sound (clocked before_expiry (legal true)) held w_issued (fun _ _ _ => True)).

#[local] Instance true_preorder : forall g : gset uuid, PreOrder (fun _ _ : world => True).
Proof. by split. Qed.

(** A conditional lease update whose clock reading lies before the end of the
    lease is refused. *)
Lemma cas_held X (c : cas X) s :
  held s ->
  (match c with CasUpdateLease i _ _ now => i = id -> before_expiry now | _ => True end) ->
  held (with_tables s (apply_cas c (w_tables s)).2) /\
  (match c with
   | CasUpdateLease i _ _ _ => i = id -> (apply_cas c (w_tables s)).1.1 = false
   | _ => True end).
Proof.
  unfold held, lease_of. destruct s as [[ebs ebi ik ic oe rs ob inb dt di] iss]; cbn.
  intros [Hid Hl] Hc. apply fmap_Some_1 in Hl as (r & Hr & Er). injection Er as -> ->.
  destruct c as [st k i h ca|co mid ca|i ow lu now]; cbn.
  - destruct (ik !! _); cbn; rewrite Hr; (split; [by split|done]).
  - destruct (inb !! _); cbn; rewrite Hr; (split; [by split|done]).
  - destruct (decide (i = id)) as [->|Hne].
    + rewrite Hr. unfold before_expiry in Hc. specialize (Hc eq_refl).
      destruct (_ <? _) eqn:E; zify_bools; [lia|]. cbn. rewrite Hr. split; [by split|done].
    + destruct (rs !! i) as [r'|]; cbn; [destruct (_ <? _); cbn|];
        rewrite ?lookup_insert_ne, Hr by done; (split; [by split|done]).
Qed.

Section Rules.
Context {B : Type} (Q : gset uuid -> B -> world -> Prop).

Lemma held_pure {X} g (e : storeE X) k s :
  (forall s x s', legal true X e s x s' -> s' = s) ->
  (forall s' x, clocked before_expiry (legal true) X e s' x s' -> hsound g (k x) Q s') ->
  hsound g (Vis e k) Q s.
Proof.
  intros Hpure Hk s1 x s2 _ HI Hg HL. pose proof (Hpure _ _ _ (proj1 HL)) as ->.
  split_and!; [done|done|done|]. exists g. split; [set_solver|by apply Hk].
Qed.

Lemma held_now g k s :
  (forall s' now, before_expiry now -> hsound g (k now) Q s') -> hsound g (Vis ENow k) Q s.
Proof. intros Hk. apply held_pure; [done|]. intros s' x [_ Hx]. by apply Hk. Qed.

Lemma held_intn g n k s : (forall s' i, hsound g (k i) Q s') -> hsound g (Vis (EIntn n) k) Q s.
Proof. intros Hk. apply held_pure; [by intros ??? [_ ?]|]. intros; apply Hk. Qed.

Lemma held_iter {X} g (q : scan X) k s : (forall s' r, hsound g (k r) Q s') -> hsound g (Vis (EIter q) k) Q s.
Proof. intros Hk. apply held_pure; [by intros ??? [? _]|]. intros; apply Hk. Qed.

Lemma held_read {X} g (q : query X) k s : (forall s' r, hsound g (k r) Q s') -> hsound g (Vis (ERead q) k) Q s.
Proof. intros Hk. apply held_pure; [by intros ??? [? _]|]. intros; apply Hk. Qed.

Lemma held_uuid g k s :
  (forall s' u, u <> id -> hsound g (k u) Q s') -> hsound g (Vis ETimeUUID k) Q s.
Proof.
  intros Hk s1 u s2 _ HI Hg [[Hu ->] _]. destruct HI as [Hid Hl].
  split_and!; [split; [set_solver|done]|set_solver|done|].
  exists g. split; [set_solver|]. apply Hk. set_solver.
Qed.

Lemma held_exec g b k s :
  Forall (mutation_keeps id) b -> (forall s' r, hsound g (k r) Q s') ->
  hsound g (Vis (EExec b) k) Q s.
Proof.
  intros Hb Hk s1 r s2 _ [Hid Hl] Hg [HL _].
  assert (s2 = after b s1 \/ s2 = s1) as Hs2 by (destruct r; naive_solver).
  assert (held s2 /\ w_issued s2 = w_issued s1) as [HI2 ->].
  { destruct Hs2 as [-> | ->]; split; [split; [done|]; by rewrite batch_keeps_lease|done|done|done]. }
  split_and!; [done|done|done|]. exists g. split; [set_solver|apply Hk].
Qed.

Lemma held_cas {X} g n (c : cas X) k s :
  (match c with CasUpdateLease i _ _ now => i = id -> before_expiry now | _ => True end) ->
  (forall s' r,
    (match c with CasUpdateLease i _ _ _ => i = id -> forall x, r <> Ok (true, x) | _ => True end) ->
    hsound g (k r) Q s') ->
  hsound g (Vis (ECas n c) k) Q s.
Proof.
  intros Hc Hk s1 r s2 _ HI Hg [HL _].
  destruct (cas_held X c s1 HI Hc) as [HI' Hno].
  cbn in HL. destruct (apply_cas c (w_tables s1)) as [[a x] t'] eqn:Ea. cbn in *.
  assert (s2 = with_tables s1 t' \/ s2 = s1) as Hs2.
  { destruct r as [[a' y]|e]; naive_solver. }
  assert (held s2 /\ w_issued s2 = w_issued s1) as [HI2 ->] by (destruct Hs2 as [-> | ->]; done).
  split_and!; [done|done|done|]. exists g. split; [set_solver|]. apply Hk.
  destruct c as [| |i ow lu now]; try done. intros Hi y ->. specialize (Hno Hi). naive_solver.
Qed.
End Rules.

(** ** The methods *)

#[local] Arguments sound : simpl never.

Ltac hstep :=
  unfold perform; cbn [pbind];
  match goal with
  | |- sound _ _ _ _ _ (Ret _) _ _ => intros ? ? ?
  | |- sound _ _ _ _ _ (if ?b then _ else _) _ _ => destruct b
  | |- sound _ _ _ _ _ (Vis ENow _) _ _ => apply held_now; intros
  | |- sound _ _ _ _ _ (Vis (EIntn _) _) _ _ => apply held_intn; intros
  | |- sound _ _ _ _ _ (Vis (EIter _) _) _ _ => apply held_iter; intros ? [? [?|]]
  | |- sound _ _ _ _ _ (Vis (ERead _) _) _ _ => apply held_read; intros ? [?|?]
  | |- sound _ _ _ _ _ (Vis ETimeUUID _) _ _ => apply held_uuid; intros
  | |- sound _ _ _ _ _ (Vis (EExec _) _) _ _ =>
      apply held_exec; [repeat constructor; cbn; congruence|intros ? [?|]]
  | |- sound _ _ _ _ _ (Vis (ECas _ (CasInsertIdempotencyKey _ _ _ _ _)) _) _ _ =>
      apply held_cas; [done|intros ? [[[] ?]|?] _]
  | |- sound _ _ _ _ _ (Vis (ECas _ (CasInsertInbox _ _ _)) _) _ _ =>
      apply held_cas; [done|intros ? [[[] ?]|?] _]
  end; cbn [pbind negb].

Ltac hsteps := repeat (hstep; try done).

Lemma append_existing_held ev i s : hsound ∅ (append_existing ev i) no_post s.
Proof. unfold append_existing, isOutboxPublished. hstep; [|done]. destruct a as [c occ]. hsteps. Qed.

Lemma append_new_held ev st occ i s : i <> id -> hsound ∅ (append_new ev st occ i) no_post s.
Proof. intros. unfold append_new, append_batch. hsteps. Qed.

Lemma append_held sha m ev s : hsound ∅ (AppendEventExactlyOnce sha m ev) no_post s.
Proof.
  unfold AppendEventExactlyOnce. hstep; [done|].
  destruct (IsZero _); repeat (hstep; try done);
    try apply append_existing_held; by apply append_new_held.
Qed.

(** The text does not name the leased event. *)
Definition other (eventID : string) : Prop := ParseUUID eventID <> Ok id.

Lemma mark_held m eid br s : other eid -> hsound ∅ (MarkOutboxPublished m eid br) no_post s.
Proof.
  intros Ho. unfold MarkOutboxPublished, other in *. hstep; [hsteps|].
  destruct (ParseUUID eid) as [u|e]; [|hsteps]. assert (u <> id) by congruence.
  unfold published_batch. hsteps.
Qed.

Lemma pending_loop_held limit rows out s : hsound ∅ (pending_loop limit rows out) no_post s.
Proof.
  revert out s. induction rows as [|[[occ i] c] rows IH]; intros out s; cbn [pending_loop]; [hsteps|].
  unfold loadRetryState. hstep.
  - destruct a as [[[n nx] q] lu]. hsteps; apply IH.
  - destruct (err_notfound _); cbn [pbind]; [|apply IH]. hsteps; apply IH.
Qed.

Lemma pending_held m n s : hsound ∅ (PendingOutboxEvents m n) no_post s.
Proof.
  unfold PendingOutboxEvents. hstep; [hsteps|]. hstep;
    (apply sound_bind; [apply _|]; eapply sound_weaken; [|apply pending_loop_held]; intros; hsteps).
Qed.

Lemma inbox_held m co mid s : hsound ∅ (ClaimInboxMessage m co mid) no_post s.
Proof. unfold ClaimInboxMessage. hsteps. Qed.

Lemma recent_held m st n s : hsound ∅ (RecentEvents m st n) no_post s.
Proof. unfold RecentEvents. hsteps. Qed.

Lemma dead_held m n s : hsound ∅ (ListDeadLetters m n) no_post s.
Proof. unfold ListDeadLetters. hsteps. Qed.

Lemma jitter_held w p s : hsound ∅ (jitter w p) no_post s.
Proof. unfold jitter. hsteps. Qed.

Lemma record_failure_held i le b mx j qa n ff s :
  i <> id -> hsound ∅ (record_failure i le b mx j qa n ff) no_post s.
Proof.
  intros Hi. unfold record_failure, dead_batch.
  apply sound_bind; [apply _|]. eapply sound_weaken; [|apply jitter_held].
  intros g w s' _ _. hsteps.
Qed.

Lemma failure_held m eid le b mx j qa s :
  other eid -> hsound ∅ (RecordOutboxFailure m eid le b mx j qa) no_post s.
Proof.
  intros Ho. unfold RecordOutboxFailure, other in *. hstep; [hsteps|].
  destruct (ParseUUID eid) as [u|e]; [|hsteps]. assert (u <> id) by congruence.
  hstep; [destruct a as [n ff]; by apply record_failure_held|].
  hstep; [by apply record_failure_held|hsteps].
Qed.

Lemma replay_held m eid s : other eid -> hsound ∅ (ReplayDeadLetter m eid) no_post s.
Proof.
  intros Ho. unfold ReplayDeadLetter, other in *. hstep; [hsteps|].
  destruct (ParseUUID eid) as [u|e]; [|hsteps]. assert (u <> id) by congruence.
  hstep; [|hsteps]. destruct a as [q d]. unfold replay_batch. hstep.
  hstep; [destruct a as [c occ]; hsteps|hsteps].
Qed.

Lemma delete_loop_held {X} (batch : X -> list mutation) rows n g s :
  (forall row, Forall (mutation_keeps id) (batch row)) ->
  hsound g (delete_loop batch rows n) no_post s.
Proof.
  intros Hb. revert n s. induction rows as [|row rows IH]; intros n s; cbn [delete_loop]; [hsteps|].
  unfold perform; cbn [pbind]. apply held_exec; [apply Hb|]. intros; apply IH.
Qed.

Lemma cleanup_held m ib db n s : hsound ∅ (CleanupExpired m ib db n) no_post s.
Proof.
  unfold CleanupExpired. hstep; [hsteps|]. hstep; [hsteps|].
  apply sound_bind; [apply _|]. eapply sound_weaken;
    [|apply delete_loop_held; intros [ca [st k]]; repeat constructor].
  intros g k s2 _ _. hstep; [hsteps|].
  apply sound_bind; [apply _|]. eapply sound_weaken;
    [|apply delete_loop_held; intros row; repeat constructor].
  intros. hsteps.
Qed.

(** Any claim of a lease; if it is for the leased event it is not granted. *)
Lemma lease_held m eid ow d s :
  hsound ∅ (ClaimOutboxLease m eid ow d)
    (fun _ r _ => ParseUUID eid = Ok id -> r <> Ok true) s.
Proof.
  unfold ClaimOutboxLease. hstep; [done|].
  destruct (ParseUUID eid) as [u|e]; [|hstep; congruence]. hstep.
  apply held_cas; [done|]. intros s2 [[a []]|e] Hr; cbn [pbind]; intros ? _ _ Hu; [|done].
  intros Ha. injection Ha as ->. simplify_eq. by apply (Hr eq_refl tt).
Qed.

(** ** The system *)

(** Every call of the store's interface, except those that release the lease
    on [id]; the answers to claims of that lease are kept. *)
Inductive lease_prog (sha : string -> string) : prog storeE (option (result bool)) -> Prop :=
| lp_append m ev : lease_prog sha (pmap (fun _ => None) (AppendEventExactlyOnce sha m ev))
| lp_mark m eid br : other eid -> lease_prog sha (pmap (fun _ => None) (MarkOutboxPublished m eid br))
| lp_pending m n : lease_prog sha (pmap (fun _ => None) (PendingOutboxEvents m n))
| lp_inbox m co mid : lease_prog sha (pmap (fun _ => None) (ClaimInboxMessage m co mid))
| lp_recent m st n : lease_prog sha (pmap (fun _ => None) (RecentEvents m st n))
| lp_claim m eid ow d : ParseUUID eid = Ok id ->
    lease_prog sha (pmap Some (ClaimOutboxLease m eid ow d))
| lp_claim_other m eid ow d : lease_prog sha (pmap (fun _ => None) (ClaimOutboxLease m eid ow d))
| lp_failure m eid le b mx j q : other eid ->
    lease_prog sha (pmap (fun _ => None) (RecordOutboxFailure m eid le b mx j q))
| lp_dead m n : lease_prog sha (pmap (fun _ => None) (ListDeadLetters m n))
| lp_replay m eid : other eid -> lease_prog sha (pmap (fun _ => None) (ReplayDeadLetter m eid))
| lp_cleanup m ib db n : lease_prog sha (pmap (fun _ => None) (CleanupExpired m ib db n)).

Definition refused (a : option (result bool)) (_ : world) : Prop := a <> Some (Ok true).

Definition lease_call sha (p : prog storeE (option (result bool)))
    (Q : option (result bool) -> world -> Prop) : Prop :=
  lease_prog sha p /\ Q = refused.

Lemma pmap_held {A} (f : A -> option (result bool)) p (Q : gset uuid -> A -> world -> Prop) s :
  (forall g a s', Q g a s' -> f a <> Some (Ok true)) ->
  hsound ∅ p Q s -> hsound ∅ (pmap f p) (fun _ => refused) s.
Proof.
  intros HQ Hs. apply sound_bind; [apply _|]. eapply sound_weaken; [|exact Hs].
  intros g a s' _ Ha s'' _ _. by eapply HQ.
Qed.

Lemma lease_call_held sha p Q s : lease_call sha p Q -> hsound ∅ p (fun _ => Q) s.
Proof.
  intros [Hp ->]. destruct Hp; eapply pmap_held;
    try (apply append_held || (by apply mark_held) || apply pending_held || apply inbox_held ||
         apply recent_held || apply lease_held || (by apply failure_held) || apply dead_held ||
         (by apply replay_held) || apply cleanup_held); try done.
  cbn. intros _ a _ Ha Hs. injection Hs as ->. by apply Ha.
Qed.
End Held.
End Lease.

(** ** Main theorem *)

(** C6: Lease exclusion.  Suppose a relay's claim of the lease on an event has
    just been granted, so that the retry row names it as the owner until
    [until].  Then in every state that any calls of any nodes reach from
    there, failed statements and crashes included, while no node's clock has
    passed [until] and nobody publishes, fails or replays that event: the
    owner still holds the lease, and no claim of it by any node has been
    granted. *)
Theorem lease_exclusive {UU : UUID} sha id owner until s0 ts s :
  id ∈ w_issued s0 -> lease_of s0 id = Some (owner, until) ->
  reachable (clocked (before_expiry until) (legal true)) (lease_call id sha) s0 (ts, s) ->
  lease_of s id = Some (owner, until) /\
  Forall (fun t => code t <> Ret (Some (Ok true))) ts.
Proof.
  intros Hid Hl Hr.
  pose proof (reachable_goals _ _ _ _ _ Hr) as Hgoals.
  destruct (reachable_sound (HR := true_preorder) (clocked (before_expiry until) (legal true))
    (held id owner until) w_issued (fun _ _ _ => True) (lease_call id sha) s0 ts s)
    as [[_ Hheld] Hres]; [done|intros; by eapply lease_call_held|done|].
  split; [done|]. rewrite Forall_forall in Hres, Hgoals |- *. intros t Ht Ec.
  destruct (Hgoals t Ht) as (p & _ & Hg). specialize (Hres t Ht _ Ec). rewrite Hg in Hres.
  by apply Hres.
Qed.

(** The event of the concrete run, leased until 100 ms by node-1; node-2's
    claim at 50 ms is refused. *)
Definition demo_leased : mem :=
  (run (frozen_handler (20 * Millisecond)) (ClaimOutboxLease demo_module "" "node-1" (80 * Millisecond))
     demo_end).2.
Definition demo_claim : prog storeE (option (result bool)) :=
  pmap Some (ClaimOutboxLease demo_module "" "node-2" (80 * Millisecond)).

Lemma lease_exclusive_witness :
  let '(a, s) := run (frozen_handler (50 * Millisecond)) demo_claim demo_leased in
  lease_of (mem_view s) (0%nat : uuid) = Some ("node-1", 100 * Millisecond) /\
  a <> Some (Ok true).
Proof.
  pose proof (frozen_session_ok (50 * Millisecond)) as Hok.
  assert (session_ok (clocked (before_expiry (100 * Millisecond)) (legal true)) mem_view
            (frozen_handler (50 * Millisecond))) as Hok'.
  { intros X e m. destruct (Hok X e m) as [HL Hc]. split; [by apply legal_faultless|].
    by destruct e. }
  pose proof (session_exec _ _ _ demo_claim demo_leased Hok') as He.
  destruct (run (frozen_handler (50 * Millisecond)) demo_claim demo_leased) as [a s].
  assert (lease_call (0%nat : uuid) (fun s => s) demo_claim refused) as Hc
    by (split; [apply lp_claim; reflexivity|done]).
  destruct (lease_exclusive (UU := nat_uuid) (fun s => s) 0%nat "node-1" (100 * Millisecond)
    (mem_view demo_leased) [mkThread (Ret a) refused] (mem_view s)) as [H1 H2].
  - vm_compute. reflexivity.
  - vm_compute. reflexivity.
  - eapply reachable_run; [apply rtc_refl|exact Hc|exact He].
  - split; [exact H1|]. apply Forall_inv in H2. cbn in H2. congruence.
Defined.
End Lease.
