(* ===== verification/StoreSpec.v ===== *)
(** * What the store's methods return and change

    Functional specifications of the methods of cassstore: every branch of the
    lease, failure, replay and publication protocol, over every session that
    keeps to the documented behaviour of its statements. *)

From S2P Require Import Prelude Prog Contracts Cql Session CassStore StoreInv.

Module StoreSpec.
Import CassStore StoreInv.

(** ** Proof rules: one effect of a faultless session with clocks in [P] *)

Section Rules.
Context {UU : UUID} {lenient : bool} {A : Type} (P : gotime -> Prop) (Q : A -> world -> Prop).
Abbreviation L := (clocked P (answers false lenient)).

Lemma wp_now k s : (forall now, P now -> wp L (k now) Q s) -> wp L (Vis ENow k) Q s.
Proof. intros Hk now s' [-> HP]. by apply Hk. Qed.

Lemma wp_intn n k s : (forall i, (0 < n -> 0 <= i < n) -> wp L (k i) Q s) -> wp L (Vis (EIntn n) k) Q s.
Proof. intros Hk i s' [[Hi ->] _]. by apply Hk. Qed.

Lemma wp_read {X} (q : query X) k s :
  match eval_query q (w_tables s) with
  | Some x => wp L (k (Ok x)) Q s
  | None => forall e, err_notfound e = true -> wp L (k (Err e)) Q s
  end -> wp L (Vis (ERead q) k) Q s.
Proof.
  intros Hk r s' [[-> Hr] _]. destruct r as [x|e]; [by rewrite Hr in Hk|].
  destruct (err_notfound e) eqn:E; [|done]. rewrite Hr in Hk. by apply Hk.
Qed.

Lemma wp_iter {X} (q : scan X) k s :
  wp L (k (eval_scan q (w_tables s), None)) Q s -> wp L (Vis (EIter q) k) Q s.
Proof. intros Hk [rows [e|]] s' [[-> Hr] _]; [naive_solver|]. by subst. Qed.

Lemma wp_batch b k s : wp L (k None) Q (after b s) -> wp L (Vis (EExec b) k) Q s.
Proof. intros Hk [e|] s' [Hs _]; [naive_solver|]. cbn in Hs. by subst. Qed.

(** A conditional write whose returned row fits the destinations. *)
Lemma wp_cas {X} n (c : cas X) k s :
  column_mismatch n c (w_tables s) = false ->
  (let '(a, x, t') := apply_cas c (w_tables s) in wp L (k (Ok (a, x))) Q (with_tables s t')) ->
  wp L (Vis (ECas n c) k) Q s.
Proof.
  intros Er Hk r s' [Hs _]. cbn -[column_mismatch] in Hs. rewrite Er in Hs.
  destruct (apply_cas c (w_tables s)) as [[a x] t'].
  destruct r as [[a' y]|e]; [by destruct Hs as (-> & -> & -> & _)|naive_solver].
Qed.
End Rules.

#[local] Arguments wp : simpl never.

(** Advance one effect. *)
Ltac wstep :=
  unfold perform; cbn [pbind];
  match goal with
  | |- wp _ (Ret _) _ _ => cbv beta delta [wp]; cbn beta iota
  | |- wp _ (Vis ENow _) _ _ => apply wp_now; intros ? ?
  | |- wp _ (Vis (EIntn _) _) _ _ => apply wp_intn; intros ? ?
  | |- wp _ (Vis (ERead _) _) _ _ => apply wp_read
  | |- wp _ (Vis (EIter _) _) _ _ => apply wp_iter
  | |- wp _ (Vis (EExec _) _) _ _ => apply wp_batch
  end; cbn [pbind].

(** ** Backoff *)

Lemma backoff_loop_min n wait mx :
  0 < wait <= mx -> mx <= 2 ^ 61 -> backoff_loop n wait mx = Z.min mx (wait * 2 ^ Z.of_nat n).
Proof.
  intros Hw Hm. revert wait Hw. induction n as [|n IH]; intros wait Hw; cbn [backoff_loop].
  { rewrite Z.mul_1_r. lia. }
  rewrite wrap64_id by (unfold in_int64, int_min, int_max; lia).
  replace (wait * 2 ^ Z.of_nat (S n)) with (wait * 2 * 2 ^ Z.of_nat n)
    by (rewrite Nat2Z.inj_succ, Z.pow_succ_r by lia; ring).
  assert (1 <= 2 ^ Z.of_nat n) by (pose proof (Z.pow_pos_nonneg 2 (Z.of_nat n)); lia).
  destruct (_ >=? _) eqn:E; zify_bools.
  - symmetry. apply Z.min_l. nia.
  - apply IH. lia.
Qed.

Lemma backoff_min n base mx :
  1 <= n -> 0 < base <= mx -> mx <= 2 ^ 61 ->
  backoff n base mx = Z.min mx (base * 2 ^ (n - 1)).
Proof.
  intros Hn Hb Hm. unfold backoff. rewrite backoff_loop_min by done.
  by rewrite Z2Nat.id by lia.
Qed.

(** C25: Exponential backoff.  For a positive base not above the maximum, and a
    maximum of at most 2^61 ns, the wait computed for the [n]-th consecutive
    failure is exactly [min(max, base * 2^(n-1))]: no doubling overflows and
    the wait never decreases or exceeds the maximum. *)
Theorem backoff_closed_form n base mx :
  1 <= n -> 0 < base <= mx -> mx <= 2 ^ 61 ->
  backoff n base mx = Z.min mx (base * 2 ^ (n - 1)) /\
  base <= backoff n base mx <= backoff (n + 1) base mx /\ backoff (n + 1) base mx <= mx.
Proof.
  intros Hn Hb Hm. rewrite !backoff_min by (done || lia).
  replace (n + 1 - 1) with (Z.succ (n - 1)) by lia. rewrite Z.pow_succ_r by lia.
  pose proof (Z.pow_pos_nonneg 2 (n - 1)). split_and!; [done|nia..].
Qed.

Lemma backoff_closed_form_witness :
  backoff 4 (dur 500 Millisecond) (dur 30000 Millisecond) = dur 4000 Millisecond /\
  backoff 12 (dur 500 Millisecond) (dur 30000 Millisecond) = dur 30000 Millisecond.
Proof.
  split; (etransitivity; [apply backoff_closed_form; vm_compute; repeat split; discriminate|reflexivity]).
Defined.

Lemma backoff_range n base mx :
  1 <= n -> 0 < base <= mx -> mx <= 2 ^ 61 -> base <= backoff n base mx <= mx.
Proof.
  intros Hn Hb Hm. rewrite backoff_min by done.
  pose proof (Z.pow_pos_nonneg 2 (n - 1)). nia.
Qed.

(** The waits jitter can make of [wait]: whole milliseconds are added or taken
    away, up to [pct] percent of those of [wait], and the result is raised to
    10 ms if it falls below; a wait whose share is less than a millisecond
    stays as it is. *)
Definition jittered (wait : duration) (pct : Z) (w : duration) : Prop :=
  let share := wait / Millisecond * pct / 100 in
  if share =? 0 then w = wait
  else exists d, - share <= d <= share /\ w = Z.max (10 * Millisecond) (wait + d * Millisecond).

Lemma jitter_range_share wait pct :
  0 <= wait <= 2 ^ 61 -> 0 <= pct <= 100 ->
  jitter_range wait pct = wait / Millisecond * pct / 100 /\
  0 <= jitter_range wait pct /\ jitter_range wait pct * Millisecond <= wait.
Proof.
  intros Hw Hp. unfold jitter_range, goquot, Millisecond.
  rewrite (Z.quot_div_nonneg wait) by lia.
  assert (0 <= wait / 1000000 <= wait) as [? ?].
  { split; [apply Z.div_pos; lia|]. apply Z.div_le_upper_bound; lia. }
  assert (wait / 1000000 * 1000000 <= wait) by (pose proof (Z.div_mod wait 1000000);
    pose proof (Z.mod_pos_bound wait 1000000); lia).
  rewrite wrap64_id by (unfold in_int64, int_min, int_max; nia).
  rewrite Z.quot_div_nonneg by nia.
  pose proof (Z.div_mod (wait / 1000000 * pct) 100).
  pose proof (Z.mod_pos_bound (wait / 1000000 * pct) 100).
  split; [done|]. nia.
Qed.

Lemma jitter_wp {UU : UUID} {lenient : bool} P wait pct s (Q : duration -> world -> Prop) :
  0 <= wait <= 2 ^ 61 -> 0 <= pct <= 100 ->
  (forall w, jittered wait pct w -> Q w s) ->
  wp (clocked P (answers false lenient)) (jitter wait pct) Q s.
Proof.
  intros Hw Hp HQ. unfold jitter.
  destruct (jitter_range_share wait pct Hw Hp) as (Hsh & Hj0 & Hj).
  unfold jittered in HQ. cbn zeta in HQ. rewrite <- Hsh in HQ.
  destruct (Z.gtb_spec pct 0).
  2: { apply HQ. replace pct with 0 in * by lia. rewrite Hsh, Z.mul_0_r. done. }
  destruct (Z.gtb_spec (jitter_range wait pct) 0).
  2: { apply HQ. by replace (jitter_range wait pct) with 0 by lia. }
  destruct (Z.eqb_spec (jitter_range wait pct) 0); [lia|].
  wstep. apply HQ.
  assert (jitter_range wait pct <= 2 ^ 61) by (unfold Millisecond in *; nia).
  match goal with H : 0 < wrap64 _ -> _ |- _ =>
    rewrite wrap64_id in H by (unfold in_int64, int_min, int_max; lia); specialize (H ltac:(lia));
    rename H into Hi end.
  unfold dur. rewrite (wrap64_id (_ * Millisecond))
    by (unfold in_int64, int_min, int_max, Millisecond in *; nia).
  rewrite wrap64_id by (unfold in_int64, int_min, int_max, Millisecond in *; nia).
  exists (i - jitter_range wait pct). split; [lia|]. destruct (_ <? _) eqn:E; zify_bools; lia.
Qed.

(** ** Failures, quarantine and replay *)

Section Failure.
Context {UU : UUID} {lenient : bool}.

(** Failures recorded so far. *)
Definition failures (s : world) (id : uuid) : Z :=
  match outbox_retry_state (w_tables s) !! id with Some r => r_count r | None => 0 end.

(** The retry row that recording the [n]-th failure at [now] leaves. *)
Definition failed_row (r : retry_row) (n : Z) (err : string) (now : gotime)
    (base mx : duration) (pct : Z) (q : bool) : Prop :=
  r_count r = n /\ r_last_error r = err /\ r_quarantined r = q /\
  r_lease_owner r = "" /\ r_lease_until r = unix_epoch /\
  exists w, jittered (Z.min mx (base * 2 ^ (n - 1))) pct w /\
    r_next_attempt_at r = cql_ts (now + w).

Definition failure_post (s : world) (id : uuid) (c : content) (now : gotime) (err : string)
    (base mx : duration) (pct qa : Z) (r : bool * Z * option error) (s' : world) : Prop :=
  let n := failures s id + 1 in
  let q := n >=? qa in
  r = (q, n, None) /\
  (exists row, outbox_retry_state (w_tables s') !! id = Some row /\
     failed_row row n err now base mx pct q) /\
  (if q then dead_letters_by_id (w_tables s') !! id = Some (cql_ts now, mkDead c n err) /\
             dead_letters_by_time (w_tables s') !! (cql_ts now, id) = Some (mkDead c n err)
   else dead_letters_by_id (w_tables s') = dead_letters_by_id (w_tables s) /\
        dead_letters_by_time (w_tables s') = dead_letters_by_time (w_tables s)) /\
  events_by_id (w_tables s') = events_by_id (w_tables s) /\
  outbox_by_state (w_tables s') = outbox_by_state (w_tables s).

(** What recording the failure writes. *)
Lemma failure_update t id n w err now base mx pct q qa ff :
  jittered (Z.min mx (base * 2 ^ (n - 1))) pct w ->
  let t' := apply_batch [UpdateRetryFailure id n (Add now w) err "" unix_epoch q qa ff] t in
  (exists row, outbox_retry_state t' !! id = Some row /\ failed_row row n err now base mx pct q) /\
  dead_letters_by_id t' = dead_letters_by_id t /\
  dead_letters_by_time t' = dead_letters_by_time t /\
  events_by_id t' = events_by_id t /\
  outbox_events t' = outbox_events t /\
  outbox_by_state t' = outbox_by_state t.
Proof.
  intros Hw. destruct t; cbn. split; [|done].
  eexists. split; [apply lookup_insert_eq|]. unfold failed_row; cbn. eauto 10.
Qed.

(** What quarantining writes. *)
Lemma dead_update t id now c n err :
  let t' := apply_batch (dead_batch id now c n err) t in
  outbox_retry_state t' = outbox_retry_state t /\
  dead_letters_by_id t' !! id = Some (cql_ts now, mkDead c n err) /\
  dead_letters_by_time t' !! (cql_ts now, id) = Some (mkDead c n err) /\
  events_by_id t' = events_by_id t /\
  outbox_by_state t' = outbox_by_state t.
Proof. destruct t; cbn. by rewrite !lookup_insert_eq. Qed.

Lemma record_failure_wp now id c occ err base mx pct qa ff s :
  inv s -> events_by_id (w_tables s) !! id = Some (c, occ) ->
  0 < base <= mx -> mx <= 2 ^ 61 -> 0 <= pct <= 100 ->
  0 <= failures s id < int_max ->
  wp (clocked (fun t => t = now) (answers false lenient))
    (record_failure id err base mx pct qa (failures s id) ff)
    (failure_post s id c now err base mx pct qa) s.
Proof.
  intros Hinv He Hb Hm Hp Hn. unfold record_failure.
  rewrite wrap64_id by (unfold in_int64, int_min in *; lia).
  pose proof (backoff_range (failures s id + 1) base mx ltac:(lia) Hb Hm).
  apply wp_bind, jitter_wp; [lia|done|]. intros w Hw.
  rewrite backoff_min in Hw by (done || lia).
  wstep. subst. wstep. unfold failure_post.
  match goal with |- wp _ _ _ (after [UpdateRetryFailure _ _ _ _ _ _ ?q ?qa' ?ff'] _) =>
    destruct (failure_update (w_tables s) id _ w err now base mx pct q qa' ff' Hw)
      as (Hrow & D1 & D2 & E1 & O1 & P1) end.
  destruct (failures s id + 1 >=? qa) eqn:Eq; cbn [negb]; [|by wstep].
  wstep. cbn [eval_query after with_tables w_tables]. rewrite O1.
  assert (exists o, outbox_events (w_tables s) !! id = Some o /\ o_body o = Some (c, occ))
    as (o & -> & Hbody).
  { destruct (inv_status _ Hinv _ _ _ He) as [[(o & ? & ? & _) _]|[(o & ? & ? & _) _]]; eauto. }
  cbn. rewrite Hbody. cbn. wstep. wstep. cbn [after with_tables w_tables].
  match goal with |- context [apply_batch _ (apply_batch ?b (w_tables s))] =>
    destruct (dead_update (apply_batch b (w_tables s)) id now c (failures s id + 1) err)
      as (-> & -> & -> & -> & ->) end.
  done.
Qed.

Lemma record_failure_method_wp m now id c occ err base mx pct qa s :
  session m = true -> inv s -> events_by_id (w_tables s) !! id = Some (c, occ) ->
  0 < base <= mx -> mx <= 2 ^ 61 -> 0 <= pct <= 100 -> 0 <= failures s id < int_max ->
  wp (clocked (fun t => t = now) (answers false lenient))
    (RecordOutboxFailure m (uuid_String id) err base mx pct qa)
    (failure_post s id c now err base mx pct qa) s.
Proof.
  intros Hm Hinv He Hb Hmx Hp Hn. unfold RecordOutboxFailure.
  rewrite Hm, ParseUUID_String. cbn [negb]. wstep. cbn [eval_query].
  destruct (outbox_retry_state (w_tables s) !! id) as [r|] eqn:Er; cbn.
  - replace (r_count r) with (failures s id) by (unfold failures; by rewrite Er).
    by eapply record_failure_wp.
  - intros e Hnf. rewrite Hnf.
    replace 0 with (failures s id) at 1 by (unfold failures; by rewrite Er).
    by eapply record_failure_wp.
Qed.
End Failure.

Section Methods.
Context {UU : UUID} {lenient : bool}.

(** The event can be taken by the next relay pass at [now]: no quarantine, no
    wait, no lease. *)
Definition due (s : world) (id : uuid) (now : gotime) : Prop :=
  exists r, outbox_retry_state (w_tables s) !! id = Some r /\ r_quarantined r = false /\
    After (r_next_attempt_at r) now = false /\ After (r_lease_until r) now = false.

Definition replay_post (s : world) (id : uuid) (d : dead_row) (q occ : gotime) (now : gotime)
    (r : option error) (s' : world) : Prop :=
  r = None /\ waiting (w_tables s') id (d_content d) occ /\ failures s' id = d_retry_count d /\
  (0 <= now -> due s' id now) /\
  dead_letters_by_id (w_tables s') !! id = None /\
  dead_letters_by_time (w_tables s') = delete (q, id) (dead_letters_by_time (w_tables s)).

Lemma replay_wp m now id q d s :
  session m = true -> inv s -> dead_letters_by_id (w_tables s) !! id = Some (q, d) ->
  exists occ, events_by_id (w_tables s) !! id = Some (d_content d, occ) /\
  wp (clocked (fun t => t = now) (answers false lenient)) (ReplayDeadLetter m (uuid_String id))
    (fun r s' => replay_post s id d q occ now r s' /\ inv s') s.
Proof.
  intros Hm Hinv Hd. destruct (inv_dead_id _ Hinv _ _ _ Hd) as (Hq & Hbt & occ & He).
  exists occ. split; [done|].
  unfold ReplayDeadLetter. rewrite Hm, ParseUUID_String. cbn [negb]. wstep.
  cbn [eval_query]. rewrite Hd. cbn [pbind]. wstep. subst. wstep. cbn [eval_query].
  assert (exists o, outbox_events (w_tables s) !! id = Some o /\ o_body o = Some (d_content d, occ))
    as (o & Ho & Hbody).
  { destruct (inv_status _ Hinv _ _ _ He) as [[(o & ? & ? & _) _]|[(o & ? & ? & _) _]]; eauto. }
  rewrite Ho. cbn. rewrite Hbody. cbn. wstep. wstep.
  pose proof (replay_batch_ok true ∅ s id (d_content d) occ now q (d_retry_count d) Hinv He)
    as (Hinv' & _).
  split; [|done].
  assert (cql_ts occ = occ) as Hocc by (eapply (inv_ts s); eauto).
  unfold replay_post, waiting, failures, due. destruct s as [[] iss]; cbn in *.
  rewrite Hq, Hocc, !lookup_insert_eq, lookup_delete_eq.
  split_and!; [done|eauto 10|done..| |done|done].
  intros Hnow. eexists. split_and!; [done|done| |]; cbn; apply Z.ltb_ge;
    unfold unix_epoch; pose proof (cql_ts_bounds now); [lia|].
  unfold cql_ts. rewrite Z.div_0_l; unfold Millisecond; lia.
Qed.

Definition mark_post (id : uuid) (c : content) (occ : gotime) (broker : string)
    (r : option error) (s' : world) : Prop :=
  r = None /\ delivered (w_tables s') id c occ /\
  outbox_events (w_tables s') !! id ≫= o_broker_message_id = Some broker /\
  (forall k v, (k, v) ∈ ascending (outbox_by_state (w_tables s')) -> k.2 <> id) /\
  outbox_retry_state (w_tables s') !! id = None.

Lemma mark_wp P m id c occ broker s :
  session m = true -> inv s -> events_by_id (w_tables s) !! id = Some (c, occ) ->
  wp (clocked P (answers false lenient)) (MarkOutboxPublished m (uuid_String id) broker)
    (fun r s' => mark_post id c occ broker r s' /\ inv s') s.
Proof.
  intros Hm Hinv He. unfold MarkOutboxPublished. rewrite Hm, ParseUUID_String. cbn [negb].
  assert (exists o, outbox_events (w_tables s) !! id = Some o /\ o_body o = Some (c, occ))
    as (o & Ho & Hbody).
  { destruct (inv_status _ Hinv _ _ _ He) as [[(o & ? & ? & _) _]|[(o & ? & ? & _) _]]; eauto. }
  wstep. cbn [eval_query]. rewrite Ho. cbn. rewrite Hbody. cbn. wstep. wstep. wstep.
  pose proof (published_batch_ok true ∅ s id c occ now broker Hinv He) as (Hinv' & _).
  split; [|done]. assert (cql_ts occ = occ) as Hocc by (eapply (inv_ts s); eauto).
  pose proof (inv_pending _ Hinv') as Hpend.
  unfold mark_post, delivered. destruct s as [[] iss]; cbn in *.
  rewrite Hocc in *. rewrite !lookup_insert_eq, !lookup_delete_eq, Ho. cbn.
  split_and!; [done|eauto 10|done|done| |done].
  intros [occ' id'] v Hin%elem_of_ascending Hid. cbn in *. subst id'.
  specialize (Hpend _ _ _ Hin). simplify_eq. by rewrite lookup_delete_eq in Hin.
Qed.

(** The retry state as [loadRetryState] reports it. *)
Definition retry_state (s : world) (id : uuid) : Z * gotime * bool * gotime :=
  default (0, unix_epoch, false, unix_epoch) (eval_query (SelectRetryState id) (w_tables s)).

(** The relay takes the row of a pass at [now]. *)
Definition eligible (s : world) (now : gotime) (id : uuid) : bool :=
  let '(_, nx, q, lu) := retry_state s id in negb (q || After nx now || After lu now).

Definition select (s : world) (now : gotime) (row : (gotime * uuid) * content) : option EventRecord :=
  let '((occ, id), c) := row in
  if eligible s now id then Some (pending_event id c occ (retry_state s id).1.1.1) else None.

Lemma pending_loop_wp limit now rows out s :
  Z.of_nat (length out) < limit ->
  wp (clocked (fun t => t = now) (answers false lenient)) (pending_loop limit rows out)
    (fun r s' => s' = s /\
       r = reverse out ++ take (Z.to_nat limit - length out) (omap (select s now) rows)) s.
Proof.
  revert out. induction rows as [|[[occ id] c] rows IH]; intros out Hlen; cbn [pending_loop].
  { wstep. split; [done|]. cbn. by rewrite take_nil, app_nil_r. }
  assert (wp (clocked (fun t => t = now) (answers false lenient)) (loadRetryState id)
            (fun r s' => s' = s /\ r = Ok (retry_state s id)) s) as Hload.
  { unfold loadRetryState, retry_state. wstep. destruct (eval_query _ _); cbn.
    - wstep. done.
    - intros e ->. wstep. done. }
  apply wp_bind. eapply wp_mono; [|exact Hload]. intros r s' [-> ->].
  cbn [omap list_omap]. unfold select at 1, eligible.
  destruct (retry_state s id) as [[[n nx] q] lu] eqn:Ers. wstep. subst.
  destruct (q || After nx now || After lu now); cbn [negb]; [by apply IH|].
  rewrite Z.geb_leb. cbn [length]. cbn [fst].
  destruct (Z.leb_spec limit (Z.of_nat (S (length out)))).
  - wstep. split; [done|]. rewrite reverse_cons. f_equal.
    replace (Z.to_nat limit - length out)%nat with 1%nat by lia. cbn. by rewrite take_0.
  - eapply wp_mono; [|apply IH; cbn; lia]. cbn beta. intros r s' [-> ->]. split; [done|].
    rewrite reverse_cons, <- app_assoc. f_equal. cbn [length].
    replace (Z.to_nat limit - length out)%nat with (S (Z.to_nat limit - S (length out))) by lia.
    done.
Qed.

(** The rows a pass looks at. *)
Definition pending_window (s : world) (limit : Z) : list ((gotime * uuid) * content) :=
  take (Z.to_nat (pending_fetch_limit (pending_limit limit))) (ascending (outbox_by_state (w_tables s))).

Lemma omap_select s now rows :
  omap (select s now) rows =
  map (fun '((occ, id), c) => pending_event id c occ (retry_state s id).1.1.1)
    (filter (fun row => eligible s now row.1.2 = true) rows).
Proof.
  induction rows as [|[[occ id] c] rows IH]; cbn; [done|].
  case_decide as E; cbn in E; [rewrite E|destruct (eligible s now id); [done|]]; cbn; by rewrite IH.
Qed.

Lemma pending_limit_min limit :
  pending_limit limit = if limit <=? 0 then 100 else Z.min limit 2000.
Proof. unfold pending_limit. repeat case_match; zify_bools; lia. Qed.

Lemma pending_fetch_max n : pending_fetch_limit n = Z.max 100 (5 * n).
Proof. unfold pending_fetch_limit. case_match; zify_bools; lia. Qed.

Lemma retry_state_failures s id : (retry_state s id).1.1.1 = failures s id.
Proof. unfold retry_state, failures. cbn. by destruct (outbox_retry_state (w_tables s) !! id). Qed.

Lemma pending_limit_range limit : 1 <= pending_limit limit <= 2000.
Proof. unfold pending_limit. repeat case_match; zify_bools; lia. Qed.

Lemma pending_wp m now limit s :
  session m = true ->
  wp (clocked (fun t => t = now) (answers false lenient)) (PendingOutboxEvents m limit)
    (fun r s' => s' = s /\
       r = Ok (take (Z.to_nat (pending_limit limit)) (omap (select s now) (pending_window s limit)))) s.
Proof.
  intros Hm. unfold PendingOutboxEvents. rewrite Hm. cbn [negb]. wstep.
  apply wp_bind. pose proof (pending_limit_range limit).
  eapply wp_mono; [|apply pending_loop_wp; cbn; lia]. cbn beta. intros r s' [-> ->].
  wstep. split; [done|]. cbn. by rewrite Nat.sub_0_r.
Qed.

(** ** Appending *)

Definition event_content (ev : EventRecord) : content :=
  mkContent (default_stream (Stream ev)) (Subject ev) (EType ev) (Payload ev).

(** A new event: exactly one event is added, under an identifier never drawn
    before, and it waits for the relay. *)
Definition fresh_post (ev : EventRecord) (s : world) (r : result AppendResult) (s' : world) : Prop :=
  exists id res occ, r = Ok res /\ Duplicate res = false /\ Published res = false /\
    (id ∉ w_issued s) /\ ID (Event res) = uuid_String id /\
    OccurredAt (Event res) = occ /\ (IsZero (OccurredAt ev) = false -> occ = OccurredAt ev) /\
    mkContent (Stream (Event res)) (Subject (Event res)) (EType (Event res)) (Payload (Event res))
      = event_content ev /\
    events_by_id (w_tables s') = <[id := (event_content ev, cql_ts occ)]> (events_by_id (w_tables s)) /\
    waiting (w_tables s') id (event_content ev) (cql_ts occ) /\
    failures s' id = 0 /\
    (if bool_decide (IdempotencyKey ev = "") then
       idempotency_keys (w_tables s') = idempotency_keys (w_tables s)
     else claimed (default_stream (Stream ev)) (IdempotencyKey ev) id s').

Lemma append_tables t id c occ :
  let t' := apply_batch (append_batch id c occ) t in
  events_by_id t' = <[id := (c, cql_ts occ)]> (events_by_id t) /\
  idempotency_keys t' = idempotency_keys t /\
  waiting t' id c (cql_ts occ) /\
  exists r, outbox_retry_state t' !! id = Some r /\ r_count r = 0.
Proof.
  destruct t; cbn. split_and!; [done|done| |].
  - unfold waiting; cbn. rewrite !lookup_insert_eq. eauto 10.
  - rewrite lookup_insert_eq. eauto.
Qed.

Lemma wp_timeuuid {A} P (Q : A -> world -> Prop) k s :
  (forall u, (u ∉ w_issued s) ->
    wp (clocked P (answers false lenient)) (k u) Q (mkWorld (w_tables s) ({[u]} ∪ w_issued s))) ->
  wp (clocked P (answers false lenient)) (Vis ETimeUUID k) Q s.
Proof. intros Hk u s' [[Hu ->] _]. by apply Hk. Qed.

(** The occurrence time an append uses. *)
Lemma append_time_wp {A} P ev (k : gotime -> prog storeE A) Q s :
  (forall occ, (IsZero (OccurredAt ev) = false -> occ = OccurredAt ev) ->
    wp (clocked P (answers false lenient)) (k occ) Q s) ->
  wp (clocked P (answers false lenient))
    (let! occ := (if IsZero (OccurredAt ev) then perform ENow else Ret (OccurredAt ev)) in k occ) Q s.
Proof.
  intros Hk. destruct (IsZero (OccurredAt ev)); [|by apply Hk].
  wstep. by apply Hk.
Qed.

Lemma append_new_wp P ev occ id s s0 :
  (IsZero (OccurredAt ev) = false -> occ = OccurredAt ev) -> (id ∉ w_issued s0) ->
  events_by_id (w_tables s) = events_by_id (w_tables s0) ->
  (if bool_decide (IdempotencyKey ev = "") then
     idempotency_keys (w_tables s) = idempotency_keys (w_tables s0)
   else claimed (default_stream (Stream ev)) (IdempotencyKey ev) id s) ->
  wp (clocked P (answers false lenient)) (append_new ev (default_stream (Stream ev)) occ id)
    (fresh_post ev s0) s.
Proof.
  intros Hocc Hid He Hk. unfold append_new. wstep. wstep.
  destruct (append_tables (w_tables s) id (event_content ev) occ) as (T1 & T2 & T3 & r & T4 & T5).
  exists id. do 2 eexists. split_and!; try done.
  - cbn [after with_tables w_tables]. by rewrite <- He.
  - unfold failures. cbn [after with_tables w_tables]. unfold event_content in T4. by rewrite T4.
  - unfold claimed, event_content in *. cbn [after with_tables w_tables]. by rewrite T2.
Qed.

Lemma append_fresh_wp P sha m ev s :
  session m = true ->
  (IdempotencyKey ev <> "" ->
    idempotency_keys (w_tables s) !! (default_stream (Stream ev), IdempotencyKey ev) = None) ->
  wp (clocked P (answers false lenient)) (AppendEventExactlyOnce sha m ev) (fresh_post ev s) s.
Proof.
  intros Hm Hk. unfold AppendEventExactlyOnce. rewrite Hm. cbn [negb].
  apply append_time_wp. intros occ Hocc. unfold perform; cbn [pbind].
  apply wp_timeuuid. intros u Hu. case_bool_decide as Hkey.
  - apply append_new_wp; [done..|]. by rewrite bool_decide_true.
  - wstep. specialize (Hk Hkey). apply wp_cas.
    { unfold column_mismatch; cbn. by rewrite Hk. }
    destruct s as [[ebs ebi ik ic oe rs ob inb dt di] iss].
    cbn [apply_cas w_tables idempotency_keys] in *. rewrite Hk. cbn [negb pbind].
    wstep. wstep. apply append_new_wp; [done..|]. rewrite bool_decide_false by done.
    unfold claimed; cbn. rewrite lookup_insert_eq. eauto.
Qed.

(** An append under a claimed key, up to the answer of its conditional insert. *)
Lemma append_claimed_wp P sha m ev row s (Q : result AppendResult -> world -> Prop) :
  session m = true -> IdempotencyKey ev <> "" ->
  idempotency_keys (w_tables s) !! (default_stream (Stream ev), IdempotencyKey ev) = Some row ->
  (forall u, let s' := mkWorld (w_tables s) ({[u]} ∪ w_issued s) in
    (lenient = true -> wp (clocked P (answers false lenient)) (append_existing ev (i_event_id row)) Q s') /\
    (forall e, Q (Err e) s')) ->
  wp (clocked P (answers false lenient)) (AppendEventExactlyOnce sha m ev) Q s.
Proof.
  intros Hm Hne Hk HQ. unfold AppendEventExactlyOnce. rewrite Hm. cbn [negb].
  apply append_time_wp. intros o _. unfold perform; cbn [pbind].
  apply wp_timeuuid. intros u Hu. rewrite bool_decide_false by done. wstep.
  destruct (HQ u) as [Hok Herr].
  intros r s' [Hs _]. destruct s as [[ebs ebi ik ic oe rs ob inb dt di] iss].
  cbn [w_tables idempotency_keys] in *.
  cbn [answers apply_cas w_tables idempotency_keys] in Hs. unfold column_mismatch in Hs.
  cbn [cas_columns idempotency_keys] in Hs. rewrite Hk in Hs. rewrite bool_decide_true in Hs by eauto.
  destruct r as [[a y]|e].
  - destruct Hs as (-> & -> & -> & Hf). cbn [negb]. by apply Hok, Hf.
  - destruct Hs as [_ Hs].
    assert (s' = mkWorld (mkTables ebs ebi ik ic oe rs ob inb dt di) ({[u]} ∪ iss)) as -> by naive_solver.
    apply Herr.
Qed.

Lemma append_rejected_wp P sha m ev row s :
  lenient = false -> session m = true -> IdempotencyKey ev <> "" ->
  idempotency_keys (w_tables s) !! (default_stream (Stream ev), IdempotencyKey ev) = Some row ->
  wp (clocked P (answers false lenient)) (AppendEventExactlyOnce sha m ev)
    (fun r s' => (exists e, r = Err e) /\ w_tables s' = w_tables s) s.
Proof. intros Hf Hm Hne Hk. eapply append_claimed_wp; [done..|]. intros u s'. split; [congruence|eauto]. Qed.
End Methods.
End StoreSpec.
