(* ===== verification/StoreThms.v ===== *)
(** * The store's contract, session by session

    What a caller of cassstore sees: the specifications of [StoreSpec] for
    every session that answers without failures, with a clock that shows [now]
    during the call; and the consequences of failures that the methods do not
    repair. *)

From S2P Require Import Prelude Prog Contracts Cql Session CassStore StoreInv StoreSpec.

Module StoreThms.
Import CassStore StoreInv StoreSpec.

(** ** Concrete states *)

(** The state after the event of [StoreInv] has been appended at 5 ms. *)
Definition appended : mem := (run (frozen_handler 5000000) demo_append (mem_init 0)).2.

Lemma clocked_legal {UU : UUID} P X (e : storeE X) s x s' :
  clocked P (legal false) X e s x s' -> legal true X e s x s'.
Proof. intros [HL _]. by apply legal_faultless. Qed.

Lemma appended_inv : inv (mem_view appended).
Proof.
  apply (session_inv _ _ _ (fun s => s) _ _ (frozen_session_ok 5000000) (clocked_legal _)).
  - apply inv_empty.
  - apply call_append.
Qed.

(** The state after the event has failed once at 10 ms with quarantine after
    one failure. *)
Definition fail_call : prog storeE (bool * Z * option error) :=
  RecordOutboxFailure demo_module "" "nats: timeout" (dur 500 Millisecond) (dur 30000 Millisecond) 20 1.
Definition quarantined : mem := (run (frozen_handler 10000000) fail_call appended).2.

Lemma run_pmap {E S A B} (h : handler E S) (f : A -> B) p s :
  (run h (pmap f p) s).2 = (run h p s).2.
Proof. unfold pmap. rewrite run_bind. by destruct (run h p s). Qed.

Lemma quarantined_inv : inv (mem_view quarantined).
Proof.
  unfold quarantined. rewrite <- (run_pmap _ AnsFailure).
  apply (session_inv _ _ _ (fun s => s) _ _ (frozen_session_ok 10000000) (clocked_legal _)).
  - apply appended_inv.
  - apply call_failure.
Qed.

Section Sessions.
Context {UU : UUID} {S : Type}.
Variables (view : S -> world) (h : handler storeE S).

(** A session without failures whose clock shows [now]. *)
Definition quiet (now : gotime) : Prop :=
  session_ok (clocked (fun t => t = now) (legal false)) view h.

(** The same with a driver that fails a scan exactly when the number of
    destinations is not the number of columns. *)
Definition scans_columns (now : gotime) : Prop :=
  session_ok (clocked (fun t => t = now) (answers false false)) view h.

(** C12: A fresh append stores one event, with everything the relay needs.  An
    append under a key that is not claimed (or with no key) stores exactly one
    new event with the caller's content under an identifier never drawn
    before, leaves it waiting for the relay with no recorded failure, claims
    the key for it, and reports neither duplicate nor published. *)
Theorem append_stores_once sha m ev now s :
  quiet now -> session m = true ->
  (IdempotencyKey ev <> "" -> idempotency_keys (w_tables (view s)) !!
     (default_stream (Stream ev), IdempotencyKey ev) = None) ->
  let '(r, s') := run h (AppendEventExactlyOnce sha m ev) s in
  fresh_post ev (view s) r (view s').
Proof.
  intros Hok Hm Hk. pose proof (session_wp _ _ _ _ _ s Hok (append_fresh_wp _ sha m ev _ Hm Hk)).
  by destruct (run h _ s).
Qed.

(** C33: A repeated key is an error.  gocql scans the row of a refused insert,
    all columns of the table, into the destinations passed, and fails if their
    numbers differ; [AppendEventExactlyOnce] passes one.  With such a driver an
    append under a claimed key fails, whether its event is stored or not, and
    writes nothing, although every statement was executed. *)
Theorem append_duplicate_rejected sha m ev row now s :
  scans_columns now -> session m = true -> IdempotencyKey ev <> "" ->
  idempotency_keys (w_tables (view s)) !! (default_stream (Stream ev), IdempotencyKey ev) = Some row ->
  let '(r, s') := run h (AppendEventExactlyOnce sha m ev) s in
  (exists e, r = Err e) /\ w_tables (view s') = w_tables (view s).
Proof.
  intros Hok Hm Hne Hk.
  pose proof (session_wp _ _ _ _ _ s Hok (append_rejected_wp (lenient := false) _ sha m ev row _ eq_refl Hm Hne Hk)).
  by destruct (run h _ s).
Qed.

Lemma count_fits n : 0 <= n < 2 ^ 31 - 1 -> 0 <= n < int_max.
Proof. unfold int_max. lia. Qed.

(** C13: Recording a failure of a stored event adds one to its failure count,
    keeps the error text, releases the lease, and schedules the next attempt
    after the exponential backoff of that count, [min(max, base * 2^(n-1))],
    moved by whole milliseconds of at most the jitter percentage and raised to
    10 ms if that leaves less (the base is positive and at most the maximum,
    the percentage at most 100, the maximum at most 2^61 ns); when the count reaches the quarantine threshold the event is
    copied to both dead-letter tables with its content, and otherwise they are
    untouched (the count is a column of type [int], 32 bits).  The event itself
    and the pending partition stay as they are. *)
Theorem failure_recorded m id c occ err base mx pct qa now s :
  quiet now -> session m = true -> inv (view s) ->
  events_by_id (w_tables (view s)) !! id = Some (c, occ) ->
  0 < base <= mx -> mx <= 2 ^ 61 -> 0 <= pct <= 100 -> 0 <= failures (view s) id < 2 ^ 31 - 1 ->
  let '(r, s') := run h (RecordOutboxFailure m (uuid_String id) err base mx pct qa) s in
  failure_post (view s) id c now err base mx pct qa r (view s').
Proof.
  intros Hok Hm Hinv He Hb Hmx Hp Hn.
  pose proof (session_wp _ _ _ _ _ s Hok
    (record_failure_method_wp m now id c occ err base mx pct qa _ Hm Hinv He Hb Hmx Hp (count_fits _ Hn))).
  by destruct (run h _ s).
Qed.

(** C16: Replaying a dead letter puts its event back in the queue: it waits
    again under its own time and content, keeps its failure count, is due at
    once, and is gone from the dead letters found by id. *)
Theorem replay_requeues m id q d now s :
  quiet now -> session m = true -> inv (view s) ->
  dead_letters_by_id (w_tables (view s)) !! id = Some (q, d) ->
  exists occ, events_by_id (w_tables (view s)) !! id = Some (d_content d, occ) /\
  let '(r, s') := run h (ReplayDeadLetter m (uuid_String id)) s in
  replay_post (view s) id d q occ now r (view s').
Proof.
  intros Hok Hm Hinv Hd. destruct (replay_wp (lenient := true) m now id q d _ Hm Hinv Hd) as (occ & He & Hw).
  exists occ. split; [done|]. destruct (session_wp _ _ _ _ _ s Hok Hw) as [Hp _].
  by destruct (run h _ s).
Qed.

(** C17: Marking a stored event published makes it delivered, with the broker's
    message id, removes every pending entry of it and its retry row. *)
Theorem mark_delivers m id c occ broker now s :
  quiet now -> session m = true -> inv (view s) ->
  events_by_id (w_tables (view s)) !! id = Some (c, occ) ->
  let '(r, s') := run h (MarkOutboxPublished m (uuid_String id) broker) s in
  mark_post id c occ broker r (view s').
Proof.
  intros Hok Hm Hinv He.
  destruct (session_wp _ _ _ _ _ s Hok (mark_wp _ m id c occ broker _ Hm Hinv He)) as [Hp _].
  by destruct (run h _ s).
Qed.

(** The entries of the pending partition, oldest first. *)
Definition partition (s : S) : list ((gotime * uuid) * content) :=
  ascending (outbox_by_state (w_tables (view s))).

(** C18: A relay pass returns the first due events.  With [n] the limit, 100 if
    it is not positive and at most 2000, the pass looks at the oldest
    [max(100, 5 n)] entries of the pending partition (by time, then
    identifier) and returns, in that order, the first [n] of them that are not
    quarantined, not waiting for a later attempt and not leased, each with its
    content and failure count.  Nothing is written. *)
Theorem pending_due_in_order m limit now s :
  quiet now -> session m = true ->
  let '(r, s') := run h (PendingOutboxEvents m limit) s in
  let n := if limit <=? 0 then 100 else Z.min limit 2000 in
  let window := take (Z.to_nat (Z.max 100 (5 * n))) (partition s) in
  let due := filter (fun row => eligible (view s) now row.1.2 = true) window in
  view s' = view s /\ StronglySorted row_le (partition s) /\
  r = Ok (map (fun '((occ, id), c) => pending_event id c occ (failures (view s) id))
            (take (Z.to_nat n) due)).
Proof.
  intros Hok Hm. destruct (session_wp _ _ _ _ _ s Hok (pending_wp m now limit _ Hm)) as [Hv Hr].
  destruct (run h _ s) as [r s']. cbn in Hv, Hr. cbv zeta.
  split_and!; [done|apply ascending_sorted|].
  rewrite Hr, omap_select, firstn_map. unfold pending_window. rewrite pending_limit_min, pending_fetch_max.
  f_equal. apply map_ext. intros [[occ id] c]. by rewrite retry_state_failures.
Qed.

(** C36: Head-of-line blocking.  Quarantined events stay in the pending
    partition, and the pass looks only at its first [fetchLimit] entries:
    when all of those are quarantined (or otherwise not due), the relay gets
    an empty batch, however many due events come after them. *)
Theorem pending_head_blocked m limit now s :
  quiet now -> session m = true ->
  Forall (fun row => eligible (view s) now row.1.2 = false) (pending_window (view s) limit) ->
  (run h (PendingOutboxEvents m limit) s).1 = Ok [].
Proof.
  intros Hok Hm HF. destruct (session_wp _ _ _ _ _ s Hok (pending_wp m now limit _ Hm)) as [_ ->].
  rewrite omap_select, filter_nothing; [cbn; by rewrite take_nil|].
  rewrite Forall_forall in HF. apply Forall_forall. intros row Hrow. by rewrite (HF row Hrow).
Qed.

End Sessions.

#[local] Ltac decide_now := vm_compute; first [reflexivity | discriminate | intuition discriminate].

Lemma append_stores_once_witness :
  let '(r, s') := run (frozen_handler 5000000)
    (AppendEventExactlyOnce (fun s => s) demo_module demo_event) (mem_init 0) in
  fresh_post demo_event (mem_view (mem_init 0)) r (mem_view s').
Proof.
  apply (append_stores_once mem_view _ _ _ _ 5000000); [apply frozen_session_ok|done|].
  intros _. decide_now.
Defined.

Lemma append_duplicate_rejected_witness :
  let '(r, s') := run (strict_handler 6000000)
    (AppendEventExactlyOnce (fun s => s) demo_module demo_event) appended in
  (exists e, r = Err e) /\ w_tables (mem_view s') = w_tables (mem_view appended).
Proof.
  apply (append_duplicate_rejected (UU := nat_uuid) mem_view _ _ _ _ (@mkIdem nat_uuid 0%nat "{}" 5000000) 6000000);
    [apply strict_session_ok|done|done|decide_now].
Defined.

Lemma failure_recorded_witness :
  let '(r, s') := run (frozen_handler 10000000)
    (RecordOutboxFailure demo_module (unary 0) "nats: timeout" (dur 500 Millisecond)
      (dur 30000 Millisecond) 20 1) appended in
  failure_post (mem_view appended) (0%nat : uuid)
    (mkContent "orders" "events.orders" "order.created" "{}") 10000000 "nats: timeout"
    (dur 500 Millisecond) (dur 30000 Millisecond) 20 1 r (mem_view s').
Proof.
  apply (failure_recorded (UU := nat_uuid) mem_view (frozen_handler 10000000) demo_module 0%nat
    (mkContent "orders" "events.orders" "order.created" "{}") 5000000);
    [apply frozen_session_ok|done|apply appended_inv|decide_now..].
Defined.

Lemma replay_requeues_witness :
  exists occ,
  let '(r, s') := run (frozen_handler 20000000) (ReplayDeadLetter demo_module (unary 0)) quarantined in
  replay_post (mem_view quarantined) (0%nat : uuid)
    (mkDead (mkContent "orders" "events.orders" "order.created" "{}") 1 "nats: timeout")
    10000000 occ 20000000 r (mem_view s').
Proof.
  edestruct (replay_requeues (UU := nat_uuid) mem_view (frozen_handler 20000000) demo_module 0%nat 10000000
    (mkDead (mkContent "orders" "events.orders" "order.created" "{}") 1 "nats: timeout") 20000000 quarantined)
    as (occ & _ & H); [apply frozen_session_ok|done|apply quarantined_inv|decide_now|].
  exists occ. exact H.
Defined.

Lemma mark_delivers_witness :
  let '(r, s') := run (frozen_handler 20000000) (MarkOutboxPublished demo_module (unary 0) "m-1") appended in
  mark_post (0%nat : uuid) (mkContent "orders" "events.orders" "order.created" "{}") 5000000 "m-1"
    r (mem_view s').
Proof.
  apply (mark_delivers (UU := nat_uuid) mem_view (frozen_handler 20000000) demo_module 0%nat _ _ _ 20000000);
    [apply frozen_session_ok|done|apply appended_inv|decide_now].
Defined.

(** The event of the concrete run, due at 20 ms. *)
Lemma pending_due_in_order_witness :
  (run (frozen_handler 20000000) (PendingOutboxEvents demo_module 10) appended).1 =
  Ok [pending_event (0%nat : uuid) (mkContent "orders" "events.orders" "order.created" "{}") 5000000 0].
Proof.
  pose proof (pending_due_in_order mem_view (frozen_handler 20000000) demo_module 10 20000000 appended
    (frozen_session_ok _) eq_refl) as H.
  destruct (run (frozen_handler 20000000) (PendingOutboxEvents demo_module 10) appended) as [r s'].
  destruct H as (_ & _ & ->). decide_now.
Defined.

(** A hundred quarantined events before one that is due. *)
Definition blocked : mem :=
  mkMem (mkTables ∅ ∅ ∅ ∅ ∅
    (list_to_map (map (fun i => (i, mkRetry 20 0 "" "" 0 true None None)) (seq 0 100)))
    (list_to_map (map (fun i => ((Z.of_nat i * Millisecond, i),
       mkContent "orders" "events.orders" "order.created" "{}")) (seq 0 101))) ∅ ∅ ∅) 101 0.

Lemma pending_head_blocked_witness :
  (run (frozen_handler Second) (PendingOutboxEvents demo_module 20) blocked).1 = Ok [] /\
  eligible (mem_view blocked) Second (100%nat : uuid) = true /\
  bool_decide (is_Some (outbox_by_state (w_tables (mem_view blocked)) !! (100 * Millisecond, 100%nat : uuid))) = true.
Proof.
  split; [|split; vm_compute; reflexivity].
  apply (pending_head_blocked mem_view _ _ _ Second); [apply frozen_session_ok|done|].
  apply (bool_decide_unpack _). vm_compute. exact I.
Defined.
End StoreThms.
