(* ===== verification/Cleanup.v ===== *)
(** * Reading streams and expiring rows

    What [RecentEvents] returns, and that [CleanupExpired] removes expired
    idempotency keys and dead letters and nothing else. *)

From S2P Require Import Prelude Prog Contracts Cql Session CassStore StoreInv StoreSpec StoreThms.

Module Cleanup.
Import CassStore StoreInv StoreSpec StoreThms.

Section Typed.
Context {UU : UUID}.

(** Key columns of type [timestamp] hold whole milliseconds. *)
Record typed (t : tables) : Prop := mkTyped {
  ty_stream st occ id : is_Some (events_by_stream t !! (st, (occ, id))) -> cql_ts occ = occ;
  ty_created ca sk : is_Some (idempotency_by_created t !! (ca, sk)) -> cql_ts ca = ca;
  ty_pending occ id : is_Some (outbox_by_state t !! (occ, id)) -> cql_ts occ = occ;
  ty_dead q id : is_Some (dead_letters_by_time t !! (q, id)) -> cql_ts q = q
}.

Lemma typed_empty : typed empty_tables.
Proof. constructor; cbn; intros *; rewrite lookup_empty; by intros [? ?]. Qed.

Lemma apply_mutation_typed mu t : typed t -> typed (apply_mutation mu t).
Proof.
  intros [T1 T2 T3 T4]. destruct t, mu; cbn in *; constructor; cbn; try done; intros *;
    rewrite ?lookup_insert, ?lookup_delete; case_decide; intros Hs; simplify_eq;
    eauto using cql_ts_idemp; by apply is_Some_None in Hs.
Qed.

Lemma apply_batch_typed b t : typed t -> typed (apply_batch b t).
Proof.
  revert t. induction b as [|mu b IH]; intros t Ht; [done|]. by apply IH, apply_mutation_typed.
Qed.

Lemma apply_cas_typed X (c : cas X) t : typed t -> typed (apply_cas c t).2.
Proof.
  intros Ht. destruct t, c; cbn; repeat case_match; cbn; try done; by destruct Ht.
Qed.

Lemma legal_typed X (e : storeE X) s x s' :
  legal true X e s x s' -> typed (w_tables s) -> typed (w_tables s').
Proof.
  intros HL Ht. destruct e; cbn in HL.
  - by subst.
  - by destruct HL as [_ ->].
  - by destruct HL as [_ ->].
  - by destruct HL as [-> _].
  - by destruct HL as [-> _].
  - assert (s' = s \/ s' = after b s) as [-> | ->] by (destruct x; naive_solver); [done|].
    by apply apply_batch_typed.
  - pose proof (apply_cas_typed _ c _ Ht) as Hc.
    destruct (apply_cas c (w_tables s)) as [[a y] t']. cbn in Hc.
    destruct x as [[? ?]|?]; naive_solver.
Qed.

(** Every program over the store's statements keeps the columns typed. *)
Lemma exec_typed {A} (p : prog storeE A) s a s' :
  exec (legal true) p s a s' -> typed (w_tables s) -> typed (w_tables s').
Proof.
  revert s. induction p as [b|X e k IH]; intros s; cbn; [by intros [_ ->]|].
  intros (x & s1 & HL & He) Ht. eapply IH; [exact He|]. by eapply legal_typed.
Qed.
End Typed.

Section Loops.
Context {UU : UUID}.

(** The worlds a loop of batches goes through. *)
Definition after_all {X} (batch : X -> list mutation) (rows : list X) (s : world) : world :=
  foldl (fun s row => after (batch row) s) s rows.

#[local] Arguments wp : simpl never.

Lemma delete_loop_wp {X} P (batch : X -> list mutation) rows n s :
  wp (clocked P (legal false)) (delete_loop batch rows n)
    (fun r s' => r = n + Z.of_nat (length rows) /\ s' = after_all batch rows s) s.
Proof.
  revert n s. induction rows as [|row rows IH]; intros n s; cbn [delete_loop].
  - wstep. split; [cbn; lia|done].
  - wstep. eapply wp_mono; [|apply IH]. cbn beta. intros r s' [-> ->].
    split; [cbn [length]; lia|done].
Qed.

Lemma idem_rows_deleted rows s :
  Forall (fun row : gotime * (string * string) => cql_ts row.1 = row.1) rows ->
  let t := w_tables s in
  let t' := w_tables (after_all idem_batch rows s) in
  (forall k, idempotency_keys t' !! k = if decide (k ∈ map snd rows) then None else idempotency_keys t !! k) /\
  (forall r, idempotency_by_created t' !! r = if decide (r ∈ rows) then None else idempotency_by_created t !! r) /\
  events_by_stream t' = events_by_stream t /\ events_by_id t' = events_by_id t /\
  outbox_events t' = outbox_events t /\ outbox_retry_state t' = outbox_retry_state t /\
  outbox_by_state t' = outbox_by_state t /\ inbox_consumed t' = inbox_consumed t /\
  dead_letters_by_time t' = dead_letters_by_time t /\ dead_letters_by_id t' = dead_letters_by_id t.
Proof.
  intros Hts. revert s. induction Hts as [|[ca [st k]] rows Hrow Hts IH]; intros s; cbn -[decide].
  { split_and!; try done; intros; by rewrite decide_False by apply not_elem_of_nil. }
  destruct (IH (after (idem_batch (ca, (st, k))) s))
    as (I1 & I2 & E1 & E2 & E3 & E4 & E5 & E6 & E7 & E8).
  change (foldl _ ?x rows) with (after_all idem_batch rows x).
  destruct s as [[] iss]. cbn -[decide] in *. rewrite Hrow in I2. split_and!; try done.
  - intros k'. rewrite I1, lookup_delete.
    repeat case_decide; rewrite ?elem_of_cons in *; naive_solver.
  - intros r. rewrite I2, lookup_delete.
    repeat case_decide; rewrite ?elem_of_cons in *; naive_solver.
Qed.

Lemma dead_rows_deleted rows s :
  Forall (fun row : gotime * uuid => cql_ts row.1 = row.1) rows ->
  let t := w_tables s in
  let t' := w_tables (after_all dl_batch rows s) in
  (forall id, dead_letters_by_id t' !! id = if decide (id ∈ map snd rows) then None else dead_letters_by_id t !! id) /\
  (forall r, dead_letters_by_time t' !! r = if decide (r ∈ rows) then None else dead_letters_by_time t !! r) /\
  events_by_stream t' = events_by_stream t /\ events_by_id t' = events_by_id t /\
  outbox_events t' = outbox_events t /\ outbox_retry_state t' = outbox_retry_state t /\
  outbox_by_state t' = outbox_by_state t /\ inbox_consumed t' = inbox_consumed t /\
  idempotency_keys t' = idempotency_keys t /\ idempotency_by_created t' = idempotency_by_created t.
Proof.
  intros Hts. revert s. induction Hts as [|[q id] rows Hrow Hts IH]; intros s; cbn -[decide].
  { split_and!; try done; intros; by rewrite decide_False by apply not_elem_of_nil. }
  destruct (IH (after (dl_batch (q, id)) s))
    as (I1 & I2 & E1 & E2 & E3 & E4 & E5 & E6 & E7 & E8).
  change (foldl _ ?x rows) with (after_all dl_batch rows x).
  destruct s as [[] iss]. cbn -[decide] in *. rewrite Hrow in I2. split_and!; try done.
  - intros k'. rewrite I1, lookup_delete.
    repeat case_decide; rewrite ?elem_of_cons in *; naive_solver.
  - intros r. rewrite I2, lookup_delete.
    repeat case_decide; rewrite ?elem_of_cons in *; naive_solver.
Qed.

Lemma elem_of_idem_scan n t row :
  row ∈ eval_scan (ScanIdempotency n) t -> is_Some (idempotency_by_created t !! row).
Proof.
  cbn. intros Hin%elem_of_take_1. apply list_elem_of_fmap in Hin as ([r u] & -> & Hin).
  rewrite merge_sort_Permutation, elem_of_map_to_list in Hin. eauto.
Qed.

Lemma elem_of_dead_scan n t row :
  row ∈ eval_scan (ScanDeadLetters n) t -> dead_letters_by_time t !! row.1 = Some row.2.
Proof.
  cbn. intros Hin%elem_of_take_1. destruct row. by apply elem_of_ascending.
Qed.

(** The rows a pass finds expired. *)
Definition cleanup_limit (limit : Z) : Z := if limit <=? 0 then 200 else limit.
Definition expired_keys (s : world) (before : gotime) (limit : Z) : list (gotime * (string * string)) :=
  filter (fun row => Before row.1 before = true) (eval_scan (ScanIdempotency (cleanup_limit limit)) (w_tables s)).
Definition expired_dead (s : world) (before : gotime) (limit : Z) : list (gotime * uuid) :=
  filter (fun row => Before row.1 before = true)
    (map fst (eval_scan (ScanDeadLetters (cleanup_limit limit)) (w_tables s))).

Definition cleanup_post (s : world) (ib db : gotime) (limit : Z) (r : Z * Z * option error) (s' : world) : Prop :=
  let t := w_tables s in let t' := w_tables s' in
  let ks := expired_keys s ib limit in let ds := expired_dead s db limit in
  r = (Z.of_nat (length ks), Z.of_nat (length ds), None) /\
  (forall k, idempotency_keys t' !! k = if decide (k ∈ map snd ks) then None else idempotency_keys t !! k) /\
  (forall r, idempotency_by_created t' !! r = if decide (r ∈ ks) then None else idempotency_by_created t !! r) /\
  (forall id, dead_letters_by_id t' !! id = if decide (id ∈ map snd ds) then None else dead_letters_by_id t !! id) /\
  (forall r, dead_letters_by_time t' !! r = if decide (r ∈ ds) then None else dead_letters_by_time t !! r) /\
  events_by_stream t' = events_by_stream t /\ events_by_id t' = events_by_id t /\
  outbox_events t' = outbox_events t /\ outbox_retry_state t' = outbox_retry_state t /\
  outbox_by_state t' = outbox_by_state t /\ inbox_consumed t' = inbox_consumed t.

Lemma cleanup_wp P m ib db limit s :
  session m = true -> typed (w_tables s) ->
  wp (clocked P (legal false)) (CleanupExpired m ib db limit) (cleanup_post s ib db limit) s.
Proof.
  intros Hm Ht. unfold CleanupExpired. rewrite Hm. cbn [negb]. fold (cleanup_limit limit). wstep.
  apply wp_bind. eapply wp_mono; [|apply delete_loop_wp]. cbn beta. intros r1 s1 [-> ->].
  destruct (idem_rows_deleted (expired_keys s ib limit) s) as
    (I1 & I2 & E1 & E2 & E3 & E4 & E5 & E6 & E7 & E8).
  { apply Forall_forall. intros [ca sk] [_ Hin]%list_elem_of_filter.
    apply elem_of_idem_scan in Hin. by eapply ty_created. }
  wstep. apply wp_bind. eapply wp_mono; [|apply delete_loop_wp]. cbn beta. intros r2 s2 [-> ->].
  fold (expired_keys s ib limit). set (s1 := after_all idem_batch _ s) in *.
  assert (expired_dead s1 db limit = expired_dead s db limit) as Hdl.
  { unfold expired_dead. cbn [eval_scan]. by rewrite E7. }
  fold (expired_dead s1 db limit). rewrite Hdl.
  destruct (dead_rows_deleted (expired_dead s db limit) s1) as
    (J1 & J2 & F1 & F2 & F3 & F4 & F5 & F6 & F7 & F8).
  { apply Forall_forall. intros [q id] [_ Hin]%list_elem_of_filter.
    apply list_elem_of_fmap in Hin as ([k d] & -> & Hin).
    apply elem_of_dead_scan in Hin. destruct k. eapply ty_dead; [done|]. cbn in *; eauto. }
  wstep. unfold cleanup_post. cbn zeta.
  rewrite F1, F2, F3, F4, F5, F6, F7, F8, E1, E2, E3, E4, E5, E6, Z.add_0_l, Z.add_0_l.
  split_and!; [done|done|done| | |done..].
  - intros id. by rewrite J1, E8.
  - intros r. by rewrite J2, E7.
Qed.
End Loops.

Section Sessions.
Context {UU : UUID} {S : Type}.
Variables (view : S -> world) (h : handler storeE S).

(** C19: Cleanup removes expired rows and nothing else.  Among the first [limit]
    rows of each table, oldest first, exactly those created before the given
    instants are removed, each together with the row it points to, and the
    answer counts them; no key or dead letter is removed without an expired
    row that names it, and events, outbox, retry and inbox rows never change. *)
Theorem cleanup_only_expired m ib db limit now s :
  quiet view h now -> session m = true -> typed (w_tables (view s)) ->
  let '(r, s') := run h (CleanupExpired m ib db limit) s in
  cleanup_post (view s) ib db limit r (view s') /\
  (forall k, idempotency_keys (w_tables (view s')) !! k <> idempotency_keys (w_tables (view s)) !! k ->
     exists t, t < ib /\ is_Some (idempotency_by_created (w_tables (view s)) !! (t, k))) /\
  (forall id, dead_letters_by_id (w_tables (view s')) !! id <> dead_letters_by_id (w_tables (view s)) !! id ->
     exists q, q < db /\ is_Some (dead_letters_by_time (w_tables (view s)) !! (q, id))).
Proof.
  intros Hok Hm Ht. pose proof (session_wp _ _ _ _ _ s Hok (cleanup_wp _ m ib db limit _ Hm Ht)) as Hp.
  destruct (run h _ s) as [r s']. cbn [fst snd] in Hp. split; [done|].
  destruct Hp as (_ & K & _ & D & _). split.
  - intros k. rewrite K. case_decide as Hin; [intros _|done].
    apply list_elem_of_fmap in Hin as ([t k'] & -> & [Hb Hin]%list_elem_of_filter).
    apply elem_of_idem_scan in Hin. exists t. split; [by apply Z.ltb_lt|done].
  - intros id. rewrite D. case_decide as Hin; [intros _|done].
    apply list_elem_of_fmap in Hin as ([q id'] & -> & [Hb Hin]%list_elem_of_filter).
    apply list_elem_of_fmap in Hin as ([k d] & Ek & Hin). apply elem_of_dead_scan in Hin.
    cbn in *. subst k. exists q. split; [by apply Z.ltb_lt|eauto].
Qed.

Lemma elem_of_stream_rows st m k c :
  (k, c) ∈ stream_rows st m <-> m !! (st, k) = Some c.
Proof.
  unfold stream_rows. rewrite merge_sort_Permutation, list_elem_of_omap. split.
  - intros ([[st' k'] c'] & Hin & Hs). case_bool_decide; simplify_eq.
    by apply elem_of_map_to_list in Hin.
  - intros Hl. exists ((st, k), c). rewrite elem_of_map_to_list, bool_decide_true; done.
Qed.

Lemma stream_rows_sorted st m : StronglySorted row_le (stream_rows st m).
Proof. apply (StronglySorted_merge_sort row_le). Qed.

(** C20: Reading a stream returns its newest events.  In a state that satisfies
    the invariant the answer is the first [limit] (1 to 500) entries of a list
    that is sorted newest first and holds exactly the stored events of the
    stream, each with its own subject, type, payload and time; nothing is
    written. *)
Theorem recent_events_of_stream m st limit now s :
  quiet view h now -> session m = true -> inv (view s) ->
  let '(r, s') := run h (RecentEvents m st limit) s in
  view s' = view s /\
  exists rows, r = Ok (map (recent_event st) (take (Z.to_nat (recent_limit limit)) rows)) /\
    StronglySorted (fun a b => row_le b a) rows /\ 1 <= recent_limit limit <= 500 /\
    (forall occ id c, ((occ, id), c) ∈ rows <->
       events_by_id (w_tables (view s)) !! id = Some (c, occ) /\ c_stream c = st).
Proof.
  intros Hok Hm Hinv.
  assert (wp (clocked (fun t => t = now) (legal false)) (RecentEvents m st limit)
    (fun r s' => s' = view s /\ r = Ok (map (recent_event st)
       (eval_scan (ScanRecent st (recent_limit limit)) (w_tables (view s))))) (view s)) as Hw.
  { unfold RecentEvents. rewrite Hm. cbn [negb]. wstep. by wstep. }
  pose proof (session_wp _ _ _ _ _ s Hok Hw) as [Hv Hr]. destruct (run h _ s) as [r s'].
  split; [done|]. exists (reverse (stream_rows st (events_by_stream (w_tables (view s))))).
  split_and!; [done| |unfold recent_limit; repeat case_match; zify_bools; lia..|].
  - apply StronglySorted_reverse, stream_rows_sorted.
  - intros occ id c. rewrite elem_of_reverse, elem_of_stream_rows. apply (inv_stream _ Hinv).
Qed.

(** C35: A quarantine can lose its dead letter.  If the retry row of an event
    says quarantined but the dead-letter batch that follows the update failed,
    the event is out of reach: no relay pass returns it, and replaying it
    answers not-found and writes nothing. *)
Theorem quarantine_without_dead_letter m id r limit now s :
  quiet view h now -> session m = true ->
  outbox_retry_state (w_tables (view s)) !! id = Some r -> r_quarantined r = true ->
  dead_letters_by_id (w_tables (view s)) !! id = None ->
  (exists evs, (run h (PendingOutboxEvents m limit) s).1 = Ok evs /\
     Forall (fun ev => ID ev <> uuid_String id) evs) /\
  (exists e, (run h (ReplayDeadLetter m (uuid_String id)) s).1 = Some e /\ err_notfound e = true) /\
  view (run h (ReplayDeadLetter m (uuid_String id)) s).2 = view s.
Proof.
  intros Hok Hm Hr Hq Hd. split.
  - destruct (session_wp _ _ _ _ _ s Hok (pending_wp m now limit _ Hm)) as [_ ->].
    eexists. split; [done|]. rewrite omap_select.
    apply Forall_take, Forall_fmap, Forall_forall.
    intros [[occ id'] c] [He _]%list_elem_of_filter. cbn in *.
    intros Hid. assert (Ok id' = Ok id) as Hid' by (by rewrite <- !ParseUUID_String, Hid).
    injection Hid' as ->. unfold eligible, retry_state in He. cbn in He.
    rewrite Hr in He. cbn in He. by rewrite Hq in He.
  - assert (wp (clocked (fun t => t = now) (legal false)) (ReplayDeadLetter m (uuid_String id))
      (fun r s' => (exists e, r = Some e /\ err_notfound e = true) /\ s' = view s) (view s)) as Hw.
    { unfold ReplayDeadLetter. rewrite Hm, ParseUUID_String. cbn [negb]. wstep. cbn [eval_query].
      rewrite Hd. intros e He. wstep. eauto. }
    apply (session_wp _ _ _ _ _ s Hok Hw).
Qed.
End Sessions.

Lemma recent_events_of_stream_witness :
  let '(r, s') := run (frozen_handler Second) (RecentEvents demo_module "orders" 10) appended in
  exists rows, r = Ok (map (recent_event "orders") (take (Z.to_nat (recent_limit 10)) rows)) /\
    ((5000000, 0%nat : uuid), mkContent "orders" "events.orders" "order.created" "{}") ∈ rows.
Proof.
  pose proof (recent_events_of_stream mem_view (frozen_handler Second) demo_module "orders" 10 Second
    appended (frozen_session_ok _) eq_refl appended_inv) as H.
  destruct (run (frozen_handler Second) _ appended) as [r s'].
  destruct H as (_ & rows & -> & _ & _ & Hrows). exists rows. split; [done|].
  apply Hrows. split; vm_compute; reflexivity.
Defined.

(** The retry row is updated; the dead-letter batch times out. *)
Definition lost : mem := (run fmem_handler fail_call (appended, [NoFault; NoFault; NoFault; FailBefore])).2.1.

Lemma quarantine_without_dead_letter_witness :
  (run fmem_handler fail_call (appended, [NoFault; NoFault; NoFault; FailBefore])).1.1 = (true, 1) /\
  exists e, (run (frozen_handler Second) (ReplayDeadLetter demo_module (unary 0)) lost).1 = Some e.
Proof.
  split; [vm_compute; reflexivity|].
  destruct (outbox_retry_state (m_tables lost) !! 0%nat) as [r|] eqn:Hr; [|by vm_compute in Hr].
  destruct (quarantine_without_dead_letter (UU := nat_uuid) mem_view (frozen_handler Second) demo_module
    0%nat r 10 Second lost) as (_ & (e & He & _) & _);
    [apply frozen_session_ok|done|exact Hr| |vm_compute; reflexivity|exists e; exact He].
  vm_compute in Hr. by injection Hr as <-.
Defined.

(** The key of the concrete run, claimed at 5 ms, expires at 1 s; the dead
    letter of 10 ms is younger than the dead letters' bound. *)
Lemma cleanup_only_expired_witness :
  let '(r, s') := run (frozen_handler Second) (CleanupExpired demo_module Second 7000000 200) quarantined in
  r = (1, 0, None) /\ cleanup_post (mem_view quarantined) Second 7000000 200 r (mem_view s').
Proof.
  pose proof (cleanup_only_expired mem_view (frozen_handler Second) demo_module Second 7000000 200 Second
    quarantined (frozen_session_ok _) eq_refl) as H.
  assert ((run (frozen_handler Second) (CleanupExpired demo_module Second 7000000 200) quarantined).1
            = (1, 0, None)) as Hr by (vm_compute; reflexivity).
  destruct (run (frozen_handler Second) _ quarantined) as [r s']. split; [done|]. apply H.
  assert (forall X (h : handler storeE X) (v : X -> world) P p (s : X), session_ok (clocked P (legal false)) v h ->
    typed (w_tables (v s)) -> typed (w_tables (v (run h (p : prog storeE (bool * Z * option error)) s).2))) as Hty.
  { intros X hd v P p s Hok Ht. refine (exec_typed p (v s) _ _ _ Ht).
    apply session_exec. intros Y e s0. by apply (clocked_legal P). }
  apply (Hty _ _ _ _ _ _ (frozen_session_ok _)).
  refine (exec_typed demo_append (mem_view (mem_init 0)) _ _ _ typed_empty).
  apply session_exec. intros Y e s0. by apply (clocked_legal (fun t => t = 5000000)), frozen_session_ok.
Defined.
End Cleanup.
