(* ===== verification/Inbox.v ===== *)
(** * Inbox deduplication, under every interleaving

    A consumer claims a message before it processes it.  Once a claim has been
    granted no program over the store's statements can undo it, so no other
    claim of that message by that consumer is ever granted. *)

From S2P Require Import Prelude Prog Contracts Cql Session CassStore StoreInv.

Module Inbox.
Import CassStore StoreInv.

Section Inbox.
Context {UU : UUID}.
Variables (consumer messageID : string).

Definition consumed (s : world) : Prop :=
  is_Some (inbox_consumed (w_tables s) !! (consumer, messageID)).

Lemma apply_batch_inbox b t : inbox_consumed (apply_batch b t) = inbox_consumed t.
Proof.
  revert t. induction b as [|mu b IH]; intros t; [done|].
  change (apply_batch (mu :: b) t) with (apply_batch b (apply_mutation mu t)).
  rewrite IH. by destruct t, mu.
Qed.

Lemma cas_consumed X (c : cas X) s :
  consumed s -> consumed (with_tables s (apply_cas c (w_tables s)).2).
Proof.
  unfold consumed. destruct s as [[] iss], c; cbn; repeat case_match; cbn; try done.
  intros Hc. rewrite lookup_insert. case_decide; eauto.
Qed.

(** Any statement keeps a consumed message consumed. *)
Lemma legal_consumed X (e : storeE X) s x s' :
  legal true X e s x s' -> consumed s -> consumed s' /\ w_issued s ⊆ w_issued s'.
Proof.
  intros HL Hc. destruct e as [| |n|Y q|Y q|b|Y d c]; cbn in HL.
  - by subst.
  - destruct HL as [_ ->]. split; [done|set_solver].
  - by destruct HL as [_ ->].
  - by destruct HL as [-> _].
  - by destruct HL as [-> _].
  - assert (s' = s \/ s' = after b s) as [-> | ->] by (destruct x; naive_solver); [done|].
    split; [|done]. unfold consumed. cbn. by rewrite apply_batch_inbox.
  - pose proof (cas_consumed _ c _ Hc) as Hc'.
    destruct (apply_cas c (w_tables s)) as [[a y] t']. cbn in Hc'.
    destruct x as [[? ?]|?]; naive_solver.
Qed.

Abbreviation isound := (sound (legal true) consumed w_issued (fun _ _ _ => True)).

#[local] Instance true_preorder : forall g : gset uuid, PreOrder (fun _ _ : world => True).
Proof. by split. Qed.

Lemma any_prog_sound {A} (p : prog storeE A) g s : isound g p no_post s.
Proof.
  revert g s. induction p as [a|X e k IH]; intros g s; cbn; [done|].
  intros s1 x s2 _ Hc Hg HL. destruct (legal_consumed _ _ _ _ _ HL Hc) as [? ?].
  split_and!; [done|done|done|]. exists g. split; [set_solver|apply IH].
Qed.

(** A claim of the message. *)
Lemma claim_refused m g s : isound g (ClaimInboxMessage m consumer messageID) (fun _ r _ => r <> Ok true) s.
Proof.
  unfold ClaimInboxMessage. destruct (negb (session m)); [by intros ? ? ?|]. cbn.
  intros s1 now s2 _ Hc Hg ->. split_and!; [done..|]. exists g. split; [set_solver|].
  intros s3 r s4 _ Hc3 Hg3 HL.
  assert (r <> Ok (true, tt) /\ s4 = s3) as [Hr ->].
  { destruct Hc3 as [t Ht]. destruct s3 as [[] iss]. cbn in *. rewrite Ht in HL.
    destruct r as [[a []]|e]; naive_solver. }
  split_and!; [done..|]. exists g. split; [set_solver|].
  destruct r as [[[] []]|e]; [done|by intros ? ? ? ?..].
Qed.

(** Any program at all, or a claim of this message by this consumer. *)
Definition inbox_call (p : prog storeE (option (result bool))) (Q : option (result bool) -> world -> Prop) : Prop :=
  Q = (fun a _ => a <> Some (Ok true)) /\
  ((exists m, p = pmap Some (ClaimInboxMessage m consumer messageID)) \/
   (exists A (p' : prog storeE A), p = pmap (fun _ => None) p')).

Lemma inbox_call_sound p Q s : inbox_call p Q -> isound ∅ p (fun _ => Q) s.
Proof.
  intros [-> [(m & ->)|(A & p' & ->)]]; (apply sound_bind; [apply _|]); eapply sound_weaken.
  2: apply (claim_refused m). 3: apply any_prog_sound.
  - cbn. intros g a s' _ Ha s'' _ _. congruence.
  - by intros ? ? ? ? ? ? ? ?.
Qed.

(** A granted claim leaves the message consumed. *)
Lemma claim_consumes m s s' :
  exec (legal true) (ClaimInboxMessage m consumer messageID) s (Ok true) s' -> consumed s'.
Proof.
  unfold ClaimInboxMessage. destruct (negb (session m)); cbn; [by intros [? _]|].
  intros (now & s1 & -> & r & s2 & HL & He). destruct s as [[] iss]. cbn in HL.
  destruct (_ !! (consumer, messageID)) eqn:E; (destruct r as [[a []]|e]; cbn in He; [|by destruct He]);
    destruct HL as (-> & _ & -> & _), He as [Ha ->]; [done|].
  unfold consumed. cbn. rewrite lookup_insert_eq. eauto.
Qed.
End Inbox.

(** C7: Messages are consumed at most once.  After a claim of a message by a
    consumer has been granted, no claim of it by that consumer is granted any
    more, on any node and in any interleaving with any programs over the
    store's statements, failed statements and crashes included. *)
Theorem inbox_claimed_once {UU : UUID} consumer messageID m s0 s1 ts s :
  exec (legal true) (ClaimInboxMessage m consumer messageID) s0 (Ok true) s1 ->
  reachable (legal true) (inbox_call consumer messageID) s1 (ts, s) ->
  Forall (fun t => code t <> Ret (Some (Ok true))) ts.
Proof.
  intros He Hr. apply claim_consumes in He. pose proof (reachable_goals _ _ _ _ _ Hr) as Hgoals.
  destruct (reachable_sound (HR := true_preorder) (legal true) (consumed consumer messageID) w_issued
    (fun _ _ _ => True) (inbox_call consumer messageID) s1 ts s) as [_ Hres];
    [done|intros; by eapply inbox_call_sound|done|].
  rewrite Forall_forall in Hres, Hgoals |- *. intros t Ht Ec.
  destruct (Hgoals t Ht) as (p & Hg & _). specialize (Hres t Ht _ Ec). rewrite Hg in Hres. by apply Hres.
Qed.

(** Two claims of the same message; the first is granted. *)
Definition claim : prog storeE (result bool) := ClaimInboxMessage demo_module "billing" "m-1".
Definition inbox_start : fmem := (mem_init 0, []).
Definition claimed_once : fmem := (run fmem_handler claim inbox_start).2.

Lemma inbox_claimed_once_witness :
  (run fmem_handler claim inbox_start).1 = Ok true /\
  (run fmem_handler (pmap Some claim) claimed_once).1 <> Some (Ok true).
Proof.
  assert ((run fmem_handler claim inbox_start).1 = Ok true) as H1 by (vm_compute; reflexivity).
  split; [exact H1|].
  pose proof (session_exec _ _ _ claim inbox_start fmem_session_ok) as He1. rewrite H1 in He1.
  pose proof (session_exec _ _ _ (pmap Some claim) claimed_once fmem_session_ok) as He2.
  destruct (run fmem_handler (pmap Some claim) claimed_once) as [a s]. cbn [fst snd] in He2 |- *.
  assert (Forall (fun t => code t <> Ret (Some (Ok true)))
    [mkThread (E := storeE) (Ret a) (fun a (_ : world) => a <> Some (Ok true))]) as HF.
  { eapply (inbox_claimed_once "billing" "m-1" demo_module _ _ _ _ He1).
    eapply reachable_run; [apply rtc_refl| |exact He2].
    split; [reflexivity|]. left. by exists demo_module. }
  apply Forall_inv in HF. cbn in HF. congruence.
Defined.
End Inbox.
