(* ===== verification/GoStrings.v ===== *)
(** * Go strings (packages strings and strconv)

    A Go string is a byte string.  The functions the repository uses of the
    standard library, with the facts the configuration parsers rely on. *)

From S2P Require Import Prelude.
From Stdlib Require Import Ascii.

Module GoStrings.

Definition byte (n : nat) : ascii := ascii_of_nat n.
Definition code_of (c : ascii) : nat := nat_of_ascii c.

(** ** [strings.TrimSpace]

    White space as [unicode.IsSpace] has it, in UTF-8: the ASCII blanks,
    U+0085, U+00A0, U+1680, U+2000..U+200A, U+2028, U+2029, U+202F, U+205F and
    U+3000. *)
Definition space1 (c : ascii) : bool :=
  let n := code_of c in (Nat.leb 9 n && Nat.leb n 13) || Nat.eqb n 32.

Definition space2 (c1 c2 : ascii) : bool :=
  Nat.eqb (code_of c1) 194 && (Nat.eqb (code_of c2) 133 || Nat.eqb (code_of c2) 160).

Definition space3 (c1 c2 c3 : ascii) : bool :=
  let a := code_of c1 in let b := code_of c2 in let n := code_of c3 in
  (Nat.eqb a 225 && Nat.eqb b 154 && Nat.eqb n 128) ||
  (Nat.eqb a 226 && Nat.eqb b 128 &&
     ((Nat.leb 128 n && Nat.leb n 138) || Nat.eqb n 168 || Nat.eqb n 169 || Nat.eqb n 175)) ||
  (Nat.eqb a 226 && Nat.eqb b 129 && Nat.eqb n 159) ||
  (Nat.eqb a 227 && Nat.eqb b 128 && Nat.eqb n 128).

Fixpoint trim_left (s : string) : string :=
  match s with
  | String c1 s1 =>
      if space1 c1 then trim_left s1 else
      match s1 with
      | String c2 s2 =>
          if space2 c1 c2 then trim_left s2 else
          match s2 with
          | String c3 s3 => if space3 c1 c2 c3 then trim_left s3 else s
          | EmptyString => s
          end
      | EmptyString => s
      end
  | EmptyString => s
  end.

(** The same from the end, on the reversed string. *)
Fixpoint trim_left_rev (s : string) : string :=
  match s with
  | String c1 s1 =>
      if space1 c1 then trim_left_rev s1 else
      match s1 with
      | String c2 s2 =>
          if space2 c2 c1 then trim_left_rev s2 else
          match s2 with
          | String c3 s3 => if space3 c3 c2 c1 then trim_left_rev s3 else s
          | EmptyString => s
          end
      | EmptyString => s
      end
  | EmptyString => s
  end.

Definition srev (s : string) : string := String.string_of_list_ascii (reverse (String.list_ascii_of_string s)).

Definition TrimSpace (s : string) : string := srev (trim_left_rev (srev (trim_left s))).

(** ** [strings.ToLower]

    ASCII letters.  The code only compares the result with words none of whose
    letters is the lower case of a non-ASCII character. *)
Definition lower1 (c : ascii) : ascii :=
  let n := code_of c in if Nat.leb 65 n && Nat.leb n 90 then byte (n + 32) else c.

Fixpoint ToLower (s : string) : string :=
  match s with String c s' => String (lower1 c) (ToLower s') | EmptyString => EmptyString end.

Definition HasPrefix (s pre : string) : bool := String.prefix pre s.

(** [s[n:]]. *)
Fixpoint slice_from (n : nat) (s : string) : string :=
  match n, s with
  | S n', String _ s' => slice_from n' s'
  | _, _ => s
  end.

(** ** [strings.Split], [strings.SplitN(_, _, 2)], [strings.Join], for a
    separator of one byte *)
Fixpoint Split (s : string) (sep : ascii) : list string :=
  match s with
  | EmptyString => [""]
  | String c s' =>
      if Ascii.eqb c sep then "" :: Split s' sep else
      match Split s' sep with
      | p :: ps => String c p :: ps
      | [] => [String c ""]
      end
  end.

Fixpoint SplitN2 (s : string) (sep : ascii) : list string :=
  match s with
  | EmptyString => [""]
  | String c s' =>
      if Ascii.eqb c sep then [""; s'] else
      match SplitN2 s' sep with
      | p :: ps => String c p :: ps
      | [] => [String c ""]
      end
  end.

Fixpoint Join (ps : list string) (sep : string) : string :=
  match ps with
  | [] => ""
  | [p] => p
  | p :: ps' => p +:+ sep +:+ Join ps' sep
  end.

(** ** [strconv.Atoi] and [strconv.ParseInt(_, 10, 64)]

    An optional sign, at least one decimal digit and nothing else, within 64
    bits; [None] is the error. *)
Definition digit (c : ascii) : option Z :=
  let n := code_of c in
  if Nat.leb 48 n && Nat.leb n 57 then Some (Z.of_nat (n - 48)) else None.

Fixpoint digits (acc : Z) (s : string) : option Z :=
  match s with
  | EmptyString => Some acc
  | String c s' => match digit c with Some d => digits (10 * acc + d) s' | None => None end
  end.

Definition ParseInt (s : string) : option Z :=
  let '(neg, u) :=
    match s with
    | String c s' =>
        if Ascii.eqb c "-" then (true, s') else if Ascii.eqb c "+" then (false, s') else (false, s)
    | EmptyString => (false, s)
    end in
  match u with
  | EmptyString => None
  | _ =>
      match digits 0 u with
      | Some n =>
          let n := if neg : bool then - n else n in
          if (int_min <=? n) && (n <=? int_max) then Some n else None
      | None => None
      end
  end.

Definition Atoi (s : string) : option Z := ParseInt s.

(** ** [strconv.Itoa] and [strconv.FormatInt(_, 10)]; 20 digits hold 64 bits *)
Fixpoint format_digits (fuel : nat) (n : Z) (acc : string) : string :=
  match fuel with
  | O => acc
  | S f =>
      let acc := String (byte (48 + Z.to_nat (n mod 10))) acc in
      if n / 10 =? 0 then acc else format_digits f (n / 10) acc
  end.

Definition Itoa (n : Z) : string :=
  if n <? 0 then String "-" (format_digits 20 (- n) "") else format_digits 20 n "".

(** ** Facts *)

Fixpoint all_chars (p : ascii -> bool) (s : string) : bool :=
  match s with EmptyString => true | String c s' => p c && all_chars p s' end.

Lemma all_chars_app p s t : all_chars p (s +:+ t) = all_chars p s && all_chars p t.
Proof. induction s as [|c s IH]; [done|]. cbn. by rewrite <- andb_assoc, <- IH. Qed.

Lemma all_chars_mono (p q : ascii -> bool) s :
  (forall c, p c = true -> q c = true) -> all_chars p s = true -> all_chars q s = true.
Proof.
  intros Hpq. induction s as [|c s IH]; cbn; [done|]. rewrite !andb_true_iff. naive_solver.
Qed.

Lemma srev_involutive s : srev (srev s) = s.
Proof.
  unfold srev. rewrite String.list_ascii_of_string_of_list_ascii, reverse_involutive.
  apply String.string_of_list_ascii_of_string.
Qed.

(** Bytes that cannot begin or end a white-space character. *)
Definition solid (c : ascii) : bool := negb (space1 c) && Nat.ltb (code_of c) 128.

(** Strings that begin and end with such a byte, and the empty one. *)
Definition tidy (s : string) : bool :=
  match s with
  | EmptyString => true
  | String c _ => solid c && match srev s with String d _ => solid d | EmptyString => true end
  end.

Lemma solid_space c : solid c = true -> space1 c = false /\ (code_of c < 128)%nat.
Proof.
  unfold solid. rewrite andb_true_iff, negb_true_iff. intros [? ?%Nat.ltb_lt]. done.
Qed.

Lemma space2_solid c1 c2 : solid c1 = true \/ solid c2 = true -> space2 c1 c2 = false.
Proof.
  unfold space2. intros [[_ H]%solid_space|[_ H]%solid_space].
  - destruct (Nat.eqb_spec (code_of c1) 194); [lia|done].
  - destruct (Nat.eqb_spec (code_of c2) 133), (Nat.eqb_spec (code_of c2) 160); lia.
Qed.

Lemma space3_solid c1 c2 c3 : solid c1 = true \/ solid c3 = true -> space3 c1 c2 c3 = false.
Proof.
  unfold space3. intros [[_ H]%solid_space|[_ H]%solid_space]; cbn zeta.
  - destruct (Nat.eqb_spec (code_of c1) 225), (Nat.eqb_spec (code_of c1) 226),
      (Nat.eqb_spec (code_of c1) 227); lia.
  - destruct (Nat.leb_spec 128 (code_of c3)); [lia|].
    destruct (Nat.eqb_spec (code_of c3) 128), (Nat.eqb_spec (code_of c3) 168),
      (Nat.eqb_spec (code_of c3) 169), (Nat.eqb_spec (code_of c3) 175),
      (Nat.eqb_spec (code_of c3) 159); lia.
Qed.

Lemma trim_left_solid c s : solid c = true -> trim_left (String c s) = String c s.
Proof.
  intros Hc. cbn. rewrite (proj1 (solid_space c Hc)).
  destruct s as [|c2 [|c3 s]]; [done|by rewrite space2_solid by auto|].
  by rewrite space2_solid, space3_solid by auto.
Qed.

Lemma trim_left_rev_solid c s : solid c = true -> trim_left_rev (String c s) = String c s.
Proof.
  intros Hc. cbn. rewrite (proj1 (solid_space c Hc)).
  destruct s as [|c2 [|c3 s]]; [done|by rewrite space2_solid by auto|].
  by rewrite space2_solid, space3_solid by auto.
Qed.

Lemma TrimSpace_tidy s : tidy s = true -> TrimSpace s = s.
Proof.
  unfold TrimSpace, tidy. destruct s as [|c s]; [done|]. intros [Hc Hd]%andb_true_iff.
  rewrite trim_left_solid by done.
  destruct (srev (String c s)) as [|d t] eqn:E; cbn [trim_left_rev]; [by rewrite <- E, srev_involutive|].
  change (srev (trim_left_rev (String d t)) = String c s).
  by rewrite trim_left_rev_solid, <- E, srev_involutive.
Qed.

Lemma all_chars_list p s :
  all_chars p s = true <-> Forall (fun c => p c = true) (String.list_ascii_of_string s).
Proof.
  induction s as [|c s IH]; cbn; [done|]. by rewrite andb_true_iff, Forall_cons, IH.
Qed.

Lemma all_solid_tidy s : all_chars solid s = true -> tidy s = true.
Proof.
  intros Hs. destruct s as [|c s]; [done|]. unfold tidy.
  destruct (srev (String c s)) as [|d t] eqn:E; [by cbn in Hs; apply andb_true_iff in Hs as [-> _]|].
  apply andb_true_iff. split; [by cbn in Hs; apply andb_true_iff in Hs as [-> _]|].
  assert (all_chars solid (srev (String c s)) = true) as Hr.
  { apply all_chars_list in Hs. apply all_chars_list. unfold srev.
    rewrite String.list_ascii_of_string_of_list_ascii. by apply Forall_reverse. }
  rewrite E in Hr. cbn in Hr. by apply andb_true_iff in Hr as [-> _].
Qed.

Lemma TrimSpace_solid s : all_chars solid s = true -> TrimSpace s = s.
Proof. intros. by apply TrimSpace_tidy, all_solid_tidy. Qed.

(** No byte of the string is the separator. *)
Definition lacks (sep : ascii) (s : string) : Prop := all_chars (fun c => negb (Ascii.eqb c sep)) s = true.

Lemma Split_lacks sep s : lacks sep s -> Split s sep = [s].
Proof.
  unfold lacks. induction s as [|c s IH]; cbn; [done|]. rewrite andb_true_iff, negb_true_iff.
  intros [-> Hs]. by rewrite IH.
Qed.

Lemma Split_app sep s t : lacks sep s -> Split (s +:+ String sep t) sep = s :: Split t sep.
Proof.
  unfold lacks. induction s as [|c s IH]; cbn.
  - intros _. change ("" +:+ ?x) with x. cbn. by rewrite Ascii.eqb_refl.
  - rewrite andb_true_iff, negb_true_iff. intros [Hc Hs].
    change (String c s +:+ ?x) with (String c (s +:+ x)). cbn. rewrite Hc.
    by rewrite IH.
Qed.

Lemma SplitN2_app sep s t : lacks sep s -> SplitN2 (s +:+ String sep t) sep = [s; t].
Proof.
  unfold lacks. induction s as [|c s IH]; cbn.
  - intros _. change ("" +:+ ?x) with x. cbn. by rewrite Ascii.eqb_refl.
  - rewrite andb_true_iff, negb_true_iff. intros [Hc Hs].
    change (String c s +:+ ?x) with (String c (s +:+ x)). cbn. rewrite Hc.
    by rewrite IH.
Qed.

Lemma SplitN2_lacks sep s : lacks sep s -> SplitN2 s sep = [s].
Proof.
  unfold lacks. induction s as [|c s IH]; cbn; [done|]. rewrite andb_true_iff, negb_true_iff.
  intros [-> Hs]. by rewrite IH.
Qed.

Lemma Split_Join sep ps :
  ps <> [] -> Forall (lacks sep) ps -> Split (Join ps (String sep "")) sep = ps.
Proof.
  intros Hne HF. induction HF as [|p ps Hp HF IH]; [done|]. destruct ps as [|q ps].
  - by apply Split_lacks.
  - change (Join (p :: q :: ps) (String sep "")) with
      (p +:+ (String sep "" +:+ Join (q :: ps) (String sep ""))).
    change (String sep "" +:+ ?x) with (String sep x). rewrite Split_app by done. f_equal. by apply IH.
Qed.

(** ** Decimal numerals *)

Lemma digit_byte d : 0 <= d < 10 -> digit (byte (48 + Z.to_nat d)) = Some d.
Proof.
  intros Hd. unfold digit, code_of, byte. rewrite nat_ascii_embedding by lia.
  destruct (Nat.leb_spec 48 (48 + Z.to_nat d)); [|lia].
  destruct (Nat.leb_spec (48 + Z.to_nat d) 57); [|lia]. cbn. f_equal. lia.
Qed.

Lemma digits_format f n acc :
  (0 < f)%nat -> 0 <= n < 10 ^ Z.of_nat f -> digits 0 (format_digits f n acc) = digits n acc.
Proof.
  revert n acc. induction f as [|f IH]; intros n acc Hf Hn; [lia|]. cbn [format_digits].
  pose proof (Z.div_mod n 10). pose proof (Z.mod_pos_bound n 10).
  assert (0 <= n / 10) by (apply Z.div_pos; lia).
  destruct (Z.eqb_spec (n / 10) 0) as [E|E].
  - cbn [digits]. rewrite digit_byte by lia. f_equal. lia.
  - destruct f as [|f]; [change (10 ^ Z.of_nat 1) with 10 in Hn; lia|].
    rewrite IH; [|lia|].
    + cbn [digits]. rewrite digit_byte by lia. f_equal. lia.
    + split; [lia|]. apply Z.div_lt_upper_bound; [lia|].
      rewrite <- Z.pow_succ_r, <- Nat2Z.inj_succ by lia. lia.
Qed.

Definition is_digit (c : ascii) : bool := match digit c with Some _ => true | None => false end.

Lemma format_digits_all f n acc :
  0 <= n -> all_chars is_digit acc = true -> all_chars is_digit (format_digits f n acc) = true.
Proof.
  revert n acc. induction f as [|f IH]; intros n acc Hn Ha; [done|]. cbn [format_digits].
  pose proof (Z.mod_pos_bound n 10).
  assert (all_chars is_digit (String (byte (48 + Z.to_nat (n mod 10))) acc) = true) as Ha'.
  { cbn [all_chars]. unfold is_digit at 1. by rewrite digit_byte by lia. }
  destruct (_ =? _); [done|]. apply IH; [|done]. apply Z.div_pos; lia.
Qed.

Lemma format_digits_cons f n acc : (0 < f)%nat ->
  exists c s, format_digits f n acc = String c s.
Proof.
  revert n acc. induction f as [|f IH]; intros n acc Hf; [lia|]. cbn [format_digits].
  destruct (_ =? _); [eauto|]. destruct f as [|f]; [cbn; eauto|]. apply IH. lia.
Qed.

Lemma is_digit_code c : is_digit c = true -> (48 <= code_of c <= 57)%nat.
Proof.
  unfold is_digit, digit. destruct (Nat.leb_spec 48 (code_of c)), (Nat.leb_spec (code_of c) 57); cbn; done.
Qed.

Lemma ParseInt_digits c s n neg :
  is_digit c = true -> digits 0 (String c s) = Some n ->
  in_int64 (if neg : bool then - n else n) ->
  ParseInt (if neg then String "-" (String c s) else String c s) = Some (if neg then - n else n).
Proof.
  intros Hc Hn [Hlo Hhi]. apply Z.leb_le in Hlo, Hhi. unfold ParseInt.
  destruct neg.
  - change (Ascii.eqb "-" "-") with true. cbn match. by rewrite Hn, Hlo, Hhi.
  - apply is_digit_code in Hc.
    destruct (Ascii.eqb_spec c "-") as [->|]; [cbv in Hc; lia|].
    destruct (Ascii.eqb_spec c "+") as [->|]; [cbv in Hc; lia|]. by rewrite Hn, Hlo, Hhi.
Qed.

Lemma ParseInt_Itoa n : in_int64 n -> ParseInt (Itoa n) = Some n.
Proof.
  intros Hn. unfold Itoa.
  assert (forall k, 0 <= k <= 2 ^ 63 -> exists c s, format_digits 20 k "" = String c s /\
    is_digit c = true /\ digits 0 (String c s) = Some k) as Hk.
  { intros k Hk. destruct (format_digits_cons 20 k "" ltac:(lia)) as (c & s & E).
    exists c, s. split; [done|]. rewrite <- E. split.
    - pose proof (format_digits_all 20 k "" ltac:(lia) eq_refl) as Ha. rewrite E in Ha.
      cbn in Ha. by apply andb_true_iff in Ha as [-> _].
    - rewrite digits_format; [done|lia|]. change (10 ^ Z.of_nat 20) with 100000000000000000000. lia. }
  unfold in_int64, int_min, int_max in Hn. destruct (Z.ltb_spec n 0).
  - destruct (Hk (- n)) as (c & s & -> & Hc & Hd); [lia|].
    rewrite (ParseInt_digits c s (- n) true); [f_equal; lia|done|done|].
    unfold in_int64, int_min, int_max. lia.
  - destruct (Hk n) as (c & s & -> & Hc & Hd); [lia|].
    by apply (ParseInt_digits c s n false).
Qed.

(** The bytes of a numeral. *)
Lemma Itoa_chars (p : ascii -> bool) n :
  (forall c, is_digit c = true -> p c = true) -> p "-"%char = true -> all_chars p (Itoa n) = true.
Proof.
  intros Hp Hm. unfold Itoa. destruct (Z.ltb_spec n 0).
  - cbn [all_chars]. rewrite Hm. cbn [andb]. eapply all_chars_mono; [exact Hp|]. apply format_digits_all; [lia|done].
  - eapply all_chars_mono; [exact Hp|]. apply format_digits_all; [lia|done].
Qed.

Lemma solid_range c : (33 <= code_of c < 128)%nat -> solid c = true.
Proof.
  intros. unfold solid, space1. destruct (Nat.leb_spec (code_of c) 13); [lia|].
  destruct (Nat.eqb_spec (code_of c) 32); [lia|].
  destruct (Nat.ltb_spec (code_of c) 128); [|lia]. by rewrite andb_false_r.
Qed.

(** ** Strings as lists of bytes *)

Lemma last_separator {A} (x : A) l1 l2 d1 d2 :
  x ∉ d1 -> x ∉ d2 -> l1 ++ x :: d1 = l2 ++ x :: d2 -> l1 = l2 /\ d1 = d2.
Proof.
  revert l2. induction l1 as [|a l1 IH]; intros [|b l2] H1 H2; cbn.
  - by intros [= ->].
  - intros [= -> ->]. set_solver.
  - intros [= -> <-]. set_solver.
  - intros [= -> E]. destruct (IH l2 H1 H2 E) as [-> ->]. done.
Qed.

Lemma list_ascii_app s t :
  String.list_ascii_of_string (s +:+ t) = String.list_ascii_of_string s ++ String.list_ascii_of_string t.
Proof. induction s as [|c s IH]; [done|]. cbn. rewrite <- IH. reflexivity. Qed.

Lemma list_ascii_inj s t : String.list_ascii_of_string s = String.list_ascii_of_string t -> s = t.
Proof.
  intros E. rewrite <- (String.string_of_list_ascii_of_string s), E.
  apply String.string_of_list_ascii_of_string.
Qed.
End GoStrings.
