(* ===== verification/Connector.v ===== *)
(** * Connector modules

    The modules natsbus, etcdcoord and cassstore share one shape
    (internal/modules/contracts.go, [Module]): a struct whose connection
    handles are set by [Start], read by the other methods and taken away by
    [Stop], all under a mutex or in atomic variables, and a client library that
    is called outside the lock.  A method is a [prog] over [modE]: critical
    sections on the struct and calls of the library.  [mod_env] lets the
    library answer anything, records its calls, and lets other goroutines
    change the struct as far as [R] permits before each critical section. *)

From S2P Require Import Prelude Prog.

Module Connector.

Section Connector.
Context {S : Type} {C : Type -> Type} {O : Type}.

Inductive modE : Type -> Type :=
| MAtomic {X} (f : S -> X * S) : modE X
| MCall {X} (c : C X) : modE X.

Definition read {X} (f : S -> X) : prog modE X := perform (MAtomic (fun s => (f s, s))).
Definition write (f : S -> S) : prog modE unit := perform (MAtomic (fun s => (tt, f s))).
Definition call {X} (c : C X) : prog modE X := perform (MCall c).

(** What a call leaves in the trace, given its answer. *)
Variable note : forall X, C X -> X -> list O.
Variable R : S -> S -> Prop.

Definition mod_env : legality modE (S * list O) := fun X e =>
  match e in modE X return S * list O -> X -> S * list O -> Prop with
  | MAtomic f => fun s x s' => exists s0, R s.1 s0 /\ f s0 = (x, s'.1) /\ s'.2 = s.2
  | MCall c => fun s x s' => s'.1 = s.1 /\ s'.2 = s.2 ++ note _ c x
  end.

Lemma wp_critical {X A} (f : S -> X * S) (k : X -> prog modE A) Q s tr :
  (forall s0, R s s0 -> wp mod_env (k (f s0).1) Q ((f s0).2, tr)) ->
  wp mod_env (Vis (MAtomic f) k) Q (s, tr).
Proof.
  intros Hk x [s' tr'] (s0 & HR & Hf & Htr). cbn in *. subst tr'.
  specialize (Hk s0 HR). by rewrite Hf in Hk.
Qed.

Lemma wp_call {X A} (c : C X) (k : X -> prog modE A) Q s tr :
  (forall x, wp mod_env (k x) Q (s, tr ++ note _ c x)) -> wp mod_env (Vis (MCall c) k) Q (s, tr).
Proof. intros Hk x [s' tr'] [E1 E2]. cbn in *. subst. apply Hk. Qed.

(** A method's own part of the trace does not depend on what came before. *)
Lemma wp_trace {A} (p : prog modE A) Q s tr tr0 :
  wp mod_env p Q (s, tr0) ->
  wp mod_env p (fun r st => exists new, st.2 = tr ++ new /\ Q r (st.1, new)) (s, tr ++ tr0).
Proof.
  revert s tr0. induction p as [a|X e k IH]; intros s tr0 Hp; [by exists tr0|].
  intros x [s' tr'] HL. destruct e as [X f|X c].
  - destruct HL as (s0 & HR & Hf & Htr). cbn in *. subst tr'. apply IH, Hp. by exists s0.
  - destruct HL as [Hs Htr]. cbn in *. subst s' tr'. rewrite <- app_assoc. by apply IH, Hp.
Qed.

Lemma wp_method {A} (p : prog modE A) Q s tr :
  wp mod_env p Q (s, []) ->
  wp mod_env p (fun r st => exists new, st.2 = tr ++ new /\ Q r (st.1, new)) (s, tr).
Proof. intros Hp. pose proof (wp_trace p Q s tr [] Hp) as H. by rewrite app_nil_r in H. Qed.
End Connector.

Arguments modE S C X : clear implicits.

(** Advance one effect. *)
Ltac mstep :=
  unfold read, write, call, perform; cbn [pbind];
  match goal with
  | |- wp _ (Ret ?a) ?Q ?s => change (Q a s); cbn beta iota
  | |- wp _ (Vis (MAtomic _) _) _ _ => apply wp_critical; intros; cbn [fst snd]
  | |- wp _ (Vis (MCall _) _) _ _ => apply wp_call; intros; rewrite ?app_nil_r
  end; cbn [pbind].
End Connector.
