(* ===== verification/Tls.v ===== *)
(** * TLS client settings (internal/security/tls.go)

    The file system and the packages crypto/x509 and crypto/tls are
    parameters: reading a file, building a certificate pool from PEM data
    ([None] when no certificate could be parsed) and loading a key pair. *)

From S2P Require Import Prelude.

Module Tls.

Record TLSOptions := mkOptions {
  CAFile : string;
  CertFile : string;
  KeyFile : string;
  ServerName : string;
  InsecureSkipVerify : bool
}.

(** [tls.VersionTLS12] *)
Definition VersionTLS12 : Z := 771.

Section Build.
Context {pool cert : Type}.
Variable ReadFile : string -> result string.
Variable AppendCertsFromPEM : string -> option pool.
Variable LoadX509KeyPair : string -> string -> result cert.

(** The fields of [tls.Config] the code sets. *)
Record tls_config := mkTLS {
  t_MinVersion : Z;
  t_ServerName : string;
  t_InsecureSkipVerify : bool;
  t_RootCAs : option pool;
  t_Certificates : list cert
}.

(** [fmt.Errorf(prefix + ": %w", err)]. *)
Definition wrap_error (prefix : string) (e : error) : error :=
  mkError (err_notfound e) (prefix +:+ ": " +:+ err_msg e).

Definition root_pool (opts : TLSOptions) : result (option pool) :=
  if bool_decide (CAFile opts = "") then Ok None else
  match ReadFile (CAFile opts) with
  | Err e => Err (wrap_error "read ca file" e)
  | Ok ca => match AppendCertsFromPEM ca with
             | None => Err (newError "append ca certs failed")
             | Some p => Ok (Some p)
             end
  end.

Definition client_certs (opts : TLSOptions) : result (list cert) :=
  if bool_decide (CertFile opts = "") && bool_decide (KeyFile opts = "") then Ok [] else
  if bool_decide (CertFile opts = "") || bool_decide (KeyFile opts = "")
  then Err (newError "both cert and key files are required for mTLS client certs") else
  match LoadX509KeyPair (CertFile opts) (KeyFile opts) with
  | Err e => Err (wrap_error "load client cert/key" e)
  | Ok c => Ok [c]
  end.

Definition BuildTLSConfig (opts : TLSOptions) : result (option tls_config) :=
  if bool_decide (CAFile opts = "") && bool_decide (CertFile opts = "") && bool_decide (KeyFile opts = "") &&
     bool_decide (ServerName opts = "") && negb (InsecureSkipVerify opts)
  then Ok None else
  match root_pool opts with
  | Err e => Err e
  | Ok roots =>
      match client_certs opts with
      | Err e => Err e
      | Ok certs =>
          Ok (Some (mkTLS VersionTLS12 (ServerName opts) (InsecureSkipVerify opts) roots certs))
      end
  end.

(** C31: TLS settings are never silently weakened.  A configuration that is
    built requires TLS 1.2, skips verification only if asked to, trusts
    exactly the pool read from the CA file when one is named, and presents the
    loaded key pair exactly when both of its files are named; there is no
    configuration (plain connection) exactly when no option is set.  A CA file
    that cannot be read or parsed, half a key pair and a key pair that cannot
    be loaded are errors. *)
Theorem tls_never_weakened opts :
  match BuildTLSConfig opts with
  | Ok None => opts = mkOptions "" "" "" "" false
  | Ok (Some c) =>
      opts <> mkOptions "" "" "" "" false /\
      t_MinVersion c = VersionTLS12 /\ t_ServerName c = ServerName opts /\
      t_InsecureSkipVerify c = InsecureSkipVerify opts /\
      match t_RootCAs c with
      | None => CAFile opts = ""
      | Some p => CAFile opts <> "" /\
          exists ca, ReadFile (CAFile opts) = Ok ca /\ AppendCertsFromPEM ca = Some p
      end /\
      match t_Certificates c with
      | [] => CertFile opts = "" /\ KeyFile opts = ""
      | [kp] => CertFile opts <> "" /\ KeyFile opts <> "" /\
          LoadX509KeyPair (CertFile opts) (KeyFile opts) = Ok kp
      | _ => False
      end
  | Err _ =>
      (CAFile opts <> "" /\ forall ca, ReadFile (CAFile opts) = Ok ca -> AppendCertsFromPEM ca = None) \/
      (CertFile opts = "" /\ KeyFile opts <> "") \/ (CertFile opts <> "" /\ KeyFile opts = "") \/
      (CertFile opts <> "" /\ KeyFile opts <> "" /\
        exists e, LoadX509KeyPair (CertFile opts) (KeyFile opts) = Err e)
  end.
Proof.
  unfold BuildTLSConfig, root_pool, client_certs. destruct opts as [ca ce ke sn skip]; cbn.
  repeat case_bool_decide; destruct skip; cbn; subst; try done; try (split_and!; naive_solver);
    repeat (case_match; simplify_eq/=); naive_solver.
Qed.
End Build.
End Tls.
