(* ===== verification/Coord.v ===== *)
(** * Leader election (internal/modules/etcdcoord/module.go)

    The module's struct, its methods and its two goroutines.  The etcd client
    is a parameter: its calls are effects.  Handles and contexts are numbers.
    [observeLeader] loops until its context or channel ends; the model runs it
    for any number of rounds. *)

From S2P Require Import Prelude Prog Contracts Connector Tls.

Module Coord.
Import Connector.

Section Coord.
Context {pool cert : Type}.
Variable ReadFile : string -> result string.
Variable AppendCertsFromPEM : string -> option pool.
Variable LoadX509KeyPair : string -> string -> result cert.

Record Module_ := mkModule {
  nodeID : string;
  endpoints : list string;
  electionKey : string;
  user : string;
  password : string;
  tls_opts : Tls.TLSOptions;
  client : option nat;
  session : option nat;
  election : option nat;
  cancel : option nat;
  isLeader : bool;
  leaderID : string
}.

Definition New (node : string) (eps : list string) (key us pw ca ce ke sn : string) (skip : bool) : Module_ :=
  mkModule node eps key us pw (Tls.mkOptions ca ce ke sn skip) None None None None false "".

Definition Name : string := "etcdcoord".

Definition set_handles (c s e k : option nat) (m : Module_) : Module_ :=
  mkModule (nodeID m) (endpoints m) (electionKey m) (user m) (password m) (tls_opts m) c s e k
    (isLeader m) (leaderID m).
Definition set_isLeader (b : bool) (m : Module_) : Module_ :=
  mkModule (nodeID m) (endpoints m) (electionKey m) (user m) (password m) (tls_opts m)
    (client m) (session m) (election m) (cancel m) b (leaderID m).
Definition set_leaderID (id : string) (m : Module_) : Module_ :=
  mkModule (nodeID m) (endpoints m) (electionKey m) (user m) (password m) (tls_opts m)
    (client m) (session m) (election m) (cancel m) (isLeader m) id.

(** What the [select] of [observeLeader] receives. *)
Inductive observation := CtxDone | ChanClosed | Response (kvs : list string).

Inductive goroutine := RunElection (ctx : nat) | ObserveLeader (ctx : nat).

(** Calls of the client library, of package context, and [go]. *)
Inductive etcdC : Type -> Type :=
| NewClient (eps : list string) (us pw : string) (tls : option (Tls.tls_config (pool := pool) (cert := cert)))
    : etcdC (result nat)
| CloseClient (c : nat) : etcdC (option error)
| NewSession (c : nat) (ttl : Z) : etcdC (result nat)
| CloseSession (s : nat) : etcdC (option error)
(** [concurrency.NewElection(session, key)] *)
| NewElection (s : nat) (key : string) : etcdC nat
| WithCancel : etcdC nat
| Cancel (ctx : nat) : etcdC unit
| Go (g : goroutine) : etcdC unit
| Campaign (el ctx : nat) (val : string) : etcdC (option error)
(** [<-ctx.Done()] *)
| Done (ctx : nat) : etcdC unit
| Observe (el ctx : nat) : etcdC nat
| Next (ch ctx : nat) : etcdC observation
| Resign (el : nat) : etcdC (option error)
| Status (c : nat) (endpoint : string) : etcdC (option error).

Abbreviation method A := (prog (modE Module_ etcdC) A).

Definition Start : method (option error) :=
  let! m := read (fun m => m) in
  match Tls.BuildTLSConfig ReadFile AppendCertsFromPEM LoadX509KeyPair (tls_opts m) with
  | Err e => Ret (Some e)
  | Ok tlsConfig =>
      try! c := call (NewClient (endpoints m) (user m) (password m) tlsConfig) catch e => Ret (Some e) in
      let! r := call (NewSession c 10) in
      match r with
      | Err e => let! _ := call (CloseClient c) in Ret (Some e)
      | Ok s =>
          let! runCtx := call WithCancel in
          let! el := call (NewElection s (electionKey m)) in
          let! _ := write (set_handles (Some c) (Some s) (Some el) (Some runCtx)) in
          let! _ := call (Go (RunElection runCtx)) in
          let! _ := call (Go (ObserveLeader runCtx)) in
          Ret None
      end
  end.

(** [m.endpoints[0]] panics without endpoints, which is not modelled. *)
Definition Ready : method (option error) :=
  let! (c, eps) := read (fun m => (client m, endpoints m)) in
  match c with
  | None => Ret (Some (newError "etcd not connected"))
  | Some c => call (Status c (hd "" eps))
  end.

Definition Stop : method (option error) :=
  let! (k, el, s, c) := perform (MAtomic (fun m =>
    ((cancel m, election m, session m, client m), set_handles None None None None m))) in
  let! _ := (match k with Some ctx => call (Cancel ctx) | None => Ret tt end) in
  let! _ := (match el with
             | Some el => let! lead := read isLeader in
                          if lead : bool then (let! _ := call (Resign el) in Ret tt) else Ret tt
             | None => Ret tt
             end) in
  let! _ := (match s with Some s => (let! _ := call (CloseSession s) in Ret tt) | None => Ret tt end) in
  match c with Some c => call (CloseClient c) | None => Ret None end.

Definition IsLeader : method bool := read isLeader.
Definition LeaderID : method string := read leaderID.

Definition runElection (ctx : nat) : method unit :=
  let! (el, node) := read (fun m => (election m, nodeID m)) in
  match el with
  | None => Ret tt
  | Some el =>
      let! err := call (Campaign el ctx node) in
      match err with
      | Some _ => Ret tt
      | None =>
          let! _ := write (set_isLeader true) in
          let! _ := write (set_leaderID node) in
          let! _ := call (Done ctx) in
          write (set_isLeader false)
      end
  end.

(** The loop of [observeLeader], at most [rounds] iterations. *)
Fixpoint observe_loop (rounds : nat) (ch ctx : nat) (node : string) : method unit :=
  match rounds with
  | O => Ret tt
  | S n =>
      let! o := call (Next ch ctx) in
      match o with
      | CtxDone | ChanClosed => Ret tt
      | Response [] => observe_loop n ch ctx node
      | Response (leader :: _) =>
          let! _ := write (set_leaderID leader) in
          let! _ := write (set_isLeader (bool_decide (leader = node))) in
          observe_loop n ch ctx node
      end
  end.

Definition observeLeader (rounds ctx : nat) : method unit :=
  let! (el, node) := read (fun m => (election m, nodeID m)) in
  match el with
  | None => Ret tt
  | Some el =>
      let! ch := call (Observe el ctx) in
      observe_loop rounds ch ctx node
  end.

(** ** Start and stop *)

Inductive trace_event :=
| TOpen (c : nat) | TCloseClient (c : nat) | TCloseSession (s : nat) | TCancel (ctx : nat)
| TGo (g : goroutine) | TResign (el : nat) | TCampaign.

Definition note X (c : etcdC X) : X -> list trace_event :=
  match c in etcdC X return X -> list trace_event with
  | NewClient _ _ _ _ => fun r => match r with Ok c => [TOpen c] | Err _ => [] end
  | CloseClient c => fun _ => [TCloseClient c]
  | CloseSession s => fun _ => [TCloseSession s]
  | Cancel ctx => fun _ => [TCancel ctx]
  | Go g => fun _ => [TGo g]
  | Resign el => fun _ => [TResign el]
  | Campaign _ _ _ => fun _ => [TCampaign]
  | _ => fun _ => []
  end.

(** The goroutines may change the leadership variables at any time. *)
Definition leadership_only (m m' : Module_) : Prop :=
  m' = set_leaderID (leaderID m') (set_isLeader (isLeader m') m).

Abbreviation env := (mod_env note leadership_only).

#[local] Arguments wp : simpl never.

Definition handles (m : Module_) := (client m, session m, election m, cancel m).

Lemma leadership_handles m m' : leadership_only m m' -> handles m' = handles m.
Proof. by intros ->. Qed.

(** Starting and stopping the coordinator leaks nothing.  In every
    environment a failed [Start] leaves the handles as they were and has
    closed every client it opened; a successful one sets all four handles and
    starts exactly the two goroutines, under its cancellable context.  [Stop]
    clears the handles, cancels that context, resigns at most its own election
    and closes its session and client once, in this order; without a [Start]
    it does nothing. *)
Theorem coord_start_stop m :
  wp env Start (fun r s =>
    match r with
    | Some _ => handles s.1 = handles m /\ exists cs, s.2 = flat_map (fun c => [TOpen c; TCloseClient c]) cs
    | None => exists c ses el ctx, handles s.1 = (Some c, Some ses, Some el, Some ctx) /\
        s.2 = [TOpen c; TGo (RunElection ctx); TGo (ObserveLeader ctx)]
    end) (m, []) /\
  wp env Stop (fun r s =>
    handles s.1 = (None, None, None, None) /\
    exists resigned,
      (resigned = [] \/ exists el, election m = Some el /\ resigned = [TResign el]) /\
      s.2 = (match cancel m with Some k => [TCancel k] | None => [] end) ++ resigned ++
            (match session m with Some ss => [TCloseSession ss] | None => [] end) ++
            (match client m with Some c => [TCloseClient c] | None => [] end)) (m, []).
Proof.
  split.
  - unfold Start. mstep. apply leadership_handles in H.
    destruct (Tls.BuildTLSConfig _ _ _ _) as [tls|e]; [|mstep; split; [done|by exists []]].
    mstep. destruct x as [c|e]; [|mstep; split; [done|by exists []]].
    mstep. destruct x as [ses|e].
    + do 5 mstep. mstep. repeat eexists.
    + mstep. mstep. split; [done|]. by exists [c].
  - unfold Stop. mstep. apply leadership_handles in H. injection H as Hc Hs He Hk.
    rewrite Hc, Hs, He, Hk.
    destruct (cancel m); [mstep|]; (destruct (election m); [mstep; destruct (isLeader _); [mstep|]|]);
      (destruct (session m); [mstep|]); (destruct (client m); [mstep|]); mstep.
    all: cbn; try (apply leadership_handles in H; rewrite H).
    all: (split; [done|]).
    all: first [ exists []; split; [by left|done] | eexists [_]; split; [right; by eauto|done] ].
Qed.

(** ** Campaigns *)

Definition campaigns (tr : list trace_event) : nat :=
  sum_list_with (fun e => match e with TCampaign => 1%nat | _ => 0%nat end) tr.
Definition elections (tr : list trace_event) : nat :=
  sum_list_with (fun e => match e with TGo (RunElection _) => 1%nat | _ => 0%nat end) tr.

Lemma campaigns_app tr tr' : campaigns (tr ++ tr') = (campaigns tr + campaigns tr')%nat.
Proof. apply sum_list_with_app. Qed.

(** Anything may happen to the struct between two critical sections. *)
Abbreviation wild := (mod_env note (fun _ _ => True)).

Lemma observe_campaigns rounds ch ctx node s tr :
  wp wild (observe_loop rounds ch ctx node) (fun _ s' => campaigns s'.2 = campaigns tr) (s, tr).
Proof.
  revert s tr. induction rounds as [|n IH]; intros s tr; cbn [observe_loop]; [mstep; done|].
  mstep. destruct x as [| |[|leader kvs]]; [mstep; done|mstep; done|apply IH|].
  mstep. mstep. apply IH.
Qed.

(** C37: A node campaigns once per start.  In every environment and under any
    interference, [Start] starts at most one [runElection], which campaigns at
    most once; neither [observeLeader] nor any other method campaigns.  So a
    node that has won and then lost its leadership (its session expired, or
    another node was observed as the leader) never stands for election again
    while the process runs. *)
Theorem single_campaign m rounds ctx :
  wp wild Start (fun _ s => campaigns s.2 = 0%nat /\ (elections s.2 <= 1)%nat) (m, []) /\
  wp wild (runElection ctx) (fun _ s => (campaigns s.2 <= 1)%nat) (m, []) /\
  wp wild (observeLeader rounds ctx) (fun _ s => campaigns s.2 = 0%nat) (m, []) /\
  wp wild Ready (fun _ s => campaigns s.2 = 0%nat) (m, []) /\
  wp wild Stop (fun _ s => campaigns s.2 = 0%nat) (m, []).
Proof.
  split_and!.
  - unfold Start. mstep. destruct (Tls.BuildTLSConfig _ _ _ _); [|mstep; cbn; lia].
    mstep. destruct x as [c|e]; [|mstep; cbn; lia]. mstep. destruct x as [ses|e]; repeat mstep; cbn; lia.
  - unfold runElection. mstep. destruct (election s0); [|mstep; cbn; lia].
    mstep. destruct x as [e|]; repeat mstep; cbn; lia.
  - unfold observeLeader. mstep. destruct (election s0); [|mstep; done].
    mstep. exact (observe_campaigns _ _ _ _ _ []).
  - unfold Ready. mstep. destruct (client s0); repeat mstep; done.
  - unfold Stop. mstep. repeat (case_match; try mstep); try mstep; done.
Qed.

(** ** Following etcd *)

(** The channel delivers the given observations, then closes. *)
Definition feed : handler (modE Module_ etcdC) (Module_ * list observation) := fun X e s =>
  match e in modE _ _ X return X * (Module_ * list observation) with
  | MAtomic f => let '(x, m) := f s.1 in (x, (m, s.2))
  | MCall c =>
      match c in etcdC X return X * (Module_ * list observation) with
      | Next _ _ => match s.2 with o :: rest => (o, (s.1, rest)) | [] => (ChanClosed, s) end
      | NewClient _ _ _ _ => (Ok 0%nat, s)
      | NewSession _ _ => (Ok 0%nat, s)
      | NewElection _ _ => (0%nat, s)
      | WithCancel => (0%nat, s)
      | Observe _ _ => (0%nat, s)
      | Cancel _ | Go _ | Done _ => (tt, s)
      | CloseClient _ | CloseSession _ | Campaign _ _ _ | Resign _ | Status _ _ => (None, s)
      end
  end.

(** What the node believes after an observation. *)
Definition believe (m : Module_) (kvs : list string) : Module_ :=
  match kvs with
  | [] => m
  | leader :: _ => set_isLeader (bool_decide (leader = nodeID m)) (set_leaderID leader m)
  end.

Lemma observe_loop_run rounds ch ctx m (obs : list (list string)) :
  (length obs < rounds)%nat ->
  (run feed (observe_loop rounds ch ctx (nodeID m)) (m, map Response obs)).2 = (foldl believe m obs, []).
Proof.
  revert rounds m. induction obs as [|kvs obs IH]; intros [|n] m Hn; cbn in Hn; try lia; [done|].
  cbn. destruct kvs as [|leader kvs]; cbn; [apply IH; lia|].
  change (nodeID m) with (nodeID (believe m (leader :: kvs))). apply IH. lia.
Qed.

Lemma believe_last m (obs : list (list string)) :
  foldl believe m obs =
  match last (omap head obs) with
  | None => m
  | Some v => set_isLeader (bool_decide (v = nodeID m)) (set_leaderID v m)
  end.
Proof.
  revert m. induction obs as [|kvs obs IH]; intros m; [done|]. cbn [foldl]. rewrite IH.
  destruct kvs as [|leader kvs]; [done|]. cbn.
  destruct (last (omap head obs)) as [v|] eqn:El.
  - destruct (omap head obs) as [|w l] eqn:Eo; [done|]. rewrite last_cons_cons. by rewrite El.
  - apply last_None in El. by rewrite El.
Qed.

(** The observer follows the election.  When the channel has delivered the
    observations [obs] and closed, the node's belief is the last one that
    carried a leader: that is the [LeaderID], and [IsLeader] says whether it is
    this node; if none carried a leader the belief is unchanged. *)
Theorem observer_follows rounds ctx el m (obs : list (list string)) :
  election m = Some el -> (length obs < rounds)%nat ->
  (run feed (observeLeader rounds ctx) (m, map Response obs)).2.1 =
  match last (omap head obs) with
  | None => m
  | Some v => set_isLeader (bool_decide (v = nodeID m)) (set_leaderID v m)
  end.
Proof.
  intros He Hn. unfold observeLeader. cbn. rewrite He. cbn.
  by rewrite observe_loop_run, believe_last.
Qed.

(** ** Belief is grounded in etcd

    The shared state is the struct and the values etcd has elected so far; etcd
    may elect at any moment.  What the code relies on of the client library:
    [Campaign] returns without error only when its value has been elected, and
    [Observe] delivers values that have been elected. *)

Abbreviation cstate := (Module_ * gset string)%type.

Definition etcd_env : legality (modE Module_ etcdC) cstate := fun X e =>
  match e in modE _ _ X return cstate -> X -> cstate -> Prop with
  | MAtomic f => fun s x s' => f s.1 = (x, s'.1) /\ s.2 ⊆ s'.2
  | MCall c => fun s x s' => s'.1 = s.1 /\ s.2 ⊆ s'.2 /\
      match c in etcdC X return X -> Prop with
      | Campaign _ _ val => fun x => x = None -> val ∈ s'.2
      | Next _ _ => fun x => forall v kvs, x = Response (v :: kvs) -> v ∈ s'.2
      | _ => fun _ => True
      end x
  end.

(** The methods and goroutines of the node. *)
Inductive coord_prog : method unit -> Prop :=
| cp_start : coord_prog (let! _ := Start in Ret tt)
| cp_stop : coord_prog (let! _ := Stop in Ret tt)
| cp_ready : coord_prog (let! _ := Ready in Ret tt)
| cp_election ctx : coord_prog (runElection ctx)
| cp_observe rounds ctx : coord_prog (observeLeader rounds ctx).

Definition coord_call (p : method unit) (Q : unit -> cstate -> Prop) : Prop :=
  coord_prog p /\ Q = (fun _ _ => True).

Section Grounded.
Variable node : string.

Definition grounded (s : cstate) : Prop :=
  nodeID s.1 = node /\ (isLeader s.1 = true -> node ∈ s.2) /\ (leaderID s.1 <> "" -> leaderID s.1 ∈ s.2).

Definition elects (g : gset nat) (s s' : cstate) : Prop := s.2 ⊆ s'.2.

#[local] Instance elects_preorder g : PreOrder (elects g).
Proof. unfold elects. split; [by intros ?|]. intros ? ? ?. set_solver. Qed.

Abbreviation csound p s :=
  (sound etcd_env grounded (fun _ => ∅ : gset nat) elects ∅ p (fun _ _ _ => True) s).

#[local] Arguments sound : simpl never.

Lemma csound_ret {A} (a : A) s : csound (Ret a) s.
Proof. by intros ? ? ?. Qed.

Lemma csound_atomic {X A} (f : Module_ -> X * Module_) (k : X -> method A) s :
  (forall m el, s.2 ⊆ el -> grounded (m, el) ->
    grounded ((f m).2, el) /\ csound (k (f m).1) ((f m).2, el)) ->
  csound (Vis (MAtomic f) k) s.
Proof.
  intros Hk [m el] x [m' el'] HR HI _ [Hf He]. cbn in *.
  destruct (Hk m el HR HI) as [HG Hs]. rewrite Hf in HG, Hs. cbn in *.
  split_and!; [destruct HG as (? & ? & ?); split_and!; cbn in *; auto|done|by intros ? ? ?|].
  exists ∅. split; [done|]. by eapply (sound_mono (K := nat)); [apply _|..|exact Hs].
Qed.

Lemma csound_call {X A} (c : etcdC X) (k : X -> method A) s :
  (forall m el x, s.2 ⊆ el -> grounded (m, el) ->
    match c in etcdC X return X -> Prop with
    | Campaign _ _ val => fun x => x = None -> val ∈ el
    | Next _ _ => fun x => forall v kvs, x = Response (v :: kvs) -> v ∈ el
    | _ => fun _ => True
    end x -> csound (k x) (m, el)) ->
  csound (Vis (MCall c) k) s.
Proof.
  intros Hk [m el] x [m' el'] HR HI _ (E1 & He & Hc). cbn in E1, He, HR. subst m'.
  assert (grounded (m, el')) as HG by (destruct HI as (? & ? & ?); split_and!; cbn in *; auto).
  split_and!; [done|done|by intros ? ? ?|]. exists ∅. split; [done|].
  apply Hk; [unfold elects in HR; cbn in HR; set_solver|done|exact Hc].
Qed.

Ltac cstep :=
  unfold read, write, call, perform; cbn [pbind];
  match goal with
  | |- sound _ _ _ _ _ (Ret _) _ _ => apply csound_ret
  | |- sound _ _ _ _ _ (Vis (MAtomic _) _) _ _ =>
      let HG := fresh "HG" in apply csound_atomic; intros ? ? ? HG; cbn [fst snd]; split
  | |- sound _ _ _ _ _ (Vis (MCall _) _) _ _ =>
      let HG := fresh "HG" in apply csound_call; intros ? ? ? ? HG ?
  end; cbn [pbind].

Lemma observe_sound rounds ch ctx s : csound (observe_loop rounds ch ctx node) s.
Proof.
  revert s. induction rounds as [|n IH]; intros s; cbn [observe_loop]; [apply csound_ret|].
  cstep. destruct x as [| |[|v kvs]]; [apply csound_ret..|apply IH|].
  assert (v ∈ el) as Hv by eauto.
  cstep; [by destruct HG0 as (? & ? & ?); split_and!; cbn in *; set_solver|].
  cstep; [|apply IH]. destruct HG1 as (? & ? & ?). split_and!; cbn in *; [done| |done].
  intros ->%bool_decide_eq_true. set_solver.
Qed.

Lemma coord_sound p s : coord_prog p -> csound p s.
Proof.
  destruct 1 as [| | |ctx|rounds ctx].
  - unfold Start. cstep; [done|]. destruct (Tls.BuildTLSConfig _ _ _ _); [|cstep].
    cstep. destruct x as [c|e]; [|cstep]. cstep. destruct x as [ses|e]; [|repeat cstep].
    cstep. cstep. cstep; [done|]. repeat cstep.
  - unfold Stop. cstep; [done|].
    destruct (cancel m), (election m), (session m), (client m); repeat (cstep; try done); case_match;
      repeat cstep.
  - unfold Ready. cstep; [done|]. destruct (client m); repeat cstep.
  - unfold runElection. cstep; [done|]. destruct (election m); [|cstep].
    destruct HG as (Hn & _). cbn in Hn. rewrite Hn.
    cstep. destruct x as [e|]; [cstep|]. assert (node ∈ el0) as Hv by auto.
    cstep; [by destruct HG0 as (? & ? & ?); split_and!; cbn in *; set_solver|].
    cstep; [by destruct HG1 as (? & ? & ?); split_and!; cbn in *; set_solver|].
    cstep. cstep; [|apply csound_ret]. by destruct HG3 as (? & ? & ?); split_and!; cbn in *.
  - unfold observeLeader. cstep; [done|]. destruct (election m); [|cstep].
    destruct HG as (Hn & _). cbn in Hn. rewrite Hn. cstep. apply observe_sound.
Qed.
End Grounded.

(** C8: Leadership is never made up.  In every state that any interleaving of
    the module's methods and goroutines reaches, crashed ones included,
    [IsLeader] is true only if etcd has elected this node, and a [LeaderID]
    that is not empty is a value etcd has elected. *)
Theorem leader_was_elected node eps key us pw ca ce ke sn skip ts m elected :
  reachable etcd_env coord_call (New node eps key us pw ca ce ke sn skip, ∅) (ts, (m, elected)) ->
  (isLeader m = true -> node ∈ elected) /\ (leaderID m <> "" -> leaderID m ∈ elected).
Proof.
  intros Hr.
  destruct (reachable_sound (K := nat) (HR := elects_preorder) etcd_env (grounded node) (fun _ => ∅) elects
    coord_call (New node eps key us pw ca ce ke sn skip, ∅) ts (m, elected)) as [(_ & H1 & H2) _];
    [| |done|by split].
  - by split_and!.
  - intros p Q s [Hp ->] _. eapply sound_weaken; [|by apply coord_sound]. done.
Qed.
End Coord.

(** ** A concrete node

    It connects, and its observer hears that it has been elected. *)

Abbreviation demo_run := (run (feed (pool := unit) (cert := unit))).
Abbreviation demo_start := (Start (pool := unit) (cert := unit) (fun _ => Ok "") (fun _ => None) (fun _ _ => Ok tt)).
Definition demo_module : Module_ := New "node-1" ["etcd:2379"] "/shiro/leader" "" "" "" "" "" "" false.

Lemma observer_follows_witness :
  let m := (demo_run demo_start (demo_module, [])).2.1 in
  let m' := (demo_run (observeLeader 4 0) (m, map Response [["node-2"]; []; ["node-1"]])).2.1 in
  leaderID m' = "node-1" /\ isLeader m' = true.
Proof.
  cbn zeta. rewrite (observer_follows 4 0 0 _ [["node-2"]; []; ["node-1"]]); [by vm_compute|reflexivity|cbn; lia].
Defined.

(** The module with its elected values, under [feed]'s answers. *)
Abbreviation demo_env := (etcd_env (pool := unit) (cert := unit)).
Definition demo_etcd : handler (modE Module_ (etcdC (pool := unit) (cert := unit))) (Module_ * gset string) :=
  fun X e s =>
  match e in modE _ _ X return X * (Module_ * gset string) with
  | MAtomic f => let '(x, m) := f s.1 in (x, (m, s.2))
  | MCall c =>
      match c in etcdC X return X * (Module_ * gset string) with
      | Next _ _ => (Response ["node-1"], (s.1, {["node-1"]} ∪ s.2))
      | Campaign _ _ _ => (Some (newError "context canceled"), s)
      | c' => ((feed _ (MCall c') (s.1, [])).1, s)
      end
  end.

Lemma demo_etcd_ok : respects demo_etcd demo_env.
Proof.
  intros X e [m el]. destruct e as [X f|X c]; cbn; [by destruct (f m)|].
  destruct c; cbn; split_and!; try done; set_solver.
Qed.

Lemma leader_was_elected_witness :
  exists ts m elected,
    reachable demo_env (coord_call (fun _ => Ok "") (fun _ => None) (fun _ _ => Ok tt)) (demo_module, ∅) (ts, (m, elected)) /\
    isLeader m = true /\ "node-1" ∈ elected.
Proof.
  set (s1 := (run demo_etcd (let! _ := demo_start in Ret tt) (demo_module, ∅)).2).
  set (s2 := (run demo_etcd (observeLeader 1 0) s1).2).
  do 2 eexists. exists s2.2.
  assert (reachable demo_env (coord_call (fun _ => Ok "") (fun _ => None) (fun _ _ => Ok tt)) (demo_module, ∅)
    ([mkThread (Ret tt) (fun _ _ => True); mkThread (Ret tt) (fun _ _ => True)], (s2.1, s2.2))) as Hr.
  { rewrite <- surjective_pairing. eapply reachable_run.
    - eapply reachable_run; [apply rtc_refl|split; [apply cp_start|reflexivity]|].
      pose proof (run_exec _ _ (let! _ := demo_start in Ret tt) (demo_module, ∅) demo_etcd_ok) as He.
      destruct (run demo_etcd _ _).1. exact He.
    - split; [apply (cp_observe _ _ _ 1 0)|reflexivity].
    - pose proof (run_exec _ _ (observeLeader 1 0) s1 demo_etcd_ok) as He.
      destruct (run demo_etcd (observeLeader 1 0) s1).1. exact He. }
  assert (isLeader s2.1 = true) as Hl by (vm_compute; reflexivity).
  split; [exact Hr|]. split; [exact Hl|].
  by apply (leader_was_elected (fun _ => Ok "") (fun _ => None) (fun _ _ => Ok tt) "node-1" ["etcd:2379"]
    "/shiro/leader" "" "" "" "" "" "" false _ _ _ Hr).
Defined.
End Coord.
