(* ===== verification/NatsBus.v ===== *)
(** * The event bus (internal/modules/natsbus/module.go)

    The module's struct and methods.  The NATS client is a parameter: its calls
    are effects.  Connections and JetStream contexts are numbers; a stream
    sequence is an unsigned 64-bit number. *)

From S2P Require Import Prelude Prog Contracts GoStrings Connector Tls.
From Stdlib Require Import Ascii.

Module NatsBus.
Import GoStrings Connector.

Section NatsBus.
Context {pool cert : Type}.
Variable ReadFile : string -> result string.
Variable AppendCertsFromPEM : string -> option pool.
Variable LoadX509KeyPair : string -> string -> result cert.

Record Module_ := mkModule {
  url : string;
  streamName : string;
  user : string;
  password : string;
  token : string;
  tls_opts : Tls.TLSOptions;
  nc : option nat;
  js : option nat
}.

Definition New (u st us pw tok ca ce ke sn : string) (skip : bool) : Module_ :=
  mkModule u st us pw tok (Tls.mkOptions ca ce ke sn skip) None None.

Definition Name : string := "natsbus".

Definition set_conn (c j : option nat) (m : Module_) : Module_ :=
  mkModule (url m) (streamName m) (user m) (password m) (token m) (tls_opts m) c j.

Inductive nats_option :=
| OptName (n : string)
| OptMaxReconnects (n : Z)
| OptReconnectWait (d : duration)
| OptToken (t : string)
| OptUserInfo (u p : string)
| OptSecure (c : Tls.tls_config (pool := pool) (cert := cert)).

Record StreamConfig := mkStream {
  sc_Name : string;
  sc_Subjects : list string;
  sc_FileStorage : bool;
  sc_LimitsPolicy : bool;
  sc_DiscardOld : bool;
  sc_MaxAge : duration
}.

(** [nats.Msg], and the metadata JetStream attaches: the stream and the stream
    and consumer sequences. *)
Record Msg := mkMsg { n_Subject : string; n_Data : string; n_Header : gmap string string }.
Record Metadata := mkMeta { md_Stream : string; md_StreamSeq : Z; md_ConsumerSeq : Z }.

Definition MsgIdHdr : string := "Nats-Msg-Id".

Inductive natsC : Type -> Type :=
| Connect (u : string) (opts : list nats_option) : natsC (result nat)
| JetStream (c : nat) : natsC (result nat)
| Close (c : nat) : natsC unit
| Drain (c : nat) : natsC (option error)
| IsConnected (c : nat) : natsC bool
| StreamInfo (j : nat) (name : string) : natsC (option error)
| AddStream (j : nat) (cfg : StreamConfig) : natsC (option error)
(** [select { case <-ctx.Done(): ...; default: }] *)
| CtxErr : natsC (option error)
| PublishMsg (j : nat) (m : Msg) : natsC (result (string * Z))
| NSubscribe (c : nat) (subject : string) : natsC (option error).

Abbreviation method A := (prog (modE Module_ natsC) A).

Definition options (m : Module_) (tls : option Tls.tls_config) : list nats_option :=
  [OptName "shiro-distributed-system"; OptMaxReconnects (-1); OptReconnectWait (2 * Second)] ++
  (if bool_decide (token m <> "") then [OptToken (token m)]
   else if bool_decide (user m <> "") then [OptUserInfo (user m) (password m)] else []) ++
  (match tls with Some c => [OptSecure c] | None => [] end).

Definition stream_config (m : Module_) : StreamConfig :=
  mkStream (streamName m) ["events.>"] true true true (7 * 24 * Hour).

Definition Start : method (option error) :=
  let! m := read (fun m => m) in
  match Tls.BuildTLSConfig ReadFile AppendCertsFromPEM LoadX509KeyPair (tls_opts m) with
  | Err e => Ret (Some e)
  | Ok tlsConfig =>
      try! c := call (Connect (url m) (options m tlsConfig)) catch e => Ret (Some e) in
      let! r := call (JetStream c) in
      match r with
      | Err e => let! _ := call (Close c) in Ret (Some e)
      | Ok j =>
          let! info := call (StreamInfo j (streamName m)) in
          let! addErr := (match info with
                          | Some _ => call (AddStream j (stream_config m))
                          | None => Ret None
                          end) in
          match addErr with
          | Some e => let! _ := call (Close c) in Ret (Some e)
          | None => let! _ := write (set_conn (Some c) (Some j)) in Ret None
          end
      end
  end.

Definition Ready : method (option error) :=
  let! c := read nc in
  match c with
  | None => Ret (Some (newError "nats not connected"))
  | Some c =>
      let! ok := call (IsConnected c) in
      Ret (if negb ok then Some (newError "nats not connected") else None)
  end.

Definition Stop : method (option error) :=
  let! c := perform (MAtomic (fun m => (nc m, set_conn None None m))) in
  match c with
  | None => Ret None
  | Some c =>
      let! err := call (Drain c) in
      match err with
      | Some e => let! _ := call (Close c) in Ret (Some e)
      | None => Ret None
      end
  end.

Definition message (subject data messageID : string) : Msg :=
  mkMsg subject data (if bool_decide (messageID <> "") then {[MsgIdHdr := messageID]} else ∅).

(** [fmt.Sprintf("%s:%d", ack.Stream, ack.Sequence)]. *)
Definition broker_id (stream : string) (seq : Z) : string := stream +:+ String ":" (Itoa seq).

Definition Publish (subject data messageID : string) : method (result string) :=
  let! j := read js in
  match j with
  | None => Ret (Err (newError "jetstream not ready"))
  | Some j =>
      let! done := call CtxErr in
      match done with
      | Some e => Ret (Err e)
      | None =>
          let! r := call (PublishMsg j (message subject data messageID)) in
          match r with
          | Err e => Ret (Err (Tls.wrap_error ("publish " +:+ subject) e))
          | Ok (stream, seq) => Ret (Ok (broker_id stream seq))
          end
      end
  end.

(** The callback of [Subscribe]: what the handler receives at [now]. *)
Definition consumed_id (msg : Msg) (meta : option Metadata) : string :=
  let messageID := default "" (n_Header msg !! MsgIdHdr) in
  if bool_decide (messageID = "") then
    match meta with
    | Some md => md_Stream md +:+ ":" +:+ Itoa (md_StreamSeq md) +:+ ":" +:+ Itoa (md_ConsumerSeq md)
    | None => messageID
    end
  else messageID.

Definition consume (msg : Msg) (meta : option Metadata) (now : gotime) : BusMessage :=
  mkBusMessage (n_Subject msg) (consumed_id msg meta) (n_Data msg) now.

(** The result is the error; the returned function unsubscribes. *)
Definition Subscribe (subject : string) : method (option error) :=
  let! c := read nc in
  match c with
  | None => Ret (Some (newError "nats not connected"))
  | Some c => call (NSubscribe c subject)
  end.

(** ** Start and stop *)

Inductive trace_event :=
| TConnect (c : nat) | TClose (c : nat) | TDrain (c : nat) | TJetStream (c j : nat)
| TInfo (j : nat) (name : string) (found : bool) | TAdd (j : nat) (cfg : StreamConfig) (added : bool)
| TPublish (j : nat) (m : Msg) (r : result (string * Z)).

Definition none {A} (r : option A) : bool := match r with None => true | Some _ => false end.

Definition note X (c : natsC X) : X -> list trace_event :=
  match c in natsC X return X -> list trace_event with
  | Connect _ _ => fun r => match r with Ok c => [TConnect c] | Err _ => [] end
  | Close c => fun _ => [TClose c]
  | Drain c => fun _ => [TDrain c]
  | JetStream c => fun r => match r with Ok j => [TJetStream c j] | Err _ => [] end
  | StreamInfo j n => fun r => [TInfo j n (none r)]
  | AddStream j cfg => fun r => [TAdd j cfg (none r)]
  | PublishMsg j m => fun r => [TPublish j m r]
  | _ => fun _ => []
  end.

Abbreviation env := (mod_env note (fun m m' => m' = m)).

#[local] Arguments wp : simpl never.

Definition closes (tr : list trace_event) : list nat :=
  omap (fun e => match e with TClose c => Some c | _ => None end) tr.
Definition opens (tr : list trace_event) : list nat :=
  omap (fun e => match e with TConnect c => Some c | _ => None end) tr.

(** Starting the bus leaks no connection and leaves a stream behind.  In
    every environment a failed [Start] leaves the struct as it was and has
    closed every connection it opened; a successful one installs the new
    connection and a JetStream context of it, closes nothing, and the stream of
    the configuration existed or has been added.  [Stop] clears both handles and
    drains the old connection, closing it if the drain fails. *)
Theorem bus_start_stop m :
  wp env Start (fun r s =>
    match r with
    | Some _ => s.1 = m /\ closes s.2 = opens s.2
    | None => exists c j, s.1 = set_conn (Some c) (Some j) m /\ opens s.2 = [c] /\ closes s.2 = [] /\
        TJetStream c j ∈ s.2 /\
        (TInfo j (streamName m) true ∈ s.2 \/ TAdd j (stream_config m) true ∈ s.2)
    end) (m, []) /\
  wp env Stop (fun r s =>
    s.1 = set_conn None None m /\
    match nc m with
    | None => r = None /\ s.2 = []
    | Some c => s.2 = TDrain c :: (match r with Some _ => [TClose c] | None => [] end)
    end) (m, []).
Proof.
  split.
  - unfold Start. mstep. subst s0. destruct (Tls.BuildTLSConfig _ _ _ _) as [tls|e]; [|mstep; done].
    mstep. destruct x as [c|e]; [|mstep; done]. mstep. destruct x as [j|e]; [|mstep; mstep; done].
    mstep. destruct x as [e|]; [mstep; destruct x as [e'|]|]; mstep; mstep; cbn.
    + done.
    + subst s0. exists c, j. split_and!; [done..|set_solver|right; set_solver].
    + subst s0. exists c, j. split_and!; [done..|set_solver|left; set_solver].
  - unfold Stop. mstep. subst s0. destruct (nc m); [|mstep; done].
    mstep. destruct x; repeat mstep; done.
Qed.

(** ** Publishing *)

Lemma Itoa_no_colon n : ":"%char ∉ String.list_ascii_of_string (Itoa n).
Proof.
  assert (lacks ":" (Itoa n)) as Hl.
  { apply Itoa_chars; [|done]. intros c Hc%is_digit_code. destruct (Ascii.eqb_spec c ":") as [->|]; [|done].
    cbv in Hc. lia. }
  revert Hl. unfold lacks. generalize (Itoa n) as s. induction s as [|c s IH]; cbn; [set_solver|].
  intros [Hc Hs]%andb_true_iff. destruct (Ascii.eqb_spec c ":"); [done|]. set_solver.
Qed.

Lemma Itoa_inj n k : 0 <= n < 2 ^ 64 -> 0 <= k < 2 ^ 64 -> Itoa n = Itoa k -> n = k.
Proof.
  intros Hn Hk. unfold Itoa. destruct (Z.ltb_spec n 0), (Z.ltb_spec k 0); try lia. intros E.
  apply (f_equal (digits 0)) in E.
  rewrite !digits_format in E by (try lia; change (10 ^ Z.of_nat 20) with 100000000000000000000; lia).
  by injection E.
Qed.

Lemma broker_id_inj st st' q q' : 0 <= q < 2 ^ 64 -> 0 <= q' < 2 ^ 64 ->
  broker_id st q = broker_id st' q' -> st = st' /\ q = q'.
Proof.
  intros Hq Hq' E. apply (f_equal String.list_ascii_of_string) in E. unfold broker_id in E.
  rewrite !list_ascii_app in E. cbn in E.
  apply last_separator in E as [Es Ed]; [|apply Itoa_no_colon..].
  split; [by apply list_ascii_inj|]. apply Itoa_inj; [done..|]. by apply list_ascii_inj.
Qed.

(** C29: Publishing hands the message over once, under its id.  In every
    environment [Publish] makes at most one [PublishMsg] call, whose message
    carries the subject, the data and, when there is a message id, that id as
    [Nats-Msg-Id] header, so that the consumer's callback sees the same
    subject, data and id; it succeeds exactly when the broker has acknowledged
    that call, and the broker id it returns determines the stream and the
    sequence of the acknowledgement. *)
Theorem publish_once m subject data messageID :
  wp env (Publish subject data messageID) (fun r s =>
    s.1 = m /\
    match r with
    | Ok id => exists j stream seq, js m = Some j /\
        s.2 = [TPublish j (message subject data messageID) (Ok (stream, seq))] /\
        id = broker_id stream seq /\
        (0 <= seq < 2 ^ 64 -> forall stream' seq', 0 <= seq' < 2 ^ 64 ->
           id = broker_id stream' seq' -> stream' = stream /\ seq' = seq)
    | Err _ => s.2 = [] \/ exists j e, s.2 = [TPublish j (message subject data messageID) (Err e)]
    end) (m, []) /\
  forall meta now, messageID <> "" ->
    consume (message subject data messageID) meta now = mkBusMessage subject messageID data now.
Proof.
  split.
  - unfold Publish. mstep. subst s0. destruct (js m) as [j|]; [|mstep; by eauto].
    mstep. destruct x as [e|]; [mstep; by eauto|].
    mstep. destruct x as [[stream seq]|e]; mstep; [|by eauto].
    split; [done|]. exists j, stream, seq. split_and!; try done.
    intros Hq st' q' Hq' E. by apply broker_id_inj in E as [-> ->].
  - intros meta now Hid. unfold consume, consumed_id, message. rewrite bool_decide_true by done.
    cbn [n_Subject n_Data n_Header]. rewrite lookup_singleton_eq. cbn. by rewrite bool_decide_false.
Qed.
End NatsBus.
End NatsBus.
