(* ===== verification/CassLife.v ===== *)
(** * Connecting to Cassandra (internal/modules/cassstore/module.go)

    [Start], [Ready] and [Stop] of the store module, and [normalizeHosts].
    The gocql client is a parameter: its calls are effects, sessions are
    numbers.  The store methods of [CassStore] run on a snapshot of the struct
    that says whether there is a session. *)

From S2P Require Import Prelude Prog GoStrings Connector Tls CassStore.
From Stdlib Require Import Ascii.

Module CassLife.
Import GoStrings Connector.

(** ** [net.SplitHostPort], [None] on an error *)

(** The parts before and after the first [c]. *)
Fixpoint cut_first (c : ascii) (l : list ascii) : option (list ascii * list ascii) :=
  match l with
  | [] => None
  | a :: l' => if Ascii.eqb a c then Some ([], l')
               else (fun '(p, q) => (a :: p, q)) <$> cut_first c l'
  end.

(** The parts before and after the last [c]. *)
Definition cut_last (c : ascii) (l : list ascii) : option (list ascii * list ascii) :=
  (fun '(p, q) => (reverse q, reverse p)) <$> cut_first c (reverse l).

Definition has (c : ascii) (l : list ascii) : bool := bool_decide (c ∈ l).

Definition SplitHostPort (hostport : string) : option (string * string) :=
  let s := String.list_ascii_of_string hostport in
  let text := String.string_of_list_ascii in
  match cut_last ":" s with
  | None => None
  | Some (pre, port) =>
      let plain := if has ":" pre || has "[" s || has "]" s then None else Some (text pre, text port) in
      match pre with
      | c :: rest =>
          if Ascii.eqb c "[" then
            (** the first closing bracket stands just before the last colon *)
            match cut_first "]" rest with
            | Some (host, []) =>
                if has "[" (host ++ port) || has "]" port then None else Some (text host, text port)
            | _ => None
            end
          else plain
      | [] => plain
      end
  end.

(** One iteration of the loop of [normalizeHosts]. *)
Definition add_host (acc : list string * Z) (h : string) : list string * Z :=
  let '(hosts, port) := acc in
  let h := TrimSpace h in
  if bool_decide (h = "") then acc else
  match SplitHostPort h with
  | Some (host, p) => (hosts ++ [host], match Atoi p with Some parsed => parsed | None => port end)
  | None => (hosts ++ [h], port)
  end.

Definition normalizeHosts (l : list string) : list string * Z :=
  let '(hosts, port) := foldl add_host ([], 9042) l in
  ((if bool_decide (hosts = []) then ["localhost"] else hosts), port).

(** *** What it computes *)

Definition host_char (c : ascii) : bool :=
  solid c && negb (Ascii.eqb c ":") && negb (Ascii.eqb c "[") && negb (Ascii.eqb c "]").
Definition good_host (h : string) : Prop := h <> "" /\ all_chars host_char h = true.
Definition render_host (hp : string * Z) : string := hp.1 +:+ String ":" (Itoa hp.2).

Lemma cut_first_app c l l' : c ∉ l -> cut_first c (l ++ c :: l') = Some (l, l').
Proof.
  induction l as [|a l IH]; cbn; intros Hc.
  - by rewrite Ascii.eqb_refl.
  - destruct (Ascii.eqb_spec a c) as [->|]; [set_solver|]. rewrite IH; [done|set_solver].
Qed.

Lemma cut_last_app c l l' : c ∉ l' -> cut_last c (l ++ c :: l') = Some (l, l').
Proof.
  intros Hc. unfold cut_last. rewrite reverse_app, reverse_cons, <- app_assoc. cbn.
  rewrite cut_first_app by (by rewrite elem_of_reverse). cbn. by rewrite !reverse_involutive.
Qed.

Lemma all_chars_elem p s c : all_chars p s = true -> c ∈ String.list_ascii_of_string s -> p c = true.
Proof.
  induction s as [|a s IH]; cbn; [set_solver|]. intros [Ha Hs]%andb_true_iff [->|]%elem_of_cons; auto.
Qed.

Lemma lacks_elem p s c : all_chars p s = true -> p c = false -> c ∉ String.list_ascii_of_string s.
Proof. intros Hs Hc Hin. pose proof (all_chars_elem p s c Hs Hin). congruence. Qed.

Lemma SplitHostPort_render h p : good_host h -> SplitHostPort (render_host (h, p)) = Some (h, Itoa p).
Proof.
  intros [Hne Hh]. unfold SplitHostPort, render_host. cbn [fst snd]. rewrite list_ascii_app. cbn.
  assert (forall c, is_digit c = false -> c <> "-"%char -> c ∉ String.list_ascii_of_string (Itoa p)) as Hp.
  { intros c Hd Hm. eapply (lacks_elem (fun x => negb (Ascii.eqb x c))); [|by rewrite Ascii.eqb_refl].
    apply Itoa_chars; [|by destruct (Ascii.eqb_spec "-" c); subst].
    intros x Hx. destruct (Ascii.eqb_spec x c); [congruence|done]. }
  rewrite cut_last_app by (apply Hp; done).
  assert (forall d, host_char d = false -> d ∉ String.list_ascii_of_string h) as Hn
    by (intros d; by apply lacks_elem).
  assert (forall d, host_char d = false -> is_digit d = false -> d <> "-"%char -> d <> ":"%char ->
    has d (String.list_ascii_of_string h ++ ":"%char :: String.list_ascii_of_string (Itoa p)) = false) as Hs.
  { intros d H1 H2 H3 H4. apply bool_decide_false.
    rewrite elem_of_app, elem_of_cons. intros [H|[H|H]]; [by apply (Hn d)|done|by apply (Hp d)]. }
  rewrite (Hs "["%char), (Hs "]"%char) by done.
  assert (has ":" (String.list_ascii_of_string h) = false) as -> by (apply bool_decide_false; by apply Hn).
  cbn [orb]. rewrite !String.string_of_list_ascii_of_string.
  destruct h as [|c h]; [done|]. cbn [String.list_ascii_of_string].
  destruct (Ascii.eqb_spec c "[") as [->|]; [|done]. by destruct (Hn "["%char eq_refl); left.
Qed.

Lemma render_host_solid h p : good_host h -> TrimSpace (render_host (h, p)) = render_host (h, p).
Proof.
  intros [_ Hh]. apply TrimSpace_solid. unfold render_host. cbn [fst snd].
  rewrite all_chars_app. apply andb_true_iff. split.
  - eapply all_chars_mono; [|exact Hh]. intros c. unfold host_char. by destruct (solid c).
  - cbn [all_chars]. apply andb_true_iff. split; [done|]. apply Itoa_chars; [|done].
    intros c Hc%is_digit_code. apply solid_range. lia.
Qed.

Lemma add_hosts l hosts port : Forall (fun hp => good_host hp.1 /\ in_int64 hp.2) l ->
  foldl add_host (hosts, port) (map render_host l) =
  (hosts ++ map fst l, default port (last (map snd l))).
Proof.
  intros Hl. revert hosts port. induction Hl as [|[h p] l [Hh Hp] Hl IH]; intros hosts port; cbn [map foldl].
  - by rewrite app_nil_r.
  - replace (add_host (hosts, port) (render_host (h, p))) with (hosts ++ [h], p).
    + rewrite IH, <- app_assoc. cbn. f_equal. destruct (map snd l) as [|q ps] eqn:E; [done|].
      rewrite last_cons_cons. destruct (last (q :: ps)) eqn:El; [done|]. by apply last_None in El.
    + unfold add_host. rewrite render_host_solid by done. rewrite bool_decide_false.
      * rewrite SplitHostPort_render by done. unfold Atoi. by rewrite ParseInt_Itoa.
      * destruct Hh as [Hne _]. by destruct h.
Qed.

(** Host lists of the form [host:port] keep every host in order and the
    port of the last entry: [cluster.Port] is one number for all hosts, so the
    ports of the other entries are dropped.  An empty list is [localhost] on
    port 9042. *)
Theorem normalize_hosts_last_port l :
  Forall (fun hp => good_host hp.1 /\ in_int64 hp.2) l ->
  normalizeHosts (map render_host l) =
  (match l with [] => ["localhost"] | _ => map fst l end, default 9042 (last (map snd l))).
Proof.
  intros Hl. unfold normalizeHosts. rewrite add_hosts by done. cbn [app].
  destruct l as [|[h p] l]; [done|]. by rewrite bool_decide_false.
Qed.

Lemma normalize_hosts_last_port_witness :
  normalizeHosts ["cass-a:9042"; "cass-b:9142"] = (["cass-a"; "cass-b"], 9142).
Proof.
  apply (normalize_hosts_last_port [("cass-a", 9042); ("cass-b", 9142)]).
  repeat constructor; vm_compute; done.
Defined.

(** ** Statements of [Start] *)

Definition keyspace_cql (keyspace : string) : string :=
  "CREATE KEYSPACE IF NOT EXISTS " +:+ keyspace +:+
  " WITH replication = {'class':'SimpleStrategy','replication_factor':1}".

Definition ddl : list string := [
  "CREATE TABLE IF NOT EXISTS events_by_stream (
stream text,
occurred_at timestamp,
event_id timeuuid,
subject text,
event_type text,
payload text,
PRIMARY KEY ((stream), occurred_at, event_id)
) WITH CLUSTERING ORDER BY (occurred_at DESC, event_id DESC)";
  "CREATE TABLE IF NOT EXISTS events_by_id (
event_id timeuuid PRIMARY KEY,
stream text,
occurred_at timestamp,
subject text,
event_type text,
payload text
)";
  "CREATE TABLE IF NOT EXISTS idempotency_keys (
stream text,
idempotency_key text,
event_id timeuuid,
payload_hash text,
created_at timestamp,
PRIMARY KEY ((stream), idempotency_key)
)";
  "CREATE TABLE IF NOT EXISTS idempotency_by_created (
bucket text,
created_at timestamp,
stream text,
idempotency_key text,
event_id timeuuid,
PRIMARY KEY ((bucket), created_at, stream, idempotency_key)
)";
  "CREATE TABLE IF NOT EXISTS outbox_events (
event_id timeuuid PRIMARY KEY,
stream text,
subject text,
event_type text,
payload text,
occurred_at timestamp,
publish_state text,
published_at timestamp,
broker_message_id text
)";
  "CREATE TABLE IF NOT EXISTS outbox_retry_state (
event_id timeuuid PRIMARY KEY,
retry_count int,
next_attempt_at timestamp,
last_error text,
lease_owner text,
lease_until timestamp,
quarantined boolean,
quarantined_at timestamp,
first_failed_at timestamp
)";
  "CREATE TABLE IF NOT EXISTS outbox_by_state (
publish_state text,
occurred_at timestamp,
event_id timeuuid,
stream text,
subject text,
event_type text,
payload text,
PRIMARY KEY ((publish_state), occurred_at, event_id)
) WITH CLUSTERING ORDER BY (occurred_at ASC, event_id ASC)";
  "CREATE TABLE IF NOT EXISTS inbox_consumed (
consumer text,
message_id text,
consumed_at timestamp,
PRIMARY KEY ((consumer), message_id)
)";
  "CREATE TABLE IF NOT EXISTS dead_letters_by_time (
bucket text,
quarantined_at timestamp,
event_id timeuuid,
stream text,
subject text,
event_type text,
payload text,
retry_count int,
last_error text,
PRIMARY KEY ((bucket), quarantined_at, event_id)
)";
  "CREATE TABLE IF NOT EXISTS dead_letters_by_id (
event_id timeuuid PRIMARY KEY,
quarantined_at timestamp,
stream text,
subject text,
event_type text,
payload text,
retry_count int,
last_error text
)"
].

(** ** Methods *)

(** [gocql.Consistency]. *)
Inductive Consistency :=
| Any | One | Two | Three | Quorum | All | LocalQuorum | EachQuorum | LocalOne.

Section CassLife.
Context {pool cert : Type}.
Variable ReadFile : string -> result string.
Variable AppendCertsFromPEM : string -> option pool.
Variable LoadX509KeyPair : string -> string -> result cert.

(** The struct with its session handle. *)
Record conn := mkConn { c_module : CassStore.Module_; c_session : option nat }.

(** The settings of [gocql.NewCluster] the code makes. *)
Record cluster := mkCluster {
  cl_hosts : list string;
  cl_port : Z;
  cl_timeout : duration;
  cl_connect_timeout : duration;
  cl_consistency : Consistency;
  cl_auth : option (string * string);
  (** the TLS configuration and [EnableHostVerification] *)
  cl_ssl : option (Tls.tls_config (pool := pool) (cert := cert) * bool);
  cl_keyspace : string
}.

Inductive gocqlC : Type -> Type :=
| CreateSession (c : cluster) : gocqlC (result nat)
| CloseSession (s : nat) : gocqlC unit
| Query (s : nat) (cql : string) : gocqlC (option error).

Abbreviation method A := (prog (modE conn gocqlC) A).

(** What a store method reads of the struct. *)
Definition snapshot (s : conn) : CassStore.Module_ :=
  let m := c_module s in
  CassStore.mkModule (CassStore.hosts m) (CassStore.keyspace m) (CassStore.user m) (CassStore.password m)
    (CassStore.tlsCAFile m) (CassStore.tlsCertFile m) (CassStore.tlsKeyFile m) (CassStore.tlsServerName m)
    (CassStore.tlsInsecureSkipVerify m) (match c_session s with Some _ => true | None => false end).

Definition tls_opts (m : CassStore.Module_) : Tls.TLSOptions :=
  Tls.mkOptions (CassStore.tlsCAFile m) (CassStore.tlsCertFile m) (CassStore.tlsKeyFile m)
    (CassStore.tlsServerName m) (CassStore.tlsInsecureSkipVerify m).

Definition cluster_of (m : CassStore.Module_) (tls : option Tls.tls_config) (keyspace : string) : cluster :=
  let '(hosts, port) := normalizeHosts (CassStore.hosts m) in
  mkCluster hosts port (8 * Second) (8 * Second) Quorum
    (if bool_decide (CassStore.user m <> "") then Some (CassStore.user m, CassStore.password m) else None)
    ((fun c => (c, negb (CassStore.tlsInsecureSkipVerify m))) <$> tls)
    keyspace.

(** [for _, cql := range ddl], with the session closed on an error. *)
Fixpoint exec_ddl (session : nat) (stmts : list string) : method (option error) :=
  match stmts with
  | [] => Ret None
  | cql :: rest =>
      let! err := call (Query session cql) in
      match err with
      | Some e => let! _ := call (CloseSession session) in Ret (Some e)
      | None => exec_ddl session rest
      end
  end.

(** From the bootstrap session on; its [Close] is deferred. *)
Definition start_bootstrapped (m : CassStore.Module_) (tls : option Tls.tls_config) (bootstrap : nat)
    : method (option error) :=
  let! err := call (Query bootstrap (keyspace_cql (CassStore.keyspace m))) in
  match err with
  | Some e => Ret (Some e)
  | None =>
      try! s := call (CreateSession (cluster_of m tls (CassStore.keyspace m))) catch e => Ret (Some e) in
      let! err := exec_ddl s ddl in
      match err with
      | Some e => Ret (Some e)
      | None => let! _ := write (fun c => mkConn (c_module c) (Some s)) in Ret None
      end
  end.

Definition Start : method (option error) :=
  let! m := read c_module in
  match Tls.BuildTLSConfig ReadFile AppendCertsFromPEM LoadX509KeyPair (tls_opts m) with
  | Err e => Ret (Some e)
  | Ok tls =>
      try! bootstrap := call (CreateSession (cluster_of m tls "")) catch e => Ret (Some e) in
      let! err := start_bootstrapped m tls bootstrap in
      let! _ := call (CloseSession bootstrap) in
      Ret err
  end.

Definition Ready : method (option error) :=
  let! s := read c_session in
  match s with
  | None => Ret (Some CassStore.session_err)
  | Some s => call (Query s "SELECT key FROM system.local LIMIT 1")
  end.

Definition Stop : method (option error) :=
  let! s := perform (MAtomic (fun c => (c_session c, mkConn (c_module c) None))) in
  let! _ := (match s with Some s => call (CloseSession s) | None => Ret tt end) in
  Ret None.

(** ** Start and stop *)

Inductive trace_event := TOpen (s : nat) | TClose (s : nat) | TExec (s : nat) (cql : string) (ok : bool).

Definition note X (c : gocqlC X) : X -> list trace_event :=
  match c in gocqlC X return X -> list trace_event with
  | CreateSession _ => fun r => match r with Ok s => [TOpen s] | Err _ => [] end
  | CloseSession s => fun _ => [TClose s]
  | Query s cql => fun r => [TExec s cql (match r with None => true | Some _ => false end)]
  end.

Abbreviation env := (mod_env note (fun m m' => m' = m)).

#[local] Arguments wp : simpl never.

Definition opens (tr : list trace_event) : list nat :=
  omap (fun e => match e with TOpen s => Some s | _ => None end) tr.
Definition closes (tr : list trace_event) : list nat :=
  omap (fun e => match e with TClose s => Some s | _ => None end) tr.
(** The statements that took effect, with their sessions. *)
Definition executed (tr : list trace_event) : list (nat * string) :=
  omap (fun e => match e with TExec s cql true => Some (s, cql) | _ => None end) tr.

Lemma opens_app tr tr' : opens (tr ++ tr') = opens tr ++ opens tr'.
Proof. apply omap_app. Qed.
Lemma closes_app tr tr' : closes (tr ++ tr') = closes tr ++ closes tr'.
Proof. apply omap_app. Qed.
Lemma executed_app tr tr' : executed (tr ++ tr') = executed tr ++ executed tr'.
Proof. apply omap_app. Qed.

Lemma exec_ddl_any s stmts c tr :
  wp env (exec_ddl s stmts) (fun r st => st.1 = c /\ exists new, st.2 = tr ++ new /\ opens new = [] /\
    match r with
    | None => closes new = [] /\ executed new = map (fun q => (s, q)) stmts
    | Some _ => closes new = [s]
    end) (c, tr).
Proof.
  revert tr. induction stmts as [|q stmts IH]; intros tr; cbn [exec_ddl].
  - mstep. split; [done|]. exists []. by rewrite app_nil_r.
  - mstep. destruct x as [e|].
    + do 2 mstep. split; [done|]. exists [TExec s q false; TClose s]. by rewrite <- app_assoc.
    + eapply wp_mono; [|apply IH]. intros r st (Hc & new & Htr & Ho & Hr). split; [done|].
      exists (TExec s q true :: new). split; [by rewrite Htr, <- app_assoc|]. split; [done|].
      destruct r; [done|]. destruct Hr as [Hcl He]. split; [done|]. cbn. by rewrite <- He.
Qed.

Lemma store_start m :
  wp env Start (fun r s =>
    match r with
    | Some _ => s.1 = m /\ closes s.2 ≡ₚ opens s.2
    | None => exists b ses, s.1 = mkConn (c_module m) (Some ses) /\
        opens s.2 = [b; ses] /\ closes s.2 = [b] /\
        executed s.2 = (b, keyspace_cql (CassStore.keyspace (c_module m))) :: map (fun q => (ses, q)) ddl
    end) (m, []).
Proof.
  unfold Start, start_bootstrapped. mstep. subst s0.
  destruct (Tls.BuildTLSConfig _ _ _ _) as [tls|e]; [|mstep; done].
  mstep. destruct x as [b|e]; [|mstep; done].
  mstep. destruct x as [e|]; [do 2 mstep; done|].
  mstep. destruct x as [ses|e]; [|do 2 mstep; done].
  apply wp_bind, wp_bind. eapply wp_mono; [|apply exec_ddl_any].
  intros r [c tr] (Hc & new & Htr & Ho & Hr). cbn [fst snd] in *. subst c tr. destruct r as [e|]; cbn beta iota.
  - do 3 mstep. split; [done|].
    cbn [fst snd]. rewrite !closes_app, !opens_app, Ho, Hr. cbn. apply perm_swap.
  - destruct Hr as [Hcl He]. mstep. subst s0. do 3 mstep. exists b, ses.
    cbn [fst snd]. rewrite !closes_app, !opens_app, !executed_app, Ho, Hcl, He. cbn -[ddl keyspace_cql].
    by split_and!.
Qed.

Lemma store_stop m :
  wp env Stop (fun r s =>
    r = None /\ s.1 = mkConn (c_module m) None /\
    s.2 = (match c_session m with Some ses => [TClose ses] | None => [] end)) (m, []).
Proof. unfold Stop. mstep. subst s0. destruct (c_session m); repeat mstep; done. Qed.

(** C30: Starting the store leaks no session and creates the whole schema.  In
    every environment a failed [Start] leaves the struct as it was and has
    closed every session it opened; a successful one has executed, in order,
    the keyspace statement on the bootstrap session and every table statement
    on the session it installs, and has closed the bootstrap session only.
    [Stop] closes the installed session and clears it; store methods then
    report that no session is available. *)
Theorem store_start_stop m :
  wp env Start (fun r s =>
    match r with
    | Some _ => s.1 = m /\ closes s.2 ≡ₚ opens s.2
    | None => exists b ses, s.1 = mkConn (c_module m) (Some ses) /\
        opens s.2 = [b; ses] /\ closes s.2 = [b] /\
        executed s.2 = (b, keyspace_cql (CassStore.keyspace (c_module m))) :: map (fun q => (ses, q)) ddl
    end) (m, []) /\
  wp env Stop (fun r s =>
    r = None /\ CassStore.session (snapshot s.1) = false /\
    s.2 = (match c_session m with Some ses => [TClose ses] | None => [] end)) (m, []).
Proof.
  split; [apply store_start|]. eapply wp_mono; [|apply store_stop].
  by intros r s (-> & -> & ->).
Qed.
End CassLife.
End CassLife.
