(* ===== verification/Config.v ===== *)
(** * Configuration (internal/config/config.go)

    The environment is a function from variable names to values, empty when
    unset, as [os.Getenv] reports it; the host name is what [os.Hostname]
    returns, [None] on an error. *)

From S2P Require Import Prelude GoStrings.
From Stdlib Require Import Ascii.

Module Config.
Import GoStrings.

Record VersionRange := mkRange { Min : Z; Max : Z }.

Record Config := mkConfig {
  HTTPAddr : string;
  HTTPReadTimeoutMs : Z;
  HTTPReadHeaderTimeoutMs : Z;
  HTTPWriteTimeoutMs : Z;
  HTTPIdleTimeoutMs : Z;
  HTTPShutdownTimeoutMs : Z;
  HTTPRequestTimeoutMs : Z;
  MaxConcurrentRequests : Z;
  MaxConcurrentPublishes : Z;
  MaxConcurrentQueries : Z;
  CircuitFailureThreshold : Z;
  CircuitOpenMs : Z;
  CircuitHalfOpenSuccesses : Z;
  PublishTimeoutMs : Z;
  OutboxLeaseMs : Z;
  OutboxBackoffBaseMs : Z;
  OutboxBackoffMaxMs : Z;
  OutboxBackoffJitterPct : Z;
  OutboxQuarantineAfter : Z;
  CleanupIntervalMs : Z;
  CleanupBatchSize : Z;
  IdempotencyTTLHours : Z;
  DeadLetterTTLHours : Z;
  SubjectRateLimitRPS : Z;
  SubjectRateLimitBurst : Z;
  SubjectRateLimitOverrides : gmap string Z;
  SchemaVersionRules : gmap string VersionRange;
  SchemaRequiredFields : gmap string (list string);
  EventTypeRegistry : list string;
  RejectUnknownEventTypes : bool;
  ModuleStartRetryMax : Z;
  ModuleStartRetryBackoffMs : Z;
  NodeID : string;
  NATSURL : string;
  NATSStream : string;
  NATSUser : string;
  NATSPassword : string;
  NATSToken : string;
  EtcdEndpoints : list string;
  EtcdUser : string;
  EtcdPassword : string;
  LeaderElectionKey : string;
  CassandraHosts : list string;
  CassandraKeyspace : string;
  CassandraUser : string;
  CassandraPassword : string;
  TLSCAFile : string;
  TLSCertFile : string;
  TLSKeyFile : string;
  TLSServerName : string;
  TLSInsecureSkipVerify : bool;
  CORSEnabled : bool;
  CORSAllowedOrigins : list string;
  CORSAllowedMethods : list string;
  CORSAllowedHeaders : list string;
  HSTSEnabled : bool;
  CSPHeader : string;
  APIBearerToken : string;
  APIPublishTokens : list string;
  APIReadTokens : list string;
  APIAdminTokens : list string;
  APITokenExpirations : gmap string Z;
  DisableAPITokenAuth : bool;
  AuthFailureMaxAttempts : Z;
  AuthFailureBlockSeconds : Z;
  PublishRetryMax : Z;
  PublishRetryBackoffMs : Z;
  PublishRetryMaxBackoffMs : Z;
  OutboxRelayIntervalMs : Z;
  OutboxRelayBatchSize : Z;
  RateLimitRPS : Z;
  RateLimitBurst : Z;
  RateLimitMaxIPs : Z;
  RateLimitIPTTLSeconds : Z;
  MaxRequestBodyBytes : Z;
  SecurityHeadersEnabled : bool;
  AuditLogEnabled : bool;
  RequireLeaderForWrites : bool;
  OTELServiceName : string;
  OTELExporterOTLPEndpoint : string
}.

Section Env.
Variables (Getenv : string -> string) (Hostname : option string).

Definition envOr (key fallback : string) : string :=
  let v := Getenv key in if bool_decide (v <> "") then v else fallback.

(** The parts of a list after trimming, without the empty ones. *)
Definition parts_of (v : string) (sep : ascii) : list string :=
  filter (fun p => p <> "") (map TrimSpace (Split v sep)).

Definition splitOr (key fallback : string) : list string := parts_of (envOr key fallback) ",".

Definition hostOr (fallback : string) : string :=
  match Hostname with
  | Some h => if bool_decide (h <> "") then h else fallback
  | None => fallback
  end.

Definition boolOr (key : string) (fallback : bool) : bool :=
  let v := TrimSpace (ToLower (Getenv key)) in
  if bool_decide (v = "") then fallback
  else bool_decide (v = "1") || bool_decide (v = "true") || bool_decide (v = "yes") || bool_decide (v = "on").

Definition intOr (key : string) (fallback : Z) : Z :=
  let v := TrimSpace (Getenv key) in
  if bool_decide (v = "") then fallback
  else match Atoi v with Some n => n | None => fallback end.

Definition int64Or (key : string) (fallback : Z) : Z :=
  let v := TrimSpace (Getenv key) in
  if bool_decide (v = "") then fallback
  else match ParseInt v with Some n => n | None => fallback end.

(** The loops of the map parsers: an entry that is skipped is [None]; a later
    entry for the same key wins. *)
Definition parse_entries {V} (entry : string -> option (string * V)) (entries : list string)
    : gmap string V :=
  foldl (fun out e => match entry e with Some (k, v) => <[k := v]> out | None => out end) ∅ entries.

Definition int_entry (parse : string -> option Z) (pair : string) : option (string * Z) :=
  let pair := TrimSpace pair in
  if bool_decide (pair = "") then None else
  match SplitN2 pair "=" with
  | [p0; p1] =>
      let k := TrimSpace p0 in
      let v := TrimSpace p1 in
      if bool_decide (k = "") then None else
      match parse v with Some n => Some (k, n) | None => None end
  | _ => None
  end.

Definition parseIntMap (key : string) : gmap string Z :=
  let raw := TrimSpace (Getenv key) in
  if bool_decide (raw = "") then ∅ else parse_entries (int_entry Atoi) (Split raw ",").

Definition parseInt64Map (key : string) : gmap string Z :=
  let raw := TrimSpace (Getenv key) in
  if bool_decide (raw = "") then ∅ else parse_entries (int_entry ParseInt) (Split raw ",").

Definition version_entry (entry : string) : option (string * VersionRange) :=
  let entry := TrimSpace entry in
  if bool_decide (entry = "") then None else
  match SplitN2 entry ":" with
  | [p0; p1] =>
      let evt := TrimSpace p0 in
      let rng := TrimSpace p1 in
      match SplitN2 rng "-" with
      | [b0; b1] =>
          match Atoi (TrimSpace b0), Atoi (TrimSpace b1) with
          | Some minV, Some maxV =>
              if (minV <=? 0) || (maxV <? minV) then None else Some (evt, mkRange minV maxV)
          | _, _ => None
          end
      | _ => None
      end
  | _ => None
  end.

Definition parseSchemaVersionRules (key : string) : gmap string VersionRange :=
  let raw := TrimSpace (Getenv key) in
  if bool_decide (raw = "") then ∅ else parse_entries version_entry (Split raw ",").

Definition fields_entry (entry : string) : option (string * list string) :=
  let entry := TrimSpace entry in
  if bool_decide (entry = "") then None else
  match SplitN2 entry "=" with
  | [p0; p1] =>
      let evt := TrimSpace p0 in
      if bool_decide (evt = "") then None else
      let fields := parts_of p1 "|" in
      match fields with [] => None | _ => Some (evt, fields) end
  | _ => None
  end.

Definition parseRequiredFieldRules (key : string) : gmap string (list string) :=
  let raw := TrimSpace (Getenv key) in
  if bool_decide (raw = "") then ∅ else parse_entries fields_entry (Split raw ";").

Definition FromEnv : Config := {|
  HTTPAddr := envOr "HTTP_ADDR" ":8080";
  HTTPReadTimeoutMs := intOr "HTTP_READ_TIMEOUT_MS" 10000;
  HTTPReadHeaderTimeoutMs := intOr "HTTP_READ_HEADER_TIMEOUT_MS" 3000;
  HTTPWriteTimeoutMs := intOr "HTTP_WRITE_TIMEOUT_MS" 15000;
  HTTPIdleTimeoutMs := intOr "HTTP_IDLE_TIMEOUT_MS" 60000;
  HTTPShutdownTimeoutMs := intOr "HTTP_SHUTDOWN_TIMEOUT_MS" 10000;
  HTTPRequestTimeoutMs := intOr "HTTP_REQUEST_TIMEOUT_MS" 8000;
  MaxConcurrentRequests := intOr "MAX_CONCURRENT_REQUESTS" 500;
  MaxConcurrentPublishes := intOr "MAX_CONCURRENT_PUBLISHES" 200;
  MaxConcurrentQueries := intOr "MAX_CONCURRENT_QUERIES" 300;
  CircuitFailureThreshold := intOr "CIRCUIT_FAILURE_THRESHOLD" 5;
  CircuitOpenMs := intOr "CIRCUIT_OPEN_MS" 15000;
  CircuitHalfOpenSuccesses := intOr "CIRCUIT_HALF_OPEN_SUCCESSES" 2;
  PublishTimeoutMs := intOr "PUBLISH_TIMEOUT_MS" 5000;
  OutboxLeaseMs := intOr "OUTBOX_LEASE_MS" 15000;
  OutboxBackoffBaseMs := intOr "OUTBOX_BACKOFF_BASE_MS" 500;
  OutboxBackoffMaxMs := intOr "OUTBOX_BACKOFF_MAX_MS" 30000;
  OutboxBackoffJitterPct := intOr "OUTBOX_BACKOFF_JITTER_PCT" 25;
  OutboxQuarantineAfter := intOr "OUTBOX_QUARANTINE_AFTER" 12;
  CleanupIntervalMs := intOr "CLEANUP_INTERVAL_MS" 30000;
  CleanupBatchSize := intOr "CLEANUP_BATCH_SIZE" 200;
  IdempotencyTTLHours := intOr "IDEMPOTENCY_TTL_HOURS" (24 * 14);
  DeadLetterTTLHours := intOr "DEAD_LETTER_TTL_HOURS" (24 * 30);
  SubjectRateLimitRPS := intOr "SUBJECT_RATE_LIMIT_RPS" 100;
  SubjectRateLimitBurst := intOr "SUBJECT_RATE_LIMIT_BURST" 200;
  SubjectRateLimitOverrides := parseIntMap "SUBJECT_RATE_LIMIT_RPS_OVERRIDES";
  SchemaVersionRules := parseSchemaVersionRules "EVENT_SCHEMA_VERSION_RULES";
  SchemaRequiredFields := parseRequiredFieldRules "EVENT_SCHEMA_REQUIRED_FIELDS";
  EventTypeRegistry := splitOr "EVENT_TYPE_REGISTRY" "";
  RejectUnknownEventTypes := boolOr "REJECT_UNKNOWN_EVENT_TYPES" false;
  ModuleStartRetryMax := intOr "MODULE_START_RETRY_MAX" 4;
  ModuleStartRetryBackoffMs := intOr "MODULE_START_RETRY_BACKOFF_MS" 1000;
  NodeID := envOr "NODE_ID" (hostOr "node-1");
  NATSURL := envOr "NATS_URL" "nats://localhost:4222";
  NATSStream := envOr "NATS_STREAM" "SHIRO_EVENTS";
  NATSUser := envOr "NATS_USER" "";
  NATSPassword := envOr "NATS_PASSWORD" "";
  NATSToken := envOr "NATS_TOKEN" "";
  EtcdEndpoints := splitOr "ETCD_ENDPOINTS" "localhost:2379";
  EtcdUser := envOr "ETCD_USER" "";
  EtcdPassword := envOr "ETCD_PASSWORD" "";
  LeaderElectionKey := envOr "LEADER_ELECTION_KEY" "/shirods/controlplane/leader";
  CassandraHosts := splitOr "CASSANDRA_HOSTS" "localhost:9042";
  CassandraKeyspace := envOr "CASSANDRA_KEYSPACE" "shirods";
  CassandraUser := envOr "CASSANDRA_USER" "";
  CassandraPassword := envOr "CASSANDRA_PASSWORD" "";
  TLSCAFile := envOr "TLS_CA_FILE" "";
  TLSCertFile := envOr "TLS_CERT_FILE" "";
  TLSKeyFile := envOr "TLS_KEY_FILE" "";
  TLSServerName := envOr "TLS_SERVER_NAME" "";
  TLSInsecureSkipVerify := boolOr "TLS_INSECURE_SKIP_VERIFY" false;
  CORSEnabled := boolOr "CORS_ENABLED" false;
  CORSAllowedOrigins := splitOr "CORS_ALLOWED_ORIGINS" "";
  CORSAllowedMethods := splitOr "CORS_ALLOWED_METHODS" "GET,POST,OPTIONS";
  CORSAllowedHeaders := splitOr "CORS_ALLOWED_HEADERS" "Authorization,Content-Type,Idempotency-Key,X-Request-Id";
  HSTSEnabled := boolOr "HSTS_ENABLED" false;
  CSPHeader := envOr "CSP_HEADER" "default-src 'none'; frame-ancestors 'none'; base-uri 'none'";
  APIBearerToken := envOr "API_BEARER_TOKEN" "";
  APIPublishTokens := splitOr "API_ACL_PUBLISH_TOKENS" "";
  APIReadTokens := splitOr "API_ACL_READ_TOKENS" "";
  APIAdminTokens := splitOr "API_ACL_ADMIN_TOKENS" "";
  APITokenExpirations := parseInt64Map "API_TOKEN_EXPIRATIONS";
  DisableAPITokenAuth := boolOr "DISABLE_API_TOKEN_AUTH" false;
  AuthFailureMaxAttempts := intOr "AUTH_FAILURE_MAX_ATTEMPTS" 10;
  AuthFailureBlockSeconds := intOr "AUTH_FAILURE_BLOCK_SECONDS" 300;
  PublishRetryMax := intOr "PUBLISH_RETRY_MAX" 4;
  PublishRetryBackoffMs := intOr "PUBLISH_RETRY_BACKOFF_MS" 150;
  PublishRetryMaxBackoffMs := intOr "PUBLISH_RETRY_MAX_BACKOFF_MS" 3000;
  OutboxRelayIntervalMs := intOr "OUTBOX_RELAY_INTERVAL_MS" 1500;
  OutboxRelayBatchSize := intOr "OUTBOX_RELAY_BATCH_SIZE" 100;
  RateLimitRPS := intOr "RATE_LIMIT_RPS" 60;
  RateLimitBurst := intOr "RATE_LIMIT_BURST" 120;
  RateLimitMaxIPs := intOr "RATE_LIMIT_MAX_IPS" 10000;
  RateLimitIPTTLSeconds := intOr "RATE_LIMIT_IP_TTL_SECONDS" 900;
  MaxRequestBodyBytes := int64Or "MAX_REQUEST_BODY_BYTES" (Z.shiftl 1 20);
  SecurityHeadersEnabled := boolOr "SECURITY_HEADERS_ENABLED" true;
  AuditLogEnabled := boolOr "AUDIT_LOG_ENABLED" true;
  RequireLeaderForWrites := boolOr "REQUIRE_LEADER_FOR_WRITES" false;
  OTELServiceName := envOr "OTEL_SERVICE_NAME" "shiro-distributed-system";
  OTELExporterOTLPEndpoint := envOr "OTEL_EXPORTER_OTLP_ENDPOINT" ""
|}.
End Env.

(** ** Validation *)

(** The checks of [Validate] in order, with the message each appends. *)
Definition checks (c : Config) : list (bool * string) := [
  (HTTPReadTimeoutMs c <=? 0, "HTTP_READ_TIMEOUT_MS must be > 0");
  (HTTPReadHeaderTimeoutMs c <=? 0, "HTTP_READ_HEADER_TIMEOUT_MS must be > 0");
  (HTTPWriteTimeoutMs c <=? 0, "HTTP_WRITE_TIMEOUT_MS must be > 0");
  (HTTPIdleTimeoutMs c <=? 0, "HTTP_IDLE_TIMEOUT_MS must be > 0");
  (HTTPRequestTimeoutMs c <=? 0, "HTTP_REQUEST_TIMEOUT_MS must be > 0");
  (HTTPShutdownTimeoutMs c <=? 0, "HTTP_SHUTDOWN_TIMEOUT_MS must be > 0");
  (MaxConcurrentRequests c <=? 0, "MAX_CONCURRENT_REQUESTS must be > 0");
  (MaxConcurrentPublishes c <=? 0, "MAX_CONCURRENT_PUBLISHES must be > 0");
  (MaxConcurrentQueries c <=? 0, "MAX_CONCURRENT_QUERIES must be > 0");
  (PublishRetryMax c <=? 0, "PUBLISH_RETRY_MAX must be > 0");
  (OutboxBackoffBaseMs c <=? 0, "OUTBOX_BACKOFF_BASE_MS must be > 0");
  (OutboxBackoffMaxMs c <=? 0, "OUTBOX_BACKOFF_MAX_MS must be > 0");
  (OutboxBackoffBaseMs c >? OutboxBackoffMaxMs c, "OUTBOX_BACKOFF_BASE_MS must be <= OUTBOX_BACKOFF_MAX_MS");
  (OutboxQuarantineAfter c <=? 0, "OUTBOX_QUARANTINE_AFTER must be > 0");
  (MaxRequestBodyBytes c <=? 0, "MAX_REQUEST_BODY_BYTES must be > 0");
  (RateLimitRPS c <=? 0, "RATE_LIMIT_RPS must be > 0");
  (RateLimitBurst c <=? 0, "RATE_LIMIT_BURST must be > 0");
  (RateLimitMaxIPs c <=? 0, "RATE_LIMIT_MAX_IPS must be > 0");
  (RateLimitIPTTLSeconds c <=? 0, "RATE_LIMIT_IP_TTL_SECONDS must be > 0");
  (CORSEnabled c && bool_decide (CORSAllowedMethods c = []), "CORS_ALLOWED_METHODS must be non-empty when CORS_ENABLED=true");
  (CORSEnabled c && bool_decide (CORSAllowedHeaders c = []), "CORS_ALLOWED_HEADERS must be non-empty when CORS_ENABLED=true");
  (RejectUnknownEventTypes c && bool_decide (EventTypeRegistry c = []), "EVENT_TYPE_REGISTRY must be set when REJECT_UNKNOWN_EVENT_TYPES=true")
].

Definition errs (c : Config) : list string := omap (fun '(bad, msg) => if bad : bool then Some msg else None) (checks c).

Definition Validate (c : Config) : option error :=
  match errs c with
  | [] => None
  | es => Some (newError ("invalid configuration: " +:+ Join es "; "))
  end.

(** What a valid configuration satisfies. *)
Record valid (c : Config) : Prop := mkValid {
  v_read : 0 < HTTPReadTimeoutMs c;
  v_read_header : 0 < HTTPReadHeaderTimeoutMs c;
  v_write : 0 < HTTPWriteTimeoutMs c;
  v_idle : 0 < HTTPIdleTimeoutMs c;
  v_request : 0 < HTTPRequestTimeoutMs c;
  v_shutdown : 0 < HTTPShutdownTimeoutMs c;
  v_requests : 0 < MaxConcurrentRequests c;
  v_publishes : 0 < MaxConcurrentPublishes c;
  v_queries : 0 < MaxConcurrentQueries c;
  v_retry : 0 < PublishRetryMax c;
  v_backoff : 0 < OutboxBackoffBaseMs c <= OutboxBackoffMaxMs c;
  v_quarantine : 0 < OutboxQuarantineAfter c;
  v_body : 0 < MaxRequestBodyBytes c;
  v_rps : 0 < RateLimitRPS c;
  v_burst : 0 < RateLimitBurst c;
  v_ips : 0 < RateLimitMaxIPs c;
  v_ttl : 0 < RateLimitIPTTLSeconds c;
  v_cors : CORSEnabled c = true -> CORSAllowedMethods c <> [] /\ CORSAllowedHeaders c <> [];
  v_types : RejectUnknownEventTypes c = true -> EventTypeRegistry c <> []
}.

Lemma errs_nil c : errs c = [] <-> Forall (fun ch => ch.1 = false) (checks c).
Proof.
  unfold errs. induction (checks c) as [|[b m] l IH]; cbn; [done|].
  rewrite Forall_cons. destruct b; cbn; [|naive_solver]. split; [done|naive_solver].
Qed.

(** Validation accepts exactly the well-formed configurations: every
    timeout, limit and threshold it names is positive, the backoff base does
    not exceed the maximum, CORS has methods and headers when enabled, and a
    registry exists when unknown event types are rejected. *)
Theorem validate_iff c : Validate c = None <-> valid c.
Proof.
  assert (Validate c = None <-> errs c = []) as ->.
  { unfold Validate. by destruct (errs c). }
  rewrite errs_nil. unfold checks. rewrite !Forall_cons, Forall_nil. cbn [fst].
  rewrite !andb_false_iff, !bool_decide_eq_false, !Z.leb_gt, Z.gtb_ltb, Z.ltb_ge.
  split.
  - intros H. decompose [and] H. constructor; try lia;
      match goal with |- ?b = true -> _ => destruct b; naive_solver end.
  - intros []. split_and!; try lia; try done.
    all: match goal with |- ?b = false \/ _ => destruct b; naive_solver end.
Qed.

(** The built-in defaults are valid: with an empty environment, whatever
    the host name, the configuration passes validation. *)
Theorem defaults_valid host : Validate (FromEnv (fun _ => "") host) = None.
Proof. vm_compute. reflexivity. Qed.

Section Parsers.
Variable Getenv : string -> string.

(** Integer settings are total and in range.  A blank or malformed value,
    or one that does not fit 64 bits, falls back to the default; otherwise the
    value written in decimal is the value read. *)
Theorem int_setting key fallback :
  (forall n, in_int64 n -> Getenv key = Itoa n -> intOr Getenv key fallback = n) /\
  (TrimSpace (Getenv key) = "" -> intOr Getenv key fallback = fallback) /\
  (Atoi (TrimSpace (Getenv key)) = None -> intOr Getenv key fallback = fallback) /\
  (in_int64 fallback -> in_int64 (intOr Getenv key fallback)).
Proof.
  unfold intOr. split_and!.
  - intros n Hn ->. rewrite TrimSpace_solid.
    + rewrite bool_decide_false; [unfold Atoi; by rewrite ParseInt_Itoa|].
      intros E. apply ParseInt_Itoa in Hn. by rewrite E in Hn.
    + apply Itoa_chars; [|done]. intros c Hc%is_digit_code. apply solid_range. lia.
  - intros ->. by rewrite bool_decide_true.
  - intros ->. by destruct (bool_decide _).
  - intros Hf. destruct (bool_decide _); [done|]. unfold Atoi.
    destruct (ParseInt (TrimSpace (Getenv key))) as [n|] eqn:E; [|done].
    unfold ParseInt in E. repeat case_match; simplify_eq;
      match goal with H : (_ && _) = true |- _ => apply andb_true_iff in H as [?%Z.leb_le ?%Z.leb_le] end;
      by split.
Qed.

(** List settings hold trimmed, non-empty entries: every element of a comma
    separated setting is a non-empty result of trimming one of its parts. *)
Theorem split_entries key fallback :
  Forall (fun p => p <> "" /\ exists q, q ∈ Split (envOr Getenv key fallback) "," /\ p = TrimSpace q)
    (splitOr Getenv key fallback).
Proof.
  unfold splitOr, parts_of. apply Forall_forall. intros p [Hp Hin]%list_elem_of_filter.
  apply list_elem_of_fmap in Hin as (q & -> & Hq). eauto.
Qed.

(** ** Round trip of the map settings *)

(** Bytes that may appear in a key: no white space, comma or equals sign. *)
Definition key_char (c : ascii) : bool :=
  solid c && negb (Ascii.eqb c ",") && negb (Ascii.eqb c "=").

Definition good_key (k : string) : Prop := k <> "" /\ all_chars key_char k = true.

Definition render_pair (kv : string * Z) : string := kv.1 +:+ "=" +:+ Itoa kv.2.
Definition render (m : gmap string Z) : string := Join (map render_pair (map_to_list m)) ",".

Definition pair_char (c : ascii) : bool := solid c && negb (Ascii.eqb c ",").

Lemma key_pair_char c : key_char c = true -> pair_char c = true.
Proof. unfold key_char, pair_char. rewrite !andb_true_iff. tauto. Qed.

Lemma digit_pair_char c : is_digit c = true -> pair_char c = true.
Proof.
  intros Hc%is_digit_code. unfold pair_char. rewrite solid_range by lia.
  destruct (Ascii.eqb_spec c ",") as [->|]; [cbv in Hc; lia|done].
Qed.

Lemma pair_chars kv : good_key kv.1 -> all_chars pair_char (render_pair kv) = true.
Proof.
  intros [_ Hk]. unfold render_pair. rewrite !all_chars_app, !andb_true_iff. split_and!; [|done|].
  - eapply all_chars_mono; [apply key_pair_char|done].
  - by apply Itoa_chars; [apply digit_pair_char|].
Qed.

Lemma pair_lacks kv : good_key kv.1 -> lacks "," (render_pair kv).
Proof.
  intros Hk%pair_chars. eapply all_chars_mono; [|exact Hk]. intros c. unfold pair_char.
  by intros [_ ?]%andb_true_iff.
Qed.

Lemma int_entry_pair k n : good_key k -> in_int64 n -> int_entry Atoi (render_pair (k, n)) = Some (k, n).
Proof.
  intros Hk Hn. unfold int_entry. pose proof (pair_chars (k, n) Hk) as Hp. destruct Hk as [Hne Hk].
  rewrite TrimSpace_solid by (eapply all_chars_mono; [|exact Hp]; intros c; by intros [? _]%andb_true_iff).
  rewrite bool_decide_false by (destruct k; [done|]; discriminate).
  unfold render_pair. cbn [fst snd]. change ("=" +:+ Itoa n) with (String "=" (Itoa n)).
  rewrite SplitN2_app by (eapply all_chars_mono; [|exact Hk]; intros c; unfold key_char;
    rewrite !andb_true_iff; tauto).
  rewrite !TrimSpace_solid.
  - rewrite bool_decide_false by done. unfold Atoi. by rewrite ParseInt_Itoa.
  - apply Itoa_chars; [|done]. intros c Hc%is_digit_code. apply solid_range. lia.
  - eapply all_chars_mono; [|exact Hk]. intros c. unfold key_char. rewrite !andb_true_iff. tauto.
Qed.

Lemma parse_entries_list {V} (entry : string -> option (string * V)) (f : string * V -> string) l :
  Forall (fun kv => entry (f kv) = Some kv) l ->
  parse_entries entry (map f l) = list_to_map (reverse l).
Proof.
  unfold parse_entries. intros HF.
  assert (forall out, foldl (fun out e => match entry e with Some (k, v) => <[k := v]> out | None => out end)
    out (map f l) = foldr (fun kv out => <[kv.1 := kv.2]> out) out (reverse l)) as ->; [|done].
  induction HF as [|[k v] l Hkv HF IH]; intros out; [done|].
  cbn [map foldl]. rewrite Hkv, IH, reverse_cons, foldr_app. done.
Qed.

Lemma Join_chars p ps sep :
  Forall (fun s => all_chars p s = true) ps -> all_chars p sep = true -> all_chars p (Join ps sep) = true.
Proof.
  intros HF Hs. induction HF as [|s ps Hs1 HF IH]; [done|]. destruct ps as [|s2 ps]; [done|].
  change (Join (s :: s2 :: ps) sep) with (s +:+ (sep +:+ Join (s2 :: ps) sep)).
  by rewrite !all_chars_app, Hs1, Hs, IH.
Qed.

(** C32: Map settings round-trip.  A table of integers written as comma
    separated [key=value] pairs is read back as that table, for all keys
    without white space, commas and equals signs and all 64-bit values. *)
Theorem int_map_roundtrip key m :
  map_Forall (fun k n => good_key k /\ in_int64 n) m ->
  Getenv key = render m -> parseIntMap Getenv key = m.
Proof.
  intros Hm Henv. unfold parseIntMap. rewrite Henv.
  assert (Forall (fun kv => good_key kv.1 /\ in_int64 kv.2) (map_to_list m)) as HF.
  { apply Forall_forall. intros [k n] Hin%elem_of_map_to_list. by apply (Hm k n). }
  rewrite TrimSpace_solid.
  2: { apply Join_chars; [|done]. apply Forall_fmap. eapply Forall_impl; [exact HF|]. cbn.
       intros kv [Hk _]. eapply all_chars_mono; [|apply pair_chars, Hk].
       intros c. by intros [? _]%andb_true_iff. }
  destruct (decide (m = ∅)) as [->|Hne].
  { unfold render. rewrite map_to_list_empty. cbn. by rewrite bool_decide_true. }
  assert (map render_pair (map_to_list m) <> []) as Hl.
  { intros E%fmap_nil_inv%map_to_list_empty_iff. done. }
  assert (Split (render m) "," = map render_pair (map_to_list m)) as Hsplit.
  { apply Split_Join; [done|]. apply Forall_fmap. eapply Forall_impl; [exact HF|].
    intros kv [Hk _]. by apply pair_lacks. }
  rewrite bool_decide_false.
  2: { intros E. rewrite E in Hsplit. cbn in Hsplit.
       destruct (map_to_list m) as [|[k n] l]; [done|]. injection Hsplit as Hs _.
       destruct (proj1 (Forall_cons _ _ _) HF) as [[[Hk _] _] _]. destruct k; done. }
  rewrite Hsplit, parse_entries_list.
  - rewrite (list_to_map_proper _ (map_to_list m)); [apply list_to_map_to_list| |apply reverse_Permutation].
    rewrite reverse_Permutation. apply NoDup_fst_map_to_list.
  - eapply Forall_impl; [exact HF|]. intros [k n] [Hk Hn]. by apply int_entry_pair.
Qed.

(** Every schema version rule that is read is a usable range: the minimum
    is at least one and not above the maximum. *)
Theorem version_rules_wellformed key evt rule :
  parseSchemaVersionRules Getenv key !! evt = Some rule -> 1 <= Min rule <= Max rule.
Proof.
  unfold parseSchemaVersionRules. destruct (bool_decide _); [by rewrite lookup_empty|].
  unfold parse_entries.
  assert (forall l (out : gmap string VersionRange), map_Forall (fun _ r => 1 <= Min r <= Max r) out ->
    map_Forall (fun _ r => 1 <= Min r <= Max r) (foldl (fun out e => match version_entry e with
      Some (k, v) => <[k := v]> out | None => out end) out l)) as Hl.
  { induction l as [|e l IH]; intros out Hout; cbn; [done|]. apply IH.
    destruct (version_entry e) as [[k v]|] eqn:E; [|done]. apply map_Forall_insert_2; [|done].
    unfold version_entry in E. repeat case_match; simplify_eq; cbn.
    match goal with H : (_ || _) = false |- _ => apply orb_false_iff in H as [? ?] end. zify_bools. lia. }
  intros Hr. exact (Hl _ ∅ (map_Forall_empty _) evt rule Hr).
Qed.
End Parsers.

Lemma int_map_roundtrip_witness :
  let m := <["events.orders" := 50]> (<["events.audit" := -7]> (∅ : gmap string Z)) in
  parseIntMap (fun _ => render m) "SUBJECT_RATE_LIMIT_RPS_OVERRIDES" = m.
Proof.
  apply int_map_roundtrip; [|reflexivity].
  apply map_Forall_insert_2; [|apply map_Forall_insert_2; [|apply map_Forall_empty]];
    (split; [split; [discriminate|reflexivity]|split; vm_compute; discriminate]).
Defined.

Lemma version_rules_wellformed_witness :
  let rules := parseSchemaVersionRules (fun _ => " order.created: 1 - 3 ,x:9-2, bad") "EVENT_SCHEMA_VERSION_RULES" in
  rules !! "order.created" = Some (mkRange 1 3) /\ 1 <= Min (mkRange 1 3) <= Max (mkRange 1 3).
Proof.
  split; [vm_compute; reflexivity|].
  apply (version_rules_wellformed (fun _ => " order.created: 1 - 3 ,x:9-2, bad") "EVENT_SCHEMA_VERSION_RULES"
    "order.created"). vm_compute. reflexivity.
Defined.
End Config.
