(* ===== verification/Limits.v ===== *)
(** * Admission control (internal/core/app.go)

    The per-address and per-subject rate limiters, the guard against repeated
    authentication failures, and the counting guards that bound the number of
    requests in flight.  Every method holds its mutex from start to end, so it
    is a function of the clock and the state; the calls of
    [rate.Limiter.Allow], made after the mutex is released, act on limiters
    shared by pointer. *)

From S2P Require Import Prelude.

(** ** golang.org/x/time/rate *)
Class RateLimiter := {
  limiter : Type;
  NewLimiter : Z -> Z -> limiter;
  lim_Allow : gotime -> limiter -> bool * limiter
}.

Module Limits.

(** ** Counting guards: a channel of [struct{}] with [cap] places *)
Module Guard.

Definition acquireGuard (cap n : Z) : bool * Z := if n <? cap then (true, n + 1) else (false, n).
Definition releaseGuard (n : Z) : Z := if n >? 0 then n - 1 else n.

(** Requests run between a granted acquire and their release, in any order. *)
Inductive gstep (cap : Z) : Z * nat -> Z * nat -> Prop :=
| g_enter n n' inside : acquireGuard cap n = (true, n') -> gstep cap (n, inside) (n', S inside)
| g_refuse n inside : acquireGuard cap n = (false, n) -> gstep cap (n, inside) (n, inside)
| g_leave n inside : gstep cap (n, S inside) (releaseGuard n, inside).

Lemma gstep_count cap n inside n' inside' :
  0 <= cap -> gstep cap (n, inside) (n', inside') ->
  n = Z.of_nat inside /\ n <= cap -> n' = Z.of_nat inside' /\ n' <= cap.
Proof.
  intros Hcap Hs [Hn Hc]. inversion Hs as [? ? ? Ha|? ? Ha|]; subst.
  - unfold acquireGuard in Ha. case_match; simplify_eq; zify_bools; lia.
  - done.
  - unfold releaseGuard. case_match; zify_bools; lia.
Qed.

(** The guards bound the requests in flight.  In every interleaving of
    requests that enter and leave through a guard of capacity [cap], at most
    [cap] are inside at any time, the channel holds exactly one token per
    request inside (no release finds it empty), and an entry is refused only
    when [cap] requests are inside. *)
Theorem guard_bounds_inflight cap n inside :
  0 <= cap -> rtc (gstep cap) (0, 0%nat) (n, inside) ->
  n = Z.of_nat inside /\ Z.of_nat inside <= cap /\
  ((acquireGuard cap n).1 = false <-> Z.of_nat inside = cap).
Proof.
  intros Hcap Hr.
  assert (forall c, rtc (gstep cap) (0, 0%nat) c -> c.1 = Z.of_nat c.2 /\ c.1 <= cap) as Hinv.
  { apply rtc_ind_r; [done|]. intros [m i] [m' i'] _ Hs IH. by eapply gstep_count. }
  destruct (Hinv _ Hr) as [Hn Hc]. cbn in Hn, Hc. split_and!; [done|lia|].
  unfold acquireGuard. case_match; zify_bools; cbn; split; intros; try done; lia.
Qed.

Lemma guard_bounds_inflight_witness :
  exists n inside, rtc (gstep 1) (0, 0%nat) (n, inside) /\ inside = 1%nat /\
    n = Z.of_nat inside /\ (acquireGuard 1 n).1 = false.
Proof.
  exists 1, 1%nat.
  assert (rtc (gstep 1) (0, 0%nat) (1, 1%nat)) as Hr.
  { eapply rtc_l; [apply g_enter; reflexivity|].
    eapply rtc_l; [apply g_leave|]. eapply rtc_l; [apply g_enter; reflexivity|].
    eapply rtc_l; [apply g_refuse; reflexivity|]. apply rtc_refl. }
  destruct (guard_bounds_inflight 1 1 1 ltac:(lia) Hr) as (Hn & _ & Ha).
  split_and!; [exact Hr|done|exact Hn|]. by apply Ha.
Defined.
End Guard.

(** ** The guard against repeated authentication failures *)
Module AuthGuard.

Record authFailureGuard := mkGuard {
  maxFailures : Z;
  blockFor : duration;
  failures : gmap string Z;
  blockedTill : gmap string gotime
}.

Definition newAuthFailureGuard (m : Z) (d : duration) : authFailureGuard :=
  mkGuard (gomax 1 m) d ∅ ∅.

Definition IsBlocked (now : gotime) (ip : string) (g : authFailureGuard) : bool * authFailureGuard :=
  match blockedTill g !! ip with
  | None => (false, g)
  | Some until =>
      if After now until
      then (false, mkGuard (maxFailures g) (blockFor g) (delete ip (failures g)) (delete ip (blockedTill g)))
      else (true, g)
  end.

(** The map read gives zero for an absent key. *)
Definition failures_of (g : authFailureGuard) (ip : string) : Z := default 0 (failures g !! ip).

Definition Failure (now : gotime) (ip : string) (g : authFailureGuard) : authFailureGuard :=
  let n := wrap64 (failures_of g ip + 1) in
  mkGuard (maxFailures g) (blockFor g) (<[ip := n]> (failures g))
    (if n >=? maxFailures g then <[ip := Add now (blockFor g)]> (blockedTill g) else blockedTill g).

Definition Success (ip : string) (g : authFailureGuard) : authFailureGuard :=
  mkGuard (maxFailures g) (blockFor g) (delete ip (failures g)) (delete ip (blockedTill g)).

(** A request's effect on the guard, as [secure] uses it. *)
Inductive event := EvFailure (now : gotime) (ip : string) | EvSuccess (ip : string)
  | EvCheck (now : gotime) (ip : string).

Definition exec_event (ev : event) (g : authFailureGuard) : authFailureGuard :=
  match ev with
  | EvFailure now ip => Failure now ip g
  | EvSuccess ip => Success ip g
  | EvCheck now ip => (IsBlocked now ip g).2
  end.

Definition event_ip (ev : event) : string :=
  match ev with EvFailure _ ip | EvSuccess ip | EvCheck _ ip => ip end.

Definition exec_events (evs : list event) (g : authFailureGuard) : authFailureGuard :=
  foldl (fun g ev => exec_event ev g) g evs.

(** *** Specification: what one address has done

    The number of failures since the last success or expired block, and the
    end of the current block. *)
Record client := mkClient { cl_failures : Z; cl_until : option gotime }.

Definition spec_event (m : Z) (d : duration) (ev : event) (c : client) : client :=
  match ev with
  | EvFailure now _ =>
      let n := cl_failures c + 1 in
      mkClient n (if n >=? m then Some (now + d) else cl_until c)
  | EvSuccess _ => mkClient 0 None
  | EvCheck now _ =>
      match cl_until c with
      | Some u => if u <? now then mkClient 0 None else c
      | None => c
      end
  end.

Definition spec_events (m : Z) (d : duration) (ip : string) (evs : list event) (c : client) : client :=
  foldl (fun c ev => if bool_decide (event_ip ev = ip) then spec_event m d ev c else c) c evs.

Definition client_of (g : authFailureGuard) (ip : string) : client :=
  mkClient (failures_of g ip) (blockedTill g !! ip).

Lemma exec_event_config ev g :
  maxFailures (exec_event ev g) = maxFailures g /\ blockFor (exec_event ev g) = blockFor g.
Proof.
  destruct ev; cbn; try done. unfold IsBlocked. by repeat case_match.
Qed.

Lemma exec_event_client ev g ip :
  0 <= failures_of g ip < int_max ->
  client_of (exec_event ev g) ip =
    if bool_decide (event_ip ev = ip) then spec_event (maxFailures g) (blockFor g) ev (client_of g ip)
    else client_of g ip.
Proof.
  intros Hn. unfold client_of, failures_of in *. destruct ev as [now i|i|now i]; cbn.
  - case_bool_decide as E.
    + subst i. rewrite lookup_insert_eq. cbn. unfold failures_of.
      rewrite wrap64_id by (unfold in_int64, int_min in *; lia).
      f_equal. case_match; [by rewrite lookup_insert_eq|done].
    + rewrite lookup_insert_ne by done. f_equal. case_match; [by rewrite lookup_insert_ne|done].
  - case_bool_decide as E; [subst i; by rewrite !lookup_delete_eq|by rewrite !lookup_delete_ne].
  - unfold IsBlocked, After. case_bool_decide as E.
    + subst i. destruct (blockedTill g !! ip) as [u|] eqn:Eu; cbn; [|by rewrite Eu].
      case_match; cbn; [by rewrite !lookup_delete_eq|by rewrite Eu].
    + repeat case_match; cbn; rewrite ?lookup_delete_ne by done; done.
Qed.

Lemma exec_events_client evs g ip :
  0 <= failures_of g ip -> failures_of g ip + Z.of_nat (length evs) < int_max ->
  client_of (exec_events evs g) ip =
    spec_events (maxFailures g) (blockFor g) ip evs (client_of g ip).
Proof.
  unfold exec_events, spec_events. revert g. induction evs as [|ev evs IH]; intros g H0 Hn; [done|].
  cbn [foldl length] in *. pose proof (exec_event_client ev g ip ltac:(lia)) as Hc.
  destruct (exec_event_config ev g) as [E1 E2].
  assert (0 <= failures_of (exec_event ev g) ip <= failures_of g ip + 1) as Hf.
  { change (failures_of (exec_event ev g) ip) with (cl_failures (client_of (exec_event ev g) ip)).
    rewrite Hc. change (failures_of g ip) with (cl_failures (client_of g ip)) in *.
    destruct (bool_decide _); [|lia]. destruct ev; cbn in *; repeat case_match; cbn in *; lia. }
  rewrite IH by lia. by rewrite E1, E2, Hc.
Qed.

Lemma is_blocked_spec m d evs ip now :
  Z.of_nat (length evs) < int_max ->
  (IsBlocked now ip (exec_events evs (newAuthFailureGuard m d))).1 =
    match cl_until (spec_events (Z.max 1 m) d ip evs (mkClient 0 None)) with
    | Some u => now <=? u
    | None => false
    end.
Proof.
  intros Hlen.
  pose proof (exec_events_client evs (newAuthFailureGuard m d) ip) as Hc.
  unfold client_of in Hc at 2. unfold failures_of in Hc. cbn in Hc.
  rewrite !lookup_empty, gomax_max in Hc. cbn in Hc. specialize (Hc ltac:(lia) ltac:(lia)).
  rewrite <- Hc. unfold IsBlocked. cbn.
  destruct (blockedTill (exec_events evs (newAuthFailureGuard m d)) !! ip) as [u|]; [|done].
  unfold After. rewrite Z.leb_antisym. by destruct (u <? now).
Qed.

(** C27: The failure guard refines its per-address specification.  For every
    sequence of failures, successes and checks from any addresses (fewer than
    2^63-1 of them), what the guard answers for an address depends only on
    that address's own events: it is blocked exactly when the last failure that
    brought its count to the maximum is at most the block time ago, a success
    or an expired block clears its count, and other addresses do not matter. *)
Theorem auth_guard_refines_spec m d evs ip now :
  Z.of_nat (length evs) < int_max ->
  (IsBlocked now ip (exec_events evs (newAuthFailureGuard m d))).1 =
    match cl_until (spec_events (Z.max 1 m) d ip evs (mkClient 0 None)) with
    | Some u => now <=? u
    | None => false
    end.
Proof. apply is_blocked_spec. Qed.

Lemma auth_guard_refines_spec_witness :
  (IsBlocked 7 "10.0.0.1" (exec_events [EvFailure 1 "10.0.0.1"; EvFailure 2 "10.0.0.9"; EvFailure 3 "10.0.0.1"]
     (newAuthFailureGuard 2 5))).1 = true.
Proof. rewrite auth_guard_refines_spec; [reflexivity|vm_compute; reflexivity]. Defined.

Lemma spec_events_filter m d ip evs c :
  spec_events m d ip evs c = foldl (fun c ev => spec_event m d ev c) c (filter (fun ev => event_ip ev = ip) evs).
Proof.
  unfold spec_events. revert c. induction evs as [|ev evs IH]; intros c; [done|]. cbn [foldl].
  rewrite filter_cons, IH. case_bool_decide as E; [by rewrite decide_True|by rewrite decide_False].
Qed.

Lemma spec_failures m d ip ts n :
  0 <= n ->
  foldl (fun c ev => spec_event m d ev c) (mkClient n None) (map (fun t => EvFailure t ip) ts) =
  mkClient (n + Z.of_nat (length ts))
    (if n + Z.of_nat (length ts) >=? m then (fun t => t + d) <$> last ts else None).
Proof.
  intros Hn. induction ts as [|t ts IH] using rev_ind; cbn.
  { rewrite Z.add_0_r. by destruct (_ >=? _). }
  rewrite map_app, foldl_app, IH, last_snoc, length_app. cbn.
  f_equal; [lia|]. replace (n + Z.of_nat (length ts + 1)) with (n + Z.of_nat (length ts) + 1) by lia.
  destruct (_ + 1 >=? m) eqn:E1; [done|]. destruct (_ >=? m) eqn:E2; zify_bools; [lia|done].
Qed.

(** Repeated failures block the address.  If the events of an address are
    failures only, the last at [t], then among any events of other addresses
    it is blocked at [now] exactly when it has failed at least the maximum
    number of times and [now] is not after the end of the block. *)
Theorem auth_guard_blocks m d evs ip ts t now :
  Z.of_nat (length evs) < int_max ->
  filter (fun ev => event_ip ev = ip) evs = map (fun t => EvFailure t ip) (ts ++ [t]) ->
  (IsBlocked now ip (exec_events evs (newAuthFailureGuard m d))).1 =
    (Z.max 1 m <=? Z.of_nat (length ts) + 1) && (now <=? t + d).
Proof.
  intros Hlen Hf. rewrite is_blocked_spec, spec_events_filter, Hf, spec_failures by lia.
  cbn [cl_until]. rewrite length_app, last_snoc. cbn [length fmap option_fmap option_map].
  replace (Z.of_nat (length ts + 1)) with (Z.of_nat (length ts) + 1) by lia.
  rewrite Z.add_0_l, Z.geb_leb. by destruct (_ <=? _).
Qed.

Lemma auth_guard_blocks_witness :
  (IsBlocked 7 "10.0.0.1" (exec_events [EvFailure 1 "10.0.0.1"; EvSuccess "10.0.0.9"; EvFailure 3 "10.0.0.1"]
     (newAuthFailureGuard 2 5))).1 = true.
Proof.
  rewrite (auth_guard_blocks 2 5 _ "10.0.0.1" [1] 3); [reflexivity|vm_compute; reflexivity..].
Defined.

End AuthGuard.

(** ** The per-address rate limiter *)
Module IPLimiter.
Section IPLimiter.
Context {RL : RateLimiter}.

(** [lim] points into the heap of limiters. *)
Record ipLimiterEntry := mkEntry { lim : nat; lastSeen : gotime }.

Record ipRateLimiter := mkIPLimiter {
  r : Z;
  b : Z;
  maxIPs : Z;
  ttl : duration;
  nextSweep : gotime;
  data : gmap string ipLimiterEntry;
  lastEvictedIP : string;
  (** the [rate.Limiter] objects allocated so far *)
  heap : list limiter
}.

Definition newIPRateLimiter (now : gotime) (r b maxIPs : Z) (ttl : duration) : ipRateLimiter :=
  mkIPLimiter r b (gomax 100 maxIPs) ttl (Add now Minute) ∅ "" [].

Definition set_data (l : ipRateLimiter) (d : gmap string ipLimiterEntry) : ipRateLimiter :=
  mkIPLimiter (r l) (b l) (maxIPs l) (ttl l) (nextSweep l) d (lastEvictedIP l) (heap l).

Definition sweepLocked (now : gotime) (l : ipRateLimiter) : ipRateLimiter :=
  let next := Add now Minute in
  if ttl l <=? 0 then mkIPLimiter (r l) (b l) (maxIPs l) (ttl l) next (data l) (lastEvictedIP l) (heap l) else
  let cutoff := Add now (wrap64 (- ttl l)) in
  mkIPLimiter (r l) (b l) (maxIPs l) (ttl l) next
    (filter (fun kv => Before (lastSeen kv.2) cutoff = false) (data l)) (lastEvictedIP l) (heap l).

(** The loop over the map; [order] is the order in which the runtime visits
    the entries.  The accumulator is [(first, oldestIP, oldestSeen)]. *)
Definition oldest_step (acc : bool * string * gotime) (kv : string * ipLimiterEntry) : bool * string * gotime :=
  let '(first, oldestIP, oldestSeen) := acc in
  if first || Before (lastSeen kv.2) oldestSeen then (false, kv.1, lastSeen kv.2) else acc.

Definition oldest (order : list (string * ipLimiterEntry)) : bool * string * gotime :=
  foldl oldest_step (true, "", zero_time) order.

Definition evictOldestLocked (order : list (string * ipLimiterEntry)) (l : ipRateLimiter) : ipRateLimiter :=
  let oldestIP := (oldest order).1.2 in
  if bool_decide (oldestIP <> "") then
    mkIPLimiter (r l) (b l) (maxIPs l) (ttl l) (nextSweep l) (delete oldestIP (data l)) oldestIP (heap l)
  else l.

(** The locked part of [Allow]: the pointer of the entry's limiter.  [order]
    is the visiting order of the map at the time of the eviction. *)
Definition allow_locked (now : gotime) (order : ipRateLimiter -> list (string * ipLimiterEntry))
    (ip : string) (l : ipRateLimiter) : nat * ipRateLimiter :=
  let l := if After now (nextSweep l) then sweepLocked now l else l in
  match data l !! ip with
  | Some e => (lim e, set_data l (<[ip := mkEntry (lim e) now]> (data l)))
  | None =>
      let l := if Z.of_nat (size (data l)) >=? maxIPs l then evictOldestLocked (order l) l else l in
      let p := length (heap l) in
      (p, mkIPLimiter (r l) (b l) (maxIPs l) (ttl l) (nextSweep l) (<[ip := mkEntry p now]> (data l))
            (lastEvictedIP l) (heap l ++ [NewLimiter (r l) (b l)]))
  end.

(** [entry.lim.Allow()], after the lock is released. *)
Definition lim_step (now : gotime) (p : nat) (l : ipRateLimiter) : bool * ipRateLimiter :=
  match heap l !! p with
  | Some x =>
      let '(ok, x') := lim_Allow now x in
      (ok, mkIPLimiter (r l) (b l) (maxIPs l) (ttl l) (nextSweep l) (data l) (lastEvictedIP l) (<[p := x']> (heap l)))
  | None => (false, l)
  end.

(** *** Bounded memory *)

(** Every visiting order lists the entries of the map, each once. *)
Definition visits (order : ipRateLimiter -> list (string * ipLimiterEntry)) : Prop :=
  forall l, order l ≡ₚ map_to_list (data l).

Lemma oldest_acc order acc :
  let '(f, ip, t) := foldl oldest_step acc order in
  (f, ip, t) = acc \/ exists e, (ip, e) ∈ order /\ lastSeen e = t /\ f = false.
Proof.
  revert acc. induction order as [|[ip e] order IH]; intros acc; [destruct acc as [[? ?] ?]; by left|].
  cbn [foldl]. specialize (IH (oldest_step acc (ip, e))).
  destruct (foldl oldest_step (oldest_step acc (ip, e)) order) as [[f ip'] t].
  destruct IH as [IH|(e' & Hin & Ht & Hf)]; [|right; exists e'; split_and!; [by right|done|done]].
  destruct acc as [[f0 ip0] t0]. unfold oldest_step in IH. destruct (_ || _); [|by left].
  right. exists e. cbn in IH. simplify_eq. split_and!; [by left|done|done].
Qed.

Lemma oldest_acc_min order acc :
  let '(f, _, t) := foldl oldest_step acc order in
  (acc.1.1 = false -> t <= acc.2) /\ (forall ip e, (ip, e) ∈ order -> f = false /\ t <= lastSeen e) /\
  (acc.1.1 = false -> f = false).
Proof.
  revert acc. induction order as [|[ip e] order IH]; intros acc.
  { destruct acc as [[f i] t]. cbn. split_and!; [lia| |done]. intros ? ? ?%not_elem_of_nil. done. }
  cbn [foldl]. specialize (IH (oldest_step acc (ip, e))).
  destruct (foldl oldest_step (oldest_step acc (ip, e)) order) as [[f i] t].
  destruct acc as [[f0 i0] t0]. unfold oldest_step in IH. cbn in *.
  destruct f0; cbn in IH.
  - destruct IH as (I1 & I2 & I3). split_and!; [done| |done].
    intros ip' e' [Hin|Hin]%elem_of_cons; [simplify_eq; auto|eauto].
  - unfold Before in IH. destruct (lastSeen e <? t0) eqn:E; zify_bools; cbn in IH;
      destruct IH as (I1 & I2 & I3); specialize (I1 eq_refl); specialize (I3 eq_refl);
      (split_and!; [lia| |done]); intros ip' e' [Hin|Hin]%elem_of_cons; simplify_eq; eauto with lia.
Qed.

(** The address picked is one of the map, and no entry is older. *)
Lemma oldest_spec order :
  order <> [] ->
  exists ip e, (oldest order).1.2 = ip /\ (ip, e) ∈ order /\
    forall ip' e', (ip', e') ∈ order -> lastSeen e <= lastSeen e'.
Proof.
  intros Hne. pose proof (oldest_acc order (true, "", zero_time)) as Ha.
  pose proof (oldest_acc_min order (true, "", zero_time)) as Hm. unfold oldest in *.
  destruct (foldl _ _ order) as [[f ip] t]. destruct Hm as (_ & Hm & _).
  destruct Ha as [Ha|(e & Hin & <- & _)].
  - destruct order as [|[i e] order]; [done|]. destruct (Hm i e) as [? _]; [by left|]. simplify_eq.
  - exists ip, e. split_and!; [done|done|]. intros ip' e' Hin'. by apply (Hm ip' e').
Qed.

(** *** Invariant *)

Record wf (l : ipRateLimiter) : Prop := mkWf {
  wf_max : 100 <= maxIPs l;
  wf_size : Z.of_nat (size (data l)) <= maxIPs l;
  wf_named : data l !! "" = None;
  wf_ptr ip e : data l !! ip = Some e -> (lim e < length (heap l))%nat;
  wf_inj ip ip' e e' : data l !! ip = Some e -> data l !! ip' = Some e' -> lim e = lim e' -> ip = ip'
}.

(** Dropping entries, and moving the sweep time and the last evicted address. *)
Lemma wf_subset l d next last :
  wf l -> d ⊆ data l -> wf (mkIPLimiter (r l) (b l) (maxIPs l) (ttl l) next d last (heap l)).
Proof.
  intros [W1 W2 Wn W3 W4] Hd. constructor; cbn; [done| | | |].
  - pose proof (map_subseteq_size _ _ Hd). lia.
  - by eapply lookup_weaken_None.
  - intros ip e He. eapply W3, lookup_weaken; eauto.
  - intros ip ip' e e' He He'. eapply W4; eapply lookup_weaken; eauto.
Qed.

Lemma sweep_wf now l : wf l -> wf (sweepLocked now l) /\ data (sweepLocked now l) ⊆ data l.
Proof.
  intros Hl. unfold sweepLocked. case_match.
  - by split; [apply wf_subset|].
  - split; [apply wf_subset; [done|]|]; apply map_filter_subseteq.
Qed.

(** A full map makes room for one entry. *)
Lemma evict_wf order l :
  wf l -> visits order -> Z.of_nat (size (data l)) >= maxIPs l ->
  wf (evictOldestLocked (order l) l) /\
  maxIPs (evictOldestLocked (order l) l) = maxIPs l /\
  heap (evictOldestLocked (order l) l) = heap l /\
  Z.of_nat (size (data (evictOldestLocked (order l) l))) < maxIPs l /\
  data (evictOldestLocked (order l) l) ⊆ data l.
Proof.
  intros Hl Ho Hfull. pose proof (wf_max _ Hl).
  destruct (oldest_spec (order l)) as (ip & e & Hip & Hin & _).
  { intros E. specialize (Ho l). rewrite E in Ho. apply Permutation_nil_l in Ho.
    rewrite <- length_map_to_list, <- Ho in Hfull. cbn in Hfull. lia. }
  assert (data l !! ip = Some e) as He by (rewrite (Ho l) in Hin; by apply elem_of_map_to_list).
  unfold evictOldestLocked. rewrite Hip.
  rewrite bool_decide_true by (intros ->; rewrite (wf_named _ Hl) in He; done).
  cbn. assert (data l !! ip <> None) as Hs by (by rewrite He).
  split_and!; [apply wf_subset; [done|apply delete_subseteq]|done|done| |apply delete_subseteq].
  rewrite map_size_delete_Some by eauto. pose proof (wf_size _ Hl). lia.
Qed.

Lemma insert_wf l ip now p h :
  wf l -> ip <> "" -> Z.of_nat (size (data l)) < maxIPs l -> data l !! ip = None ->
  p = length (heap l) ->
  wf (mkIPLimiter (r l) (b l) (maxIPs l) (ttl l) (nextSweep l) (<[ip := mkEntry p now]> (data l))
        (lastEvictedIP l) (heap l ++ [h])).
Proof.
  intros [W1 W2 Wn W3 W4] Hip Hs Hn ->. constructor; cbn; [done| | | |].
  - rewrite map_size_insert_None by done. lia.
  - by rewrite lookup_insert_ne.
  - intros i e. rewrite lookup_insert, length_app. cbn. case_decide; [intros; simplify_eq/=; lia|].
    intros ?%W3. lia.
  - intros i i' e e'. rewrite !lookup_insert. repeat case_decide; intros; simplify_eq/=; try done.
    + match goal with H : data l !! _ = Some _ |- _ => apply W3 in H end. lia.
    + match goal with H : data l !! _ = Some _ |- _ => apply W3 in H end. lia.
    + by eapply W4.
Qed.

Lemma touch_wf l ip now e :
  wf l -> ip <> "" -> data l !! ip = Some e -> wf (set_data l (<[ip := mkEntry (lim e) now]> (data l))).
Proof.
  intros [W1 W2 Wn W3 W4] Hip He. constructor; cbn; [done| | | |].
  - by rewrite map_size_insert_Some by eauto.
  - by rewrite lookup_insert_ne.
  - intros i e'. rewrite lookup_insert. case_decide; [intros; simplify_eq/=; eauto|eauto].
  - intros i i' e1 e2. rewrite !lookup_insert. repeat case_decide; intros; simplify_eq/=; eauto.
Qed.

Lemma allow_locked_wf now order ip l :
  wf l -> visits order -> ip <> "" ->
  wf (allow_locked now order ip l).2 /\
  data (allow_locked now order ip l).2 !! ip = Some (mkEntry (allow_locked now order ip l).1 now).
Proof.
  intros Hl Ho Hip. unfold allow_locked.
  set (l1 := if After now (nextSweep l) then sweepLocked now l else l).
  assert (wf l1) as Hl1 by (subst l1; case_match; [by apply sweep_wf|done]).
  destruct (data l1 !! ip) as [e|] eqn:He; cbn.
  { split; [by apply touch_wf|by rewrite lookup_insert_eq]. }
  set (l2 := if Z.of_nat (size (data l1)) >=? maxIPs l1 then evictOldestLocked (order l1) l1 else l1).
  assert (wf l2 /\ Z.of_nat (size (data l2)) < maxIPs l2 /\ data l2 !! ip = None) as (Hl2 & Hs & Hn).
  { subst l2. destruct (_ >=? _) eqn:E; zify_bools; [|split_and!; [done|lia|done]].
    destruct (evict_wf order l1 Hl1 Ho) as (? & E2 & _ & ? & Hsub); [lia|].
    rewrite E2. split_and!; [done|done|]. by eapply lookup_weaken_None. }
  split; [by apply insert_wf|by rewrite lookup_insert_eq].
Qed.

Lemma lim_step_wf now p l : wf l -> wf (lim_step now p l).2.
Proof.
  intros [W1 W2 Wn W3 W4]. unfold lim_step. destruct (heap l !! p) as [x|]; [|done].
  destruct (lim_Allow now x) as [ok x']. constructor; cbn; rewrite ?length_insert; eauto.
Qed.

(** Steps of the limiter: a call enters its locked part, or a call that has
    left it asks its limiter. *)
Inductive call :=
| CLocked (now : gotime) (order : ipRateLimiter -> list (string * ipLimiterEntry)) (ip : string)
| CLim (now : gotime) (p : nat).

Definition exec_call (l : ipRateLimiter) (c : call) : ipRateLimiter :=
  match c with
  | CLocked now order ip => (allow_locked now order ip l).2
  | CLim now p => (lim_step now p l).2
  end.

Definition call_ok (c : call) : Prop :=
  match c with CLocked _ order ip => visits order /\ ip <> "" | CLim _ _ => True end.

(** C26: The limiter's memory is bounded and addresses never share a limiter.
    However many calls from however many (non-empty) addresses interleave, in
    whatever order the runtime visits the map, the map has at most
    [max(100, maxIPs)] entries, and different addresses have different
    limiters. *)
Theorem ip_limiter_bounded now r b mx ttl calls :
  Forall call_ok calls ->
  let l := foldl exec_call (newIPRateLimiter now r b mx ttl) calls in
  Z.of_nat (size (data l)) <= Z.max 100 mx /\
  forall ip ip' e e', data l !! ip = Some e -> data l !! ip' = Some e' -> lim e = lim e' -> ip = ip'.
Proof.
  intros Hc. cbn zeta.
  assert (forall l, wf l -> maxIPs l = Z.max 100 mx ->
    wf (foldl exec_call l calls) /\ maxIPs (foldl exec_call l calls) = Z.max 100 mx) as Hrun.
  { induction Hc as [|c calls Hc1 _ IH]; intros l Hl Hm; cbn [foldl]; [done|]. apply IH.
    - destruct c as [t order ip|t p]; cbn; [by apply allow_locked_wf; destruct Hc1|by apply lim_step_wf].
    - rewrite <- Hm. destruct c as [t order ip|t p]; cbn.
      + unfold allow_locked, sweepLocked, evictOldestLocked. by repeat case_match.
      + unfold lim_step. by repeat case_match. }
  destruct (Hrun (newIPRateLimiter now r b mx ttl)) as [Hwf Hmax].
  - constructor; cbn; try (intros *; rewrite ?lookup_empty; done); rewrite gomax_max;
      rewrite ?map_size_empty; lia.
  - cbn. apply gomax_max.
  - pose proof (wf_size _ Hwf). split; [lia|]. apply (wf_inj _ Hwf).
Qed.

(** Sweeping and evicting only drop idle addresses.  A sweep at [now]
    removes exactly the entries last seen before [now - ttl]; an eviction
    removes one entry, and none of the entries that stay is older. *)
Theorem ip_limiter_drops_oldest l now order :
  (0 < ttl l <= int_max ->
    forall ip, data (sweepLocked now l) !! ip =
      (data l !! ip) ≫= fun e => if lastSeen e <? now - ttl l then None else Some e) /\
  (visits order -> data l !! "" = None -> data l <> ∅ ->
    exists ip e, data l !! ip = Some e /\ data (evictOldestLocked (order l) l) = delete ip (data l) /\
      forall ip' e', data (evictOldestLocked (order l) l) !! ip' = Some e' -> lastSeen e <= lastSeen e').
Proof.
  split.
  - intros Ht ip. unfold sweepLocked. destruct (ttl l <=? 0) eqn:E; zify_bools; [lia|]. cbn.
    unfold Add, Before. rewrite wrap64_id by (unfold in_int64, int_min, int_max in *; lia).
    rewrite map_lookup_filter. destruct (data l !! ip) as [e|]; [|done]. cbn.
    replace (now + - ttl l) with (now - ttl l) by lia.
    case_guard as Hg; cbn; destruct (lastSeen e <? now - ttl l); done.
  - intros Ho Hn Hne. destruct (oldest_spec (order l)) as (ip & e & Hip & Hin & Hmin).
    { intros E. apply Hne. apply map_to_list_empty_iff. specialize (Ho l). rewrite E in Ho.
      by apply Permutation_nil_l in Ho. }
    assert (data l !! ip = Some e) as He by (rewrite (Ho l) in Hin; by apply elem_of_map_to_list).
    exists ip, e. unfold evictOldestLocked. rewrite Hip.
    rewrite bool_decide_true by congruence. cbn. split_and!; [done|done|].
    intros ip' e' [_ He']%lookup_delete_Some. apply (Hmin ip'). rewrite (Ho l).
    by apply elem_of_map_to_list.
Qed.

(** An empty address disables the bound.  The eviction uses the empty string
    to mean that no entry was found; if the empty address is itself the entry
    last seen longest ago, nothing is evicted, and a call from a new address
    grows a map that is already full. *)
Theorem ip_limiter_empty_address l now order ip e0 :
  visits order -> data l !! "" = Some e0 ->
  (forall ip' e', data l !! ip' = Some e' -> ip' <> "" -> lastSeen e0 < lastSeen e') ->
  Z.of_nat (size (data l)) >= maxIPs l -> After now (nextSweep l) = false -> data l !! ip = None ->
  size (data (allow_locked now order ip l).2) = S (size (data l)) /\
  data (allow_locked now order ip l).2 !! "" = Some e0.
Proof.
  intros Ho He0 Hold Hfull Hsw Hip. unfold allow_locked. rewrite Hsw, Hip.
  destruct (_ >=? _) eqn:E; zify_bools; [|lia].
  destruct (oldest_spec (order l)) as (i & e & Hi & Hin & Hmin).
  { intros E'. specialize (Ho l). rewrite E' in Ho. apply Permutation_nil_l in Ho.
    symmetry in Ho. apply map_to_list_empty_iff in Ho. rewrite Ho, lookup_empty in He0. done. }
  assert (i = "") as ->.
  { destruct (decide (i = "")) as [|Hne]; [done|].
    rewrite (Ho l) in Hin. apply elem_of_map_to_list in Hin. specialize (Hold _ _ Hin Hne).
    specialize (Hmin "" e0). rewrite (Ho l), elem_of_map_to_list in Hmin. specialize (Hmin He0). lia. }
  unfold evictOldestLocked. rewrite Hi, bool_decide_false by auto. cbn.
  rewrite map_size_insert_None, lookup_insert_ne by (done || congruence). done.
Qed.
End IPLimiter.

(** *** Concrete runs *)

(** A limiter that only counts down its burst. *)
Definition countdown : RateLimiter := {|
  limiter := Z;
  NewLimiter _ b := b;
  lim_Allow _ x := if x >? 0 then (true, x - 1) else (false, x)
|}.

Definition by_key `{RL : RateLimiter} (l : ipRateLimiter) : list (string * ipLimiterEntry) := map_to_list (data l).

Lemma ip_limiter_bounded_witness :
  let l := foldl exec_call (newIPRateLimiter (RL := countdown) 0 5 10 0 Hour)
    (map (fun i => CLocked (Z.of_nat i) by_key ("10.0.0." +:+ pretty i)) (seq 0 120)) in
  Z.of_nat (size (data l)) <= Z.max 100 0 /\ size (data l) = 100%nat.
Proof.
  split; [|vm_compute; reflexivity].
  apply (ip_limiter_bounded (RL := countdown) 0 5 10 0 Hour (map (fun i => CLocked (Z.of_nat i) by_key ("10.0.0." +:+ pretty i)) (seq 0 120))).
  apply Forall_fmap, Forall_forall. intros i _. split; [by intros l|discriminate].
Defined.

(** A full map whose oldest entry is the empty address. *)
Definition full_with_empty : ipRateLimiter (RL := countdown) :=
  mkIPLimiter (RL := countdown) 5 10 100 Hour Hour
    (list_to_map (("", mkEntry 0 0) ::
       map (fun i => ("10.0.0." +:+ pretty i, mkEntry i (Z.of_nat i))) (seq 1 99))) "" (replicate 100 10).

Lemma ip_limiter_empty_address_witness :
  size (data (allow_locked (RL := countdown) 200 by_key "10.9.9.9" full_with_empty).2) = 101%nat.
Proof.
  transitivity (S (size (data full_with_empty))); [|vm_compute; reflexivity].
  apply (ip_limiter_empty_address (RL := countdown) full_with_empty 200 by_key "10.9.9.9" (mkEntry 0 0));
    [by intros l|vm_compute; reflexivity| |vm_compute; discriminate|vm_compute; reflexivity|vm_compute; reflexivity].
  intros ip e He Hne.
  assert (map_Forall (fun ip e => ip = "" \/ 0 < lastSeen e) (data full_with_empty)) as HF.
  { apply (bool_decide_unpack _). vm_compute. exact I. }
  destruct (HF ip e He) as [?|?]; [done|]. done.
Defined.
End IPLimiter.

(** ** The per-subject rate limiter *)
Module SubjectLimiter.
Section SubjectLimiter.
Context {RL : RateLimiter}.

Record subjectRateLimiter := mkSubjectLimiter {
  defaultR : Z;
  defaultB : Z;
  overrides : gmap string Z;
  limiters : gmap string nat;
  (** the [rate.Limiter] objects allocated so far *)
  lims : list limiter
}.

Definition newSubjectRateLimiter (r b : Z) (ov : gmap string Z) : subjectRateLimiter :=
  mkSubjectLimiter r (gomax 1 b) ov ∅ [].

(** The rate and burst of a subject. *)
Definition rates (l : subjectRateLimiter) (subject : string) : Z * Z :=
  match overrides l !! subject with
  | Some ov => if ov >? 0 then (ov, gomax 1 (wrap64 (ov * 2))) else (defaultR l, defaultB l)
  | None => (defaultR l, defaultB l)
  end.

(** The locked part of [Allow]. *)
Definition subject_locked (subject : string) (l : subjectRateLimiter) : nat * subjectRateLimiter :=
  match limiters l !! subject with
  | Some p => (p, l)
  | None =>
      let '(r, b) := rates l subject in
      let p := length (lims l) in
      (p, mkSubjectLimiter (defaultR l) (defaultB l) (overrides l) (<[subject := p]> (limiters l))
            (lims l ++ [NewLimiter r b]))
  end.

(** [lim.Allow()], after the lock is released. *)
Definition subject_lim (now : gotime) (p : nat) (l : subjectRateLimiter) : bool * subjectRateLimiter :=
  match lims l !! p with
  | Some x =>
      let '(ok, x') := lim_Allow now x in
      (ok, mkSubjectLimiter (defaultR l) (defaultB l) (overrides l) (limiters l) (<[p := x']> (lims l)))
  | None => (false, l)
  end.

(** A whole call with no other in between. *)
Definition Allow (now : gotime) (subject : string) (l : subjectRateLimiter) : bool * subjectRateLimiter :=
  let '(p, l1) := subject_locked subject l in subject_lim now p l1.

(** *** Specification: every subject has a limiter of its own *)

Definition spec_state : Type := string -> option limiter.

(** The configured rate and burst of a subject: its positive override and twice
    that (1 if doubling overflows), or the default rate and burst. *)
Definition spec_rate (r b : Z) (ov : gmap string Z) (subject : string) : Z * Z :=
  let n := default 0 (ov !! subject) in
  if 0 <? n then (n, if n <? 2 ^ 62 then 2 * n else 1) else (r, Z.max 1 b).

(** The limiter of a subject, created on first use. *)
Definition spec_Allow (r b : Z) (ov : gmap string Z) (now : gotime) (subject : string) (st : spec_state)
    : bool * spec_state :=
  let x := match st subject with
           | Some x => x
           | None => NewLimiter (spec_rate r b ov subject).1 (spec_rate r b ov subject).2
           end in
  let '(ok, x') := lim_Allow now x in
  (ok, fun s => if bool_decide (s = subject) then Some x' else st s).

Definition abs (l : subjectRateLimiter) : spec_state := fun s => limiters l !! s ≫= fun p => lims l !! p.

(** The code's settings are those. *)
Definition settings (r b : Z) (ov : gmap string Z) (l : subjectRateLimiter) : Prop :=
  overrides l = ov /\ defaultR l = r /\ defaultB l = gomax 1 b.

Lemma rates_spec r b ov l subject :
  map_Forall (fun _ n => in_int64 n) ov -> settings r b ov l -> rates l subject = spec_rate r b ov subject.
Proof.
  intros Hov (E1 & E2 & E3). unfold rates, spec_rate. rewrite E1, E2, E3, gomax_max.
  destruct (ov !! subject) as [n|] eqn:En; cbn; [|done].
  pose proof (Hov _ _ En) as Hn. unfold in_int64, int_min, int_max in Hn.
  destruct (Z.gtb_spec n 0), (Z.ltb_spec 0 n); try lia; [|done]. f_equal. rewrite gomax_max.
  destruct (Z.ltb_spec n (2 ^ 62)); [rewrite wrap64_id; [lia|unfold in_int64, int_min, int_max; lia]|].
  unfold wrap64. replace (n * 2 + 2 ^ 63) with (n * 2 - 2 ^ 63 + 1 * 2 ^ 64) by lia.
  rewrite Z.mod_add, Z.mod_small by lia. lia.
Qed.

Record swf (l : subjectRateLimiter) : Prop := mkSwf {
  swf_ptr s p : limiters l !! s = Some p -> (p < length (lims l))%nat;
  swf_inj s s' p : limiters l !! s = Some p -> limiters l !! s' = Some p -> s = s'
}.

Lemma subject_locked_spec subject l :
  swf l ->
  let '(p, l1) := subject_locked subject l in
  swf l1 /\ limiters l1 !! subject = Some p /\ overrides l1 = overrides l /\
  defaultR l1 = defaultR l /\ defaultB l1 = defaultB l /\
  (forall s, s <> subject -> abs l1 s = abs l s) /\
  lims l1 !! p = Some (default (let '(r, b) := rates l subject in NewLimiter r b) (abs l subject)).
Proof.
  intros [W1 W2]. unfold subject_locked. destruct (limiters l !! subject) as [p|] eqn:Ep.
  - split_and!; try done. destruct (lookup_lt_is_Some_2 (lims l) p (W1 _ _ Ep)) as [x Hx].
    unfold abs. rewrite Ep. cbn. by rewrite Hx.
  - destruct (rates l subject) as [r b]. split_and!; cbn; try done.
    + constructor; cbn.
      * intros s p. rewrite lookup_insert, length_app. cbn. case_decide; [intros; simplify_eq; lia|].
        intros ?%W1. lia.
      * intros s s' p. rewrite !lookup_insert. repeat case_decide; intros; simplify_eq; try done.
        -- match goal with H : limiters l !! _ = Some _ |- _ => apply W1 in H; lia end.
        -- match goal with H : limiters l !! _ = Some _ |- _ => apply W1 in H; lia end.
        -- by eapply W2.
    + by rewrite lookup_insert_eq.
    + intros s Hs. unfold abs. cbn. rewrite lookup_insert_ne by done.
      destruct (limiters l !! s) as [p|] eqn:E; [|done]. cbn.
      by rewrite lookup_app_l by (by eapply W1).
    + unfold abs. rewrite Ep. cbn. rewrite lookup_app_r, Nat.sub_diag by lia. done.
Qed.

Lemma allow_refines r b ov now subject l :
  map_Forall (fun _ n => in_int64 n) ov -> settings r b ov l -> swf l ->
  let '(ok, l') := Allow now subject l in
  let '(ok', st') := spec_Allow r b ov now subject (abs l) in
  ok = ok' /\ (forall s, abs l' s = st' s) /\ swf l' /\ settings r b ov l'.
Proof.
  intros Hov Hset Hl. unfold Allow. pose proof (subject_locked_spec subject l Hl) as Hs.
  destruct (subject_locked subject l) as [p l1]. destruct Hs as (Hl1 & Hp & E1 & E2 & E3 & Hother & Hx).
  rewrite (rates_spec r b ov l subject Hov Hset) in Hx.
  unfold subject_lim. rewrite Hx. unfold spec_Allow.
  replace (default _ (abs l subject)) with
    (match abs l subject with Some x => x
     | None => NewLimiter (spec_rate r b ov subject).1 (spec_rate r b ov subject).2 end)
    by (destruct (abs l subject); [done|by destruct (spec_rate r b ov subject)]).
  destruct (lim_Allow now _) as [ok x']. cbn.
  split_and!; [done| | |].
  - intros s. unfold abs. cbn. case_bool_decide as Es.
    + subst s. rewrite Hp. cbn. rewrite list_lookup_insert_eq; [done|]. by eapply lookup_lt_Some.
    + specialize (Hother s Es). unfold abs in Hother. rewrite <- Hother.
      destruct (limiters l1 !! s) as [q|] eqn:Eq; cbn; [|done].
      apply list_lookup_insert_ne. intros ->. apply Es. by eapply (swf_inj _ Hl1).
  - destruct Hl1 as [W1 W2]. constructor; cbn; rewrite ?length_insert; eauto.
  - destruct Hset as (F1 & F2 & F3). split_and!; cbn; congruence.
Qed.

Definition run_allows (calls : list (gotime * string)) (l : subjectRateLimiter) : list bool * subjectRateLimiter :=
  foldl (fun '(oks, l) '(now, s) => let '(ok, l') := Allow now s l in (oks ++ [ok], l')) ([], l) calls.

Definition spec_allows (r b : Z) (ov : gmap string Z) (calls : list (gotime * string)) (st : spec_state)
    : list bool * spec_state :=
  foldl (fun '(oks, st) '(now, s) => let '(ok, st') := spec_Allow r b ov now s st in (oks ++ [ok], st')) ([], st) calls.

Lemma spec_Allow_ext r b ov now s st st' :
  (forall x, st x = st' x) ->
  (spec_Allow r b ov now s st).1 = (spec_Allow r b ov now s st').1 /\
  forall x, (spec_Allow r b ov now s st).2 x = (spec_Allow r b ov now s st').2 x.
Proof.
  intros Hst. unfold spec_Allow. rewrite Hst.
  destruct (lim_Allow now _) as [ok x']. cbn. split; [done|]. intros x. by destruct (bool_decide _).
Qed.

(** C28: Subjects are limited independently, each at its configured rate.  For
    every sequence of calls the shared limiter answers exactly as if each
    subject had a limiter of its own, created on its first call with its
    override as the rate and twice that as the burst (1 if doubling overflows
    an [int]) when it has a positive override, and with the default rate and a
    burst of at least 1 otherwise.  The overrides are values of type [int]. *)
Theorem subject_limiter_refines_spec r b ov calls :
  map_Forall (fun _ n => in_int64 n) ov ->
  (run_allows calls (newSubjectRateLimiter r b ov)).1 = (spec_allows r b ov calls (fun _ => None)).1.
Proof.
  intros Hov. unfold run_allows, spec_allows.
  assert (forall calls oks l st, swf l -> settings r b ov l -> (forall s, abs l s = st s) ->
    (foldl (fun '(oks, l) '(now, s) => let '(ok, l') := Allow now s l in (oks ++ [ok], l')) (oks, l) calls).1 =
    (foldl (fun '(oks, st) '(now, s) => let '(ok, st') := spec_Allow r b ov now s st in (oks ++ [ok], st')) (oks, st) calls).1)
    as Hrun; [|by apply Hrun].
  clear calls. induction calls as [|[now s] calls IH]; intros oks l st Hl Hset Habs; cbn [foldl]; [done|].
  pose proof (allow_refines r b ov now s l Hov Hset Hl) as Ha.
  destruct (spec_Allow_ext r b ov now s (abs l) st Habs) as [F1 F2].
  destruct (Allow now s l) as [ok l']. destruct (spec_Allow r b ov now s (abs l)) as [ok1 st1].
  destruct (spec_Allow r b ov now s st) as [ok2 st2]. cbn in F1, F2.
  destruct Ha as (-> & Hst & Hl' & Hset'). subst ok2.
  apply IH; [done|done|]. intros x. by rewrite Hst, F2.
Qed.
End SubjectLimiter.

(** Orders have an override of 1 per second with a burst of 2, everything else
    the default burst of 4. *)
Lemma subject_limiter_refines_spec_witness :
  (run_allows (RL := IPLimiter.countdown) (map (fun s => (0, s)) ["orders"; "users"; "orders"; "orders"; "users"])
     (newSubjectRateLimiter (RL := IPLimiter.countdown) 50 4 {["orders" := 1]})).1 =
  [true; true; true; false; true].
Proof.
  rewrite (subject_limiter_refines_spec (RL := IPLimiter.countdown) 50 4 {["orders" := 1]}).
  - vm_compute. reflexivity.
  - apply map_Forall_singleton. vm_compute. split; discriminate.
Defined.
End SubjectLimiter.
End Limits.
