(* ===== verification/App.v ===== *)
(** * The application core (internal/core/app.go)

    [App] is split into what [New] fixes ([AppConf]) and the shared state the
    request handlers and background loops mutate ([AppState]).  A handler is a
    [prog] over [appE]: the statements of the store, the bus, the clock, the
    leader flags, waits, and [AAtomic], one critical section of a mutex, an
    atomic variable or a channel, with the clock reading it makes.  Tracing
    spans, log lines and histograms are not modelled. *)

From S2P Require Import Prelude Prog Contracts GoStrings Config Breaker Limits.
From Stdlib Require Import Ascii.

Module App.
Import GoStrings Config Limits.

(** ** State *)

(** A channel used as a counting guard. *)
Record chan := mkChan { ch_cap : Z; ch_len : Z }.

Section App.
Context {RL : RateLimiter} {E : Type -> Type}.

(** A registered module; the flags are the answers of the type assertions. *)
Record Module_ := mkModule {
  m_Name : string;
  m_bus : bool;
  m_coord : bool;
  m_store : option (EventStore E)
}.

Record AppConf := mkConf {
  cfg : Config;
  modules : list Module_;
  (** [a.bus != nil], [a.coord != nil] *)
  bus : bool;
  coord : bool;
  store : option (EventStore E);
  eventTypes : gset string
}.

Record AppState := mkState {
  limiter_ : IPLimiter.ipRateLimiter (RL := RL);
  guard : chan;
  pubGuard : chan;
  queryGuard : chan;
  started : bool;
  busBreaker : Breaker.circuitBreaker;
  storeBreaker : Breaker.circuitBreaker;
  moduleBreakers : gmap string Breaker.circuitBreaker;
  subjectLimiter : SubjectLimiter.subjectRateLimiter (RL := RL);
  authGuard : AuthGuard.authFailureGuard;
  outboxPaused : bool;
  pubRetries : Z;
  pubFailures : Z;
  (** [a.reqs] by path, method and status *)
  reqs : gmap (string * string * string) Z
}.

(** Components of the state, with their setters. *)
Inductive part := PBus | PStore | PModule (name : string).

Definition get_breaker (p : part) (s : AppState) : option Breaker.circuitBreaker :=
  match p with
  | PBus => Some (busBreaker s)
  | PStore => Some (storeBreaker s)
  | PModule n => moduleBreakers s !! n
  end.

Definition set_breaker (p : part) (b : Breaker.circuitBreaker) (s : AppState) : AppState :=
  let '(mkState li g pg qg st bb sb mb sl ag op pr pf rq) := s in
  match p with
  | PBus => mkState li g pg qg st b sb mb sl ag op pr pf rq
  | PStore => mkState li g pg qg st bb b mb sl ag op pr pf rq
  | PModule n => mkState li g pg qg st bb sb (<[n := b]> mb) sl ag op pr pf rq
  end.

Inductive lane := LGuard | LPub | LQuery.

Definition get_lane (l : lane) (s : AppState) : chan :=
  match l with LGuard => guard s | LPub => pubGuard s | LQuery => queryGuard s end.

Definition set_lane (l : lane) (c : chan) (s : AppState) : AppState :=
  let '(mkState li g pg qg st bb sb mb sl ag op pr pf rq) := s in
  match l with
  | LGuard => mkState li c pg qg st bb sb mb sl ag op pr pf rq
  | LPub => mkState li g c qg st bb sb mb sl ag op pr pf rq
  | LQuery => mkState li g pg c st bb sb mb sl ag op pr pf rq
  end.

Definition set_limiter (l : IPLimiter.ipRateLimiter) (s : AppState) : AppState :=
  let '(mkState li g pg qg st bb sb mb sl ag op pr pf rq) := s in
  mkState l g pg qg st bb sb mb sl ag op pr pf rq.
Definition set_started (b : bool) (s : AppState) : AppState :=
  let '(mkState li g pg qg st bb sb mb sl ag op pr pf rq) := s in
  mkState li g pg qg b bb sb mb sl ag op pr pf rq.
Definition set_subject (l : SubjectLimiter.subjectRateLimiter) (s : AppState) : AppState :=
  let '(mkState li g pg qg st bb sb mb sl ag op pr pf rq) := s in
  mkState li g pg qg st bb sb mb l ag op pr pf rq.
Definition set_auth (a : AuthGuard.authFailureGuard) (s : AppState) : AppState :=
  let '(mkState li g pg qg st bb sb mb sl ag op pr pf rq) := s in
  mkState li g pg qg st bb sb mb sl a op pr pf rq.
Definition set_paused (b : bool) (s : AppState) : AppState :=
  let '(mkState li g pg qg st bb sb mb sl ag op pr pf rq) := s in
  mkState li g pg qg st bb sb mb sl ag b pr pf rq.
Definition inc_retries (s : AppState) : AppState :=
  let '(mkState li g pg qg st bb sb mb sl ag op pr pf rq) := s in
  mkState li g pg qg st bb sb mb sl ag op (pr + 1) pf rq.
Definition inc_failures (s : AppState) : AppState :=
  let '(mkState li g pg qg st bb sb mb sl ag op pr pf rq) := s in
  mkState li g pg qg st bb sb mb sl ag op pr (pf + 1) rq.
Definition inc_reqs (k : string * string * string) (s : AppState) : AppState :=
  let '(mkState li g pg qg st bb sb mb sl ag op pr pf rq) := s in
  mkState li g pg qg st bb sb mb sl ag op pr pf (<[k := default 0 (rq !! k) + 1]> rq).

(** ** [New] *)

(** The last module that implements the interface wins. *)
Definition last_store (ms : list Module_) : option (EventStore E) :=
  foldl (fun acc m => match m_store m with Some s => Some s | None => acc end) None ms.

Definition open_duration (c : Config) : duration := dur (gomax 1000 (CircuitOpenMs c)) Millisecond.

Definition cfg_breaker (c : Config) (name : string) : Breaker.circuitBreaker :=
  Breaker.newCircuitBreaker name (gomax 1 (CircuitFailureThreshold c)) (open_duration c)
    (gomax 1 (CircuitHalfOpenSuccesses c)).

Definition New_conf (c : Config) (ms : list Module_) : AppConf :=
  mkConf c ms (existsb m_bus ms) (existsb m_coord ms) (last_store ms)
    (list_to_set (filter (fun t => t <> "") (map TrimSpace (EventTypeRegistry c)))).

(** [now] is the clock reading of [newIPRateLimiter]. *)
Definition New_state (now : gotime) (c : Config) (ms : list Module_) : AppState :=
  mkState
    (IPLimiter.newIPRateLimiter now (gomax 1 (RateLimitRPS c)) (gomax 1 (RateLimitBurst c))
       (gomax 100 (RateLimitMaxIPs c)) (dur (gomax 60 (RateLimitIPTTLSeconds c)) Second))
    (mkChan (gomax 1 (MaxConcurrentRequests c)) 0)
    (mkChan (gomax 1 (MaxConcurrentPublishes c)) 0)
    (mkChan (gomax 1 (MaxConcurrentQueries c)) 0)
    false
    (cfg_breaker c "nats")
    (cfg_breaker c "cassandra")
    (foldl (fun mb m => <[m_Name m := cfg_breaker c (m_Name m)]> mb) ∅ ms)
    (SubjectLimiter.newSubjectRateLimiter (gomax 1 (SubjectRateLimitRPS c))
       (gomax 1 (SubjectRateLimitBurst c)) (SubjectRateLimitOverrides c))
    (AuthGuard.newAuthFailureGuard (gomax 1 (AuthFailureMaxAttempts c))
       (dur (gomax 1 (AuthFailureBlockSeconds c)) Second))
    false 0 0 ∅.

(** ** Effects *)

Inductive appE : Type -> Type :=
| AStore {X} (e : E X) : appE X
| ANow : appE gotime
| AAtomic {X} (f : gotime -> AppState -> X * AppState) : appE X
(** [a.bus.Publish(ctx, subject, data, messageID)] *)
| APublish (subject data messageID : string) : appE (result string)
(** [select] on a timer of [d] and [ctx.Done()]: [Some ctx.Err()] when the
    context ends first *)
| AWait (d : duration) : appE (option error)
| AIsLeader : appE bool
| ALeaderID : appE string
(** the [Start], [Ready] and [Stop] methods of the named module *)
| AModStart (name : string) : appE (option error)
| AModReady (name : string) : appE (option error)
| AModStop (name : string) : appE (option error)
(** the rest of the process: [go f()], and waiting for the HTTP server or the
    context to end ([Some err] unless [http.ErrServerClosed]) *)
| AGo (name : string) : appE unit
| AServe : appE (option error)
(** whether the deadline of [http.TimeoutHandler] passes before the handler ends *)
| ATimedOut : appE bool
(** [rand.Read] of 12 bytes, in hexadecimal *)
| ARandHex : appE (result string)
(** [a.bus.Subscribe]: the messages that reach the channel, in order, until
    the request's context ends *)
| ASubscribe (subject : string) : appE (result (list BusMessage))
(** the writes of a streaming response *)
| AWrite (chunk : string) : appE unit.

Abbreviation app A := (prog appE A).

Definition atomic {X} (f : gotime -> AppState -> X * AppState) : app X := perform (AAtomic f).
Definition update (f : AppState -> AppState) : app unit := atomic (fun _ s => (tt, f s)).

(** A store method inside the application. *)
Fixpoint lift {A} (p : prog E A) : app A :=
  match p with
  | Ret a => Ret a
  | Vis e k => Vis (AStore e) (fun x => lift (k x))
  end.

(** Breaker methods under their mutex; a missing breaker allows everything. *)
Definition brk_Allow (p : part) : app bool :=
  atomic (fun now s =>
    match get_breaker p s with
    | Some b => let '(ok, b') := Breaker.Allow now b in (ok, set_breaker p b' s)
    | None => (true, s)
    end).
Definition brk_Success (p : part) : app unit :=
  update (fun s => match get_breaker p s with Some b => set_breaker p (Breaker.Success b) s | None => s end).
Definition brk_Failure (p : part) : app unit :=
  atomic (fun now s => (tt, match get_breaker p s with
                            | Some b => set_breaker p (Breaker.Failure now b) s | None => s end)).

Definition acquireGuard (l : lane) : app bool :=
  atomic (fun _ s =>
    let c := get_lane l s in
    let '(ok, n) := Guard.acquireGuard (ch_cap c) (ch_len c) in
    (ok, set_lane l (mkChan (ch_cap c) n) s)).
Definition releaseGuard (l : lane) : app unit :=
  update (fun s => let c := get_lane l s in
    set_lane l (mkChan (ch_cap c) (Guard.releaseGuard (ch_len c))) s).

(** ** Publishing *)

Variable a : AppConf.

(** The breaker around a dependency call, as the [store*] and [bus*] wrappers
    write it out. *)
Definition guarded {A} (p : part) (open_msg : string) (call : app (result A)) : app (result A) :=
  let! ok := brk_Allow p in
  if negb ok then Ret (Err (newError open_msg)) else
  try! x := call catch e => (let! _ := brk_Failure p in Ret (Err e)) in
  let! _ := brk_Success p in
  Ret (Ok x).

Definition store_missing : error := newError "event store not configured".

Definition busPublish (subject payload messageID : string) : app (result string) :=
  if negb (bus a) then Ret (Err (newError "event bus not configured")) else
  guarded PBus "nats circuit open" (perform (APublish subject payload messageID)).

Definition storeAppendEventExactlyOnce (event : EventRecord) : app (result AppendResult) :=
  match store a with
  | None => Ret (Err store_missing)
  | Some st => guarded PStore "cassandra circuit open" (lift (es_AppendEventExactlyOnce st event))
  end.

(** A method that returns only an error, as a result without a value. *)
Definition as_result (r : option error) : result unit := match r with Some e => Err e | None => Ok tt end.
Definition as_error {A} (r : result A) : option error := match r with Ok _ => None | Err e => Some e end.

Definition storeMarkOutboxPublished (eventID brokerMessageID : string) : app (option error) :=
  match store a with
  | None => Ret (Some store_missing)
  | Some st =>
      let! r := guarded PStore "cassandra circuit open"
        (let! e := lift (es_MarkOutboxPublished st eventID brokerMessageID) in Ret (as_result e)) in
      Ret (as_error r)
  end.

Definition storePendingOutboxEvents (limit : Z) : app (result (list EventRecord)) :=
  match store a with
  | None => Ret (Err store_missing)
  | Some st => guarded PStore "cassandra circuit open" (lift (es_PendingOutboxEvents st limit))
  end.

Definition storeClaimInboxMessage (consumer messageID : string) : app (result bool) :=
  match store a with
  | None => Ret (Err store_missing)
  | Some st => guarded PStore "cassandra circuit open" (lift (es_ClaimInboxMessage st consumer messageID))
  end.

Definition storeRecentEvents (stream : string) (limit : Z) : app (result (list EventRecord)) :=
  match store a with
  | None => Ret (Err store_missing)
  | Some st => guarded PStore "cassandra circuit open" (lift (es_RecentEvents st stream limit))
  end.

(** The settings of [publishWithRetry]. *)
Definition publish_attempts : Z := if PublishRetryMax (cfg a) <=? 0 then 1 else PublishRetryMax (cfg a).
Definition publish_backoff : duration :=
  let d := dur (PublishRetryBackoffMs (cfg a)) Millisecond in if d <=? 0 then 150 * Millisecond else d.
Definition publish_max_backoff : duration :=
  let d := dur (PublishRetryMaxBackoffMs (cfg a)) Millisecond in if d <=? 0 then 3 * Second else d.

(** The loop of [publishWithRetry] with [n + 1] attempts left. *)
Fixpoint publish_loop (n : nat) (wait : duration) (subject payload messageID : string) : app (result string) :=
  let! r := busPublish subject payload messageID in
  match r with
  | Ok id => Ret (Ok id)
  | Err lastErr =>
      match n with
      | O => let! _ := update inc_failures in Ret (Err lastErr)
      | S n' =>
          let! _ := update inc_retries in
          let! done := perform (AWait wait) in
          match done with
          | Some ctxErr => Ret (Err ctxErr)
          | None =>
              let wait := wrap64 (wait * 2) in
              let wait := if wait >? publish_max_backoff then publish_max_backoff else wait in
              publish_loop n' wait subject payload messageID
          end
      end
  end.

Definition publishWithRetry (subject payload messageID : string) : app (result string) :=
  publish_loop (Z.to_nat (publish_attempts - 1)) publish_backoff subject payload messageID.

(** ** The outbox relay *)

Definition advanced : option (AdvancedEventStore E) :=
  match store a with Some st => es_advanced st | None => None end.

Definition claimOutboxLease (eventID : string) : app bool :=
  match advanced with
  | None => Ret true
  | Some adv =>
      let! r := lift (es_ClaimOutboxLease adv eventID (NodeID (cfg a))
                        (dur (gomax 1000 (OutboxLeaseMs (cfg a))) Millisecond)) in
      Ret (match r with Ok okLease => okLease | Err _ => false end)
  end.

Definition recordOutboxFailure (eventID : string) (publishErr : error) : app (bool * Z) :=
  match advanced with
  | None => Ret (false, 0)
  | Some adv =>
      let! (quarantined, retries, err) :=
        lift (es_RecordOutboxFailure adv eventID (err_msg publishErr)
          (dur (gomax 50 (OutboxBackoffBaseMs (cfg a))) Millisecond)
          (dur (gomax 200 (OutboxBackoffMaxMs (cfg a))) Millisecond)
          (gomax 0 (OutboxBackoffJitterPct (cfg a)))
          (gomax 1 (OutboxQuarantineAfter (cfg a)))) in
      match err with
      | Some _ => Ret (false, retries)
      | None => Ret (quarantined, retries)
      end
  end.

(** One pending event. *)
Definition relay_event (evt : EventRecord) : app unit :=
  let! ok := claimOutboxLease (ID evt) in
  if negb ok then Ret tt else
  let! r := publishWithRetry (Subject evt) (Payload evt) (ID evt) in
  match r with
  | Err e => let! _ := recordOutboxFailure (ID evt) e in Ret tt
  | Ok brokerID => let! _ := storeMarkOutboxPublished (ID evt) brokerID in Ret tt
  end.

Fixpoint relay_events (pending : list EventRecord) : app unit :=
  match pending with
  | [] => Ret tt
  | evt :: rest => let! _ := relay_event evt in relay_events rest
  end.

Definition relayOutboxBatch : app (option error) :=
  match store a with
  | None => Ret None
  | Some _ =>
      if negb (bus a) then Ret None else
      let! r := storePendingOutboxEvents (gomax 1 (OutboxRelayBatchSize (cfg a))) in
      match r with
      | Err e => Ret (Some e)
      | Ok pending => let! _ := relay_events pending in Ret None
      end
  end.

(** One tick of [runOutboxRelay]; the loop runs it until the context ends. *)
Definition relay_tick : app unit :=
  let! paused := atomic (fun _ s => (outboxPaused s, s)) in
  if paused : bool then Ret tt else
  let! leads := (if coord a then perform AIsLeader else Ret true) in
  if negb leads then Ret tt else
  let! _ := relayOutboxBatch in
  Ret tt.

Fixpoint runOutboxRelay (ticks : nat) : app unit :=
  match ticks with O => Ret tt | S n => let! _ := relay_tick in runOutboxRelay n end.

(** One tick of [runCleanupLoop]. *)
Definition cleanup_tick (adv : AdvancedEventStore E) : app unit :=
  let! now1 := perform ANow in
  let idemBefore := Add now1 (wrap64 (wrap64 (- gomax 1 (IdempotencyTTLHours (cfg a))) * Hour)) in
  let! now2 := perform ANow in
  let dlBefore := Add now2 (wrap64 (wrap64 (- gomax 1 (DeadLetterTTLHours (cfg a))) * Hour)) in
  let! _ := lift (es_CleanupExpired adv idemBefore dlBefore (gomax 1 (CleanupBatchSize (cfg a)))) in
  Ret tt.

Fixpoint cleanup_ticks (adv : AdvancedEventStore E) (ticks : nat) : app unit :=
  match ticks with O => Ret tt | S n => let! _ := cleanup_tick adv in cleanup_ticks adv n end.

Definition runCleanupLoop (ticks : nat) : app unit :=
  match advanced with None => Ret tt | Some adv => cleanup_ticks adv ticks end.
End App.
End App.
