(* ===== verification/Relay.v ===== *)
(** * The relay drains the outbox

    Progress of [runOutboxRelay]: when the store and the broker answer without
    errors, the node leads, the relay is not paused and the circuits are
    closed, every tick delivers a full batch, and enough ticks deliver every
    stored event.  Clocks may advance during the ticks as they like. *)

From S2P Require Import Prelude Prog Contracts Cql Session CassStore StoreInv StoreSpec.
From S2P Require Import StoreThms Config Breaker Limits App.

Module Relay.
Import CassStore StoreInv StoreSpec StoreThms Config Limits App.

(** ** One event in the store *)

Section Store.
Context {UU : UUID}.
Variable now : gotime.

(** No clock shows an instant before [now]. *)
Abbreviation later := (fun t => now <= t).
Abbreviation L := (clocked later (legal false)).

(** The relay can take the event from [now] on: it is not quarantined, its
    next attempt is due and any lease on it has expired. *)
Definition ready (w : world) (id : uuid) : Prop :=
  exists r, outbox_retry_state (w_tables w) !! id = Some r /\ r_quarantined r = false /\
    r_next_attempt_at r <= now /\ r_lease_until r < cql_ts now.

(** What delivering the event under the key [k] changes. *)
Record relayed (k : gotime * uuid) (w w' : world) : Prop := mkRelayed {
  rl_inv : inv w';
  rl_pending : outbox_by_state (w_tables w') = delete k (outbox_by_state (w_tables w));
  rl_retry id : id <> k.2 -> outbox_retry_state (w_tables w') !! id = outbox_retry_state (w_tables w) !! id;
  rl_events : events_by_id (w_tables w') = events_by_id (w_tables w)
}.

#[local] Arguments wp : simpl never.

(** Taking the lease leaves everything else as it was. *)
Definition leased (id : uuid) (w w' : world) : Prop :=
  inv w' /\ outbox_by_state (w_tables w') = outbox_by_state (w_tables w) /\
  events_by_id (w_tables w') = events_by_id (w_tables w) /\
  forall i, i <> id -> outbox_retry_state (w_tables w') !! i = outbox_retry_state (w_tables w) !! i.

Lemma claim_ready_wp m id owner d w :
  session m = true -> inv w -> ready w id ->
  wp L (ClaimOutboxLease m (uuid_String id) owner d) (fun r w' => r = Ok true /\ leased id w w') w.
Proof.
  intros Hm Hinv (r & Hr & Hq & Hn & Hl). unfold ClaimOutboxLease. rewrite Hm, ParseUUID_String. cbn [negb].
  unfold perform. cbn [pbind]. apply wp_now. intros t Ht. apply wp_cas; [apply lease_scan_fits|].
  pose proof (cas_ok true ∅ w _ (CasUpdateLease id owner (Add t d) t) Hinv) as (Hinv' & _).
  pose proof (cql_ts_mono now t Ht). unfold leased. destruct w as [[] iss]. cbn in *. rewrite Hr in *.
  destruct (Z.ltb_spec (r_lease_until r) (cql_ts t)); [|lia]. cbn.
  split_and!; try done. intros i Hi. cbn. by rewrite lookup_insert_ne.
Qed.

Lemma mark_pending_wp m occ id c broker w :
  session m = true -> inv w -> outbox_by_state (w_tables w) !! (occ, id) = Some c ->
  wp L (MarkOutboxPublished m (uuid_String id) broker) (fun r w' => r = None /\ relayed (occ, id) w w') w.
Proof.
  intros Hm Hinv Hp. pose proof (inv_pending _ Hinv _ _ _ Hp) as He.
  unfold MarkOutboxPublished. rewrite Hm, ParseUUID_String. cbn [negb].
  assert (exists o, outbox_events (w_tables w) !! id = Some o /\ o_body o = Some (c, occ)) as (o & Ho & Hb).
  { destruct (inv_status _ Hinv _ _ _ He) as [[(o & ? & ? & _) _]|[(o & ? & ? & _) _]]; eauto. }
  unfold perform. cbn [pbind]. apply wp_read. cbn [eval_query]. rewrite Ho. cbn. rewrite Hb. cbn [default snd].
  apply wp_now. intros t Ht. apply wp_batch. cbv beta delta [wp]. split; [done|].
  pose proof (published_batch_ok true ∅ w id c occ t broker Hinv He) as (Hinv' & _).
  assert (cql_ts occ = occ) as Hts by (eapply (inv_ts w); eauto).
  constructor; [done|..]; destruct w as [[] iss]; cbn; rewrite ?Hts; try done.
  intros i Hi. by rewrite lookup_delete_ne.
Qed.

(** *** The pass over the pending partition *)

Lemma load_ready_wp id w : ready w id ->
  wp L (loadRetryState id) (fun r w' => w' = w /\ exists n nx lu, r = Ok (n, nx, false, lu) /\ nx <= now /\ lu <= now) w.
Proof.
  intros (r & Hr & Hq & Hn & Hl). unfold loadRetryState, perform. cbn [pbind]. apply wp_read.
  cbn [eval_query]. rewrite Hr. cbn. rewrite Hq. pose proof (cql_ts_bounds now).
  split; [done|]. do 3 eexists. split_and!; [done|lia|lia].
Qed.

(** The records of a batch stand for its rows. *)
Definition stands_for (ev : EventRecord) (row : (gotime * uuid) * content) : Prop :=
  ID ev = uuid_String row.1.2.

Lemma pass_ready_wp limit rows out w :
  Z.of_nat (length out) < limit -> Forall (fun row => ready w row.1.2) rows ->
  wp L (pending_loop limit rows out)
    (fun r w' => w' = w /\ exists evs, r = reverse out ++ evs /\
       Forall2 stands_for evs (take (Z.to_nat limit - length out) rows)) w.
Proof.
  revert out. induction rows as [|[[occ id] c] rows IH]; intros out Hlen Hr; cbn [pending_loop].
  { cbv beta delta [wp]. split; [done|]. exists []. rewrite app_nil_r, take_nil. split; [done|constructor]. }
  apply Forall_cons in Hr as [Hid Hr].
  apply wp_bind. eapply wp_mono; [|by apply load_ready_wp].
  intros r w' [-> (n & nx & lu & -> & Hn & Hl)]. unfold perform. cbn [pbind]. apply wp_now. intros t Ht.
  replace (false || After nx t || After lu t) with false
    by (unfold After; destruct (Z.ltb_spec t nx), (Z.ltb_spec t lu); try lia; done).
  rewrite Z.geb_leb. cbn [length]. destruct (Z.leb_spec limit (Z.of_nat (S (length out)))).
  - cbv beta delta [wp]. split; [done|]. eexists [_]. rewrite reverse_cons. split; [done|].
    replace (Z.to_nat limit - length out)%nat with 1%nat by lia. cbn. rewrite take_0. by repeat constructor.
  - eapply wp_mono; [|apply IH; [cbn; lia|done]]. cbn beta. intros r w' [-> (evs & -> & HF)]. split; [done|].
    rewrite reverse_cons, <- app_assoc. eexists. split; [done|]. cbn [length] in HF.
    replace (Z.to_nat limit - length out)%nat with (S (Z.to_nat limit - S (length out))) by lia.
    by constructor.
Qed.

(** The rows of the next batch. *)
Definition batch (limit : Z) (w : world) : list ((gotime * uuid) * content) :=
  take (Z.to_nat (pending_limit limit)) (ascending (outbox_by_state (w_tables w))).

Lemma pending_ready_wp m limit w :
  session m = true -> (forall k c, outbox_by_state (w_tables w) !! k = Some c -> ready w k.2) ->
  wp L (PendingOutboxEvents m limit)
    (fun r w' => w' = w /\ exists evs, r = Ok evs /\ Forall2 stands_for evs (batch limit w)) w.
Proof.
  intros Hm Hr. unfold PendingOutboxEvents. rewrite Hm. cbn [negb]. unfold perform. cbn [pbind].
  apply wp_iter. pose proof (pending_limit_range limit). apply wp_bind.
  eapply wp_mono; [|apply pass_ready_wp; [cbn; lia|]].
  - intros r w' [-> (evs & -> & HF)]. cbv beta delta [wp]. split; [done|]. eexists. split; [done|].
    cbn [eval_scan length] in HF. rewrite Nat.sub_0_r, take_take in HF. unfold batch.
    replace (Z.to_nat (pending_limit limit) `min` Z.to_nat (pending_fetch_limit (pending_limit limit)))%nat
      with (Z.to_nat (pending_limit limit)) in HF; [done|].
    unfold pending_fetch_limit. destruct (_ <? _) eqn:E; zify_bools; lia.
  - cbn [eval_scan]. apply Forall_take, Forall_forall. intros [k c] Hin%elem_of_ascending. by eapply Hr.
Qed.
End Store.

Lemma leased_relayed {UU : UUID} (k : gotime * uuid) w w1 w2 : leased k.2 w w1 -> relayed k w1 w2 -> relayed k w w2.
Proof.
  intros (_ & Hp & He & Hr) [HI HP HR HE]. constructor; [done|congruence| |congruence].
  intros i Hi. rewrite HR by done. by apply Hr.
Qed.

(** ** The node *)

Section Node.
Context {UU : UUID} {RL : RateLimiter}.
Variable now : gotime.
Abbreviation nodeE := (appE (RL := RL) (E := storeE)).
Abbreviation nstate := (AppState (RL := RL) * world)%type.

(** The store and the broker answer, waits run to their end, the node leads. *)
Definition healthy : legality nodeE nstate := fun X e =>
  match e in appE X return nstate -> X -> nstate -> Prop with
  | AStore e => fun s x s' => s'.1 = s.1 /\ clocked (fun t => now <= t) (legal false) _ e s.2 x s'.2
  | AAtomic f => fun s x s' => exists t, now <= t /\ f t s.1 = (x, s'.1) /\ s'.2 = s.2
  | APublish _ _ _ => fun s x s' => (exists b, x = Ok b) /\ s' = s
  | AIsLeader => fun s x s' => x = true /\ s' = s
  | AWait _ => fun s x s' => x = None /\ s' = s
  | _ => fun s _ s' => s' = s
  end.

(** The circuits are closed and the relay is not paused. *)
Definition calm (s : AppState (RL := RL)) : Prop :=
  Breaker.state (busBreaker s) = Breaker.breakerClosed /\
  Breaker.state (storeBreaker s) = Breaker.breakerClosed /\ outboxPaused s = false.

#[local] Arguments wp : simpl never.

Lemma h_lift {A} (p : prog storeE A) Q s w :
  wp (clocked (fun t => now <= t) (legal false)) p Q w ->
  wp healthy (lift (RL := RL) p) (fun r st => st.1 = s /\ Q r st.2) (s, w).
Proof.
  revert w. induction p as [x|X e k IH]; intros w Hp; [done|].
  intros x [s' w'] [Hs HL]. cbn in Hs. subst s'. by apply IH, Hp.
Qed.

Lemma h_atomic {X A} (f : gotime -> AppState -> X * AppState) (k : X -> prog nodeE A) Q s w :
  (forall t, wp healthy (k (f t s).1) Q ((f t s).2, w)) -> wp healthy (Vis (AAtomic f) k) Q (s, w).
Proof.
  intros Hk x [s' w'] (t & _ & Hf & Hw). cbn in *. subst w'. specialize (Hk t). by rewrite Hf in Hk.
Qed.

(** A dependency behind a closed circuit. *)
Lemma h_guarded {A} p msg (call : prog nodeE (result A)) (Q : A -> world -> Prop) s w :
  p = PBus \/ p = PStore -> calm s ->
  wp healthy call (fun r st => exists x, r = Ok x /\ calm st.1 /\ Q x st.2) (s, w) ->
  wp healthy (guarded p msg call) (fun r st => exists x, r = Ok x /\ calm st.1 /\ Q x st.2) (s, w).
Proof.
  intros Hp Hs Hc. unfold guarded, brk_Allow, brk_Success, update, atomic, perform. cbn [pbind].
  apply h_atomic. intros t.
  assert (exists b, get_breaker p s = Some b /\ Breaker.state b = Breaker.breakerClosed /\
    set_breaker p b s = s) as (b & -> & Hb & Hset).
  { destruct Hp as [-> | ->], Hs as (Hb & Hst & _), s; cbn in *; eauto. }
  unfold Breaker.Allow. rewrite Hb. cbn [fst snd negb]. rewrite Hset.
  apply wp_bind. eapply wp_mono; [|exact Hc]. intros r [s' w'] (x & -> & Hs' & HQ). cbn [fst snd] in *.
  apply h_atomic. intros t'. cbv beta delta [wp]. cbn. exists x. split_and!; [done| |done].
  destruct Hp as [-> | ->], Hs' as (Hb' & Hst' & Hpa), s'; cbn in *; unfold calm, Breaker.Success; cbn;
    rewrite ?Hb', ?Hst'; done.
Qed.

Variable a : AppConf (E := storeE).
Variables (sha : string -> string) (m : CassStore.Module_).

Section Loop.
Hypothesis Hstore : store a = Some (cass_store sha m).
Hypothesis Hsession : session m = true.
Hypothesis Hbus : bus a = true.

Lemma h_publish sub pay mid s w : calm s ->
  wp healthy (publishWithRetry a sub pay mid) (fun r st => exists b, r = Ok b /\ calm st.1 /\ st.2 = w) (s, w).
Proof.
  intros Hs. unfold publishWithRetry. generalize (publish_backoff a) as wait. intros wait.
  assert (wp healthy (busPublish a sub pay mid) (fun r st => exists b, r = Ok b /\ calm st.1 /\ st.2 = w) (s, w)) as Hb.
  { unfold busPublish. rewrite Hbus. apply (h_guarded _ _ _ (fun _ w' => w' = w)); [by left|done|].
    intros r st [[b ->] ->]. cbv beta delta [wp]. by exists b. }
  destruct (Z.to_nat _) as [|n]; cbn [publish_loop]; apply wp_bind; (eapply wp_mono; [|exact Hb]);
    intros r st (b & -> & ? & ?); change (wp healthy (Ret (Ok b)) ?Q ?s) with (Q (Ok b) s); by exists b.
Qed.

Lemma h_claim id s w : inv w -> ready now w id ->
  wp healthy (claimOutboxLease a (uuid_String id)) (fun r st => r = true /\ st.1 = s /\ leased id w st.2) (s, w).
Proof.
  intros Hinv Hr. unfold claimOutboxLease, advanced. rewrite Hstore. cbn. apply wp_bind.
  eapply wp_mono; [|apply h_lift, claim_ready_wp; done].
  intros r st (Hs & -> & Hl). change (wp healthy (Ret ?x) ?Q ?s) with (Q x s). done.
Qed.

Lemma h_mark occ id c broker s w : calm s -> inv w -> outbox_by_state (w_tables w) !! (occ, id) = Some c ->
  wp healthy (storeMarkOutboxPublished a (uuid_String id) broker)
    (fun r st => calm st.1 /\ relayed (occ, id) w st.2) (s, w).
Proof.
  intros Hs Hinv Hp. unfold storeMarkOutboxPublished. rewrite Hstore. apply wp_bind.
  eapply wp_mono; [|apply (h_guarded _ _ _ (fun _ w' => relayed (occ, id) w w')); [by right|done|]].
  - intros r st (x & -> & ? & ?). cbv beta delta [wp]. by cbn.
  - cbn. apply wp_bind. eapply wp_mono; [|eapply h_lift, mark_pending_wp; done].
    intros r st (Hs1 & -> & Hl). change (wp healthy (Ret ?x) ?Q ?s) with (Q x s). exists tt. by rewrite Hs1.
Qed.

Lemma h_relay_event ev occ id c s w :
  calm s -> inv w -> outbox_by_state (w_tables w) !! (occ, id) = Some c -> ready now w id ->
  stands_for ev ((occ, id), c) ->
  wp healthy (relay_event a ev) (fun _ st => calm st.1 /\ relayed (occ, id) w st.2) (s, w).
Proof.
  intros Hs Hinv Hp Hr Hev. unfold stands_for in Hev. cbn in Hev. unfold relay_event. rewrite Hev.
  apply wp_bind. eapply wp_mono; [|by apply h_claim].
  intros r [s1 w1] (-> & Hs1 & Hl). cbn [fst] in Hs1. subst s1. cbn [negb]. pose proof Hl as (Hinv1 & Hp1 & _). cbn [fst snd] in *.
  apply wp_bind. eapply wp_mono; [|by apply h_publish].
  intros r [s2 w2] (b & -> & Hs2 & Hw2). cbn in Hs2, Hw2. subst w2.
  apply wp_bind. eapply wp_mono; [|eapply h_mark; [done|done|by rewrite Hp1]].
  intros r st [Hs3 Hrl]. cbv beta delta [wp]. split; [done|]. by eapply (leased_relayed (occ, id)).
Qed.

(** ** A batch, a tick, the loop *)

(** Every event of the pending partition can be taken. *)
Definition draining (w : world) : Prop :=
  inv w /\ forall k c, outbox_by_state (w_tables w) !! k = Some c -> ready now w k.2.

(** An event is pending under one time only. *)
Lemma pending_key w k1 k2 c1 c2 : inv w -> outbox_by_state (w_tables w) !! k1 = Some c1 ->
  outbox_by_state (w_tables w) !! k2 = Some c2 -> k1.2 = k2.2 -> k1 = k2.
Proof.
  destruct k1 as [occ1 id1], k2 as [occ2 id2]. cbn. intros Hinv H1 H2 ->.
  apply (inv_pending _ Hinv) in H1, H2. congruence.
Qed.

Lemma relayed_draining k c w w' :
  draining w -> outbox_by_state (w_tables w) !! k = Some c -> relayed k w w' -> draining w'.
Proof.
  intros [Hinv Hr] Hk [HI HP HR HE]. split; [done|]. intros k' c' Hk'. rewrite HP in Hk'.
  apply lookup_delete_Some in Hk' as [Hne Hk']. destruct (Hr k' c' Hk') as (r & ? & ?). exists r.
  rewrite HR; [done|]. intros Hid. apply Hne. by apply (pending_key w k k' c c').
Qed.

(** What delivering [n] pending events changes. *)
Definition drained (n : nat) (w : world) (st : nstate) : Prop :=
  calm st.1 /\ draining st.2 /\ events_by_id (w_tables st.2) = events_by_id (w_tables w) /\
  (size (outbox_by_state (w_tables st.2)) + n = size (outbox_by_state (w_tables w)))%nat.

Lemma h_relay_events evs rows s w :
  calm s -> draining w -> NoDup rows.*1 ->
  Forall (fun row => outbox_by_state (w_tables w) !! row.1 = Some row.2) rows -> Forall2 stands_for evs rows ->
  wp healthy (relay_events a evs) (fun _ st => drained (length rows) w st) (s, w).
Proof.
  intros Hs Hd Hnd Hp HF. revert s w Hs Hd Hnd Hp.
  induction HF as [|ev [[occ id] c] evs rows Hev HF IH]; intros s w Hs Hd Hnd Hp; cbn [relay_events].
  { change (drained 0 w (s, w)). split_and!; try done; lia. }
  apply Forall_cons in Hp as [Hk Hp]. apply NoDup_cons in Hnd as [Hni Hnd]. cbn in Hk.
  apply wp_bind. eapply wp_mono; [|eapply h_relay_event; [done|apply Hd|exact Hk|exact (proj2 Hd _ _ Hk)|done]].
  intros [] [s1 w1] [Hs1 Hrl]. cbn [fst snd] in *. pose proof (rl_pending _ _ _ Hrl) as HP.
  eapply wp_mono; [|apply IH; [done|by eapply relayed_draining|done|]].
  - intros r st (? & ? & HE & HS). rewrite HP, map_size_delete_Some in HS by done.
    split_and!; [done|done|rewrite HE; apply Hrl|cbn [length]].
    enough (size (outbox_by_state (w_tables w)) <> 0)%nat by lia. apply map_size_ne_0_lookup. by exists (occ, id), c.
  - apply Forall_forall. intros row Hin. rewrite HP, lookup_delete_ne.
    + by apply (proj1 (Forall_forall _ _) Hp row Hin).
    + intros Heq. apply Hni. cbn. rewrite Heq. by apply list_elem_of_fmap_2.
Qed.

(** A full batch. *)
Definition batch_size : nat := Z.to_nat (pending_limit (gomax 1 (OutboxRelayBatchSize (cfg a)))).

Lemma batch_rows limit w :
  NoDup (batch limit w).*1 /\
  Forall (fun row => outbox_by_state (w_tables w) !! row.1 = Some row.2) (batch limit w) /\
  length (batch limit w) = (Z.to_nat (pending_limit limit) `min` size (outbox_by_state (w_tables w)))%nat.
Proof.
  unfold batch. split_and!.
  - rewrite fmap_take. eapply sublist_NoDup; [|apply sublist_take]. apply NoDup_ascending.
  - apply Forall_take, Forall_forall. intros [k c] Hin. by apply elem_of_ascending in Hin.
  - by rewrite length_take, ascending_perm, length_map_to_list.
Qed.

Lemma h_batch s w : calm s -> draining w ->
  wp healthy (relayOutboxBatch a)
    (fun _ st => drained (batch_size `min` size (outbox_by_state (w_tables w))) w st) (s, w).
Proof.
  intros Hs Hd. unfold relayOutboxBatch, storePendingOutboxEvents. rewrite Hstore, Hbus. cbn [negb].
  destruct (batch_rows (gomax 1 (OutboxRelayBatchSize (cfg a))) w) as (Hnd & Hp & Hlen).
  apply wp_bind. eapply wp_mono;
    [|apply (h_guarded _ _ _ (fun evs w' => w' = w /\
        Forall2 stands_for evs (batch (gomax 1 (OutboxRelayBatchSize (cfg a))) w))); [by right|done|]].
  - intros r [s1 w1] (evs & -> & Hs1 & Hw & HF). cbn [fst snd] in *. subst w1. apply wp_bind.
    eapply wp_mono; [|by eapply h_relay_events]. rewrite Hlen. by intros [] st Hdr.
  - eapply wp_mono; [|apply h_lift, pending_ready_wp; [done|apply Hd]].
    intros r st (Hs1 & Hw & evs & -> & HF). exists evs. by rewrite Hs1.
Qed.

Lemma h_tick s w : calm s -> draining w ->
  wp healthy (relay_tick a)
    (fun _ st => drained (batch_size `min` size (outbox_by_state (w_tables w))) w st) (s, w).
Proof.
  intros Hs Hd. unfold relay_tick, atomic, perform. cbn [pbind]. apply h_atomic. intros t. cbn [fst snd].
  replace (outboxPaused s) with false by (symmetry; apply Hs). apply wp_bind.
  assert (wp healthy (if coord a then perform AIsLeader else Ret true) (fun r st => r = true /\ st = (s, w)) (s, w)).
  { destruct (coord a); [|done]. by intros x st [-> ->]. }
  eapply wp_mono; [|done]. intros r st [-> ->]. cbn [negb]. apply wp_bind.
  eapply wp_mono; [|by apply h_batch]. by intros r st Hdr.
Qed.

Lemma h_relay n s w : calm s -> draining w ->
  (size (outbox_by_state (w_tables w)) <= n * batch_size)%nat ->
  wp healthy (runOutboxRelay a n)
    (fun _ st => drained (size (outbox_by_state (w_tables w))) w st) (s, w).
Proof.
  revert s w. induction n as [|n IH]; intros s w Hs Hd Hn; cbn [runOutboxRelay].
  { change (drained (size (outbox_by_state (w_tables w))) w (s, w)). split_and!; try done; cbn; lia. }
  apply wp_bind. eapply wp_mono; [|by apply h_tick].
  intros [] [s1 w1] (Hs1 & Hd1 & HE & HS). cbn [fst snd] in *.
  eapply wp_mono; [|apply IH; [done|done|lia]].
  intros [] st (? & ? & HE2 & HS2). split_and!; [done|done|congruence|lia].
Qed.
End Loop.

(** C5: The relay drains the outbox.  A node with the Cassandra store and a bus
    runs [runOutboxRelay] in an environment where statements and publishes
    succeed, the node leads and clocks show any instants from [now] on; its
    circuits are closed, the relay is not paused and every pending event can be
    taken.  After as many ticks as full batches cover the pending partition,
    that partition is empty and every stored event is delivered. *)
Theorem relay_drains {D} (view : D -> nstate) (h : handler nodeE D) n d :
  session_ok healthy view h ->
  store a = Some (cass_store sha m) -> session m = true -> bus a = true ->
  calm (view d).1 -> draining (view d).2 ->
  (size (outbox_by_state (w_tables (view d).2)) <= n * batch_size)%nat ->
  let w' := (view (run h (runOutboxRelay a n) d).2).2 in
  outbox_by_state (w_tables w') = ∅ /\
  forall id c occ, events_by_id (w_tables (view d).2) !! id = Some (c, occ) -> delivered (w_tables w') id c occ.
Proof.
  intros Hok Hst Hse Hb Hs Hd Hn. destruct (view d) as [s w] eqn:Hv. cbn [fst snd] in *.
  pose proof (h_relay Hst Hse Hb n s w Hs Hd Hn) as Hw. rewrite <- Hv in Hw.
  destruct (session_wp _ _ _ _ _ d Hok Hw) as (_ & [Hinv _] & HE & HS).
  assert (outbox_by_state (w_tables (view (run h (runOutboxRelay a n) d).2).2) = ∅) as H0
    by (apply map_size_empty_inv; lia).
  split; [done|]. intros id c occ He. rewrite <- HE in He.
  destruct (inv_status _ Hinv _ _ _ He) as [(_ & Hp & _)|]; [|done]. by rewrite H0 in Hp.
Qed.
End Node.

(** ** A concrete node

    The default configuration, the in-memory database of one appended event
    and a broker that accepts everything. *)

Abbreviation rnode := (AppState (RL := IPLimiter.countdown) * mem)%type.
Definition relay_view (d : rnode) : AppState * world := (d.1, mem_view d.2).

Definition relay_handler : handler (appE (RL := IPLimiter.countdown) (E := storeE)) rnode := fun X e d =>
  match e in appE X return X * rnode with
  | AStore e => let '(x, m) := frozen_handler Second _ e d.2 in (x, (d.1, m))
  | AAtomic f => let '(x, s) := f Second d.1 in (x, (s, d.2))
  | ANow => (Second, d)
  | APublish _ _ _ => (Ok "SHIRO_EVENTS:1", d)
  | AIsLeader => (true, d)
  | ALeaderID => ("node-1", d)
  | AWait _ | AModStart _ | AModReady _ | AModStop _ | AServe => (None, d)
  | AGo _ | AWrite _ => (tt, d)
  | ATimedOut => (false, d)
  | ARandHex => (Ok "00", d)
  | ASubscribe _ => (Ok [], d)
  end.

Lemma relay_handler_ok : session_ok (healthy Second) relay_view relay_handler.
Proof.
  intros X e d. destruct e as [Y e| |Y f|sub dat mid|w| | |k|k|k|k| | | |sub|c]; cbn; eauto.
  - pose proof (frozen_session_ok Second Y e d.2) as [HL HC]. destruct (frozen_handler Second Y e d.2) as [x m'].
    cbn in *. split; [done|]. split; [done|]. destruct e; try done. cbn in *. lia.
  - exists Second. destruct (f Second d.1) as [x s]. by cbn.
Qed.

Definition relay_conf : AppConf (E := storeE) :=
  New_conf (FromEnv (fun _ => "") None)
    [App.mkModule "natsbus" true false None;
     App.mkModule "cassstore" false false (Some (cass_store (fun s => s) demo_module))].

Definition relay_d0 : rnode := (New_state 0 (FromEnv (fun _ => "") None) (modules relay_conf), appended).

Lemma appended_draining : draining Second (mem_view appended).
Proof.
  split; [apply appended_inv|]. intros k c Hk. apply elem_of_map_to_list in Hk.
  vm_compute in Hk. apply list_elem_of_singleton in Hk. injection Hk as -> ->.
  eexists. split; [vm_compute; reflexivity|]. by vm_compute.
Qed.

(** One tick delivers the appended event. *)
Lemma relay_drains_witness :
  delivered (w_tables (mem_view (run relay_handler (runOutboxRelay relay_conf 1) relay_d0).2.2)) (0%nat : uuid)
    (mkContent "orders" "events.orders" "order.created" "{}") 5000000.
Proof.
  apply (relay_drains (UU := nat_uuid) Second relay_conf (fun s => s) demo_module relay_view relay_handler 1 relay_d0);
    [apply relay_handler_ok|done..|apply appended_draining|vm_compute; lia|vm_compute; reflexivity].
Defined.
End Relay.
