(* ===== verification/Handlers.v ===== *)
(** * HTTP handlers and middleware (internal/core/app.go)

    A handler takes the response writer and the request and returns the
    response it writes.  A response lists the [Header().Set] calls in order,
    the status and the body.  The panic modelled is that of [WithLabelValues] in
    [instrument]; from there outwards the middleware hands on what was served
    or the panic ([served]). *)

From S2P Require Import Prelude Prog Contracts GoStrings Config Breaker Limits App.
From Stdlib Require Import Ascii.

Module Handlers.
Import GoStrings Config Limits App.

(** ** Requests and responses *)

Record request := mkRequest {
  r_Method : string;
  r_Path : string;
  r_RemoteAddr : string;
  (** [r.Header.Get] *)
  r_Header : string -> string;
  (** [r.URL.Query().Get] *)
  r_Query : string -> string;
  r_Body : string
}.

(** The response writers a handler can get: net/http's own, the one of
    [http.TimeoutHandler], and [statusRecorder], which embeds the interface
    [http.ResponseWriter]. *)
Inductive ResponseWriter :=
| ServerWriter
| TimeoutWriter
| StatusRecorder (w : ResponseWriter).

(** [w.(http.Flusher)]: the server's writer implements it; the timeout writer
    does not; a struct that embeds [http.ResponseWriter] has that interface's
    three methods only. *)
Definition is_Flusher (w : ResponseWriter) : bool :=
  match w with ServerWriter => true | TimeoutWriter | StatusRecorder _ => false end.

(** The status of one module in the health report, without its latency. *)
Record moduleStatus := mkStatus { ms_Name : string; ms_Ready : bool; ms_Error : string }.

Inductive json :=
| JString (s : string)
| JBool (b : bool)
| JInt (n : Z)
| JTime (t : gotime)
| JEvents (l : list EventRecord)
| JStatuses (l : list moduleStatus).

Inductive body :=
| Text (s : string)
| JSON (fields : list (string * json))
| NoBody
(** the chunks have been written by [AWrite] *)
| Streamed
(** the text of an [http.Error] after a body that had been written *)
| Appended (b : body) (s : string).

Record response := mkResponse { headers : list (string * string); status : Z; rbody : body }.

Definition StatusOK : Z := 200.
Definition StatusCreated : Z := 201.
Definition StatusAccepted : Z := 202.
Definition StatusNoContent : Z := 204.
Definition StatusBadRequest : Z := 400.
Definition StatusUnauthorized : Z := 401.
Definition StatusForbidden : Z := 403.
Definition StatusNotFound : Z := 404.
Definition StatusMethodNotAllowed : Z := 405.
Definition StatusTooManyRequests : Z := 429.
Definition StatusInternalServerError : Z := 500.
Definition StatusNotImplemented : Z := 501.
Definition StatusServiceUnavailable : Z := 503.

(** [http.Error(w, msg, code)]. *)
Definition http_Error (msg : string) (code : Z) : response := mkResponse [] code (Text msg).

Definition writeJSON (code : Z) (fields : list (string * json)) : response :=
  mkResponse [("Content-Type", "application/json")] code (JSON fields).

(** Header calls made before the inner handler ran. *)
Definition with_headers (hs : list (string * string)) (r : response) : response :=
  mkResponse (hs ++ headers r) (status r) (rbody r).

(** What the middleware hands outwards: a response, or a panic, with the header
    calls made so far and the response the writer had sent before it. *)
Inductive served :=
| Done (resp : response)
| Panicked (hs : list (string * string)) (sent : option response).

Definition served_headers (hs : list (string * string)) (v : served) : served :=
  match v with
  | Done resp => Done (with_headers hs resp)
  | Panicked hs' sent => Panicked (hs ++ hs') sent
  end.

(** The header a client sees: the last [Set] of the key. *)
Definition header_value (r : response) (key : string) : option string :=
  (fun kv => kv.2) <$> last (filter (fun kv => kv.1 = key) (headers r)).

(** ** Pure helpers *)

Definition bearerToken (h : string) : string :=
  if bool_decide (h = "") then "" else
  if negb (HasPrefix (ToLower h) "bearer ") then "" else TrimSpace (slice_from 7 h).

Definition contains (list_ : list string) (value : string) : bool :=
  existsb (fun v => bool_decide (TrimSpace v = value)) list_.

Definition isAllowedOrigin (origin : string) (allowed : list string) : bool :=
  existsb (fun o => let o := TrimSpace o in
    bool_decide (o <> "") && (bool_decide (o = "*") || bool_decide (o = origin))) allowed.

Definition isKnownEventType (eventTypes : gset string) (eventType : string) : bool :=
  if bool_decide (eventType = "") then false else
  if bool_decide (size eventTypes = 0%nat) then true else bool_decide (eventType ∈ eventTypes).

Record publishRequest := mkPublish {
  p_Stream : string;
  p_Subject : string;
  p_Type : string;
  p_SchemaVersion : Z;
  p_IdempotencyKey : string;
  p_Payload : string
}.

Section Handlers.
Context {RL : RateLimiter} {E : Type -> Type}.
Variable a : AppConf (E := E).

(** Package encoding/json: decoding the body of a publish request, cut off at
    the configured size ([None] is any error), and unmarshalling a payload:
    an error, a value that is not an object, or an object with its keys. *)
Inductive json_value := Invalid | NotObject | Object (keys : gset string).
Variable Decode : Z -> string -> option publishRequest.
Variable Unmarshal : string -> json_value.
(** [strconv.Quote], the verb [%q]. *)
Variable Quote : string -> string.
(** [netip.ParseAddrPort(s)], the address as text. *)
Variable ParseAddrPort : string -> option string.
(** The order in which the runtime visits the limiter's map. *)
Variable visit : IPLimiter.ipRateLimiter (RL := RL) -> list (string * IPLimiter.ipLimiterEntry).
(** [encoding/json]'s text of a streamed message. *)
Variable Marshal : BusMessage -> string.

Abbreviation app A := (prog (appE (RL := RL) (E := E)) A).
Definition Handler : Type := ResponseWriter -> request -> app response.

Definition clientIP (remoteAddr : string) : string :=
  match ParseAddrPort remoteAddr with
  | Some addr => addr
  | None => match Split remoteAddr ":" with p :: _ => p | [] => remoteAddr end
  end.

(** ** Validation of publish requests *)

Inductive validation_error :=
| UnknownType (t : string)
| InvalidJSON
| PayloadNotObject
| VersionOutOfRange (v : Z) (r : VersionRange) (t : string)
| MissingField (f t : string).

Fixpoint missing_field (fields : list string) (keys : gset string) : option string :=
  match fields with
  | [] => None
  | f :: rest => if bool_decide (f ∈ keys) then missing_field rest keys else Some f
  end.

Definition validatePublishRequest (req : publishRequest) : option validation_error :=
  if RejectUnknownEventTypes (cfg a) && negb (isKnownEventType (eventTypes a) (p_Type req))
  then Some (UnknownType (p_Type req)) else
  match Unmarshal (p_Payload req) with
  | Invalid => Some InvalidJSON
  | NotObject => Some PayloadNotObject
  | Object keys =>
      let version_err :=
        match SchemaVersionRules (cfg a) !! p_Type req with
        | Some rule =>
            if (p_SchemaVersion req <? Min rule) || (p_SchemaVersion req >? Max rule)
            then Some (VersionOutOfRange (p_SchemaVersion req) rule (p_Type req)) else None
        | None => None
        end in
      match version_err with
      | Some e => Some e
      | None =>
          match SchemaRequiredFields (cfg a) !! p_Type req with
          | Some fields => (fun f => MissingField f (p_Type req)) <$> missing_field fields keys
          | None => None
          end
      end
  end.

(** [err.Error()]. *)
Definition validation_text (e : validation_error) : string :=
  match e with
  | UnknownType t => "unknown event type " +:+ Quote t
  | InvalidJSON => "payload must be valid JSON"
  | PayloadNotObject => "payload must be a JSON object"
  | VersionOutOfRange v r t =>
      "schema_version " +:+ Itoa v +:+ " out of allowed range " +:+ Itoa (Min r) +:+ "-" +:+
      Itoa (Max r) +:+ " for type " +:+ t
  | MissingField f t => "missing required payload field " +:+ Quote f +:+ " for type " +:+ t
  end.

(** The defaults [handlePublishEvent] fills in. *)
Definition with_defaults (r : request) (req : publishRequest) : publishRequest :=
  let stream := if bool_decide (p_Stream req = "") then "default" else p_Stream req in
  let subject := if bool_decide (p_Subject req = "") then "events." +:+ stream else p_Subject req in
  let type := if bool_decide (p_Type req = "") then "event" else p_Type req in
  let version := if p_SchemaVersion req <=? 0 then 1 else p_SchemaVersion req in
  let key := if bool_decide (p_IdempotencyKey req = "") then r_Header r "Idempotency-Key" else p_IdempotencyKey req in
  let payload := if bool_decide (p_Payload req = "") then "{}" else p_Payload req in
  mkPublish stream subject type version key payload.

(** ** Limiters as effects *)

(** [a.subjectLimiter.Allow(subject)]: the locked part, then the limiter. *)
Definition subject_Allow (subject : string) : app bool :=
  let! p := atomic (fun _ s =>
    let '(p, l) := SubjectLimiter.subject_locked subject (subjectLimiter s) in (p, set_subject l s)) in
  atomic (fun now s =>
    let '(ok, l) := SubjectLimiter.subject_lim now p (subjectLimiter s) in (ok, set_subject l s)).

(** [a.limiter.Allow(ip)]: the clock is read before the lock is taken. *)
Definition limiter_Allow (ip : string) : app bool :=
  let! now := perform ANow in
  let! p := atomic (fun _ s =>
    let '(p, l) := IPLimiter.allow_locked now visit ip (limiter_ s) in (p, set_limiter l s)) in
  atomic (fun now s =>
    let '(ok, l) := IPLimiter.lim_step now p (limiter_ s) in (ok, set_limiter l s)).

Definition auth_IsBlocked (ip : string) : app bool :=
  atomic (fun now s => let '(b, g) := AuthGuard.IsBlocked now ip (authGuard s) in (b, set_auth g s)).
Definition auth_Failure (ip : string) : app unit :=
  atomic (fun now s => (tt, set_auth (AuthGuard.Failure now ip (authGuard s)) s)).
Definition auth_Success (ip : string) : app unit :=
  update (fun s => set_auth (AuthGuard.Success ip (authGuard s)) s).

(** ** The publish handler *)

(** The part of [handlePublishEvent] after the event has been stored. *)
Definition publish_stored (result : AppendResult) : app response :=
  let created :=
    writeJSON (if Duplicate result then StatusOK else StatusCreated)
      [("id", JString (ID (Event result))); ("stream", JString (Stream (Event result)));
       ("subject", JString (Subject (Event result))); ("type", JString (EType (Event result)));
       ("occurredAt", JTime (OccurredAt (Event result)));
       ("idempotencyKey", JString (IdempotencyKey (Event result))); ("duplicate", JBool (Duplicate result))] in
  if Published result then Ret created else
  let! r := publishWithRetry a (Subject (Event result)) (Payload (Event result)) (ID (Event result)) in
  match r with
  | Err e =>
      let! (quarantined, retries) := recordOutboxFailure a (ID (Event result)) e in
      Ret (writeJSON StatusAccepted
        [("id", JString (ID (Event result))); ("queued", JBool true); ("quarantined", JBool quarantined);
         ("retryCount", JInt retries); ("error", JString (err_msg e))])
  | Ok brokerID =>
      let! err := storeMarkOutboxPublished a (ID (Event result)) brokerID in
      match err with
      | Some e => Ret (http_Error ("outbox update error: " +:+ err_msg e) StatusInternalServerError)
      | None => Ret created
      end
  end.

(** From decoding the body on. *)
Definition publish_body (r : request) : app response :=
  match Decode (MaxRequestBodyBytes (cfg a)) (r_Body r) with
  | None => Ret (http_Error "invalid json body" StatusBadRequest)
  | Some req =>
      let req := with_defaults r req in
      match validatePublishRequest req with
      | Some e => Ret (http_Error ("validation error: " +:+ validation_text e) StatusBadRequest)
      | None =>
          let! ok := subject_Allow (p_Subject req) in
          if negb ok then Ret (http_Error "subject rate limit exceeded" StatusTooManyRequests) else
          let! now := perform ANow in
          let event := mkEventRecord "" (p_IdempotencyKey req) (p_Stream req) (p_Subject req)
                         (p_Type req) (p_Payload req) now 0 "" zero_time in
          let! res := storeAppendEventExactlyOnce a event in
          match res with
          | Err e => Ret (http_Error ("store error: " +:+ err_msg e) StatusInternalServerError)
          | Ok result => publish_stored result
          end
      end
  end.

(** The body of [handlePublishEvent] between acquiring and releasing the lane. *)
Definition publish_event (r : request) : app response :=
  if negb (bus a) || match store a with None => true | Some _ => false end
  then Ret (http_Error "event bus/store not configured" StatusInternalServerError) else
  let! follower := (if RequireLeaderForWrites (cfg a) && coord a
                    then (let! l := perform AIsLeader in Ret (negb l)) else Ret false) in
  if follower : bool then
    let! leader := perform ALeaderID in
    Ret (http_Error ("write rejected on follower; leader=" +:+ leader) StatusServiceUnavailable) else
  publish_body r.

Definition handlePublishEvent : Handler := fun w r =>
  let! ok := acquireGuard LPub in
  if negb ok then Ret (http_Error "publish lane busy" StatusServiceUnavailable) else
  let! resp := publish_event r in
  let! _ := releaseGuard LPub in
  Ret resp.

(** The limit a query asks for, 50 when absent or malformed. *)
Definition query_limit (r : request) : Z :=
  let raw := r_Query r "limit" in
  if bool_decide (raw = "") then 50 else match Atoi raw with Some n => n | None => 50 end.

Definition list_events (r : request) : app response :=
  match store a with
  | None => Ret (http_Error "event store not configured" StatusInternalServerError)
  | Some _ =>
      let stream := if bool_decide (r_Query r "stream" = "") then "default" else r_Query r "stream" in
      let! res := storeRecentEvents a stream (query_limit r) in
      match res with
      | Err e => Ret (http_Error ("query error: " +:+ err_msg e) StatusInternalServerError)
      | Ok events =>
          Ret (writeJSON StatusOK [("stream", JString stream); ("count", JInt (Z.of_nat (length events)));
                                   ("events", JEvents events)])
      end
  end.

Definition handleListEvents : Handler := fun w r =>
  let! ok := acquireGuard LQuery in
  if negb ok then Ret (http_Error "query lane busy" StatusServiceUnavailable) else
  let! resp := list_events r in
  let! _ := releaseGuard LQuery in
  Ret resp.

Definition handleEvents : Handler := fun w r =>
  if bool_decide (r_Method r = "POST") then handlePublishEvent w r
  else if bool_decide (r_Method r = "GET") then handleListEvents w r
  else Ret (http_Error "method not allowed" StatusMethodNotAllowed).

(** ** The other handlers *)

Definition handleDeadLetters : Handler := fun w r =>
  if bool_decide (r_Method r <> "GET") then Ret (http_Error "method not allowed" StatusMethodNotAllowed) else
  match advanced a with
  | None => Ret (http_Error "advanced dead-letter store unavailable" StatusNotImplemented)
  | Some adv =>
      let! res := lift (es_ListDeadLetters adv (query_limit r)) in
      match res with
      | Err e => Ret (http_Error ("dead-letter query error: " +:+ err_msg e) StatusInternalServerError)
      | Ok events => Ret (writeJSON StatusOK [("count", JInt (Z.of_nat (length events))); ("deadLetter", JEvents events)])
      end
  end.

Definition handleReplayDeadLetter : Handler := fun w r =>
  if bool_decide (r_Method r <> "POST") then Ret (http_Error "method not allowed" StatusMethodNotAllowed) else
  match advanced a with
  | None => Ret (http_Error "advanced dead-letter store unavailable" StatusNotImplemented)
  | Some adv =>
      let eventID := TrimSpace (r_Query r "id") in
      if bool_decide (eventID = "") then Ret (http_Error "missing dead-letter id" StatusBadRequest) else
      let! err := lift (es_ReplayDeadLetter adv eventID) in
      match err with
      | Some e => Ret (http_Error ("replay error: " +:+ err_msg e) StatusInternalServerError)
      | None => Ret (writeJSON StatusOK [("id", JString eventID); ("replayed", JBool true)])
      end
  end.

Definition load_paused : app bool := atomic (fun _ s => (outboxPaused s, s)).

Definition handleOutboxRelayAdmin : Handler := fun w r =>
  if bool_decide (r_Method r = "GET") then
    let! p := load_paused in Ret (writeJSON StatusOK [("paused", JBool p)])
  else if bool_decide (r_Method r = "POST") then
    let action := TrimSpace (ToLower (r_Query r "action")) in
    let reply := (let! p := load_paused in
                  Ret (writeJSON StatusOK [("paused", JBool p); ("action", JString action)])) in
    if bool_decide (action = "pause") then let! _ := update (set_paused true) in reply
    else if bool_decide (action = "resume") then let! _ := update (set_paused false) in reply
    else Ret (http_Error "invalid action, expected pause|resume" StatusBadRequest)
  else Ret (http_Error "method not allowed" StatusMethodNotAllowed).

Definition handleLeader : Handler := fun w r =>
  if coord a then
    let! l := perform AIsLeader in
    let! id := perform ALeaderID in
    Ret (writeJSON StatusOK [("node_id", JString (NodeID (cfg a))); ("is_leader", JBool l); ("leader_id", JString id)])
  else
    Ret (writeJSON StatusOK [("node_id", JString (NodeID (cfg a))); ("is_leader", JBool false); ("leader_id", JString "")]).

Definition handleLive : Handler := fun w r =>
  let! now := perform ANow in
  Ret (writeJSON StatusOK [("status", JString "alive"); ("node_id", JString (NodeID (cfg a))); ("time", JTime now)]).

Definition handleStartup : Handler := fun w r =>
  let! st := atomic (fun _ s => (started s, s)) in
  let! now := perform ANow in
  if negb st then
    Ret (writeJSON StatusServiceUnavailable
      [("status", JString "starting"); ("node_id", JString (NodeID (cfg a))); ("time", JTime now)])
  else
    Ret (writeJSON StatusOK
      [("status", JString "started"); ("node_id", JString (NodeID (cfg a))); ("time", JTime now)]).

(** One module's report; the latencies are not modelled. *)
Definition check_module (m : Module_ (E := E)) : app moduleStatus :=
  let! ok := brk_Allow (PModule (m_Name m)) in
  if negb ok then Ret (mkStatus (m_Name m) false "circuit open") else
  let! err := perform (AModReady (m_Name m)) in
  match err with
  | Some e => let! _ := brk_Failure (PModule (m_Name m)) in Ret (mkStatus (m_Name m) false (err_msg e))
  | None => let! _ := brk_Success (PModule (m_Name m)) in Ret (mkStatus (m_Name m) true "")
  end.

Fixpoint check_modules (ms : list (Module_ (E := E))) : app (list moduleStatus) :=
  match ms with
  | [] => Ret []
  | m :: rest => let! s := check_module m in let! ss := check_modules rest in Ret (s :: ss)
  end.

Definition handleHealth : Handler := fun w r =>
  let! statuses := check_modules (modules a) in
  let overallReady := forallb ms_Ready statuses in
  let! now := perform ANow in
  Ret (writeJSON (if overallReady then StatusOK else StatusServiceUnavailable)
    [("status", JString (if overallReady then "ok" else "degraded")); ("node_id", JString (NodeID (cfg a)));
     ("time", JTime now); ("modules", JStatuses statuses)]).

(** ** Streaming *)

(** The messages the channel delivers, one by one. *)
Fixpoint stream_loop (consumer : string) (msgs : list BusMessage) : app unit :=
  match msgs with
  | [] => Ret tt
  | msg :: rest =>
      let! deliver :=
        (match store a with
         | Some _ =>
             if bool_decide (bm_MessageID msg <> "") then
               let! r := storeClaimInboxMessage a consumer (bm_MessageID msg) in
               Ret (match r with Ok ok => ok | Err _ => false end)
             else Ret true
         | None => Ret true
         end) in
      if negb deliver then stream_loop consumer rest else
      let! _ := perform (AWrite ("event: message" +:+ String (byte 10) "")) in
      let! _ := perform (AWrite ("data: " +:+ Marshal msg +:+ String (byte 10) (String (byte 10) ""))) in
      stream_loop consumer rest
  end.

Definition handleStream : Handler := fun w r =>
  if negb (bus a) then Ret (http_Error "event bus not configured" StatusInternalServerError) else
  let subject := if bool_decide (r_Query r "subject" = "") then "events.>" else r_Query r "subject" in
  let consumer := if bool_decide (r_Query r "consumer" = "") then "sse:" +:+ NodeID (cfg a) else r_Query r "consumer" in
  if negb (is_Flusher w) then Ret (http_Error "streaming unsupported" StatusInternalServerError) else
  let hs := [("Content-Type", "text/event-stream"); ("Cache-Control", "no-cache"); ("Connection", "keep-alive")] in
  let! sub := perform (ASubscribe subject) in
  match sub with
  | Err e => Ret (with_headers hs (http_Error ("subscribe error: " +:+ err_msg e) StatusInternalServerError))
  | Ok msgs => let! _ := stream_loop consumer msgs in Ret (mkResponse hs StatusOK Streamed)
  end.

(** ** Authorization *)

(** The tokens a scope admits, besides the global token. *)
Definition scope_allows (scope token : string) : bool :=
  let c := cfg a in
  if bool_decide (scope = "admin") then contains (APIAdminTokens c) token
  else if bool_decide (scope = "read") then contains (APIReadTokens c) token || contains (APIAdminTokens c) token
  else if bool_decide (scope = "rw") then
    contains (APIPublishTokens c) token || contains (APIReadTokens c) token || contains (APIAdminTokens c) token
  else false.

(** No token is configured at all. *)
Definition no_tokens : bool :=
  let c := cfg a in
  bool_decide (APIBearerToken c = "") && bool_decide (APIAdminTokens c = []) &&
  bool_decide (APIPublishTokens c = []) && bool_decide (APIReadTokens c = []).

Definition deny (ip msg : string) (code : Z) : app response :=
  let! _ := auth_Failure ip in Ret (http_Error msg code).

Definition secure (scope : string) (next : Handler) : Handler :=
  if DisableAPITokenAuth (cfg a) then next else fun w r =>
  let ip := clientIP (r_RemoteAddr r) in
  let! blocked := auth_IsBlocked ip in
  if blocked : bool then Ret (http_Error "temporarily blocked due to auth failures" StatusTooManyRequests) else
  let token := bearerToken (r_Header r "Authorization") in
  if bool_decide (token = "") && no_tokens then next w r else
  if bool_decide (token = "") then deny ip "missing bearer token" StatusUnauthorized else
  let! expired :=
    (match APITokenExpirations (cfg a) !! token with
     | Some exp => let! now := perform ANow in Ret (now / Second >? exp)
     | None => Ret false
     end) in
  if expired : bool then deny ip "token expired" StatusUnauthorized else
  if bool_decide (APIBearerToken (cfg a) <> "") && bool_decide (token = APIBearerToken (cfg a)) then
    let! _ := auth_Success ip in next w r
  else if negb (scope_allows scope token) then deny ip "forbidden" StatusForbidden
  else let! _ := auth_Success ip in next w r.

(** ** Middleware *)

Definition Chain : Type := ResponseWriter -> request -> app served.

(** Whether the Prometheus client takes a label value; [WithLabelValues] panics
    on a value it does not take, such as text that is not valid UTF-8. *)
Variable label_ok : string -> bool.

Definition instrument (next : Handler) : Chain := fun w r =>
  let! resp := next (StatusRecorder w) r in
  if label_ok (r_Path r) && label_ok (r_Method r) && label_ok (Itoa (status resp)) then
    let! _ := update (inc_reqs (r_Path r, r_Method r, Itoa (status resp))) in
    Ret (Done resp)
  else Ret (Panicked [] (Some resp)).

Definition withRateLimit (next : Chain) : Chain := fun w r =>
  let! ok := limiter_Allow (clientIP (r_RemoteAddr r)) in
  if negb ok then Ret (Done (http_Error "rate limit exceeded" StatusTooManyRequests)) else next w r.

(** The handler runs to its end in any case; the answer is the timeout's when
    its deadline comes first.  [http.TimeoutHandler] buffers what the handler
    writes; a panic drops the buffer and goes on in the caller.  A timed-out
    request is answered here when its handler has ended; net/http sends the
    same answer at the deadline, while the handler's goroutine runs on and
    holds its lane. *)
Definition withRequestTimeout (next : Chain) : Chain := fun w r =>
  if bool_decide (r_Path r = "/stream") then next w r else
  let! v := next TimeoutWriter r in
  let! late := perform ATimedOut in
  Ret (if late : bool then Done (mkResponse [] StatusServiceUnavailable (Text "request timeout"))
       else match v with Done resp => Done resp | Panicked _ _ => Panicked [] None end).

Definition newRequestID : app string :=
  let! r := perform ARandHex in
  match r with
  | Ok hex => Ret hex
  | Err _ => let! now := perform ANow in Ret (Itoa now)
  end.

Definition withRequestID (next : Chain) : Chain := fun w r =>
  let rid := TrimSpace (r_Header r "X-Request-Id") in
  let! rid := (if bool_decide (rid = "") then newRequestID else Ret rid) in
  let! v := next w r in
  Ret (served_headers [("X-Request-Id", rid)] v).

Definition security_headers : list (string * string) :=
  let c := cfg a in
  if SecurityHeadersEnabled c then
    [("X-Content-Type-Options", "nosniff"); ("X-Frame-Options", "DENY"); ("Referrer-Policy", "no-referrer");
     ("Cache-Control", "no-store")] ++
    (if HSTSEnabled c then [("Strict-Transport-Security", "max-age=31536000; includeSubDomains")] else []) ++
    (if bool_decide (TrimSpace (CSPHeader c) <> "") then [("Content-Security-Policy", CSPHeader c)] else [])
  else [].

Definition withSecurityHeaders (next : Chain) : Chain := fun w r =>
  let! v := next w r in Ret (served_headers security_headers v).

Definition cors_headers (r : request) : list (string * string) :=
  let c := cfg a in
  let origin := TrimSpace (r_Header r "Origin") in
  if bool_decide (origin <> "") && isAllowedOrigin origin (CORSAllowedOrigins c) then
    [("Access-Control-Allow-Origin", origin); ("Vary", "Origin"); ("Access-Control-Allow-Credentials", "true");
     ("Access-Control-Allow-Methods", Join (CORSAllowedMethods c) ", ");
     ("Access-Control-Allow-Headers", Join (CORSAllowedHeaders c) ", ")]
  else [].

Definition withCORS (next : Chain) : Chain := fun w r =>
  if negb (CORSEnabled (cfg a)) then next w r else
  if bool_decide (r_Method r = "OPTIONS") then Ret (Done (mkResponse (cors_headers r) StatusNoContent NoBody)) else
  let! v := next w r in Ret (served_headers (cors_headers r) v).

(** The release is deferred: it happens on a panic too. *)
Definition withConcurrencyLimit (next : Chain) : Chain := fun w r =>
  let! ok := acquireGuard LGuard in
  if negb ok then Ret (Done (http_Error "server busy" StatusServiceUnavailable)) else
  let! v := next w r in
  let! _ := releaseGuard LGuard in
  Ret v.

(** [http.Error] after a response has been sent changes neither its status nor
    its headers and appends its text. *)
Definition withRecovery (next : Chain) : Handler := fun w r =>
  let! v := next w r in
  Ret (match v with
       | Done resp => resp
       | Panicked hs None => with_headers hs (http_Error "internal server error" StatusInternalServerError)
       | Panicked hs (Some sent) =>
           with_headers hs (mkResponse (headers sent) (status sent) (Appended (rbody sent) "internal server error"))
       end).

(** The routes of [Run]; the Prometheus handler is a parameter.
    [http.ServeMux] redirects a path that is not clean to the clean one instead
    of reporting it as not found; neither reaches a handler. *)
Variable metrics : Handler.

Definition mux : Handler := fun w r =>
  let p := r_Path r in
  if bool_decide (p = "/metrics") then metrics w r
  else if bool_decide (p = "/healthz") then handleHealth w r
  else if bool_decide (p = "/readyz") then handleHealth w r
  else if bool_decide (p = "/livez") then handleLive w r
  else if bool_decide (p = "/startupz") then handleStartup w r
  else if bool_decide (p = "/leaderz") then secure "admin" handleLeader w r
  else if bool_decide (p = "/events") then secure "rw" handleEvents w r
  else if bool_decide (p = "/deadletters") then secure "admin" handleDeadLetters w r
  else if bool_decide (p = "/deadletters/replay") then secure "admin" handleReplayDeadLetter w r
  else if bool_decide (p = "/admin/outbox-relay") then secure "admin" handleOutboxRelayAdmin w r
  else if bool_decide (p = "/stream") then secure "read" handleStream w r
  else Ret (http_Error "404 page not found" StatusNotFound).

Definition server : Handler :=
  withRecovery (withCORS (withSecurityHeaders (withRequestID (withRequestTimeout
    (withConcurrencyLimit (withRateLimit (instrument mux))))))).

(** ** Start and stop *)

(** The loop of [startModuleWithRetry] with [n + 1] attempts left. *)
Fixpoint start_loop (n : nat) (wait : duration) (name : string) : app (option error) :=
  let! err := perform (AModStart name) in
  match err with
  | None => Ret None
  | Some lastErr =>
      match n with
      | O => Ret (Some lastErr)
      | S n' =>
          let! done := perform (AWait wait) in
          match done with
          | Some ctxErr => Ret (Some ctxErr)
          | None =>
              let wait :=
                if wait <? 10 * Second then
                  let wait := wrap64 (wait * 2) in if wait >? 10 * Second then 10 * Second else wait
                else wait in
              start_loop n' wait name
          end
      end
  end.

Definition startModuleWithRetry (m : Module_ (E := E)) : app (option error) :=
  start_loop (Z.to_nat (gomax 1 (ModuleStartRetryMax (cfg a)) - 1))
    (dur (gomax 100 (ModuleStartRetryBackoffMs (cfg a))) Millisecond) (m_Name m).

Fixpoint start_modules (ms : list (Module_ (E := E))) : app (option error) :=
  match ms with
  | [] => Ret None
  | m :: rest =>
      let! err := startModuleWithRetry m in
      match err with
      | Some e => Ret (Some (mkError (err_notfound e) ("start " +:+ m_Name m +:+ ": " +:+ err_msg e)))
      | None => start_modules rest
      end
  end.

Fixpoint stop_modules (ms : list (Module_ (E := E))) : app unit :=
  match ms with
  | [] => Ret tt
  | m :: rest => let! _ := perform (AModStop (m_Name m)) in stop_modules rest
  end.

Definition Run : app (option error) :=
  let! err := start_modules (modules a) in
  match err with
  | Some e => Ret (Some e)
  | None =>
      let! _ := update (set_started true) in
      let! _ := (match store a with
                 | Some _ => if bus a then perform (AGo "runOutboxRelay") else Ret tt
                 | None => Ret tt
                 end) in
      let! _ := (match advanced a with Some _ => perform (AGo "runCleanupLoop") | None => Ret tt end) in
      let! err := perform AServe in
      match err with
      | Some e => Ret (Some e)
      | None => let! _ := stop_modules (reverse (modules a)) in Ret None
      end
  end.
End Handlers.
End Handlers.
