(* ===== verification/Process.v ===== *)
(** * The process (cmd/controlplane/main.go, internal/telemetry/otel.go)

    [main] reads the configuration, sets up telemetry, builds the three
    connector modules and the application, and runs it.  Here the effects the
    application performs on its dependencies are linked to the methods of
    those modules: [link] carries out a publish by the code of natsbus, the
    leader flags by etcdcoord, starting and stopping by the modules'
    own [Start] and [Stop], and a store method by cassstore on the session the
    struct holds at that moment.  What remains are the effects of the process
    ([procE]): statements, calls of the client libraries and of the
    OpenTelemetry SDK, critical sections, clocks, timers and the HTTP server. *)

From S2P Require Import Prelude Prog Contracts Cql CassStore GoStrings Connector Tls Coord NatsBus CassLife.
From S2P Require Import Config Breaker Limits App Handlers.

(** ** Telemetry *)

Module Telemetry.

(** Calls of the SDK; exporters, resources and providers are numbers. *)
Inductive otelC : Type -> Type :=
| SetTextMapPropagator : otelC unit
| NewExporter (endpoint : string) : otelC (result nat)
| NewResource (serviceName : string) : otelC (result nat)
| NewTracerProvider (res exp : nat) (batchTimeout : duration) : otelC nat
| SetTracerProvider (tp : nat) : otelC unit
| Shutdown (tp : nat) : otelC (option error).

(** The function [Setup] returns. *)
Inductive shutdown := NoShutdown | ProviderShutdown (tp : nat).

Definition Setup (serviceName otlpEndpoint : string) : prog otelC (result shutdown) :=
  let! _ := perform SetTextMapPropagator in
  if bool_decide (otlpEndpoint = "") then Ret (Ok NoShutdown) else
  try! exp := perform (NewExporter otlpEndpoint) catch e => Ret (Err e) in
  try! res := perform (NewResource serviceName) catch e => Ret (Err e) in
  let! tp := perform (NewTracerProvider res exp (1 * Second)) in
  let! _ := perform (SetTracerProvider tp) in
  Ret (Ok (ProviderShutdown tp)).

Definition call_shutdown (f : shutdown) : prog otelC (option error) :=
  match f with NoShutdown => Ret None | ProviderShutdown tp => perform (Shutdown tp) end.
End Telemetry.

Module Process.
Import Connector Config Limits App Handlers.

Section Process.
Context {UU : UUID} {RL : RateLimiter} {pool cert : Type}.
Variable ReadFile : string -> result string.
Variable AppendCertsFromPEM : string -> option pool.
Variable LoadX509KeyPair : string -> string -> result cert.
Variable sha256Hex : string -> string.

(** ** The store on its current session *)

(** A store method reads the session handle once and then sends statements. *)
Inductive cassE : Type -> Type :=
| CSnapshot : cassE CassStore.Module_
| CStmt {X} (e : storeE X) : cassE X.

Definition on_session {A} (f : CassStore.Module_ -> prog storeE A) : prog cassE A :=
  let! m := perform CSnapshot in translate (fun _ => CStmt) (f m).

Definition session_store : EventStore cassE :=
  mkEventStore cassE
    (fun ev => on_session (fun m => CassStore.AppendEventExactlyOnce sha256Hex m ev))
    (fun id b => on_session (fun m => CassStore.MarkOutboxPublished m id b))
    (fun n => on_session (fun m => CassStore.PendingOutboxEvents m n))
    (fun c id => on_session (fun m => CassStore.ClaimInboxMessage m c id))
    (fun st n => on_session (fun m => CassStore.RecentEvents m st n))
    (Some (mkAdvancedEventStore cassE
      (fun id o d => on_session (fun m => CassStore.ClaimOutboxLease m id o d))
      (fun id le b mx j q => on_session (fun m => CassStore.RecordOutboxFailure m id le b mx j q))
      (fun n => on_session (fun m => CassStore.ListDeadLetters m n))
      (fun id => on_session (fun m => CassStore.ReplayDeadLetter m id))
      (fun ib db n => on_session (fun m => CassStore.CleanupExpired m ib db n)))).

(** ** Effects of the process *)

Inductive hostE : Type -> Type :=
| HNow : hostE gotime
| HAtomic {X} (f : gotime -> AppState (RL := RL) -> X * AppState (RL := RL)) : hostE X
| HWait (d : duration) : hostE (option error)
| HGo (name : string) : hostE unit
| HServe : hostE (option error)
| HTimedOut : hostE bool
| HRandHex : hostE (result string)
| HWrite (chunk : string) : hostE unit
(** what the NATS client hands to the callback of a subscription *)
| HDeliveries (subject : string) : hostE (list (NatsBus.Msg * option NatsBus.Metadata * gotime)).

Abbreviation busE := (modE NatsBus.Module_ (NatsBus.natsC (pool := pool) (cert := cert))).
Abbreviation coordE := (modE Coord.Module_ (Coord.etcdC (pool := pool) (cert := cert))).
Abbreviation connE := (modE CassLife.conn (CassLife.gocqlC (pool := pool) (cert := cert))).

Inductive procE : Type -> Type :=
| PStmt {X} (e : storeE X) : procE X
| PBus {X} (e : busE X) : procE X
| PCoord {X} (e : coordE X) : procE X
| PCass {X} (e : connE X) : procE X
| POtel {X} (e : Telemetry.otelC X) : procE X
| PHost {X} (e : hostE X) : procE X.

Definition via_bus {A} : prog busE A -> prog procE A := translate (fun _ => PBus).
Definition via_coord {A} : prog coordE A -> prog procE A := translate (fun _ => PCoord).
Definition via_cass {A} : prog connE A -> prog procE A := translate (fun _ => PCass).
Definition via_otel {A} : prog Telemetry.otelC A -> prog procE A := translate (fun _ => POtel).
Definition host {X} (e : hostE X) : prog procE X := perform (PHost e).

(** ** The modules behind the interfaces *)

Definition nats_module : Module procE :=
  mkModuleOps NatsBus.Name (via_bus (NatsBus.Start ReadFile AppendCertsFromPEM LoadX509KeyPair))
    (via_bus NatsBus.Ready) (via_bus NatsBus.Stop).
Definition etcd_module : Module procE :=
  mkModuleOps Coord.Name (via_coord (Coord.Start ReadFile AppendCertsFromPEM LoadX509KeyPair))
    (via_coord Coord.Ready) (via_coord Coord.Stop).
Definition cass_module : Module procE :=
  mkModuleOps CassStore.Name (via_cass (CassLife.Start ReadFile AppendCertsFromPEM LoadX509KeyPair))
    (via_cass CassLife.Ready) (via_cass CassLife.Stop).

Definition nats_bus : EventBus procE :=
  mkEventBus
    (fun subject data messageID => via_bus (NatsBus.Publish subject data messageID))
    (fun subject =>
       let! err := via_bus (NatsBus.Subscribe subject) in
       match err with
       | Some e => Ret (Err e)
       | None =>
           let! ms := host (HDeliveries subject) in
           Ret (Ok (map (fun '(msg, meta, now) => NatsBus.consume msg meta now) ms))
       end).

Definition etcd_coordinator : Coordinator procE :=
  mkCoordinator (via_coord Coord.IsLeader) (via_coord Coord.LeaderID).

(** ** Linking *)

Definition process_modules : list (Module procE) := [nats_module; etcd_module; cass_module].

(** The method of the module with the given name. *)
Definition of_module (method : Module procE -> prog procE (option error)) (name : string) : prog procE (option error) :=
  match List.find (fun m => String.eqb (mo_Name m) name) process_modules with
  | Some m => method m
  | None => Ret None
  end.

Definition link X (e : appE (RL := RL) (E := cassE) X) : prog procE X :=
  match e in appE X return prog procE X with
  | AStore e =>
      match e in cassE X return prog procE X with
      | CSnapshot => via_cass (read CassLife.snapshot)
      | CStmt e => perform (PStmt e)
      end
  | ANow => host HNow
  | AAtomic f => host (HAtomic f)
  | APublish subject data messageID => eb_Publish nats_bus subject data messageID
  | AWait d => host (HWait d)
  | AIsLeader => co_IsLeader etcd_coordinator
  | ALeaderID => co_LeaderID etcd_coordinator
  | AModStart name => of_module mo_Start name
  | AModReady name => of_module mo_Ready name
  | AModStop name => of_module mo_Stop name
  | AGo name => host (HGo name)
  | AServe => host HServe
  | ATimedOut => host HTimedOut
  | ARandHex => host HRandHex
  | ASubscribe subject => eb_Subscribe nats_bus subject
  | AWrite chunk => host (HWrite chunk)
  end.

(** A program of the application as the process runs it. *)
Definition linked {A} (p : prog (appE (RL := RL) (E := cassE)) A) : prog procE A := interp link p.

(** ** [main] *)

(** The arguments of [core.New], as the application sees them. *)
Definition app_modules : list (App.Module_ (E := cassE)) :=
  [App.mkModule NatsBus.Name true false None;
   App.mkModule Coord.Name false true None;
   App.mkModule CassStore.Name false false (Some session_store)].

Definition app_of (c : Config) : AppConf (E := cassE) := New_conf c app_modules.

(** [natsbus.New], [etcdcoord.New], [cassstore.New] and [core.New]. *)
Definition build (c : Config) : prog procE unit :=
  let! _ := via_bus (write (fun _ => NatsBus.New (NATSURL c) (NATSStream c) (NATSUser c) (NATSPassword c) (NATSToken c)
    (TLSCAFile c) (TLSCertFile c) (TLSKeyFile c) (TLSServerName c) (TLSInsecureSkipVerify c))) in
  let! _ := via_coord (write (fun _ => Coord.New (NodeID c) (EtcdEndpoints c) (LeaderElectionKey c) (EtcdUser c)
    (EtcdPassword c) (TLSCAFile c) (TLSCertFile c) (TLSKeyFile c) (TLSServerName c) (TLSInsecureSkipVerify c))) in
  let! _ := via_cass (write (fun _ => CassLife.mkConn (CassStore.New (CassandraHosts c) (CassandraKeyspace c)
    (CassandraUser c) (CassandraPassword c) (TLSCAFile c) (TLSCertFile c) (TLSKeyFile c) (TLSServerName c)
    (TLSInsecureSkipVerify c)) None)) in
  host (HAtomic (fun now _ => (tt, New_state now c app_modules))).

(** How the process ends; [log.Fatal] exits at once, without the deferred
    calls. *)
Inductive outcome := Returned | Fatal (e : error).

Definition main (Getenv : string -> string) (Hostname : option string) : prog procE outcome :=
  let c := FromEnv Getenv Hostname in
  match Validate c with
  | Some e => Ret (Fatal e)
  | None =>
      try! shutdownOtel := via_otel (Telemetry.Setup (OTELServiceName c) (OTELExporterOTLPEndpoint c))
        catch e => Ret (Fatal e) in
      let! _ := build c in
      let! err := linked (Run (app_of c)) in
      match err with
      | Some e => Ret (Fatal e)
      | None => let! _ := via_otel (Telemetry.call_shutdown shutdownOtel) in Ret Returned
      end
  end.
End Process.
End Process.
