(* ===== verification/Lifecycle.v ===== *)
(** * Start and end of the process

    [main] in every environment: what it opens and closes, whatever the client
    libraries, the HTTP server and the signals answer.  The state is the
    structs of the three modules with the traces of their library calls, and
    the trace of the telemetry calls.  While [main] runs, other goroutines may
    change the leadership variables of the coordinator; they only read the
    other fields. *)

From S2P Require Import Prelude Prog Contracts Cql CassStore GoStrings Connector Tls Coord NatsBus CassLife.
From S2P Require Import Config Breaker Limits App Handlers Process.

Module Lifecycle.
Import Connector Config Limits App Handlers Process.

Section Lifecycle.
Context {UU : UUID} {RL : RateLimiter} {pool cert : Type}.
Variable ReadFile : string -> result string.
Variable AppendCertsFromPEM : string -> option pool.
Variable LoadX509KeyPair : string -> string -> result cert.
Variable sha256Hex : string -> string.

Abbreviation pE := (procE (UU := UU) (RL := RL) (pool := pool) (cert := cert)).

(** ** The environment *)

(** Every telemetry call. *)
Inductive otel_event :=
| OPropagator
| OExporter (endpoint : string)
| OResource (serviceName : string)
| OProvider (res exp : nat)
| OInstall (tp : nat)
| OShutdown (tp : nat).

Definition otel_note X (c : Telemetry.otelC X) : otel_event :=
  match c with
  | Telemetry.SetTextMapPropagator => OPropagator
  | Telemetry.NewExporter ep => OExporter ep
  | Telemetry.NewResource name => OResource name
  | Telemetry.NewTracerProvider res exp _ => OProvider res exp
  | Telemetry.SetTracerProvider tp => OInstall tp
  | Telemetry.Shutdown tp => OShutdown tp
  end.

Record pstate := mkP {
  p_bus : NatsBus.Module_ * list NatsBus.trace_event;
  p_coord : Coord.Module_ * list Coord.trace_event;
  p_cass : CassLife.conn * list CassLife.trace_event;
  p_otel : list otel_event
}.

Abbreviation bus_env := (mod_env (NatsBus.note (pool := pool) (cert := cert)) (fun m m' => m' = m)).
Abbreviation coord_env := (mod_env (Coord.note (pool := pool) (cert := cert)) Coord.leadership_only).
Abbreviation cass_env := (mod_env (CassLife.note (pool := pool) (cert := cert)) (fun m m' => m' = m)).

Definition proc_env : legality pE pstate := fun X e =>
  match e in procE X return pstate -> X -> pstate -> Prop with
  | PBus e => fun s x s' => exists b, bus_env _ e (p_bus s) x b /\ s' = mkP b (p_coord s) (p_cass s) (p_otel s)
  | PCoord e => fun s x s' => exists c, coord_env _ e (p_coord s) x c /\ s' = mkP (p_bus s) c (p_cass s) (p_otel s)
  | PCass e => fun s x s' => exists c, cass_env _ e (p_cass s) x c /\ s' = mkP (p_bus s) (p_coord s) c (p_otel s)
  | POtel e => fun s _ s' => s' = mkP (p_bus s) (p_coord s) (p_cass s) (p_otel s ++ [otel_note _ e])
  | _ => fun s _ s' => s' = s
  end.

#[local] Arguments wp : simpl never.

Lemma wp_bus {A} (p : prog _ A) Q s :
  wp bus_env p Q (p_bus s) ->
  wp proc_env (via_bus p) (fun r s' => exists b, Q r b /\ s' = mkP b (p_coord s) (p_cass s) (p_otel s)) s.
Proof. apply (wp_translate _ _ _ p_bus (fun b s => mkP b (p_coord s) (p_cass s) (p_otel s))); [done..|by intros []]. Qed.

Lemma wp_coord {A} (p : prog _ A) Q s :
  wp coord_env p Q (p_coord s) ->
  wp proc_env (via_coord p) (fun r s' => exists c, Q r c /\ s' = mkP (p_bus s) c (p_cass s) (p_otel s)) s.
Proof. apply (wp_translate _ _ _ p_coord (fun c s => mkP (p_bus s) c (p_cass s) (p_otel s))); [done..|by intros []]. Qed.

Lemma wp_cass {A} (p : prog _ A) Q s :
  wp cass_env p Q (p_cass s) ->
  wp proc_env (via_cass p) (fun r s' => exists c, Q r c /\ s' = mkP (p_bus s) (p_coord s) c (p_otel s)) s.
Proof. apply (wp_translate _ _ _ p_cass (fun c s => mkP (p_bus s) (p_coord s) c (p_otel s))); [done..|by intros []]. Qed.

(** ** Nothing stays open *)

(** A connection is given up when it is drained or closed. *)
Definition bus_released (tr : list NatsBus.trace_event) : list nat :=
  omap (fun e => match e with NatsBus.TClose c | NatsBus.TDrain c => Some c | _ => None end) tr.
Definition coord_opened (tr : list Coord.trace_event) : list nat :=
  omap (fun e => match e with Coord.TOpen c => Some c | _ => None end) tr.
Definition coord_released (tr : list Coord.trace_event) : list nat :=
  omap (fun e => match e with Coord.TCloseClient c => Some c | _ => None end) tr.

(** Everything opened has been released, except what the struct holds. *)
Definition balanced (held : option nat) (opened released : list nat) : Prop :=
  opened ⊆+ option_list held ++ released.

Definition bus_ok (up : bool) (s : NatsBus.Module_ * list NatsBus.trace_event) : Prop :=
  bool_decide (is_Some (NatsBus.nc s.1)) = up /\
  balanced (NatsBus.nc s.1) (NatsBus.opens s.2) (bus_released s.2).
Definition coord_ok (up : bool) (s : Coord.Module_ * list Coord.trace_event) : Prop :=
  bool_decide (is_Some (Coord.client s.1)) = up /\
  balanced (Coord.client s.1) (coord_opened s.2) (coord_released s.2).
Definition cass_ok (up : bool) (s : CassLife.conn * list CassLife.trace_event) : Prop :=
  bool_decide (is_Some (CassLife.c_session s.1)) = up /\
  balanced (CassLife.c_session s.1) (CassLife.opens s.2) (CassLife.closes s.2).

(** What a method opens and releases in addition. *)
Lemma balanced_step held held' opened released opened' released' :
  balanced held opened released -> opened' ++ option_list held ⊆+ option_list held' ++ released' ->
  balanced held' (opened ++ opened') (released ++ released').
Proof.
  unfold balanced. intros H1 H2. trans ((option_list held ++ released) ++ opened'); [by apply submseteq_skips_r|].
  trans (released ++ (opened' ++ option_list held)).
  { apply Permutation_submseteq. rewrite (Permutation_app_comm (option_list held) released), <- app_assoc.
    f_equiv. apply Permutation_app_comm. }
  trans (released ++ (option_list held' ++ released')); [by apply submseteq_skips_l|].
  apply Permutation_submseteq. rewrite !app_assoc. f_equiv. apply Permutation_app_comm.
Qed.

Lemma closes_released tr : NatsBus.closes tr ⊆+ bus_released tr.
Proof.
  induction tr as [|e tr IH]; [done|]. destruct e; try exact IH; cbn; [by apply submseteq_skip|by apply submseteq_cons].
Qed.

Definition is_up {A} (r : option A) : bool := match r with None => true | Some _ => false end.

Lemma bus_starts s : bus_ok false s ->
  wp bus_env (NatsBus.Start ReadFile AppendCertsFromPEM LoadX509KeyPair) (fun r s' => bus_ok (is_up r) s') s.
Proof.
  destruct s as [m tr]. intros [Hn Hb]. cbn [fst snd] in *.
  destruct (NatsBus.nc m) as [c|] eqn:Hc; [by rewrite bool_decide_true in Hn|].
  eapply wp_mono; [|apply wp_method, NatsBus.bus_start_stop].
  intros r [m' tr'] (new & Htr & Hr). cbn [fst snd] in *. subst tr'. unfold bus_ok. cbn [fst snd].
  unfold NatsBus.opens, bus_released. rewrite !omap_app. destruct r as [e|]; cbn [is_up].
  - destruct Hr as [-> Hcl]. rewrite Hc. split; [done|]. eapply balanced_step; [exact Hb|].
    cbn. rewrite app_nil_r. etrans; [|apply closes_released]. by rewrite Hcl.
  - destruct Hr as (c & j & -> & Ho & _). split; [done|]. eapply balanced_step; [exact Hb|].
    cbn. change (omap _ new) with (NatsBus.opens new) at 1. rewrite Ho. cbn. by apply submseteq_skip, submseteq_nil_l.
Qed.

Lemma bus_stops up s : bus_ok up s -> wp bus_env NatsBus.Stop (fun _ s' => bus_ok false s') s.
Proof.
  destruct s as [m tr]. intros [_ Hb]. cbn [fst snd] in *.
  eapply wp_mono; [|apply wp_method, NatsBus.bus_start_stop; done].
  intros r [m' tr'] (new & Htr & Hm' & Hr). cbn [fst snd] in *. subst m' tr'. unfold bus_ok. cbn [fst snd].
  split; [done|]. unfold NatsBus.opens, bus_released. rewrite !omap_app. eapply balanced_step; [exact Hb|].
  destruct (NatsBus.nc m) as [c|]; [|destruct Hr as [_ ->]; done]. subst new. cbn.
  destruct r; apply submseteq_skip, submseteq_nil_l.
Qed.

Lemma coord_starts s : coord_ok false s ->
  wp coord_env (Coord.Start ReadFile AppendCertsFromPEM LoadX509KeyPair) (fun r s' => coord_ok (is_up r) s') s.
Proof.
  destruct s as [m tr]. intros [Hn Hb]. cbn [fst snd] in *.
  destruct (Coord.client m) as [c|] eqn:Hc; [by rewrite bool_decide_true in Hn|].
  eapply wp_mono; [|apply wp_method, Coord.coord_start_stop].
  intros r [m' tr'] (new & Htr & Hr). cbn [fst snd] in *. subst tr'. unfold coord_ok. cbn [fst snd].
  unfold coord_opened, coord_released. rewrite !omap_app. destruct r as [e|]; cbn [is_up].
  - destruct Hr as [Hh [cs ->]]. injection Hh as -> _ _ _. rewrite Hc. split; [done|].
    eapply balanced_step; [exact Hb|]. cbn. rewrite app_nil_r. apply Permutation_submseteq.
    induction cs as [|c cs IH]; [done|]. cbn in *. by rewrite IH.
  - destruct Hr as (c & ses & el & ctx & Hh & ->). injection Hh as -> _ _ _. split; [done|].
    eapply balanced_step; [exact Hb|]. done.
Qed.

Lemma coord_stops up s : coord_ok up s -> wp coord_env Coord.Stop (fun _ s' => coord_ok false s') s.
Proof.
  destruct s as [m tr]. intros [_ Hb]. cbn [fst snd] in *.
  eapply wp_mono; [|apply wp_method, Coord.coord_start_stop; done].
  intros r [m' tr'] (new & Htr & Hh & rs & Hrs & Hr). cbn [fst snd] in *. subst tr'. unfold coord_ok. cbn [fst snd].
  injection Hh as -> _ _ _. split; [done|]. unfold coord_opened, coord_released. rewrite !omap_app.
  eapply balanced_step; [exact Hb|]. subst new.
  destruct (Coord.cancel m), (Coord.session m), (Coord.client m), Hrs as [-> | (el & _ & ->)]; done.
Qed.

Lemma cass_starts s : cass_ok false s ->
  wp cass_env (CassLife.Start ReadFile AppendCertsFromPEM LoadX509KeyPair) (fun r s' => cass_ok (is_up r) s') s.
Proof.
  destruct s as [m tr]. intros [Hn Hb]. cbn [fst snd] in *.
  destruct (CassLife.c_session m) as [c|] eqn:Hc; [by rewrite bool_decide_true in Hn|].
  eapply wp_mono; [|apply wp_method, CassLife.store_start].
  intros r [m' tr'] (new & Htr & Hr). cbn [fst snd] in *. subst tr'. unfold cass_ok. cbn [fst snd].
  rewrite CassLife.opens_app, CassLife.closes_app. destruct r as [e|]; cbn [is_up].
  - destruct Hr as [-> Hcl]. rewrite Hc. split; [done|]. eapply balanced_step; [exact Hb|].
    cbn. rewrite app_nil_r. by rewrite Hcl.
  - destruct Hr as (b & ses & -> & -> & -> & _). split; [done|]. eapply balanced_step; [exact Hb|].
    cbn. apply Permutation_submseteq, perm_swap.
Qed.

Lemma cass_stops up s : cass_ok up s -> wp cass_env CassLife.Stop (fun _ s' => cass_ok false s') s.
Proof.
  destruct s as [m tr]. intros [_ Hb]. cbn [fst snd] in *.
  eapply wp_mono; [|apply wp_method, CassLife.store_stop; done].
  intros r [m' tr'] (new & Htr & _ & Hm' & Hr). cbn [fst snd] in *. subst m' tr' new. unfold cass_ok. cbn [fst snd].
  split; [done|]. rewrite CassLife.opens_app, CassLife.closes_app. eapply balanced_step; [exact Hb|].
  by destruct (CassLife.c_session m).
Qed.

(** ** The linked application *)

(** Which modules are up, with the telemetry calls so far. *)
Record proc_ok (ub uc us : bool) (o : list otel_event) (s : pstate) : Prop := mkProcOk {
  ok_bus : bus_ok ub (p_bus s);
  ok_coord : coord_ok uc (p_coord s);
  ok_cass : cass_ok us (p_cass s);
  ok_otel : p_otel s = o
}.

Abbreviation lkd := (linked (RL := RL) ReadFile AppendCertsFromPEM LoadX509KeyPair).
Abbreviation of_mod := (of_module (RL := RL) ReadFile AppendCertsFromPEM LoadX509KeyPair).

Lemma start_bus uc us o s : proc_ok false uc us o s ->
  wp proc_env (of_mod mo_Start NatsBus.Name) (fun r s' => proc_ok (is_up r) uc us o s') s.
Proof.
  intros [Hb Hc Hs Ho]. eapply wp_mono; [|apply wp_bus, bus_starts, Hb]. intros r s' (b & Hb' & ->). by constructor.
Qed.
Lemma start_coord ub us o s : proc_ok ub false us o s ->
  wp proc_env (of_mod mo_Start Coord.Name) (fun r s' => proc_ok ub (is_up r) us o s') s.
Proof.
  intros [Hb Hc Hs Ho]. eapply wp_mono; [|apply wp_coord, coord_starts, Hc]. intros r s' (b & Hb' & ->). by constructor.
Qed.
Lemma start_cass ub uc o s : proc_ok ub uc false o s ->
  wp proc_env (of_mod mo_Start CassStore.Name) (fun r s' => proc_ok ub uc (is_up r) o s') s.
Proof.
  intros [Hb Hc Hs Ho]. eapply wp_mono; [|apply wp_cass, cass_starts, Hs]. intros r s' (b & Hb' & ->). by constructor.
Qed.

(** Retries keep what one attempt keeps. *)
Lemma start_loop_ok (P : bool -> pstate -> Prop) name n wait s :
  (forall s, P false s -> wp proc_env (of_mod mo_Start name) (fun r s' => P (is_up r) s') s) ->
  P false s -> wp proc_env (lkd (start_loop n wait name)) (fun r s' => P (is_up r) s') s.
Proof.
  intros HP. revert wait s. induction n as [|n IH]; intros wait s Hs; cbn [start_loop];
    apply wp_bind; (eapply wp_mono; [|by apply HP]); intros [e|] s1 Hs1; try done.
  intros [e'|] s2 ->; [done|]. by apply IH.
Qed.

Lemma stop_ok name ub uc us o s :
  name = NatsBus.Name \/ name = Coord.Name \/ name = CassStore.Name -> proc_ok ub uc us o s ->
  wp proc_env (of_mod mo_Stop name) (fun _ s' => proc_ok (ub && negb (String.eqb name NatsBus.Name))
    (uc && negb (String.eqb name Coord.Name)) (us && negb (String.eqb name CassStore.Name)) o s') s.
Proof.
  intros Hn [Hb Hc Hs Ho]. destruct Hn as [-> | [-> | ->]].
  - eapply wp_mono; [|eapply wp_bus, bus_stops, Hb]. intros r s' (b & Hb' & ->).
    constructor; cbn; by rewrite ?andb_true_r, ?andb_false_r.
  - eapply wp_mono; [|eapply wp_coord, coord_stops, Hc]. intros r s' (b & Hb' & ->).
    constructor; cbn; by rewrite ?andb_true_r, ?andb_false_r.
  - eapply wp_mono; [|eapply wp_cass, cass_stops, Hs]. intros r s' (b & Hb' & ->).
    constructor; cbn; by rewrite ?andb_true_r, ?andb_false_r.
Qed.

Lemma start_modules_ok c o s : proc_ok false false false o s ->
  wp proc_env (lkd (start_modules (app_of sha256Hex c) (app_modules sha256Hex)))
    (fun r s' => match r with
                 | None => proc_ok true true true o s'
                 | Some _ => exists ub uc us, proc_ok ub uc us o s'
                 end) s.
Proof.
  intros Hs. unfold app_modules. cbn [start_modules].
  apply wp_interp_bind. eapply wp_mono;
    [|apply (start_loop_ok (fun up => proc_ok up false false o)); [intros; by apply start_bus|done]].
  intros [e|] s1 H1; [do 3 eexists; exact H1|]. apply wp_interp_bind. eapply wp_mono;
    [|apply (start_loop_ok (fun up => proc_ok true up false o)); [intros; by apply start_coord|done]].
  intros [e|] s2 H2; [do 3 eexists; exact H2|]. apply wp_interp_bind. eapply wp_mono;
    [|apply (start_loop_ok (fun up => proc_ok true true up o)); [intros; by apply start_cass|done]].
  intros [e|] s3 H3; [do 3 eexists; exact H3|]. done.
Qed.

(** Modules stop in reverse order, whatever their [Stop] answers. *)
Lemma stop_modules_ok o s : proc_ok true true true o s ->
  wp proc_env (lkd (stop_modules (reverse (app_modules sha256Hex)))) (fun _ s' => proc_ok false false false o s') s.
Proof.
  intros Hs. cbn [reverse rev_append app_modules stop_modules].
  apply wp_bind. eapply wp_mono; [|apply (stop_ok CassStore.Name true true true o); auto]. intros r1 s1 H1.
  apply wp_bind. eapply wp_mono; [|apply (stop_ok Coord.Name true true false o); auto]. intros r2 s2 H2.
  apply wp_bind. eapply wp_mono; [|apply (stop_ok NatsBus.Name true false false o); auto]. by intros r3 s3 H3.
Qed.

Lemma run_ok c o s : proc_ok false false false o s ->
  wp proc_env (lkd (Run (app_of sha256Hex c)))
    (fun r s' => match r with
                 | None => proc_ok false false false o s'
                 | Some _ => exists ub uc us, proc_ok ub uc us o s'
                 end) s.
Proof.
  intros Hs. unfold Run. apply wp_interp_bind. eapply wp_mono; [|by apply start_modules_ok].
  intros [e|] s1 H1; [done|]. intros [] s2 ->. intros [] s3 ->. intros [] s4 ->. intros [e|] s5 ->; [do 3 eexists; exact H1|].
  apply (wp_interp_bind _ _ (stop_modules (reverse (app_modules sha256Hex))) (fun _ => Ret None)).
  eapply wp_mono; [|by apply stop_modules_ok]. by intros [] s6 H6.
Qed.

(** ** [main] *)

Definition installed (o : list otel_event) : list nat :=
  omap (fun e => match e with OInstall tp => Some tp | _ => None end) o.
Definition shut (o : list otel_event) : list nat :=
  omap (fun e => match e with OShutdown tp => Some tp | _ => None end) o.

(** The providers behind the function that [Setup] returns. *)
Definition providers (f : Telemetry.shutdown) : list nat :=
  match f with Telemetry.NoShutdown => [] | Telemetry.ProviderShutdown tp => [tp] end.

(** [Setup] installs the provider it returns, or none, and shuts down nothing. *)
Lemma setup_ok name ep s : p_otel s = [] ->
  wp proc_env (via_otel (Telemetry.Setup name ep))
    (fun r s' => exists o, s' = mkP (p_bus s) (p_coord s) (p_cass s) o /\ shut o = [] /\
       installed o = match r with Ok f => providers f | Err _ => [] end) s.
Proof.
  destruct s as [b c k o]. cbn. intros ->. unfold Telemetry.Setup. intros [] s1 ->. cbn.
  case_bool_decide; [by eexists|]. intros [exp|e] s2 ->; [|by eexists]. intros [res|e] s3 ->; [|by eexists].
  intros tp s4 ->. intros [] s5 ->. by eexists.
Qed.

Lemma shutdown_ok f s :
  wp proc_env (via_otel (Telemetry.call_shutdown f))
    (fun _ s' => s' = mkP (p_bus s) (p_coord s) (p_cass s) (p_otel s ++ map OShutdown (providers f))) s.
Proof.
  destruct f as [|tp]; [destruct s; cbn; by rewrite app_nil_r|]. by intros r s' ->.
Qed.

Lemma build_ok c o m1 m2 m3 :
  wp proc_env (build sha256Hex c) (fun _ s => proc_ok false false false o s) (mkP (m1, []) (m2, []) (m3, []) o).
Proof.
  unfold build. intros [] s1 ([b tb] & (b0 & _ & [= <-] & Htb) & ->). cbn in Htb. subst tb.
  intros [] s2 ([k tk] & (k0 & _ & [= <-] & Htk) & ->). cbn in Htk. subst tk.
  intros [] s3 ([n tn] & (n0 & _ & [= <-] & Htn) & ->). cbn in Htn. subst tn.
  intros [] s4 ->. by repeat constructor.
Qed.

(** C10: The process starts with a valid configuration and gives back what it
    took.  In every environment, for every environment variables: if the
    configuration is invalid, [main] ends before any call at all, telemetry
    included.  If it
    returns, every NATS connection it opened has been drained or closed, every
    etcd client and every Cassandra session it opened has been closed, through
    all the failed start attempts, and the tracer provider it installed has
    been shut down.  If it ends with [log.Fatal], no tracer provider has been
    shut down, so the spans still batched are lost. *)
Theorem main_releases Getenv Hostname m1 m2 m3 :
  wp proc_env (main ReadFile AppendCertsFromPEM LoadX509KeyPair sha256Hex Getenv Hostname)
    (fun out s =>
      (Validate (FromEnv Getenv Hostname) <> None -> s = mkP (m1, []) (m2, []) (m3, []) []) /\
      match out with
      | Returned =>
          NatsBus.opens (p_bus s).2 ⊆+ bus_released (p_bus s).2 /\
          coord_opened (p_coord s).2 ⊆+ coord_released (p_coord s).2 /\
          CassLife.opens (p_cass s).2 ⊆+ CassLife.closes (p_cass s).2 /\
          shut (p_otel s) = installed (p_otel s)
      | Fatal _ => shut (p_otel s) = []
      end) (mkP (m1, []) (m2, []) (m3, []) []).
Proof.
  unfold main. destruct (Validate _) as [e|]; [done|].
  apply wp_bind. eapply wp_mono; [|by apply setup_ok]. intros [f|e] s1 (o & -> & Hsh & Hin); [|done].
  apply wp_bind. eapply wp_mono; [|apply build_ok]. intros [] s2 H2.
  apply wp_bind. eapply wp_mono; [|by apply run_ok]. intros [e|] s3 H3.
  - destruct H3 as (ub & uc & us & [_ _ _ Ho]). split; [done|]. by rewrite Ho.
  - destruct H3 as [Hb Hc Hk Ho]. apply wp_bind. eapply wp_mono; [|apply shutdown_ok]. intros r s4 ->.
    split; [done|]. cbn [p_bus p_coord p_cass p_otel].
    destruct Hb as [Hb1 Hb2], Hc as [Hc1 Hc2], Hk as [Hk1 Hk2].
    apply bool_decide_eq_false, eq_None_not_Some in Hb1, Hc1, Hk1. unfold balanced in *.
    rewrite Hb1 in Hb2. rewrite Hc1 in Hc2. rewrite Hk1 in Hk2. split_and!; [done..|].
    unfold shut, installed in *. rewrite Ho, !omap_app, Hsh, Hin. by destruct f.
Qed.
End Lifecycle.
End Lifecycle.
