(* ===== verification/System.v ===== *)
(** * The system: nodes, the cluster and the broker

    Any number of nodes serve arbitrary HTTP requests, run their outbox relays
    and their cleanup loops at once, over one Cassandra cluster and one broker,
    with failing statements, lost acknowledgements, arbitrary clocks and
    crashes.  [accepted] records what the broker has taken.  This file holds
    the invariant of the system, the rules of sound programs in it, and the
    interface [OutboxStore] between the application and its event store. *)

From S2P Require Import Prelude Prog Contracts Cql CassStore StoreInv Breaker Limits App.

Module System.
Import StoreInv Limits App.

(** ** The system *)

(** A message the broker took: subject, data, message id and the id the broker
    gave it. *)
Definition message : Type := string * string * string * string.

(** The cluster and what the broker has taken. *)
Record sys {UU : UUID} := mkSys { sw : world; accepted : gset message }.
Arguments mkSys {UU} _ _.

(** What the effects of a store may do to the cluster. *)
Class StoreEffects {UU : UUID} (E : Type -> Type) := store_legal : legality E world.

Section System.
Context {UU : UUID} {RL : RateLimiter} {E : Type -> Type} {SE : StoreEffects E}.

Abbreviation nodeE := (appE (RL := RL) (E := E)).

(** A publish that succeeds has been accepted; one that fails may have been.
    What a node's own memory answers (limiters, breakers, guards, leadership,
    timers) is unconstrained. *)
Definition sys_legal : legality nodeE sys := fun X e =>
  match e in appE X return sys -> X -> sys -> Prop with
  | AStore e => fun s x s' => store_legal _ e (sw s) x (sw s') /\ accepted s' = accepted s
  | APublish sub d mid => fun s r s' => sw s' = sw s /\
      match r with
      | Ok b => accepted s' = {[(sub, d, mid, b)]} ∪ accepted s
      | Err _ => accepted s' = accepted s \/ exists b, accepted s' = {[(sub, d, mid, b)]} ∪ accepted s
      end
  | _ => fun s _ s' => s' = s
  end.

(** The broker accepted the event [id] with the content [c]. *)
Definition took (s : sys) (id : uuid) (c : content) : Prop :=
  exists b, (c_subject c, c_payload c, uuid_String id, b) ∈ accepted s.

(** Every outbox row that says published carries the id of a message the
    broker accepted for that event, with the event's own subject and payload. *)
Definition published_ok (s : sys) : Prop :=
  forall id o, outbox_events (w_tables (sw s)) !! id = Some o -> o_state o = Some "published" ->
  exists c occ b, o_body o = Some (c, occ) /\ o_broker_message_id o = Some b /\
    (c_subject c, c_payload c, uuid_String id, b) ∈ accepted s.

Record xinv (s : sys) : Prop := mkXinv { x_inv : inv (sw s); x_pub : published_ok s }.

Definition xrely (g : gset uuid) (s s' : sys) : Prop :=
  rely false g (sw s) (sw s') /\ accepted s ⊆ accepted s'.

Definition xtok (s : sys) : gset uuid := w_issued (sw s).

#[global] Instance xrely_preorder g : PreOrder (xrely g).
Proof.
  split.
  - intros s. split; [reflexivity|done].
  - intros s1 s2 s3 [? ?] [? ?]. split; [by trans (sw s2)|set_solver].
Qed.

Abbreviation xsound := (sound sys_legal xinv xtok xrely).

#[local] Arguments sound : simpl never.

(** Owning nothing is the weakest position. *)
Lemma rely_weaken keep g s s' : rely keep g s s' -> rely keep ∅ s s'.
Proof. intros [? ? ? ?]. constructor; [done|done|set_solver|done]. Qed.

Lemma xsound_any {B} g (p : prog nodeE B) (Q : B -> sys -> Prop) s :
  xsound ∅ p (fun _ => Q) s -> xsound g p (fun _ => Q) s.
Proof.
  destruct p as [b|X e k]; cbn.
  - intros H s' [Hr Ha] HI. apply H; [|done]. split; [by apply (rely_weaken _ g)|done].
  - intros H s1 x s2 [Hr Ha] HI Hg HL.
    destruct (H s1 x s2) as (? & ? & HG & g' & Hg' & Hk);
      [split; [by apply (rely_weaken _ g)|done]|done|set_solver|done|].
    split_and!; [done|done|intros; apply HG; [set_solver|done]|].
    exists g'. split; [set_solver|done].
Qed.

(** ** What programs establish *)

(** The record [ev] is a stored event, with its own subject and payload. *)
Definition stored (ev : EventRecord) (w : world) : Prop :=
  exists id c occ, ID ev = uuid_String id /\ events_by_id (w_tables w) !! id = Some (c, occ) /\
    c_subject c = Subject ev /\ c_payload c = Payload ev.

(** The broker accepted the record's payload under its subject and id. *)
Definition taken (ev : EventRecord) (s : sys) : Prop :=
  exists b, (Subject ev, Payload ev, ID ev, b) ∈ accepted s.

Lemma stored_rely ev keep g w w' : rely keep g w w' -> stored ev w -> stored ev w'.
Proof.
  intros Hr (id & c & occ & ? & ? & ? & ?). exists id, c, occ. split_and!; [done| |done|done].
  by eapply rely_lookup.
Qed.

Lemma taken_rely ev g s s' : xrely g s s' -> taken ev s -> taken ev s'.
Proof. intros [_ Ha] (b & Hb). exists b. set_solver. Qed.

(** Effects that leave the cluster and the broker alone. *)
Lemma x_local {X A} g (e : nodeE X) (k : X -> prog nodeE A) Q s :
  (forall s x s', sys_legal X e s x s' -> s' = s) ->
  (forall s' x, xrely g s s' -> xinv s' -> xsound g (k x) Q s') ->
  xsound g (Vis e k) Q s.
Proof.
  intros Hpure Hk s1 x s2 HR HI Hg HL. pose proof (Hpure _ _ _ HL) as ->.
  split_and!; [done|done|by intros; reflexivity|]. exists g. split; [set_solver|by apply Hk].
Qed.

Lemma x_ret {A} g (r : A) Q s :
  (forall s', xrely g s s' -> xinv s' -> Q g r s') -> xsound g (Ret r) Q s.
Proof. done. Qed.

Lemma x_publish {A} g sub d mid (k : result string -> prog nodeE A) Q s :
  (forall s' r, xrely g s s' -> xinv s' ->
    (match r with Ok b => (sub, d, mid, b) ∈ accepted s' | Err _ => True end) ->
    xsound g (k r) Q s') ->
  xsound g (Vis (APublish sub d mid) k) Q s.
Proof.
  intros Hk s1 r s2 [HR Ha] [HI Hp] Hg [Hw Hacc].
  assert (accepted s1 ⊆ accepted s2) as Hsub by (destruct r; [set_solver|]; set_solver).
  assert (xinv s2) as HI2.
  { split; [by rewrite Hw|]. intros id o. rewrite Hw. intros Ho Hst.
    destruct (Hp id o Ho Hst) as (c & occ & b & ? & ? & ?). exists c, occ, b. set_solver. }
  assert (forall f, xrely f s1 s2) as HR12 by (intros f; split; [by rewrite Hw; reflexivity|done]).
  split_and!; [done|unfold xtok; by rewrite Hw|by intros|]. exists g. split; [set_solver|].
  apply Hk; [|done|destruct r; set_solver]. trans s1; [by split|apply HR12].
Qed.

(** An append that succeeds names a stored event; if it says the event is
    published, the broker has accepted it. *)
Definition append_ok_post (r : result AppendResult) (s : sys) : Prop :=
  match r with
  | Err _ => True
  | Ok res => stored (Event res) (sw s) /\ (Published res = true -> taken (Event res) s)
  end.

(** Facts that no step can undo. *)
Definition stable (F : sys -> Prop) : Prop := forall s s', xrely ∅ s s' -> F s -> F s'.

Lemma xrely_weaken g s s' : xrely g s s' -> xrely ∅ s s'.
Proof. intros [HR Ha]. split; [by apply (rely_weaken _ g)|done]. Qed.

Lemma xsound_frame {A} g (p : prog nodeE A) Q (F : sys -> Prop) s :
  stable F -> F s -> xsound g p Q s -> xsound g p (fun g a s => Q g a s /\ F s) s.
Proof.
  intros HF. revert g s. induction p as [a|X e k IH]; intros g s Hs Hp.
  - intros s' HR HI. split; [by apply Hp|]. eapply HF; [by eapply xrely_weaken|done].
  - intros s1 x s2 HR HI Hg HL. destruct (Hp s1 x s2 HR HI Hg HL) as (? & ? & HG & g' & ? & ?).
    split_and!; [done..|]. exists g'. split; [done|]. apply IH; [|done].
    eapply HF; [apply HG; set_solver|]. eapply HF; [by eapply xrely_weaken|done].
Qed.

(** Sequencing with a fact that survives the first program. *)
Lemma x_seq {A B} g (p : prog nodeE A) (f : A -> prog nodeE B) (P : A -> sys -> Prop) (F : sys -> Prop) Q s :
  stable F -> F s -> xsound ∅ p (fun _ => P) s ->
  (forall a s', xinv s' -> P a s' -> F s' -> xsound ∅ (f a) (fun _ => Q) s') ->
  xsound g (pbind p f) (fun _ => Q) s.
Proof.
  intros HF Hs Hp Hf. apply xsound_any, sound_bind; [apply _|].
  eapply sound_weaken; [|exact (xsound_frame _ _ _ F _ HF Hs Hp)].
  intros g' a s' HI [HP HFs]. by apply xsound_any, Hf.
Qed.

Definition ready_to_mark (ev : EventRecord) (b : string) (s : sys) : Prop :=
  stored ev (sw s) /\ (Subject ev, Payload ev, ID ev, b) ∈ accepted s.

Lemma stable_stored ev : stable (fun s => stored ev (sw s)).
Proof. intros s s' [HR _]. by eapply stored_rely. Qed.

Lemma stable_ready ev b : stable (ready_to_mark ev b).
Proof. intros s s' [HR Ha] [Hs Hin]. split; [by eapply stored_rely|set_solver]. Qed.

Lemma x_bind {A B} g (p : prog nodeE A) (f : A -> prog nodeE B) (P : A -> sys -> Prop) Q s :
  xsound ∅ p (fun _ => P) s ->
  (forall a s', xinv s' -> P a s' -> xsound ∅ (f a) (fun _ => Q) s') ->
  xsound g (pbind p f) (fun _ => Q) s.
Proof. intros Hp Hf. apply (x_seq _ _ _ P (fun _ => True)); [done|done|done|]. intros; by apply Hf. Qed.

End System.

(** Advance over effects that touch neither the cluster nor the broker. *)
Ltac xstep :=
  unfold update, atomic, perform; cbn [pbind];
  match goal with
  | |- sound _ _ _ _ _ (Ret _) _ _ => apply x_ret; intros
  | |- sound _ _ _ _ _ (if ?b then _ else _) _ _ => destruct b eqn:?
  | |- sound _ _ _ _ _ (match ?x with _ => _ end) _ _ => destruct x eqn:?
  | |- sound _ _ _ _ _ (Vis _ _) _ _ => apply x_local; [by intros ? ? ? ?|intros]
  end; unfold perform; cbn [pbind].

Ltac xsteps := repeat (xstep; try done).

Section Interface.
Context {UU : UUID} {RL : RateLimiter} {E : Type -> Type} {SE : StoreEffects E}.
Abbreviation nodeE := (appE (RL := RL) (E := E)).
Abbreviation xsound := (sound (sys_legal (RL := RL) (E := E)) xinv xtok xrely).
#[local] Arguments sound : simpl never.

Definition ok_post {A} (P : A -> sys -> Prop) (r : result A) (s : sys) : Prop :=
  match r with Ok x => P x s | Err _ => True end.

Lemma x_guarded {A} p msg (call : prog nodeE (result A)) (P : A -> sys -> Prop) s :
  (forall x, stable (P x)) -> xsound ∅ call (fun _ => ok_post P) s ->
  xsound ∅ (guarded p msg call) (fun _ => ok_post P) s.
Proof.
  intros HP Hcall. unfold guarded, brk_Allow, brk_Failure, brk_Success. xstep.
  destruct x; cbn [negb]; [|by xstep].
  apply (x_bind _ _ _ (ok_post P)); [eapply sound_mono; [apply _|eassumption|exact Hcall]|].
  intros [y|e] s2 HI HPy; xsteps. cbn.
  match goal with H1 : xrely _ _ ?s3, H2 : xrely _ ?s3 _ |- _ =>
    eapply HP; [exact H2|]; eapply HP; [exact H1|]; exact HPy end.
Qed.


(** ** What the application expects of its store *)

(** An append names a stored event, marking needs an event the broker has
    accepted, a relay pass gets stored events; the other methods need only
    keep the invariant. *)
Record OutboxAdvanced (adv : AdvancedEventStore E) : Prop := mkOutboxAdvanced {
  oa_lease id owner d s : xsound ∅ (lift (es_ClaimOutboxLease adv id owner d)) (fun _ _ _ => True) s;
  oa_failure id le b mx j q s :
    xsound ∅ (lift (es_RecordOutboxFailure adv id le b mx j q)) (fun _ _ _ => True) s;
  oa_list n s : xsound ∅ (lift (es_ListDeadLetters adv n)) (fun _ _ _ => True) s;
  oa_replay id s : xsound ∅ (lift (es_ReplayDeadLetter adv id)) (fun _ _ _ => True) s;
  oa_cleanup ib db n s : xsound ∅ (lift (es_CleanupExpired adv ib db n)) (fun _ _ _ => True) s
}.

Class OutboxStore (st : EventStore E) : Prop := mkOutboxStore {
  os_append ev s : xsound ∅ (lift (es_AppendEventExactlyOnce st ev)) (fun _ => append_ok_post) s;
  os_mark ev b s : ready_to_mark ev b s ->
    xsound ∅ (lift (es_MarkOutboxPublished st (ID ev) b)) (fun _ _ _ => True) s;
  os_pending n s : xsound ∅ (lift (es_PendingOutboxEvents st n))
    (fun _ => ok_post (fun evs s => Forall (fun ev => stored ev (sw s)) evs)) s;
  os_inbox co mid s : xsound ∅ (lift (es_ClaimInboxMessage st co mid)) (fun _ _ _ => True) s;
  os_recent str n s : xsound ∅ (lift (es_RecentEvents st str n)) (fun _ _ _ => True) s;
  os_advanced adv : es_advanced st = Some adv -> OutboxAdvanced adv
}.
End Interface.
End System.
