(* ===== verification/StoreSystem.v ===== *)
(** * The Cassandra store in the system

    The methods of [CassStore] keep the system's invariant and give the
    application what [OutboxStore] asks for. *)

From S2P Require Import Prelude Prog Contracts Cql CassStore StoreInv Breaker Limits App System.

Module StoreSystem.
Import CassStore StoreInv Limits App System.

(** Statements may fail, before or after they took effect. *)
#[global] Instance cql_effects {UU : UUID} : StoreEffects storeE := legal true.

Section StoreSystem.
Context {UU : UUID} {RL : RateLimiter}.

Abbreviation nodeE := (appE (RL := RL) (E := storeE)).
Abbreviation xsound := (sound (sys_legal (RL := RL) (E := storeE)) xinv xtok xrely).

#[local] Arguments sound : simpl never.

Lemma ssound_any {B} keep g (p : prog storeE B) (Q : B -> world -> Prop) s :
  sound (legal true) inv w_issued (rely keep) ∅ p (fun _ => Q) s ->
  sound (legal true) inv w_issued (rely keep) g p (fun _ => Q) s.
Proof.
  destruct p as [b|X e k]; cbn.
  - intros H s' Hr HI. apply H; [|done]. by apply (rely_weaken _ g).
  - intros H s1 x s2 Hr HI Hg HL.
    destruct (H s1 x s2) as (? & ? & HG & g' & Hg' & Hk);
      [by apply (rely_weaken _ g)|done|set_solver|done|].
    split_and!; [done|done|intros; apply HG; [set_solver|done]|].
    exists g'. split; [set_solver|done].
Qed.

(** ** Statements that publish nothing *)

Definition quiet_mutation (mu : mutation) : Prop :=
  match mu with
  | UpdateOutboxPublished _ _ _ _ => False
  | InsertOutboxEvents _ _ _ st => st <> "published"
  | _ => True
  end.

Definition quiet_effect {X} (e : storeE X) : Prop :=
  match e with EExec b => Forall quiet_mutation b | _ => True end.

Fixpoint quiet_prog {A} (p : prog storeE A) : Prop :=
  match p with
  | Ret _ => True
  | Vis e k => quiet_effect e /\ forall x, quiet_prog (k x)
  end.

Lemma quiet_bind {A B} (p : prog storeE A) (f : A -> prog storeE B) :
  quiet_prog p -> (forall a, quiet_prog (f a)) -> quiet_prog (pbind p f).
Proof.
  intros Hp Hf. induction p as [a|X e k IH]; cbn in *; [done|].
  destruct Hp as [He Hk]. split; [done|]. intros x. by apply IH.
Qed.

Lemma quiet_mutation_ok mu s t :
  quiet_mutation mu -> published_ok (mkSys (with_tables (sw s) t) (accepted s)) ->
  published_ok (mkSys (with_tables (sw s) (apply_mutation mu t)) (accepted s)).
Proof.
  unfold published_ok. destruct t; cbn. intros Hq Hp id o.
  destruct mu; cbn in *; try apply Hp; [|done].
  rewrite lookup_insert. case_decide as E; [|apply Hp].
  intros [= <-]. cbn. congruence.
Qed.

Lemma quiet_batch_ok b s :
  Forall quiet_mutation b -> published_ok s -> published_ok (mkSys (after b (sw s)) (accepted s)).
Proof.
  intros Hb Hs. unfold after.
  assert (forall t, published_ok (mkSys (with_tables (sw s) t) (accepted s)) ->
    published_ok (mkSys (with_tables (sw s) (apply_batch b t)) (accepted s))) as H.
  { induction Hb as [|mu b Hmu Hb IH]; intros t Ht; [done|].
    change (apply_batch (mu :: b) t) with (apply_batch b (apply_mutation mu t)).
    apply IH. by apply quiet_mutation_ok. }
  apply H. by destruct s as [[] ?].
Qed.

Lemma quiet_step X (e : storeE X) s x w' :
  quiet_effect e -> legal true X e (sw s) x w' -> published_ok s -> published_ok (mkSys w' (accepted s)).
Proof.
  intros Hq HL Hp.
  assert (forall w, outbox_events (w_tables w) = outbox_events (w_tables (sw s)) ->
    published_ok (mkSys w (accepted s))) as Hsame.
  { intros w Hw id o. cbn. rewrite Hw. apply Hp. }
  destruct e as [| |n|Y q|Y q|b|Y d c]; cbn in HL.
  - subst. by apply Hsame.
  - destruct HL as [_ ->]. by apply Hsame.
  - destruct HL as [_ ->]. by apply Hsame.
  - destruct HL as [-> _]. by apply Hsame.
  - destruct HL as [-> _]. by apply Hsame.
  - assert (w' = sw s \/ w' = after b (sw s)) as [-> | ->] by (destruct x; naive_solver);
      [by apply Hsame|]. by apply quiet_batch_ok.
  - assert (outbox_events (apply_cas c (w_tables (sw s))).2 = outbox_events (w_tables (sw s))) as Ho.
    { destruct (w_tables (sw s)), c; cbn; by repeat case_match. }
    destruct (apply_cas c (w_tables (sw s))) as [[a y] t']. cbn in Ho. apply Hsame.
    destruct x as [[? ?]|?]; naive_solver.
Qed.

(** A store program that publishes nothing is sound in the system. *)
Lemma lift_sound {A} g (p : prog storeE A) (Q : gset uuid -> A -> world -> Prop) s :
  quiet_prog p -> sound (legal true) inv w_issued (rely false) g p Q (sw s) ->
  xsound g (lift (RL := RL) p) (fun g a s => Q g a (sw s)) s.
Proof.
  revert g s. induction p as [a|X e k IH]; intros g s Hq Hs; cbn in *.
  - intros s' [Hr _] [HI _]. by apply Hs.
  - destruct Hq as [He Hk]. intros s1 x s2 [Hr Ha] [HI Hp] Hg [HL Hacc].
    destruct (Hs (sw s1) x (sw s2) Hr HI Hg HL) as (HI2 & Htok & HG & g' & Hg' & Hs').
    assert (published_ok s2) as Hp2.
    { destruct s2 as [w2 ac2]. cbn in *. subst ac2. by eapply quiet_step. }
    split_and!; [done|done| |].
    + intros f Hf Hft. split; [by apply HG|by rewrite Hacc].
    + exists g'. split; [done|]. by apply IH.
Qed.

Lemma lift_bind_sound {A B} g (p : prog storeE A) (f : A -> prog storeE B) Q s :
  xsound g (lift (RL := RL) p) (fun g' a s' => xsound g' (lift (f a)) Q s') s ->
  xsound g (lift (pbind p f)) Q s.
Proof.
  revert g s. induction p as [a|X e k IH]; intros g s Hp; cbn in *.
  - assert (forall s', xrely g s s' -> xinv s' -> xsound g (lift (f a)) Q s') as H by exact Hp.
    destruct (f a) as [b|X e k].
    + intros s' Hs HI. exact (H s' Hs HI s' ltac:(reflexivity) HI).
    + intros s' x s'' Hs HI. exact (H s' Hs HI s' x s'' ltac:(reflexivity) HI).
  - intros s1 x s2 HR1 HI1 Hg HL. destruct (Hp s1 x s2 HR1 HI1 Hg HL) as (? & ? & ? & g' & ? & ?).
    split_and!; eauto.
Qed.

Ltac quiet_tac :=
  repeat first
    [ progress cbn
    | match goal with |- forall _, _ => intros ? end
    | match goal with |- _ /\ _ => split end
    | match goal with |- Forall _ _ => repeat (constructor; cbn; try done) end
    | match goal with |- context [match ?x with _ => _ end] => destruct x end
    | done ].

Lemma quiet_append_new ev st occ id : quiet_prog (append_new ev st occ id).
Proof. unfold append_new, append_batch. quiet_tac. Qed.

Lemma quiet_pending_loop limit rows out : quiet_prog (pending_loop limit rows out).
Proof.
  revert out. induction rows as [|[[occ id] c] rows IH]; intros out; cbn [pending_loop]; [done|].
  apply quiet_bind; [unfold loadRetryState; quiet_tac|].
  intros [[[[n nx] q] lu]|e]; [|apply IH]. apply quiet_bind; [quiet_tac|]. intros now.
  destruct (_ || _); [apply IH|]. destruct (_ >=? _); [done|apply IH].
Qed.

Lemma quiet_pending m limit : quiet_prog (PendingOutboxEvents m limit).
Proof.
  unfold PendingOutboxEvents. destruct (negb _); [done|]. apply quiet_bind; [quiet_tac|].
  intros [rows err]. apply quiet_bind; [apply quiet_pending_loop|]. intros out. by destruct err.
Qed.

Lemma quiet_failure m id le b mx j q : quiet_prog (RecordOutboxFailure m id le b mx j q).
Proof.
  assert (forall u n ff, quiet_prog (record_failure u le b mx j q n ff)) as Hr.
  { intros. unfold record_failure. apply quiet_bind; [unfold jitter; quiet_tac|].
    intros w. unfold dead_batch. quiet_tac. }
  unfold RecordOutboxFailure. destruct (negb _); [done|]. destruct (ParseUUID id) as [u|]; [|done].
  apply quiet_bind; [quiet_tac|]. intros [[n ff]|e]; [apply Hr|]. destruct (err_notfound e); [apply Hr|done].
Qed.

Lemma quiet_delete_loop {X} (batch : X -> list mutation) rows n :
  (forall row, Forall quiet_mutation (batch row)) -> quiet_prog (delete_loop batch rows n).
Proof.
  intros Hb. revert n. induction rows as [|row rows IH]; intros n; cbn [delete_loop]; [done|].
  apply quiet_bind; [split; [apply Hb|done]|]. intros r. apply IH.
Qed.

Lemma quiet_cleanup m ib db n : quiet_prog (CleanupExpired m ib db n).
Proof.
  unfold CleanupExpired. destruct (negb _); [done|]. apply quiet_bind; [quiet_tac|].
  intros [irows [e|]]; [done|].
  apply quiet_bind; [apply quiet_delete_loop; intros [ca [st k]]; repeat constructor|].
  intros k. apply quiet_bind; [quiet_tac|]. intros [drows [e|]]; [done|].
  apply quiet_bind; [apply quiet_delete_loop; intros row; repeat constructor|]. by intros.
Qed.

Lemma quiet_replay m id : quiet_prog (ReplayDeadLetter m id).
Proof. unfold ReplayDeadLetter, replay_batch. quiet_tac. Qed.

Lemma quiet_lease m id ow d : quiet_prog (ClaimOutboxLease m id ow d).
Proof. unfold ClaimOutboxLease. quiet_tac. Qed.

Lemma quiet_inbox m co mid : quiet_prog (ClaimInboxMessage m co mid).
Proof. unfold ClaimInboxMessage. quiet_tac. Qed.

Lemma quiet_recent m st n : quiet_prog (RecentEvents m st n).
Proof. unfold RecentEvents. quiet_tac. Qed.

Lemma quiet_dead m n : quiet_prog (ListDeadLetters m n).
Proof. unfold ListDeadLetters. quiet_tac. Qed.

(** The events a relay pass gets are stored events. *)
Lemma pending_loop_stored limit rows out w :
  Forall (fun row => events_by_id (w_tables w) !! row.1.2 = Some (row.2, row.1.1)) rows ->
  Forall (fun ev => stored ev w) out ->
  sound (legal true) inv w_issued (rely false) ∅ (pending_loop limit rows out)
    (fun _ evs w' => Forall (fun ev => stored ev w') evs) w.
Proof.
  revert out w. induction rows as [|[[occ id] c] rows IH]; intros out w Hrows Hout; cbn [pending_loop].
  { apply sound_ret. intros w' HR _. apply Forall_reverse. eapply Forall_impl; [exact Hout|].
    intros ev. by eapply stored_rely. }
  apply Forall_cons in Hrows as [Hrow Hrows].
  apply sound_bind; [apply _|].
  assert (forall w', rely false ∅ w w' ->
    Forall (fun row => events_by_id (w_tables w') !! row.1.2 = Some (row.2, row.1.1)) rows /\
    Forall (fun ev => stored ev w') out /\ events_by_id (w_tables w') !! id = Some (c, occ)) as Hstep.
  { intros w' HR. split_and!; [| |by eapply rely_lookup].
    - eapply Forall_impl; [exact Hrows|]. intros [[o i] c'] Hi. by eapply rely_lookup.
    - eapply Forall_impl; [exact Hout|]. intros ev. by eapply stored_rely. }
  unfold loadRetryState. unfold perform; cbn [pbind]. apply sound_read.
  2: intros w1 e HR HI Hnf; destruct (err_notfound e).
  all: try (intros w1 st HR HI _); apply sound_ret; intros w2 HR2 HI2;
    assert (rely false ∅ w w2) as HRt by (by trans w1);
    destruct (Hstep w2 HRt) as (H1 & H2 & H3); try (by apply IH).
  1: destruct st as [[[n nx] q] lu].
  all: unfold perform; cbn [pbind]; apply sound_now; intros w3 now HR3 HI3;
    assert (rely false ∅ w w3) as HRt3 by (by trans w2); clear H1 H2 H3;
    destruct (Hstep w3 HRt3) as (H1 & H2 & H3); destruct (_ || _); [by apply IH|].
  all: match goal with |- context [pending_event ?i ?c' ?o ?k] =>
    assert (Forall (fun ev => stored ev w3) (pending_event i c' o k :: out)) as H4
      by (constructor; [exists id, c, occ; by split_and!|done]) end.
  all: destruct (_ >=? _); [|by apply IH]; apply sound_ret; intros w4 HR4 _; apply Forall_reverse;
    (eapply Forall_impl; [exact H4|]); intros ev; by eapply stored_rely.
Qed.

Lemma pending_stored m limit w :
  sound (legal true) inv w_issued (rely false) ∅ (PendingOutboxEvents m limit)
    (fun _ r w' => match r with Ok evs => Forall (fun ev => stored ev w') evs | Err _ => True end) w.
Proof.
  unfold PendingOutboxEvents. destruct (negb _); [by apply sound_ret|].
  unfold perform; cbn [pbind]. apply sound_pure; [by intros ??? [? _]|].
  intros w1 [rows err] HR HI [_ Hrows]. apply sound_bind; [apply _|].
  eapply sound_weaken; [|apply pending_loop_stored; [|constructor]].
  - intros g evs w2 HI2 Hevs. destruct err; apply sound_ret; [done|].
    intros w3 HR3 _. eapply Forall_impl; [exact Hevs|]. intros ev. by eapply stored_rely.
  - apply Forall_forall. intros [[occ id] c] Hin. cbn. apply (inv_pending _ HI).
    apply elem_of_ascending. apply (elem_of_take_1 (Z.to_nat (pending_fetch_limit (pending_limit limit)))).
    destruct err; [|by subst]. destruct Hrows as [_ [l' Hl']]. cbn in Hl'. rewrite Hl'.
    apply elem_of_app. by left.
Qed.

Lemma append_new_x ev occ id g s :
  id ∈ g -> events_by_id (w_tables (sw s)) !! id = None ->
  xsound g (lift (append_new ev (default_stream (Stream ev)) occ id)) (fun _ => append_ok_post) s.
Proof.
  intros Hid Hnew. eapply sound_weaken; [|apply (lift_sound _ _ (fun _ r w => append_post false ev r w /\
    match r with Ok res => Published res = false | Err _ => True end));
    [apply quiet_append_new|]].
  - intros g' [res|e] s' _; [|done]. intros [(i & c & o & E1 & E2 & E3 & _) Hp]. split; [|congruence].
    subst c. eexists i, _, o. by split_and!.
  - pose proof (append_new_sound false ev occ id g (sw s) Hid Hnew ltac:(done)) as Hs.
    unfold append_new in *. unfold perform in *; cbn [pbind] in *.
    intros w1 r w2 HR HI Hg HL. destruct (Hs w1 r w2 HR HI Hg HL) as (? & ? & ? & g' & Hg' & Hk).
    split_and!; [done..|]. exists g'. split; [done|]. destruct r; apply sound_ret; intros w3 HR3 HI3;
      (split; [exact (Hk w3 HR3 HI3)|done]).
Qed.

Lemma append_existing_x ev id s :
  xsound ∅ (lift (append_existing ev id)) (fun _ => append_ok_post) s.
Proof.
  unfold append_existing. apply lift_bind_sound.
  eapply sound_weaken; [|apply (lift_sound _ _ (fun _ r w => match r with
    Ok (c, occ) => events_by_id (w_tables w) !! id = Some (c, occ) | Err _ => True end)); [by cbn|]].
  2: { unfold perform. apply sound_read.
       - intros w [c occ] HR HI Hq. apply sound_ret. intros w' HR' _. by eapply rely_lookup.
       - intros. by apply sound_ret. }
  intros g [[c occ]|e] s1 HI1; [|intros _; by apply x_ret]. intros He.
  unfold isOutboxPublished, perform; cbn [pbind lift]. apply xsound_any.
  intros s2 r s3 [HR Ha] [HI Hp] Hg [HL Hacc]. destruct HL as [Hw HL].
  assert (s3 = s2) as -> by (destruct s2, s3; cbn in *; congruence).
  split_and!; [done|done|by intros; reflexivity|]. exists ∅. split; [set_solver|].
  destruct r as [st|e]; cbn [pbind lift]; [|by apply x_ret]. apply x_ret. intros s4 HR4 _.
  assert (events_by_id (w_tables (sw s2)) !! id = Some (c, occ)) as He2.
  { eapply rely_lookup; [exact HR|done]. }
  split.
  - exists id, c, occ. split_and!; [done| |done|done]. eapply rely_lookup; [apply HR4|done].
  - cbn. intros Hst%bool_decide_eq_true. apply (taken_rely _ ∅ s2); [done|].
    cbn in HL. apply fmap_Some_1 in HL as (o & Ho & ->).
    destruct (inv_outbox_body _ _ _ HI Ho) as (c' & occ' & Hb & He').
    destruct (Hp id o Ho) as (c2 & occ2 & b & Hb2 & _ & Hin).
    { destruct (o_state o); cbn in Hst; congruence. }
    assert (c2 = c) as -> by congruence. exists b. exact Hin.
Qed.

(** The identifier [u] is owned and not in use; the statements between drawing
    it and storing the event keep it so. *)
Definition fresh (u : uuid) (g : gset uuid) (w : world) : Prop :=
  u ∈ g /\ events_by_id (w_tables w) !! u = None.

Abbreviation fsound := (sound (legal true) inv w_issued (rely false)).

Lemma fresh_rely u g w w' : rely false g w w' -> fresh u g w -> fresh u g w'.
Proof. intros HR [Hu Hn]. split; [done|]. by eapply rely_fresh. Qed.

Lemma fresh_now u g w : fresh u g w -> fsound g (perform ENow) (fun g _ w => fresh u g w) w.
Proof.
  intros Hf. unfold perform. apply sound_now. intros w1 now HR HI. apply sound_ret. intros w2 HR2 _.
  eapply fresh_rely; [exact HR2|]. by eapply fresh_rely.
Qed.

Lemma fresh_uuid w : fsound ∅ (perform ETimeUUID) (fun g u w => fresh u g w) w.
Proof.
  unfold perform. apply sound_uuid. intros w1 u HR HI Hu Hn. apply sound_ret.
  intros w2 HR2 _. eapply fresh_rely; [exact HR2|]. split; [set_solver|done].
Qed.

Lemma fresh_created u g w ca st k i : fresh u g w ->
  fsound g (perform (EExec [InsertIdempotencyByCreated ca st k i])) (fun g _ w => fresh u g w) w.
Proof.
  intros Hf. unfold perform. apply sound_exec.
  - intros w1 HR HI Hg. split; [by apply idem_by_created_ok|]. intros r. exists g. split; [done|].
    apply sound_ret. intros w2 HR2 _. eapply fresh_rely; [exact HR2|].
    pose proof (fresh_rely _ _ _ _ HR Hf) as Hf1. by destruct w1 as [[] ?].
  - intros w1 e HR HI. apply sound_ret. intros w2 HR2 _.
    eapply fresh_rely; [exact HR2|]. by eapply fresh_rely.
Qed.

Lemma fresh_claim u g w st k i h ca : fresh u g w ->
  fsound g (perform (ECas 1 (CasInsertIdempotencyKey st k i h ca))) (fun g _ w => fresh u g w) w.
Proof.
  intros Hf. set (c := CasInsertIdempotencyKey st k i h ca). unfold perform.
  intros w1 r w2 HR HI Hg HL. pose proof (fresh_rely _ _ _ _ HR Hf) as Hf1.
  destruct (cas_ok false g w1 _ c HI) as (HI' & Hiss & HG).
  assert (w2 = w1 \/ w2 = with_tables w1 (apply_cas c (w_tables w1)).2) as Hw2.
  { cbn -[apply_cas] in HL. destruct (apply_cas c (w_tables w1)) as [[a x] t'].
    destruct r as [[? ?]|?]; naive_solver. }
  assert (fresh u g w2) as Hf2.
  { destruct Hw2 as [-> | ->]; [done|]. destruct w1 as [[] ?]; cbn. by repeat case_match. }
  split_and!; [by destruct Hw2 as [-> | ->]..| |].
  - intros f Hf' Hft. destruct Hw2 as [-> | ->]; [reflexivity|by apply HG].
  - exists g. split; [set_solver|]. apply sound_ret. intros w3 HR3 _. by eapply fresh_rely.
Qed.

(** Run a store program inside another one. *)
Lemma lift_then {A B} g (p : prog storeE A) (f : A -> prog storeE B) P Q s :
  quiet_prog p -> fsound g p P (sw s) ->
  (forall g a s', P g a (sw s') -> xsound g (lift (f a)) Q s') ->
  xsound g (lift (RL := RL) (pbind p f)) Q s.
Proof.
  intros Hq Hp Hf. apply lift_bind_sound. eapply sound_weaken; [|by apply (lift_sound _ _ P)].
  intros g' a s' _ HP. by apply Hf.
Qed.

Lemma append_x sha m ev s :
  xsound ∅ (lift (AppendEventExactlyOnce sha m ev)) (fun _ => append_ok_post) s.
Proof.
  unfold AppendEventExactlyOnce. destruct (negb (session m)); [by apply x_ret|].
  apply (lift_then _ _ _ (fun _ _ _ => True)).
  { by destruct (IsZero _). }
  { destruct (IsZero _); [unfold perform; apply sound_now; intros|]; by apply sound_ret. }
  intros g occ s1 _. apply xsound_any.
  eapply lift_then; [done|apply fresh_uuid|]. intros g1 u s2 Hf.
  destruct (bool_decide (IdempotencyKey ev = "")); [by apply append_new_x; apply Hf|].
  eapply lift_then; [done|by apply (fresh_now u)|]. intros g2 now1 s3 Hf2.
  eapply lift_then; [done|by apply (fresh_claim u)|]. intros g3 [[applied existing]|e] s4 Hf3; [|by apply x_ret].
  destruct applied; cbn [negb]; [|apply xsound_any, append_existing_x].
  eapply lift_then; [done|by apply (fresh_now u)|]. intros g4 now2 s5 Hf4.
  eapply lift_then; [by repeat constructor|by apply (fresh_created u)|].
  intros g5 [e|] s6 Hf5; [by apply x_ret|]. by apply append_new_x; apply Hf5.
Qed.

(** The batch that marks an accepted event published keeps the invariant. *)
Lemma published_batch_x s id c occ now b :
  xinv s -> events_by_id (w_tables (sw s)) !! id = Some (c, occ) ->
  (c_subject c, c_payload c, uuid_String id, b) ∈ accepted s ->
  published_ok (mkSys (after (published_batch id now occ b) (sw s)) (accepted s)).
Proof.
  intros [HI Hp] He Hin i o. destruct (inv_status _ HI _ _ _ He) as [[(o' & Ho & Hb & _) _]|[(o' & Ho & Hb & _) _]];
    unfold published_ok in Hp; destruct s as [[[] iss] acc]; cbn in *;
    rewrite lookup_insert; (case_decide; [|apply Hp]);
    intros [= <-] _; subst i; rewrite Ho; cbn; eauto 10.
Qed.

(** Marking an event the broker has accepted under the recorded id. *)
Lemma mark_x m ev b s :
  ready_to_mark ev b s ->
  xsound ∅ (lift (MarkOutboxPublished m (ID ev) b)) (fun _ _ _ => True) s.
Proof.
  intros Hready. destruct Hready as [(id & c & occ & Hid & He & Hsub & Hpay) Hacc].
  rewrite Hid, <- Hsub, <- Hpay in *. clear Hid Hsub Hpay.
  unfold MarkOutboxPublished. destruct (negb (session m)); [by apply x_ret|]. rewrite ParseUUID_String.
  set (F := fun s : sys => events_by_id (w_tables (sw s)) !! id = Some (c, occ) /\
    (c_subject c, c_payload c, uuid_String id, b) ∈ accepted s).
  assert (stable F) as HF.
  { intros s1 s2 [HR Ha] [? ?]. split; [by eapply rely_lookup|set_solver]. }
  apply lift_bind_sound.
  eapply sound_weaken; [|refine (xsound_frame _ _ _ F _ HF (conj He Hacc) (lift_sound _ _ (fun _ r w => match r with
    Ok (c', occ') => events_by_id (w_tables w) !! id = Some (c', occ') | Err _ => True end) _ _ _)); [done|]].
  2: { unfold perform. apply sound_read.
       - intros w [c' occ'] HR HI Hq. apply sound_ret. intros w' HR' _. eapply rely_lookup; [exact HR'|].
         by apply inv_select_outbox.
       - intros. by apply sound_ret. }
  intros g [[c' occ']|e] s1 HI1 [He1 HF1]; [|by apply x_ret].
  assert (c' = c /\ occ' = occ) as [-> ->] by (destruct HF1; simplify_eq; done).
  apply xsound_any. unfold perform; cbn [pbind lift snd].
  apply x_local; [by intros s2 x s3 [? ?]; destruct s2, s3; cbn in *; congruence|].
  intros s2 now HR2 HI2. apply (HF _ _ HR2) in HF1. clear HR2 He1 HI1 s1.
  intros s3 r s4 HR3 HI3 _ [HL Ha4]. apply (HF _ _ HR3) in HF1. destruct HF1 as [He3 Hin3].
  destruct (published_batch_ok false ∅ (sw s3) id c occ now b (x_inv _ HI3) He3) as (HI4 & Hiss & HG).
  assert (sw s4 = sw s3 \/ sw s4 = after (published_batch id now occ b) (sw s3)) as Hw.
  { cbn in HL. destruct r; naive_solver. }
  destruct s4 as [w4 ac4]. cbn in Hw, Ha4. subst ac4.
  assert (xinv (mkSys w4 (accepted s3)) /\ (forall f, xrely f s3 (mkSys w4 (accepted s3)))) as [HIx HRx].
  { destruct Hw as [-> | ->].
    - split; [by destruct s3|intros f; split; [reflexivity|done]].
    - split; [split; [done|by apply (published_batch_x _ _ c)]|]. intros f. split; [|done].
      by apply rely_same_events; destruct s3 as [[[] ?] ?]. }
  split_and!; [done| |by intros|].
  - unfold xtok. cbn. destruct Hw as [-> | ->]; [done|]. exact Hiss.
  - exists ∅. split; [set_solver|]. by apply x_ret.
Qed.

Lemma x_lift {A} (p : prog storeE A) (P : A -> world -> Prop) s :
  quiet_prog p -> fsound ∅ p (fun _ => P) (sw s) ->
  xsound ∅ (lift p) (fun _ a s => P a (sw s)) s.
Proof. intros Hq Hp. exact (lift_sound _ _ (fun _ => P) _ Hq Hp). Qed.

(** A lifted method about whose answer nothing is needed. *)
Lemma x_lift_any {A} (p : prog storeE A) s :
  quiet_prog p -> fsound ∅ p no_post (sw s) -> xsound ∅ (lift p) (fun _ _ _ => True) s.
Proof. intros Hq Hp. by apply (x_lift p (fun _ _ => True)). Qed.


(** ** The interface is met *)

#[global] Instance cass_outbox_store sha m : OutboxStore (RL := RL) (cass_store sha m).
Proof.
  constructor.
  - intros. apply append_x.
  - intros. by apply mark_x.
  - intros n s. eapply sound_weaken; [|apply x_lift; [apply quiet_pending|apply pending_stored]].
    by intros g [evs|e] s' _ H.
  - intros. apply x_lift_any; [apply quiet_inbox|apply ClaimInboxMessage_sound].
  - intros. apply x_lift_any; [apply quiet_recent|apply RecentEvents_sound].
  - intros adv [= <-]. constructor; intros; apply x_lift_any; cbn.
    + apply quiet_lease. + apply ClaimOutboxLease_sound.
    + apply quiet_failure. + apply RecordOutboxFailure_sound.
    + apply quiet_dead. + apply ListDeadLetters_sound.
    + apply quiet_replay. + apply ReplayDeadLetter_sound.
    + apply quiet_cleanup. + apply CleanupExpired_sound.
Qed.
End StoreSystem.
End StoreSystem.
