(* ===== verification/Delivery.v ===== *)
(** * End to end: from the request to the broker

    The application's programs are sound in the system, for every store that
    meets [OutboxStore]; so in every reachable state of any number of nodes
    the delivery guarantees hold. *)

From S2P Require Import Prelude Prog Contracts Cql Session CassStore StoreInv GoStrings Config Breaker.
From S2P Require Import Limits App Handlers System StoreSystem.

Module Delivery.
Import CassStore StoreInv Config Limits App Handlers System StoreSystem.

Section Delivery.
Context {UU : UUID} {RL : RateLimiter} {E : Type -> Type} {SE : StoreEffects E}.

Abbreviation nodeE := (appE (RL := RL) (E := E)).
Abbreviation xsound := (sound (sys_legal (RL := RL) (E := E)) xinv xtok xrely).

#[local] Arguments sound : simpl never.

(** The node's store keeps the interface, if it has one. *)
Definition outbox_node (a : AppConf (E := E)) : Prop :=
  forall st, store a = Some st -> OutboxStore (RL := RL) st.

Section Node.
Variable a : AppConf (E := E).
Hypothesis Hstore : outbox_node a.

Lemma Hadvanced adv : advanced a = Some adv -> OutboxAdvanced (RL := RL) adv.
Proof.
  unfold advanced. destruct (store a) as [st|] eqn:Est; [|done]. apply (os_advanced (OutboxStore := Hstore st Est)).
Qed.

Lemma stable_accepted x : stable (fun s => x ∈ accepted s).
Proof. intros s s' [_ Ha]. set_solver. Qed.

Lemma busPublish_x sub pay mid s :
  xsound ∅ (busPublish a sub pay mid) (fun _ => ok_post (fun b s => (sub, pay, mid, b) ∈ accepted s)) s.
Proof.
  unfold busPublish. destruct (negb (bus a)); [by xstep|].
  apply x_guarded; [intros; apply stable_accepted|]. unfold perform. apply x_publish.
  intros s' r HR HI Hr. apply x_ret. intros s2 HR2 _. destruct r; [|done]. by eapply stable_accepted.
Qed.

Lemma publish_loop_x n wait sub pay mid s :
  xsound ∅ (publish_loop a n wait sub pay mid) (fun _ => ok_post (fun b s => (sub, pay, mid, b) ∈ accepted s)) s.
Proof.
  revert wait s. induction n as [|n IH]; intros wait s; cbn [publish_loop];
    (eapply x_bind; [apply busPublish_x|]); intros [b|e] s1 HI Hr;
    try (apply x_ret; intros s2 HR _; by eapply stable_accepted); [by xsteps|].
  xstep. xstep. destruct x0; [by xstep|]. apply IH.
Qed.

Lemma publishWithRetry_x sub pay mid s :
  xsound ∅ (publishWithRetry a sub pay mid) (fun _ => ok_post (fun b s => (sub, pay, mid, b) ∈ accepted s)) s.
Proof. apply publish_loop_x. Qed.

Lemma storeMark_x ev b s :
  ready_to_mark ev b s -> xsound ∅ (storeMarkOutboxPublished a (ID ev) b) (fun _ _ _ => True) s.
Proof.
  intros Hr. unfold storeMarkOutboxPublished. destruct (store a) as [st|] eqn:Est; [|by xstep].
  pose proof (Hstore st Est) as Hos.
  apply (x_bind _ _ _ (ok_post (fun _ _ => True))).
  - apply x_guarded; [done|]. apply (x_bind _ _ _ (fun _ _ => True)); [by apply os_mark|].
    intros e s' _ _. apply x_ret. intros. unfold as_result. by destruct e.
  - intros r s' _ _. by xstep.
Qed.

Lemma claimLease_x eid s : xsound ∅ (claimOutboxLease a eid) (fun _ _ _ => True) s.
Proof.
  unfold claimOutboxLease. destruct (advanced a) as [adv|] eqn:Eadv; [|by xstep].
  eapply x_bind; [by apply oa_lease, Hadvanced|]. intros. by xstep.
Qed.

Lemma recordFailure_x eid e s : xsound ∅ (recordOutboxFailure a eid e) (fun _ _ _ => True) s.
Proof.
  unfold recordOutboxFailure. destruct (advanced a) as [adv|] eqn:Eadv; [|by xstep].
  eapply x_bind; [by apply oa_failure, Hadvanced|].
  intros [[q n] err] s' _ _. destruct err; by xstep.
Qed.

(** Publishing a stored event and settling the outbox. *)
Lemma relay_event_x ev s : stored ev (sw s) -> xsound ∅ (relay_event a ev) (fun _ _ _ => True) s.
Proof.
  intros Hev. unfold relay_event.
  eapply x_seq; [apply (stable_stored ev)|done|apply claimLease_x|]. intros ok s1 _ _ Hev1. cbn beta in Hev1.
  destruct (negb ok); [by xstep|].
  eapply x_seq; [apply (stable_stored ev)|done|apply publishWithRetry_x|]. intros [b|e] s2 _ Hr Hev2.
  - eapply x_bind; [by apply (storeMark_x ev b); split|]. intros. by xstep.
  - eapply x_bind; [apply recordFailure_x|]. intros. by xstep.
Qed.

Lemma relay_events_x evs s :
  Forall (fun ev => stored ev (sw s)) evs -> xsound ∅ (relay_events a evs) (fun _ _ _ => True) s.
Proof.
  revert s. induction evs as [|ev evs IH]; intros s Hevs; cbn [relay_events]; [by xstep|].
  apply Forall_cons in Hevs as [Hev Hevs].
  apply (x_seq _ _ _ (fun _ _ => True) (fun s => Forall (fun ev => stored ev (sw s)) evs));
    [|done|by apply relay_event_x|].
  - intros s1 s2 HR HF. eapply Forall_impl; [exact HF|]. intros e. by apply stable_stored.
  - intros _ s' _ _ HF. by apply IH.
Qed.

Lemma relayOutboxBatch_x s : xsound ∅ (relayOutboxBatch a) (fun _ _ _ => True) s.
Proof.
  unfold relayOutboxBatch, storePendingOutboxEvents. destruct (store a) as [st|] eqn:Est; [|by xstep].
  pose proof (Hstore st Est) as Hos. destruct (negb (bus a)); [by xstep|].
  apply (x_bind _ _ _ (ok_post (fun evs s => Forall (fun ev => stored ev (sw s)) evs))).
  - apply x_guarded.
    { intros evs s1 s2 HR HF. eapply Forall_impl; [exact HF|]. intros e. by apply stable_stored. }
    apply os_pending.
  - intros [evs|e] s' _ H; [|by xstep]. eapply x_bind; [by apply relay_events_x|]. intros. by xstep.
Qed.

Lemma runOutboxRelay_x ticks s : xsound ∅ (runOutboxRelay a ticks) (fun _ _ _ => True) s.
Proof.
  revert s. induction ticks as [|n IH]; intros s; cbn [runOutboxRelay]; [by xstep|].
  apply (x_bind _ _ _ (fun _ _ => True)); [|intros; apply IH].
  unfold relay_tick. xstep. destruct x; [by xstep|].
  assert (forall s, xsound ∅ (let! _ := relayOutboxBatch a in Ret tt) (fun _ _ _ => True) s) as Hb.
  { intros s1. eapply x_bind; [apply relayOutboxBatch_x|]. intros. by xstep. }
  destruct (coord a); [|cbn [pbind negb]; apply Hb]. xstep. destruct x; cbn [negb]; [apply Hb|by xstep].
Qed.

Lemma runCleanupLoop_x ticks s : xsound ∅ (runCleanupLoop a ticks) (fun _ _ _ => True) s.
Proof.
  unfold runCleanupLoop. destruct (advanced a) as [adv|] eqn:Eadv; [|by xstep].
  revert s. induction ticks as [|n IH]; intros s; cbn [cleanup_ticks]; [by xstep|].
  apply (x_bind _ _ _ (fun _ _ => True)); [|intros; apply IH].
  unfold cleanup_tick. xstep. xstep.
  eapply x_bind; [by apply oa_cleanup, Hadvanced|]. intros. by xstep.
Qed.

(** *** Requests *)

(** What a response to a publish request acknowledges: with 200 or 201 an event
    that is stored and that the broker has accepted, with 202 a stored event. *)
Definition names (ev : EventRecord) (resp : response) : Prop :=
  exists fields, rbody resp = JSON fields /\ ("id", JString (ID ev)) ∈ fields.

Definition ack (resp : response) (s : sys) : Prop :=
  (status resp = StatusOK \/ status resp = StatusCreated ->
     exists ev, names ev resp /\ stored ev (sw s) /\ taken ev s) /\
  (status resp = StatusAccepted -> exists ev, names ev resp /\ stored ev (sw s)).

Lemma stable_ack resp : stable (ack resp).
Proof.
  intros s s' HR [H1 H2]. split.
  - intros Hst. destruct (H1 Hst) as (ev & ? & ? & ?). exists ev. split_and!; [done|..].
    + by eapply stable_stored. + by eapply taken_rely.
  - intros Hst. destruct (H2 Hst) as (ev & ? & ?). exists ev. split; [done|]. by eapply stable_stored.
Qed.

(** Any other status acknowledges nothing. *)
Lemma ack_error resp s :
  status resp <> StatusOK -> status resp <> StatusCreated -> status resp <> StatusAccepted -> ack resp s.
Proof. intros ? ? ?. split; [intros [?|?]|intros ?]; done. Qed.

Ltac no_ack := apply x_ret; intros; apply ack_error; discriminate.

Lemma publish_stored_x res s :
  append_ok_post (Ok res) s -> xsound ∅ (publish_stored (RL := RL) a res) (fun _ => ack) s.
Proof.
  intros [Hst Htk]. unfold publish_stored. set (created := writeJSON _ _).
  assert (forall s', stored (Event res) (sw s') -> taken (Event res) s' -> ack created s') as Hack.
  { intros s' H1 H2. split; [|subst created; cbn; by destruct (Duplicate res)].
    intros _. exists (Event res). split_and!; [|done|done]. eexists. split; [done|]. by left. }
  destruct (Published res).
  { apply x_ret. intros s' HR _. apply Hack; [by eapply stable_stored|]. eapply taken_rely; [done|auto]. }
  eapply x_seq; [apply (stable_stored (Event res))|done|apply publishWithRetry_x|].
  intros [b|e] s1 _ Hr Hst1.
  - eapply x_seq; [apply (stable_ready (Event res) b)|by split|by apply storeMark_x; split|].
    intros [e|] s2 _ _ [Hst2 Hin]; [no_ack|].
    apply x_ret. intros s3 HR _. eapply stable_ack; [done|]. apply Hack; [done|by exists b].
  - eapply x_seq; [apply (stable_stored (Event res))|done|apply recordFailure_x|].
    intros [q n] s2 _ _ Hst2. apply x_ret. intros s3 HR _. split; [by intros [?|?]|]. intros _.
    exists (Event res). split; [eexists; split; [done|by left]|by eapply stable_stored].
Qed.

Variable Decode : Z -> string -> option publishRequest.
Variable Unmarshal : string -> json_value.
Variable Quote : string -> string.

Lemma publish_body_x r s :
  xsound ∅ (publish_body (RL := RL) a Decode Unmarshal Quote r) (fun _ => ack) s.
Proof.
  unfold publish_body. destruct (Decode _ _) as [req|]; [|no_ack].
  destruct (validatePublishRequest _ _ _); [no_ack|].
  unfold subject_Allow. xstep. xstep. destruct x0; cbn [negb]; [|no_ack]. xstep.
  unfold storeAppendEventExactlyOnce. destruct (store a) as [st|] eqn:Est; [|cbn [pbind]; no_ack].
  pose proof (Hstore st Est) as Hos.
  apply (x_bind _ _ _ append_ok_post).
  - eapply sound_weaken; [|apply (x_guarded _ _ _ (fun res => append_ok_post (Ok res))); [|apply os_append]].
    + by intros ? [res|e] ? _ ?.
    + intros res s2 s3 Hr23 [Hs2 Ht2]. split; [by eapply stable_stored|]. intros Hp.
      eapply taken_rely; [done|auto].
  - intros [res|e] s2 _ Hok; [by apply publish_stored_x|no_ack].
Qed.

Lemma publish_event_x r s :
  xsound ∅ (publish_event (RL := RL) a Decode Unmarshal Quote r) (fun _ => ack) s.
Proof.
  unfold publish_event. destruct (_ || _); [no_ack|].
  destruct (RequireLeaderForWrites (cfg a) && coord a); [|cbn [pbind]; apply publish_body_x].
  xstep. destruct x; cbn [negb pbind]; [apply publish_body_x|]. xstep. no_ack.
Qed.

(** A handler's promise: an answer to POST /events is an acknowledgement. *)
Definition hpost (r : request) (resp : response) (s : sys) : Prop :=
  r_Path r = "/events" -> r_Method r = "POST" -> ack resp s.

Definition hsound (next : Handler (RL := RL) (E := E)) : Prop :=
  forall w r s, xsound ∅ (next w r) (fun _ => hpost r) s.

(** A handler of another path need only be sound. *)
Definition hany (next : Handler (RL := RL) (E := E)) : Prop :=
  forall w r s, xsound ∅ (next w r) (fun _ _ _ => True) s.

Lemma stable_hpost r resp : stable (hpost r resp).
Proof. intros s s' HR H Hp Hm. eapply stable_ack; eauto. Qed.

Lemma hpost_headers r hs resp s : hpost r resp s -> hpost r (with_headers hs resp) s.
Proof. done. Qed.

Lemma handlePublishEvent_x w r s :
  xsound ∅ (handlePublishEvent a Decode Unmarshal Quote w r) (fun _ => ack) s.
Proof.
  unfold handlePublishEvent, acquireGuard, releaseGuard. xstep. destruct x; cbn [negb]; [|no_ack].
  eapply x_bind; [apply publish_event_x|]. intros resp s1 _ Hack. xstep. xstep.
  eapply stable_ack; [eassumption|]. eapply stable_ack; [eassumption|done].
Qed.

Lemma handleListEvents_x : hany (handleListEvents a).
Proof.
  intros w r s. unfold handleListEvents, acquireGuard, releaseGuard. xstep. destruct x; cbn [negb]; [|by xstep].
  apply (x_bind _ _ _ (fun _ _ => True)); [|intros; by xsteps].
  unfold list_events, storeRecentEvents. destruct (store a) as [st|] eqn:Est; [|by xstep].
  pose proof (Hstore st Est) as Hos.
  apply (x_bind _ _ _ (ok_post (fun _ _ => True))); [|intros [?|?] ? _ _; by xstep].
  apply x_guarded; [done|]. eapply sound_weaken; [|apply os_recent].
  by intros g [?|?].
Qed.

Lemma handleEvents_x : hsound (handleEvents a Decode Unmarshal Quote).
Proof.
  intros w r s. unfold handleEvents. case_bool_decide as HP.
  - eapply sound_weaken; [|apply handlePublishEvent_x]. by intros g resp s' _ H _ _.
  - eapply sound_weaken; [|instantiate (1 := fun _ _ _ => True); case_bool_decide; [apply handleListEvents_x|by xstep]].
    by intros g resp s' _ _ _ HP'.
Qed.

Lemma handleDeadLetters_x : hany (handleDeadLetters a).
Proof.
  intros w r s. unfold handleDeadLetters. case_bool_decide; [by xstep|].
  destruct (advanced a) as [adv|] eqn:Eadv; [|by xstep].
  eapply x_bind; [by apply oa_list, Hadvanced|].
  intros [?|?] ? _ _; by xstep.
Qed.

Lemma handleReplayDeadLetter_x : hany (handleReplayDeadLetter a).
Proof.
  intros w r s. unfold handleReplayDeadLetter. case_bool_decide; [by xstep|].
  destruct (advanced a) as [adv|] eqn:Eadv; [|by xstep]. case_bool_decide; [by xstep|].
  eapply x_bind; [by apply oa_replay, Hadvanced|].
  intros [?|] ? _ _; by xstep.
Qed.

Lemma handleOutboxRelayAdmin_x : hany (handleOutboxRelayAdmin (RL := RL)).
Proof. intros w r s. unfold handleOutboxRelayAdmin, load_paused. xsteps. Qed.

Lemma handleLeader_x : hany (handleLeader a).
Proof. intros w r s. unfold handleLeader. xsteps. Qed.

Lemma handleLive_x : hany (handleLive a).
Proof. intros w r s. unfold handleLive. xsteps. Qed.

Lemma handleStartup_x : hany (handleStartup a).
Proof. intros w r s. unfold handleStartup. xsteps. Qed.

Lemma check_modules_x ms s : xsound ∅ (check_modules (RL := RL) (E := E) ms) (fun _ _ _ => True) s.
Proof.
  revert s. induction ms as [|m ms IH]; intros s; cbn [check_modules]; [by xstep|].
  apply (x_bind _ _ _ (fun _ _ => True)).
  - unfold check_module, brk_Allow, brk_Failure, brk_Success. xsteps.
  - intros st s1 _ _. eapply x_bind; [apply IH|]. intros. by xstep.
Qed.

Lemma handleHealth_x : hany (handleHealth a).
Proof.
  intros w r s. unfold handleHealth. eapply x_bind; [apply check_modules_x|]. intros. xsteps.
Qed.

Variable Marshal : BusMessage -> string.

Lemma stream_loop_x consumer msgs s : xsound ∅ (stream_loop a Marshal consumer msgs) (fun _ _ _ => True) s.
Proof.
  revert s. induction msgs as [|msg msgs IH]; intros s; cbn [stream_loop]; [by xstep|].
  apply (x_bind _ _ _ (fun _ _ => True)).
  - destruct (store a) as [st|] eqn:Est; [|by xstep]. case_bool_decide; [|by xstep].
    unfold storeClaimInboxMessage. rewrite Est. pose proof (Hstore st Est) as Hos.
    apply (x_bind _ _ _ (ok_post (fun _ _ => True))); [|intros [?|?] ? _ _; by xstep].
    apply x_guarded; [done|]. eapply sound_weaken; [|apply os_inbox].
    by intros g [?|?].
  - intros deliver s1 _ _. destruct (negb deliver); [apply IH|]. xstep. xstep. apply IH.
Qed.

Lemma handleStream_x : hany (handleStream a Marshal).
Proof.
  intros w r s. unfold handleStream. xsteps.
  eapply x_bind; [apply stream_loop_x|]. intros. by xstep.
Qed.

(** *** Middleware *)

Variable ParseAddrPort : string -> option string.
Variable visit : IPLimiter.ipRateLimiter (RL := RL) -> list (string * IPLimiter.ipLimiterEntry).

Lemma secure_x scope next : hsound next -> hsound (secure a ParseAddrPort scope next).
Proof.
  intros Hn w r s. unfold secure, auth_IsBlocked, deny, auth_Failure, auth_Success.
  assert (forall m c s, c <> StatusOK -> c <> StatusCreated -> c <> StatusAccepted ->
    xsound ∅ (Ret (http_Error m c)) (fun _ => hpost r) s) as Hdeny.
  { intros m c s1 ? ? ?. apply x_ret. intros s2 _ _ _ _. by apply ack_error. }
  destruct (DisableAPITokenAuth _); [apply Hn|]. xstep. destruct x; [by apply Hdeny|].
  destruct (_ && _); [apply Hn|]. destruct (bool_decide _); [xstep; by apply Hdeny|].
  apply (x_bind _ _ _ (fun _ _ => True)); [xsteps|]. intros expired s1 _ _.
  destruct expired; [xstep; by apply Hdeny|].
  destruct (_ && _); [xstep; apply Hn|]. destruct (negb _); xstep; [by apply Hdeny|apply Hn].
Qed.

Lemma hany_secure scope next :
  hany next -> hany (secure a ParseAddrPort scope next).
Proof.
  intros Hn w r s. unfold secure, auth_IsBlocked, deny, auth_Failure, auth_Success.
  destruct (DisableAPITokenAuth _); [apply Hn|]. xstep. destruct x; [by xstep|].
  destruct (_ && _); [apply Hn|]. destruct (bool_decide _); [xsteps|].
  apply (x_bind _ _ _ (fun _ _ => True)); [xsteps|]. intros expired s1 _ _.
  destruct expired; [xsteps|].
  destruct (_ && _); [xstep; apply Hn|]. destruct (negb _); xstep; [by xstep|apply Hn].
Qed.

(** A chain's promise: a response keeps the handler's promise; outside the
    timeout handler a panic has sent a response on /stream only. *)
Definition vpost (outer : bool) (r : request) (v : served) (s : sys) : Prop :=
  match v with
  | Done resp => hpost r resp s
  | Panicked _ (Some _) => outer = true -> r_Path r = "/stream"
  | Panicked _ None => True
  end.

Definition vsound (outer : bool) (next : Chain (RL := RL) (E := E)) : Prop :=
  forall w r s, xsound ∅ (next w r) (fun _ => vpost outer r) s.

Lemma stable_vpost outer r v : stable (vpost outer r v).
Proof. intros s s' HR. destruct v as [resp|hs [sent|]]; [by apply stable_hpost|done..]. Qed.

Lemma vpost_headers outer r hs v s : vpost outer r v s -> vpost outer r (served_headers hs v) s.
Proof. by destruct v as [resp|hs' [sent|]]. Qed.

Lemma instrument_x label_ok next : hsound next -> vsound false (instrument label_ok next).
Proof.
  intros Hn w r s. unfold instrument. eapply x_bind; [apply Hn|]. intros resp s1 _ Hr.
  destruct (_ && _); [|by xstep]. xstep. xstep.
  eapply stable_hpost; [eassumption|]. by eapply stable_hpost.
Qed.

Lemma refuse_x outer r m c s :
  c <> StatusOK -> c <> StatusCreated -> c <> StatusAccepted ->
  xsound ∅ (Ret (Done (http_Error m c))) (fun _ => vpost outer r) s.
Proof. intros. apply x_ret. intros s2 _ _ _ _. by apply ack_error. Qed.

Lemma withRateLimit_x outer next : vsound outer next -> vsound outer (withRateLimit ParseAddrPort visit next).
Proof.
  intros Hn w r s. unfold withRateLimit, limiter_Allow. xstep. xstep. xstep.
  destruct x1; cbn [negb]; [apply Hn|by apply refuse_x].
Qed.

Lemma withConcurrencyLimit_x outer next : vsound outer next -> vsound outer (withConcurrencyLimit next).
Proof.
  intros Hn w r s. unfold withConcurrencyLimit, acquireGuard, releaseGuard. xstep.
  destruct x; cbn [negb]; [|by apply refuse_x]. eapply x_bind; [apply Hn|]. intros v s1 _ Hr.
  xstep. xstep. eapply stable_vpost; [eassumption|]. by eapply stable_vpost.
Qed.

Lemma withRequestTimeout_x next : vsound false next -> vsound true (withRequestTimeout next).
Proof.
  intros Hn w r s. unfold withRequestTimeout. case_bool_decide as Hp.
  { eapply sound_weaken; [|apply Hn]. intros g [resp|hs [sent|]] s' _ H; [exact H|by intros _|exact H]. }
  eapply x_bind; [apply Hn|]. intros v s1 _ Hr. xstep. apply x_ret. intros s2 HR _.
  destruct x; [intros _ _; by apply ack_error|]. destruct v as [resp|hs sent]; [|done].
  eapply stable_hpost; [eassumption|]. by eapply stable_hpost.
Qed.

Lemma withRequestID_x outer next : vsound outer next -> vsound outer (withRequestID next).
Proof.
  intros Hn w r s. unfold withRequestID. apply (x_bind _ _ _ (fun _ _ => True)).
  { case_bool_decide; [unfold newRequestID|]; xsteps. }
  intros rid s1 _ _. eapply x_bind; [apply Hn|]. intros v s2 _ Hr. apply x_ret. intros s3 HR _.
  apply vpost_headers. by eapply stable_vpost.
Qed.

Lemma withSecurityHeaders_x outer next : vsound outer next -> vsound outer (withSecurityHeaders a next).
Proof.
  intros Hn w r s. unfold withSecurityHeaders. eapply x_bind; [apply Hn|]. intros v s2 _ Hr.
  apply x_ret. intros s3 HR _. apply vpost_headers. by eapply stable_vpost.
Qed.

Lemma withCORS_x outer next : vsound outer next -> vsound outer (withCORS a next).
Proof.
  intros Hn w r s. unfold withCORS. destruct (negb _); [apply Hn|]. case_bool_decide as HO.
  { apply x_ret. intros s1 _ _ _ HP. congruence. }
  eapply x_bind; [apply Hn|]. intros v s2 _ Hr.
  apply x_ret. intros s3 HR _. apply vpost_headers. by eapply stable_vpost.
Qed.

Lemma withRecovery_x next : vsound true next -> hsound (withRecovery next).
Proof.
  intros Hn w r s. unfold withRecovery. eapply x_bind; [apply Hn|]. intros v s1 _ Hr.
  apply x_ret. intros s2 HR _. destruct v as [resp|hs [sent|]].
  - by eapply stable_hpost.
  - intros Hp. cbn in Hr. rewrite Hr in Hp by done. discriminate.
  - intros _ _. by apply ack_error.
Qed.

Variable metrics : Handler (RL := RL) (E := E).
Hypothesis Hmetrics : hany metrics.

Lemma mux_x : hsound (mux a Decode Unmarshal Quote ParseAddrPort Marshal metrics).
Proof.
  intros w r s. unfold mux.
  assert (forall next : Handler (RL := RL), hany next -> r_Path r <> "/events" ->
    xsound ∅ (next w r) (fun _ => hpost r) s) as Hother.
  { intros next Hn Hne. eapply sound_weaken; [|apply Hn]. by intros g resp s' _ _ Hp. }
  repeat (case_bool_decide as Hp;
    [first [ apply (secure_x "rw"), handleEvents_x | apply Hother; [|rewrite Hp; discriminate] ]|clear Hp]);
    auto using hany_secure, handleHealth_x, handleLive_x, handleStartup_x, handleLeader_x, handleDeadLetters_x,
      handleReplayDeadLetter_x, handleOutboxRelayAdmin_x, handleStream_x.
  apply x_ret. intros s2 _ _ _ _. by apply ack_error.
Qed.

Lemma server_x label_ok : hsound (server a Decode Unmarshal Quote ParseAddrPort visit Marshal label_ok metrics).
Proof.
  apply withRecovery_x, withCORS_x, withSecurityHeaders_x, withRequestID_x, withRequestTimeout_x, withConcurrencyLimit_x,
    withRateLimit_x, instrument_x, mux_x.
Qed.

(** *** Start and stop *)

Lemma start_loop_x n wait name s : xsound ∅ (start_loop (RL := RL) (E := E) n wait name) (fun _ _ _ => True) s.
Proof.
  revert wait s. induction n as [|n IH]; intros wait s; cbn [start_loop]; xstep; destruct x; try by xstep.
  xstep. destruct x; [by xstep|apply IH].
Qed.

Lemma start_modules_x ms s : xsound ∅ (start_modules (RL := RL) a ms) (fun _ _ _ => True) s.
Proof.
  revert s. induction ms as [|m ms IH]; intros s; cbn [start_modules]; [by xstep|].
  eapply x_bind; [apply start_loop_x|]. intros [e|] s1 _ _; [by xstep|apply IH].
Qed.

Lemma stop_modules_x (ms : list (Module_ (E := E))) s : xsound ∅ (stop_modules (RL := RL) ms) (fun _ _ _ => True) s.
Proof. revert s. induction ms as [|m ms IH]; intros s; cbn [stop_modules]; xstep; [done|apply IH]. Qed.

Lemma Run_x s : xsound ∅ (Run a) (fun _ _ _ => True) s.
Proof.
  unfold Run. eapply x_bind; [apply start_modules_x|]. intros [e|] s1 _ _; [by xstep|]. xstep.
  apply (x_bind _ _ _ (fun _ _ => True)); [xsteps|]. intros _ s2 _ _.
  apply (x_bind _ _ _ (fun _ _ => True)); [xsteps|]. intros _ s3 _ _. xstep. destruct x0; [by xstep|].
  eapply x_bind; [apply stop_modules_x|]. intros. by xstep.
Qed.
End Node.

(** ** The nodes *)

(** What a finished call leaves: the answer to a request, or nothing. *)
Definition answer_post (ans : option (request * response)) (s : sys) : Prop :=
  match ans with Some (r, resp) => hpost r resp s | None => True end.

(** Serving any request with any configuration, running the relay or the
    cleanup for any number of ticks.  The metrics handler only renders a
    response. *)
Inductive node_prog : prog nodeE (option (request * response)) -> Prop :=
| np_request a Decode Unmarshal Quote ParseAddrPort visit Marshal label_ok render w r :
    outbox_node a ->
    node_prog (pmap (fun resp => Some (r, resp))
      (server a Decode Unmarshal Quote ParseAddrPort visit Marshal label_ok (fun _ req => Ret (render req)) w r))
| np_relay a ticks : outbox_node a -> node_prog (pmap (fun _ => None) (runOutboxRelay a ticks))
| np_cleanup a ticks : outbox_node a -> node_prog (pmap (fun _ => None) (runCleanupLoop a ticks)).

Definition node_call (p : prog nodeE (option (request * response)))
    (Q : option (request * response) -> sys -> Prop) : Prop :=
  node_prog p /\ Q = answer_post.

Lemma node_call_sound p Q s : node_call p Q -> xsound ∅ p (fun _ => Q) s.
Proof.
  intros [Hp ->]. destruct Hp as [a D U Qt PA v Ma lo re w r Ha|a n Ha|a n Ha].
  - eapply x_bind; [apply server_x; [done|]|].
    + intros w' r' s'. by apply x_ret.
    + intros resp s' _ Hr. apply x_ret. intros s2 HR _. by eapply stable_hpost.
  - eapply x_bind; [by apply runOutboxRelay_x|]. intros. by apply x_ret.
  - eapply x_bind; [by apply runCleanupLoop_x|]. intros. by apply x_ret.
Qed.

Definition start : sys := mkSys (mkWorld empty_tables ∅) ∅.

Lemma start_xinv : xinv start.
Proof. split; [apply inv_empty|]. intros id o. cbn. by rewrite lookup_empty. Qed.

(** What the invariant says of a row marked published. *)
Lemma xinv_published s id o :
  xinv s -> outbox_events (w_tables (sw s)) !! id = Some o -> o_state o = Some "published" ->
  exists c occ b, events_by_id (w_tables (sw s)) !! id = Some (c, occ) /\
    o_broker_message_id o = Some b /\
    (c_subject c, c_payload c, uuid_String id, b) ∈ accepted s.
Proof.
  intros [HI Hp] Ho Hst. destruct (Hp id o Ho Hst) as (c & occ & b & Hb & Hbr & Hin).
  destruct (inv_outbox_body _ _ _ HI Ho) as (c' & occ' & Hb' & He).
  assert (c' = c /\ occ' = occ) as [-> ->] by (split; congruence).
  exists c, occ, b. by split_and!.
Qed.
End Delivery.
End Delivery.
