(* ===== verification/Linked.v ===== *)
(** * The delivery guarantees of the whole process

    The promises of [Delivery] carry over to the linked process: any number of
    processes run [main], serve requests, relay, clean up and take part in the
    election, each with the code of its natsbus, etcdcoord and cassstore
    modules in place.  What a module's struct or a client library answers is
    unconstrained, except that the statements keep to the database's legality
    and that an acknowledged [PublishMsg] has been accepted by the broker. *)

From S2P Require Import Prelude Prog Contracts Cql Session CassStore StoreInv GoStrings Connector Coord NatsBus.
From S2P Require Import CassLife Config Breaker Limits App Handlers Process System StoreSystem Delivery.

Module Linked.
Import StoreInv Connector Config Limits App Handlers Process System StoreSystem Delivery.

Section Linked.
Context {UU : UUID} {RL : RateLimiter} {pool cert : Type}.
Variable ReadFile : string -> result string.
Variable AppendCertsFromPEM : string -> option pool.
Variable LoadX509KeyPair : string -> string -> result cert.

Abbreviation pE := (procE (UU := UU) (RL := RL) (pool := pool) (cert := cert)).

(** ** The store keeps the interface on any session *)

#[export] Instance cass_effects : StoreEffects (cassE (UU := UU)) := fun X e =>
  match e in cassE X return world -> X -> world -> Prop with
  | CSnapshot => fun w _ w' => w' = w
  | CStmt e => legal true _ e
  end.

Abbreviation csound := (sound (sys_legal (RL := RL) (E := cassE)) xinv xtok xrely).
Abbreviation ssound := (sound (sys_legal (RL := RL) (E := storeE)) xinv xtok xrely).

Lemma stmts_x {A} g (p : prog storeE A) Q s :
  ssound g (lift p) Q s -> csound g (lift (translate (fun _ => CStmt) p)) Q s.
Proof.
  revert g s. induction p as [a|X e k IH]; intros g s Hp; [exact Hp|].
  intros s1 x s2 HR HI Hg HL. destruct (Hp s1 x s2 HR HI Hg HL) as (? & ? & ? & g' & ? & ?).
  split_and!; [done..|]. exists g'. split; [done|]. by apply IH.
Qed.

Lemma on_session_x {A} (f : CassStore.Module_ -> prog storeE A) Q s :
  (forall m s', xrely ∅ s s' -> ssound ∅ (lift (f m)) (fun _ => Q) s') ->
  csound ∅ (lift (on_session f)) (fun _ => Q) s.
Proof.
  intros Hf. apply x_local.
  - intros s1 x [w ac] [Hw Ha]. destruct s1. cbn in *. congruence.
  - intros s' m HR _. by apply stmts_x, Hf.
Qed.

#[export] Instance session_outbox_store sha : OutboxStore (RL := RL) (session_store sha).
Proof.
  pose proof (fun m => cass_outbox_store (RL := RL) sha m) as Hc.
  pose proof (fun m => os_advanced (OutboxStore := Hc m) _ eq_refl) as Ha.
  constructor.
  - intros. apply on_session_x. intros. apply (os_append (OutboxStore := Hc m)).
  - intros ev b s Hr. apply (on_session_x _ (fun _ _ => True)). intros m s' HR.
    apply (os_mark (OutboxStore := Hc m)). by eapply stable_ready.
  - intros. apply on_session_x. intros. apply (os_pending (OutboxStore := Hc m)).
  - intros. apply (on_session_x _ (fun _ _ => True)). intros. apply (os_inbox (OutboxStore := Hc m)).
  - intros. apply (on_session_x _ (fun _ _ => True)). intros. apply (os_recent (OutboxStore := Hc m)).
  - intros adv [= <-]. constructor; intros; apply (on_session_x _ (fun _ _ => True)); intros; apply (Ha m).
Qed.

(** ** What the process may see *)

(** The message a broker call hands over, with the id the broker gives it. *)
Definition handed (msg : NatsBus.Msg) (b : string) : message :=
  (NatsBus.n_Subject msg, NatsBus.n_Data msg, default "" (NatsBus.n_Header msg !! NatsBus.MsgIdHdr), b).

(** An acknowledged publish has been accepted, one that fails may have been. *)
Definition publish_legal (msg : NatsBus.Msg) (s : sys) (r : result (string * Z)) (s' : sys) : Prop :=
  sw s' = sw s /\
  match r with
  | Ok (stream, seq) => accepted s' = {[handed msg (NatsBus.broker_id stream seq)]} ∪ accepted s
  | Err _ => accepted s' = accepted s \/ exists b, accepted s' = {[handed msg b]} ∪ accepted s
  end.

Definition bus_legal X (c : NatsBus.natsC (pool := pool) (cert := cert) X) : sys -> X -> sys -> Prop :=
  match c in NatsBus.natsC X return sys -> X -> sys -> Prop with
  | NatsBus.PublishMsg _ msg => publish_legal msg
  | _ => fun s _ s' => s' = s
  end.

Definition proc_legal : legality pE sys := fun X e =>
  match e in procE X return sys -> X -> sys -> Prop with
  | PStmt e => fun s x s' => legal true _ e (sw s) x (sw s') /\ accepted s' = accepted s
  | PBus e =>
      match e in modE _ _ X return sys -> X -> sys -> Prop with
      | MCall c => bus_legal _ c
      | MAtomic _ => fun s _ s' => s' = s
      end
  | _ => fun s _ s' => s' = s
  end.

Abbreviation psound := (sound proc_legal xinv xtok xrely).
Abbreviation nodeE := (appE (RL := RL) (E := cassE (UU := UU))).

#[local] Arguments sound : simpl never.

(** Owning more does no harm. *)
Lemma psound_owner {B} g' g (p : prog pE B) (Q : B -> sys -> Prop) s :
  g' ⊆ g -> psound g' p (fun _ => Q) s -> psound g p (fun _ => Q) s.
Proof.
  intros Hg' H. assert (forall s s', xrely g s s' -> xrely g' s s') as Hw.
  { intros s1 s2 [[? ? Hf ?] Ha]. split; [|done]. constructor; [done|done| |done]. intros id Hid. apply Hf. set_solver. }
  destruct p as [b|X e k].
  - intros s' Hr HI. apply H; [by apply Hw|done].
  - intros s1 x s2 HR HI Hg HL.
    destruct (H s1 x s2) as (? & ? & HG & g2 & Hg2 & Hk); [by apply Hw|done|set_solver|done|].
    split_and!; [done|done|intros; apply HG; [set_solver|done]|]. exists g2. split; [set_solver|done].
Qed.

(** ** Programs that touch neither the cluster nor the broker *)

Definition silent_effect {X} (e : pE X) : Prop := forall s x s', proc_legal X e s x s' -> s' = s.

Fixpoint silent {A} (p : prog pE A) : Prop :=
  match p with
  | Ret _ => True
  | Vis e k => silent_effect e /\ forall x, silent (k x)
  end.

Lemma silent_bind {A B} (p : prog pE A) (f : A -> prog pE B) :
  silent p -> (forall a, silent (f a)) -> silent (pbind p f).
Proof.
  intros Hp Hf. induction p as [a|X e k IH]; cbn in *; [done|].
  destruct Hp as [He Hk]. split; [done|]. intros x. by apply IH.
Qed.

Lemma silent_coord {A} (p : prog _ A) : silent (via_coord p).
Proof. induction p as [a|X e k IH]; [done|]. split; [by intros s x s' ->|exact IH]. Qed.

Lemma silent_cass {A} (p : prog _ A) : silent (via_cass p).
Proof. induction p as [a|X e k IH]; [done|]. split; [by intros s x s' ->|exact IH]. Qed.

Lemma silent_otel {A} (p : prog _ A) : silent (via_otel p).
Proof. induction p as [a|X e k IH]; [done|]. split; [by intros s x s' ->|exact IH]. Qed.

Lemma silent_host {X} (e : hostE X) : silent (host e).
Proof. split; [by intros s x s' ->|done]. Qed.

Lemma xrely_tokens (g : gset uuid) s s' : xrely g s s' -> g ⊆ xtok s -> g ⊆ xtok s'.
Proof. intros [HR _] Hg. etrans; [exact Hg|]. apply (rely_issued _ _ _ _ HR). Qed.

Lemma silent_then {A B} g (p : prog pE A) (f : A -> prog pE B) Q s :
  silent p -> xinv s -> g ⊆ xtok s ->
  (forall x s', xrely g s s' -> xinv s' -> g ⊆ xtok s' -> psound g (f x) Q s') -> psound g (pbind p f) Q s.
Proof.
  revert s. induction p as [a|X e k IH]; intros s Hp HI Hg Hf; cbn.
  - apply Hf; [reflexivity|done..].
  - destruct Hp as [He Hk]. intros s1 x s2 HR HI1 Hg1 HL. pose proof (He _ _ _ HL) as ->.
    split_and!; [done|done|by intros; reflexivity|]. exists g. split; [set_solver|].
    apply IH; [done..|]. intros y s3 HR3. apply Hf. by trans s1.
Qed.

Lemma silent_sound {A} g (p : prog pE A) s :
  silent p -> psound g p (fun _ _ _ => True) s.
Proof.
  revert s. induction p as [a|X e k IH]; intros s Hp; [done|].
  destruct Hp as [He Hk]. intros s1 x s2 HR HI1 Hg1 HL. pose proof (He _ _ _ HL) as ->.
  split_and!; [done|done|by intros; reflexivity|]. exists g. split; [set_solver|]. by apply IH.
Qed.

(** Only [Publish] calls the broker. *)
Ltac silent_tac :=
  unfold read, write, call, perform; cbn;
  repeat first
    [ match goal with |- True => exact I end
    | match goal with |- silent_effect _ /\ _ => split; [by intros ? ? ? ?|intros ?] end
    | match goal with |- context [match ?x with _ => _ end] => destruct x end
    | progress cbn ].

Lemma silent_start_bus : silent (via_bus (NatsBus.Start ReadFile AppendCertsFromPEM LoadX509KeyPair)).
Proof. unfold NatsBus.Start. silent_tac. Qed.
Lemma silent_ready_bus : silent (via_bus NatsBus.Ready).
Proof. unfold NatsBus.Ready. silent_tac. Qed.
Lemma silent_stop_bus : silent (via_bus NatsBus.Stop).
Proof. unfold NatsBus.Stop. silent_tac. Qed.
Lemma silent_subscribe_bus subject : silent (via_bus (NatsBus.Subscribe subject)).
Proof. unfold NatsBus.Subscribe. silent_tac. Qed.

Abbreviation lk := (link (RL := RL) ReadFile AppendCertsFromPEM LoadX509KeyPair).
Abbreviation lkd := (linked (RL := RL) ReadFile AppendCertsFromPEM LoadX509KeyPair).

Lemma silent_of_module method name :
  (method = mo_Start \/ method = mo_Ready \/ method = mo_Stop) ->
  silent (of_module ReadFile AppendCertsFromPEM LoadX509KeyPair method name).
Proof.
  intros Hm. unfold of_module, process_modules. cbn [List.find].
  repeat (destruct (String.eqb _ name); [destruct Hm as [-> | [-> | ->]]; 
    first [ apply silent_start_bus | apply silent_ready_bus | apply silent_stop_bus
          | apply silent_coord | apply silent_cass ]|]). done.
Qed.

(** The effects whose code is silent. *)
Lemma link_silent X (e : nodeE X) :
  match e with AStore (CStmt _) => True | APublish _ _ _ => True | _ => silent (lk X e) end.
Proof.
  destruct e as [Y [|Z e]| |Y f|sub dat mid|w| | |n|n|n|n| | | |sub|c]; try done;
    first [ apply silent_cass | apply silent_host | apply silent_coord | by apply silent_of_module; auto | idtac ].
  apply silent_bind; [apply silent_subscribe_bus|]. intros [e|]; [done|].
  apply silent_bind; [apply silent_host|done].
Qed.

(** *** Linking keeps programs sound *)

Lemma link_local {X A} g (e : nodeE X) (k : X -> prog nodeE A) (Q : A -> sys -> Prop) s :
  silent (lk X e) -> (forall s x, sys_legal X e s x s) -> xinv s -> g ⊆ xtok s ->
  csound g (Vis e k) (fun _ => Q) s ->
  (forall x g' s', xinv s' -> g' ⊆ xtok s' -> csound g' (k x) (fun _ => Q) s' -> psound g' (lkd (k x)) (fun _ => Q) s') ->
  psound g (lkd (Vis e k)) (fun _ => Q) s.
Proof.
  intros Hs Hany HI Hg H IH. apply silent_then; [done..|]. intros x s' HR HI' Hg'.
  destruct (H s' x s' HR HI' Hg' (Hany s' x)) as (_ & _ & _ & g' & Hsub & Hk).
  apply (psound_owner g'); [set_solver|]. apply IH; [done|set_solver|done].
Qed.

Lemma p_local {X A} g (e : pE X) (k : X -> prog pE A) Q s :
  silent_effect e ->
  (forall x s', xrely g s s' -> xinv s' -> g ⊆ xtok s' -> psound g (k x) Q s') -> psound g (Vis e k) Q s.
Proof.
  intros He Hk s1 x s2 HR HI Hg HL. pose proof (He _ _ _ HL) as ->.
  split_and!; [done|done|by intros; reflexivity|]. exists g. split; [set_solver|by apply Hk].
Qed.

(** The message natsbus builds hands over what the application asked for. *)
Lemma handed_message sub dat mid b : handed (NatsBus.message sub dat mid) b = (sub, dat, mid, b).
Proof.
  unfold handed, NatsBus.message. cbn [NatsBus.n_Subject NatsBus.n_Data NatsBus.n_Header].
  case_bool_decide as Hm.
  - by rewrite lookup_singleton_eq.
  - subst mid. by rewrite lookup_empty.
Qed.

(** [NatsBus.Publish] implements the publish the application relies on. *)
Lemma link_publish {A} g sub dat mid (k : result string -> prog nodeE A) (Q : A -> sys -> Prop) s :
  xinv s -> g ⊆ xtok s -> csound g (Vis (APublish sub dat mid) k) (fun _ => Q) s ->
  (forall x g' s', xinv s' -> g' ⊆ xtok s' -> csound g' (k x) (fun _ => Q) s' -> psound g' (lkd (k x)) (fun _ => Q) s') ->
  psound g (lkd (Vis (APublish sub dat mid) k)) (fun _ => Q) s.
Proof.
  intros HI Hg H IH. cbn [linked interp link nats_bus eb_Publish].
  unfold NatsBus.Publish, read, call, perform, via_bus; cbn [pbind translate].
  assert (forall e s', xrely g s s' -> xinv s' -> g ⊆ xtok s' -> psound g (lkd (k (Err e))) (fun _ => Q) s') as Herr.
  { intros e s' HR HI' Hg'. destruct (H s' (Err e) s' HR HI' Hg') as (_ & _ & _ & g' & Hsub & Hk);
      [split; [done|by left]|]. apply (psound_owner g'); [set_solver|]. apply IH; [done|set_solver|done]. }
  apply p_local; [by intros ? ? ? ?|]. intros [j|] s1 HR1 HI1 Hg1; cbn [pbind translate]; [|by apply Herr].
  apply p_local; [by intros ? ? ? ?|]. intros [e|] s2 HR2 HI2 Hg2; cbn [pbind translate];
    [apply Herr; [by trans s1|done|done]|].
  intros s3 r s4 HR3 HI3 Hg3 [Hw Hacc]. assert (xrely g s s3) as HRs by (by trans s2; [trans s1|]).
  set (r' := match r with Ok (stream, seq) => Ok (NatsBus.broker_id stream seq)
             | Err e => Err (Tls.Tls.wrap_error ("publish " +:+ sub) e) end).
  destruct (H s3 r' s4 HRs HI3 Hg3) as (HI4 & Htok & HG & g' & Hsub & Hk).
  { subst r'. split; [done|]. destruct r as [[stream seq]|e]; setoid_rewrite handed_message in Hacc; done. }
  split_and!; [done..|]. exists g'. split; [done|].
  replace (pbind _ _) with (lkd (k r')) by (subst r'; by destruct r as [[stream seq]|e]).
  apply IH; [done|set_solver|done].
Qed.

Lemma linked_sound {A} g (p : prog nodeE A) (Q : A -> sys -> Prop) s :
  xinv s -> g ⊆ xtok s -> csound g p (fun _ => Q) s -> psound g (lkd p) (fun _ => Q) s.
Proof.
  revert g s. induction p as [a|X e k IH]; intros g s HI Hg H; [exact H|].
  pose proof (link_silent X e) as Hs.
  destruct e as [Y [|Z e]| |Y f|sub dat mid|w| | |n|n|n|n| | | |sub|c];
    try (apply link_local; [exact Hs|by intros ? ?|done..|by auto]); clear Hs.
  - intros s1 x s2 HR HI1 Hg1 HL. destruct (H s1 x s2 HR HI1 Hg1 HL) as (? & Htok & ? & g' & Hg' & Hk).
    split_and!; [done..|]. exists g'. split; [done|]. apply IH; [done|set_solver|done].
  - by apply link_publish; auto.
Qed.

(** ** Processes *)

Variable sha256Hex : string -> string.

Abbreviation app_of := (app_of sha256Hex).
Abbreviation answer := (option (request * response)).

(** What a process does: run [main]; serve any request, relay or clean up for
    any number of ticks with the application [main] builds from its
    configuration; and the two goroutines of the election.  The metrics handler
    only renders a response. *)
Inductive proc_prog : prog pE answer -> Prop :=
| pp_main Getenv Hostname :
    proc_prog (pmap (fun _ => None) (main ReadFile AppendCertsFromPEM LoadX509KeyPair sha256Hex Getenv Hostname))
| pp_request c Decode Unmarshal Quote ParseAddrPort visit Marshal label_ok render w r :
    proc_prog (lkd (pmap (fun resp => Some (r, resp))
      (server (app_of c) Decode Unmarshal Quote ParseAddrPort visit Marshal label_ok (fun _ req => Ret (render req)) w r)))
| pp_relay c ticks : proc_prog (lkd (pmap (fun _ => None) (runOutboxRelay (app_of c) ticks)))
| pp_cleanup c ticks : proc_prog (lkd (pmap (fun _ => None) (runCleanupLoop (app_of c) ticks)))
| pp_election ctx : proc_prog (pmap (fun _ => None) (via_coord (Coord.runElection ctx)))
| pp_observe rounds ctx : proc_prog (pmap (fun _ => None) (via_coord (Coord.observeLeader rounds ctx))).

Definition proc_call (p : prog pE answer) (Q : answer -> sys -> Prop) : Prop :=
  proc_prog p /\ Q = answer_post.

Lemma app_of_outbox c : outbox_node (RL := RL) (app_of c).
Proof. intros st [= <-]. apply session_outbox_store. Qed.

Lemma node_sound p s : node_prog (RL := RL) p -> xinv s -> psound ∅ (lkd p) (fun _ => answer_post) s.
Proof. intros Hp HI. apply linked_sound; [done|set_solver|]. by apply node_call_sound. Qed.

Lemma silent_build c : silent (build (RL := RL) sha256Hex c).
Proof. unfold build. repeat (first [apply silent_bind; [|intros _] | split]); try done; by intros ? ? ? ?. Qed.

Lemma main_sound Getenv Hostname s : xinv s ->
  psound ∅ (main (RL := RL) ReadFile AppendCertsFromPEM LoadX509KeyPair sha256Hex Getenv Hostname)
    (fun _ _ _ => True) s.
Proof.
  intros HI. unfold main. destruct (Validate _); [done|].
  apply silent_then; [apply silent_otel|done|set_solver|]. intros [f|e] s1 _ HI1 Hg1; [|done].
  apply silent_then; [apply silent_build|done|done|]. intros _ s2 _ HI2 Hg2.
  apply sound_bind; [apply _|]. eapply sound_weaken; [|apply (linked_sound _ _ (fun _ _ => True)); [done..|]].
  - intros g' [e|] s3 HI3 _; [done|]. apply silent_sound.
    apply silent_bind; [apply silent_otel|done].
  - apply Run_x.
Qed.

Lemma proc_sound p Q s : proc_call p Q -> xinv s -> psound ∅ p (fun _ => Q) s.
Proof.
  intros [Hp ->] HI. destruct Hp as [env host|c D U Qt PA v Ma lo re w r|c n|c n|ctx|n ctx].
  - apply sound_bind; [apply _|]. eapply sound_weaken; [|by apply main_sound]. done.
  - apply node_sound; [|done]. constructor. apply app_of_outbox.
  - apply node_sound; [|done]. constructor. apply app_of_outbox.
  - apply node_sound; [|done]. constructor. apply app_of_outbox.
  - apply sound_bind; [apply _|]. eapply sound_weaken; [|apply silent_sound, silent_coord]. done.
  - apply sound_bind; [apply _|]. eapply sound_weaken; [|apply silent_sound, silent_coord]. done.
Qed.

Lemma processes_sound ts s :
  reachable proc_legal proc_call start (ts, s) ->
  xinv s /\ Forall (fun t : thread pE sys answer => forall r, code t = Ret r -> answer_post r s) ts.
Proof.
  intros Hr. pose proof (reachable_goals _ _ _ _ _ Hr) as Hgoals.
  destruct (reachable_sound proc_legal xinv xtok xrely proc_call start ts s start_xinv proc_sound Hr) as [HI Hres].
  split; [done|]. rewrite Forall_forall in Hgoals, Hres |- *. intros t Ht r Hc.
  destruct (Hgoals t Ht) as (p & _ & Hg). specialize (Hres t Ht r Hc). by rewrite Hg in Hres.
Qed.

(** C1: Nothing is marked published that the broker has not accepted.  In every
    state any number of processes reach by running [main], serving arbitrary
    requests, relaying, cleaning up and electing concurrently, each through the
    code of its own modules, with failed statements, lost broker
    acknowledgements, any answers of the client libraries and crashes, from an
    empty database: an event whose outbox row says published is a stored event,
    and the broker has accepted a message with the event's id as its
    [Nats-Msg-Id] and with the event's own subject and payload, and the row
    records the broker id that message got. *)
Theorem published_was_accepted ts s id o :
  reachable proc_legal proc_call start (ts, s) ->
  outbox_events (w_tables (sw s)) !! id = Some o -> o_state o = Some "published" ->
  exists c occ b, events_by_id (w_tables (sw s)) !! id = Some (c, occ) /\
    o_broker_message_id o = Some b /\
    (c_subject c, c_payload c, uuid_String id, b) ∈ accepted s.
Proof. intros Hr. apply xinv_published. by eapply processes_sound. Qed.

(** C2: Acknowledged events are durable.  In every such state, for every
    finished answer to a POST /events request: if its status is 200 or 201, the
    event it names is stored and the broker has accepted its payload under its
    subject and id; if its status is 202, the event it names is stored. *)
Theorem acknowledged_is_durable ts s t r resp :
  reachable proc_legal proc_call start (ts, s) ->
  t ∈ ts -> code t = Ret (Some (r, resp)) -> r_Path r = "/events" -> r_Method r = "POST" ->
  (status resp = StatusOK \/ status resp = StatusCreated ->
     exists ev, names ev resp /\ stored ev (sw s) /\ taken ev s) /\
  (status resp = StatusAccepted -> exists ev, names ev resp /\ stored ev (sw s)).
Proof.
  intros Hr Ht Hc Hp Hm. destruct (processes_sound ts s Hr) as [_ HF].
  rewrite Forall_forall in HF. exact (HF t Ht _ Hc Hp Hm).
Qed.
End Linked.

(** ** A concrete process

    The default configuration, connected modules, an in-memory database and a
    broker that takes everything; it serves one publish request. *)

Record demo_sys := mkDemo {
  d_app : AppState (RL := IPLimiter.countdown); d_bus : NatsBus.Module_; d_coord : Coord.Module_;
  d_conn : CassLife.conn; d_mem : mem; d_accepted : gset message }.
Definition demo_view (d : demo_sys) : sys := mkSys (mem_view (d_mem d)) (d_accepted d).

Abbreviation demoE := (procE (UU := nat_uuid) (RL := IPLimiter.countdown) (pool := unit) (cert := unit)).

Definition demo_nats X (c : NatsBus.natsC (pool := unit) (cert := unit) X) (d : demo_sys) : X * demo_sys :=
  match c in NatsBus.natsC X return X * demo_sys with
  | NatsBus.Connect _ _ => (Ok 0%nat, d)
  | NatsBus.JetStream _ => (Ok 0%nat, d)
  | NatsBus.Close _ => (tt, d)
  | NatsBus.IsConnected _ => (true, d)
  | NatsBus.Drain _ | NatsBus.StreamInfo _ _ | NatsBus.AddStream _ _ | NatsBus.CtxErr | NatsBus.NSubscribe _ _ => (None, d)
  | NatsBus.PublishMsg _ msg =>
      (Ok ("SHIRO_EVENTS", 1), mkDemo (d_app d) (d_bus d) (d_coord d) (d_conn d) (d_mem d)
         ({[handed msg "SHIRO_EVENTS:1"]} ∪ d_accepted d))
  end.

Definition demo_etcd X (c : Coord.etcdC (pool := unit) (cert := unit) X) : X :=
  match c in Coord.etcdC X return X with
  | Coord.NewClient _ _ _ _ | Coord.NewSession _ _ => Ok 0%nat
  | Coord.NewElection _ _ | Coord.WithCancel | Coord.Observe _ _ => 0%nat
  | Coord.Cancel _ | Coord.Go _ | Coord.Done _ => tt
  | Coord.Next _ _ => Coord.ChanClosed
  | Coord.CloseClient _ | Coord.CloseSession _ | Coord.Campaign _ _ _ | Coord.Resign _ | Coord.Status _ _ => None
  end.

Definition demo_gocql X (c : CassLife.gocqlC (pool := unit) (cert := unit) X) : X :=
  match c in CassLife.gocqlC X return X with
  | CassLife.CreateSession _ => Ok 0%nat | CassLife.CloseSession _ => tt | CassLife.Query _ _ => None
  end.

Definition demo_otel X (c : Telemetry.otelC X) : X :=
  match c in Telemetry.otelC X return X with
  | Telemetry.SetTextMapPropagator | Telemetry.SetTracerProvider _ => tt
  | Telemetry.NewExporter _ | Telemetry.NewResource _ => Ok 0%nat
  | Telemetry.NewTracerProvider _ _ _ => 0%nat
  | Telemetry.Shutdown _ => None
  end.

Definition demo_host X (e : hostE (RL := IPLimiter.countdown) X) (d : demo_sys) : X * demo_sys :=
  match e in hostE X return X * demo_sys with
  | HNow => (0, d)
  | HAtomic f => let '(x, s) := f 0 (d_app d) in
      (x, mkDemo s (d_bus d) (d_coord d) (d_conn d) (d_mem d) (d_accepted d))
  | HWait _ | HServe => (None, d)
  | HGo _ | HWrite _ => (tt, d)
  | HTimedOut => (false, d)
  | HRandHex => (Ok "00", d)
  | HDeliveries _ => ([], d)
  end.

Definition demo_handler : handler demoE demo_sys := fun X e d =>
  let '(mkDemo ap bu co cn me ac) := d in
  match e in procE X return X * demo_sys with
  | PStmt e => let '(x, me) := mem_handler _ e me in (x, mkDemo ap bu co cn me ac)
  | PBus e =>
      match e in modE _ _ X return X * demo_sys with
      | MAtomic f => let '(x, bu) := f bu in (x, mkDemo ap bu co cn me ac)
      | MCall c => demo_nats _ c d
      end
  | PCoord e =>
      match e in modE _ _ X return X * demo_sys with
      | MAtomic f => let '(x, co) := f co in (x, mkDemo ap bu co cn me ac)
      | MCall c => (demo_etcd _ c, d)
      end
  | PCass e =>
      match e in modE _ _ X return X * demo_sys with
      | MAtomic f => let '(x, cn) := f cn in (x, mkDemo ap bu co cn me ac)
      | MCall c => (demo_gocql _ c, d)
      end
  | POtel e => (demo_otel _ e, d)
  | PHost e => demo_host _ e d
  end.

Lemma demo_legal : session_ok proc_legal demo_view demo_handler.
Proof.
  intros X e [ap bu co cn me ac]. destruct e as [X e|X e|X e|X e|X e|X e]; try done.
  - pose proof (legal_faultless _ e _ _ _ (mem_session_ok X e me)) as HL.
    cbn. by destruct (mem_handler X e me).
  - destruct e as [X f|X c]; cbn; [by destruct (f bu)|]. by destruct c.
  - destruct e as [X f|X c]; cbn; [by destruct (f co)|done].
  - destruct e as [X f|X c]; cbn; [by destruct (f cn)|done].
  - destruct e; try done. cbn. by destruct (f 0 ap).
Qed.

Abbreviation demo_files := (fun _ : string => Ok "" : result string).
Abbreviation demo_pem := (fun _ : string => None : option unit).
Abbreviation demo_pair := (fun _ _ : string => Ok tt : result unit).

Definition demo_cfg : Config := FromEnv (fun _ => "") None.

(** The process after [build] and the start of its modules. *)
Definition demo_d0 : demo_sys :=
  let blank := mkDemo (New_state (E := cassE) 0 demo_cfg []) (NatsBus.New "" "" "" "" "" "" "" "" "" false)
    (Coord.New "" [] "" "" "" "" "" "" "" false) (CassLife.mkConn (CassStore.New [] "" "" "" "" "" "" "" false) None)
    (mem_init 0) ∅ in
  (run demo_handler
     (let! _ := build (fun s => s) demo_cfg in
      linked demo_files demo_pem demo_pair (start_modules (app_of (fun s => s) demo_cfg) (app_modules (fun s => s)))) blank).2.

Definition demo_request : request :=
  mkRequest "POST" "/events" "10.0.0.1:5000" (fun _ => "") (fun _ => "") "".
Definition demo_prog : prog demoE (option (request * response)) :=
  linked demo_files demo_pem demo_pair (pmap (fun resp => Some (demo_request, resp))
    (server (app_of (fun s => s) demo_cfg) (fun _ _ => Some (mkPublish "orders" "" "order.created" 0 "k-1" ""))
       (fun _ => Object ∅) (fun s => s) (fun _ => None) IPLimiter.by_key (fun _ => "") (fun _ => true)
       (fun _ _ => Ret (mkResponse [] 200 NoBody)) ServerWriter demo_request)).
Definition demo_result : option (request * response) * demo_sys := run demo_handler demo_prog demo_d0.

Lemma demo_system :
  reachable (proc_legal (RL := IPLimiter.countdown)) (proc_call demo_files demo_pem demo_pair (fun s => s)) start
    ([mkThread (Ret demo_result.1) answer_post], demo_view demo_result.2).
Proof.
  eapply (reachable_run _ _ _ [] start demo_prog); [apply rtc_refl| |].
  - split; [|done]. apply (pp_request _ _ _ _ demo_cfg _ _ _ _ _ _ _ (fun _ => mkResponse [] 200 NoBody)).
  - assert (demo_view demo_d0 = start) as Hd by (vm_compute; reflexivity).
    rewrite <- Hd. exact (session_exec _ _ _ demo_prog demo_d0 demo_legal).
Qed.

Lemma published_was_accepted_witness :
  exists o, outbox_events (w_tables (sw (demo_view demo_result.2))) !! (0%nat : @uuid nat_uuid) = Some o /\
  exists b, o_broker_message_id o = Some b.
Proof.
  destruct (outbox_events (w_tables (sw (demo_view demo_result.2))) !! (0%nat : @uuid nat_uuid)) as [o|] eqn:Ho;
    [|by vm_compute in Ho].
  exists o. split; [done|].
  destruct (published_was_accepted (UU := nat_uuid) _ _ _ _ _ _ 0%nat o demo_system Ho) as (c & occ & b & _ & Hb & _);
    [|by exists b].
  vm_compute in Ho. by injection Ho as <-.
Defined.

Lemma acknowledged_is_durable_witness :
  exists resp, demo_result.1 = Some (demo_request, resp) /\ status resp = StatusCreated /\
  exists ev, names ev resp /\ stored ev (sw (demo_view demo_result.2)) /\ taken ev (demo_view demo_result.2).
Proof.
  assert (status <$> (snd <$> demo_result.1) = Some StatusCreated) as Hs by (vm_compute; reflexivity).
  assert (fst <$> demo_result.1 = Some demo_request) as Hq by (vm_compute; reflexivity).
  destruct demo_result.1 as [[r resp]|] eqn:E; [|done]. cbn in Hs, Hq. injection Hs as Hs. injection Hq as ->.
  exists resp. split_and!; [done|done|].
  destruct (acknowledged_is_durable (UU := nat_uuid) _ _ _ _ _ _
    (mkThread (Ret (Some (demo_request, resp))) answer_post) demo_request resp demo_system) as [H1 _];
    [rewrite E; by left|done|done|done|].
  apply H1. by right.
Defined.

(** With these answers [main] starts, serves, stops and returns. *)
Example main_returns :
  (run demo_handler (main demo_files demo_pem demo_pair (fun s => s) (fun _ => "") None) demo_d0).1 = Returned.
Proof. vm_compute. reflexivity. Qed.
End Linked.
