(* ===== verification/AppThms.v ===== *)
(** * What the application does in every environment

    Properties of the handlers, the middleware, the retry loops and the
    startup sequence that hold whatever the store, the bus, the clock and the
    other requests answer: [any_env] lets every effect answer anything and
    records the interactions with the outside. *)

From S2P Require Import Prelude Prog Contracts Cql Session CassStore StoreInv GoStrings Config Breaker Limits App Handlers.

Module AppThms.
Import GoStrings Config Limits App Handlers.

Section Env.
Context {RL : RateLimiter} {E : Type -> Type}.
Abbreviation nodeE := (appE (RL := RL) (E := E)).

(** ** Observations *)

Inductive obs :=
| OStore
| OPublish (subject data messageID : string) (r : result string)
| OWait (d : duration) (r : option error)
| OStart (name : string) (r : option error)
| OStop (name : string)
| OSubscribe
| OWrite.

Definition observe {X} (e : nodeE X) : X -> list obs :=
  match e in appE X return X -> list obs with
  | AStore _ => fun _ => [OStore]
  | APublish s d m => fun r => [OPublish s d m r]
  | AWait d => fun r => [OWait d r]
  | AModStart n => fun r => [OStart n r]
  | AModStop n => fun _ => [OStop n]
  | ASubscribe _ => fun _ => [OSubscribe]
  | AWrite _ => fun _ => [OWrite]
  | _ => fun _ => []
  end.

(** Every effect may answer anything. *)
Definition any_env : legality nodeE (list obs) := fun X e tr x tr' => tr' = tr ++ observe e x.

#[local] Arguments wp : simpl never.

Lemma wp_any {X A} (e : nodeE X) (k : X -> prog nodeE A) Q tr :
  (forall x, wp any_env (k x) Q (tr ++ observe e x)) -> wp any_env (Vis e k) Q tr.
Proof. intros Hk x tr' ->. apply Hk. Qed.

(** Advance one effect. *)
Ltac estep :=
  unfold update, atomic, perform; cbn [pbind];
  match goal with
  | |- wp _ (Ret _) _ _ => cbv beta delta [wp]; cbn beta iota
  | |- wp _ (Vis _ _) _ _ => apply wp_any; cbn [observe]; intros; rewrite ?app_nil_r
  end; cbn [pbind].

Section App.
Variable a : AppConf (E := E).

(** ** Authorization *)

Variable ParseAddrPort : string -> option string.



(** ** Streaming *)

Variable Decode : Z -> string -> option publishRequest.
Variable Unmarshal : string -> json_value.
Variable Quote : string -> string.
Variable visit : IPLimiter.ipRateLimiter (RL := RL) -> list (string * IPLimiter.ipLimiterEntry).
Variable Marshal : BusMessage -> string.
Variable metrics : Handler (RL := RL) (E := E).

Variable label_ok : string -> bool.

(** The request is refused and nothing outside is touched. *)
Definition refused (tr : list obs) (resp : response) (tr' : list obs) : Prop :=
  400 <= status resp /\ tr' = tr.

Lemma stream_refused w r tr :
  wp any_env (handleStream a Marshal (StatusRecorder w) r) (refused tr) tr.
Proof. unfold handleStream. cbn [is_Flusher negb]. destruct (bus a); cbn [negb]; estep; split; done. Qed.

Lemma refuses_secure scope (next : Handler (RL := RL) (E := E)) w r tr :
  (forall tr, wp any_env (next w r) (refused tr) tr) ->
  wp any_env (secure a ParseAddrPort scope next w r) (refused tr) tr.
Proof.
  intros Hn. unfold secure, deny, auth_IsBlocked, auth_Failure, auth_Success.
  destruct (DisableAPITokenAuth _); [apply Hn|]. estep. destruct x; [estep; by split|].
  destruct (_ && _); [apply Hn|]. destruct (bool_decide _); [estep; estep; by split|].
  apply wp_bind. eapply wp_mono; [|instantiate (1 := (fun _ tr' => tr' = tr))].
  2: { destruct (APITokenExpirations (cfg a) !! _); repeat estep; done. }
  intros expired tr' ->. destruct expired; [estep; estep; by split|].
  destruct (_ && _); [estep; apply Hn|]. destruct (negb _); estep; [estep; by split|apply Hn].
Qed.

(** *** What passes through the middleware

    [P] holds of what the limiters answer and does not depend on headers; the
    middleware itself leaves the outside alone. *)

Section Through.
Variables (P : served -> Prop) (T : list obs -> list obs -> Prop).
Hypothesis HT : forall tr, T tr tr.
Hypothesis Hrefuse : forall m c, c = StatusTooManyRequests \/ c = StatusServiceUnavailable -> P (Done (http_Error m c)).
Hypothesis Hheaders : forall hs v, P v -> P (served_headers hs v).

Definition serves (next : Chain (RL := RL) (E := E)) (r : request) : Prop :=
  forall w tr, wp any_env (next w r) (fun v tr' => P v /\ T tr tr') tr.

(** Passing the answer on after local effects. *)
Lemma serves_after (next : prog nodeE served) (f : served -> prog nodeE served) tr :
  wp any_env next (fun v tr' => P v /\ T tr tr') tr ->
  (forall v tr', P v -> T tr tr' -> wp any_env (f v) (fun v tr' => P v /\ T tr tr') tr') ->
  wp any_env (pbind next f) (fun v tr' => P v /\ T tr tr') tr.
Proof. intros Hn Hf. apply wp_bind. eapply wp_mono; [|exact Hn]. intros v tr' [Hs Ht]. by apply Hf. Qed.

Lemma serves_concurrency next r : serves next r -> serves (withConcurrencyLimit next) r.
Proof.
  intros Hn w tr. unfold withConcurrencyLimit, acquireGuard, releaseGuard. estep.
  destruct x; cbn [negb]; [|estep; auto].
  apply serves_after; [apply Hn|]. intros v tr' Hs Ht. estep. estep. by split.
Qed.

Lemma serves_rate next r : serves next r -> serves (withRateLimit ParseAddrPort visit next) r.
Proof.
  intros Hn w tr. unfold withRateLimit, limiter_Allow. do 3 estep.
  destruct x1; cbn [negb]; [apply Hn|estep; auto].
Qed.

Lemma serves_request_id next r : serves next r -> serves (withRequestID next) r.
Proof.
  intros Hn w tr. unfold withRequestID. apply wp_bind.
  eapply wp_mono; [|instantiate (1 := (fun _ tr' => tr' = tr))].
  2: { unfold newRequestID. case_bool_decide; repeat (estep; try case_match); done. }
  intros rid tr' ->. apply serves_after; [apply Hn|]. intros v tr' Hs Ht. estep. auto.
Qed.

Lemma serves_security next r : serves next r -> serves (withSecurityHeaders a next) r.
Proof. intros Hn w tr. unfold withSecurityHeaders. apply serves_after; [apply Hn|]. intros v tr' Hs Ht. estep. auto. Qed.

Lemma serves_cors next r : r_Method r <> "OPTIONS" -> serves next r -> serves (withCORS a next) r.
Proof.
  intros Hm Hn w tr. unfold withCORS. destruct (negb _); [apply Hn|].
  rewrite bool_decide_false by done. apply serves_after; [apply Hn|]. intros v tr' Hs Ht. estep. auto.
Qed.
End Through.

(** C39: The event stream is never served.  Every GET /stream request is answered
    with an error status and no subscription is made, whatever the
    configuration and the environment: [instrument] hands the handler a
    [statusRecorder], which does not implement [http.Flusher]. *)
Theorem stream_never_served w r tr :
  r_Path r = "/stream" -> r_Method r = "GET" ->
  wp any_env (server a Decode Unmarshal Quote ParseAddrPort visit Marshal label_ok metrics w r)
    (fun resp tr' => 400 <= status resp /\ tr' = tr) tr.
Proof.
  intros Hp Hm. unfold server, withRecovery. apply wp_bind.
  set (P := fun v => match v with Done resp | Panicked _ (Some resp) => 400 <= status resp | Panicked _ None => True end).
  assert (forall hs v, P v -> P (served_headers hs v)) as Hh by (by intros hs [resp|hs' [sent|]]).
  assert (forall m c, c = StatusTooManyRequests \/ c = StatusServiceUnavailable -> P (Done (http_Error m c))) as Hr
    by (by intros m c [-> | ->]).
  eapply wp_mono; [|apply (serves_cors P (fun tr tr' => tr' = tr)); [done|by rewrite Hm|];
    apply serves_security; [done|]; apply serves_request_id; [done|]].
  { intros v tr' [HP ->]. estep. destruct v as [resp|hs [sent|]]; split; done. }
  intros w1 tr1. unfold withRequestTimeout. rewrite Hp, bool_decide_true by done.
  apply (serves_concurrency P (fun tr tr' => tr' = tr)); [done..|].
  apply serves_rate; [done..|]. intros w2 tr2. unfold instrument.
  apply wp_bind. eapply wp_mono; [|instantiate (1 := refused tr2)].
  { intros resp tr' [Hs ->]. destruct (_ && _); repeat estep; done. }
  unfold mux. rewrite Hp. repeat (rewrite bool_decide_false by discriminate).
  rewrite bool_decide_true by done. apply refuses_secure. intros. apply stream_refused.
Qed.

(** C38: A refused metric label turns every answer into an error.  When the
    Prometheus client does not take the path of a request as a label value (it
    is not valid UTF-8), [instrument] panics after the handler has run, and
    [withRecovery] answers 500, whatever the handler answered; only the
    limiters (429, 503) and the timeout (503) answer before.  In any case the
    panic ends at [withRecovery]. *)
Theorem panic_recovered w r tr :
  r_Path r <> "/stream" -> r_Method r <> "OPTIONS" -> label_ok (r_Path r) = false ->
  wp any_env (server a Decode Unmarshal Quote ParseAddrPort visit Marshal label_ok metrics w r)
    (fun resp _ =>
      (status resp = StatusInternalServerError /\ rbody resp = Text "internal server error") \/
      status resp = StatusTooManyRequests \/ status resp = StatusServiceUnavailable) tr.
Proof.
  intros Hp Hm Hl. unfold server, withRecovery. apply wp_bind.
  set (P := fun v => match v with
    | Done resp => status resp = StatusTooManyRequests \/ status resp = StatusServiceUnavailable
    | Panicked _ sent => sent = None end).
  assert (forall hs v, P v -> P (served_headers hs v)) as Hh by (by intros hs [resp|hs' sent]).
  eapply wp_mono; [|apply (serves_cors P (fun _ _ => True)); [done|done|];
    apply serves_security; [done|]; apply serves_request_id; [done|]].
  { intros v tr' [HP _]. estep. destruct v as [resp|hs sent]; [auto|]. cbn in HP. subst sent. by left. }
  intros w1 tr1. unfold withRequestTimeout. rewrite bool_decide_false by done.
  set (P1 := fun v => match v with
    | Done resp => status resp = StatusTooManyRequests \/ status resp = StatusServiceUnavailable
    | Panicked _ _ => True end).
  apply wp_bind. eapply wp_mono; [|apply (serves_concurrency P1 (fun _ _ => True)); [done|by intros m c|];
    apply serves_rate; [done|by intros m c|]].
  { intros v tr' [HP _]. estep. estep. destruct x; [split; [by right|done]|]. destruct v; by split. }
  intros w2 tr2. unfold instrument. apply wp_bind. eapply wp_mono; [|apply wp_exec; by intros].
  intros resp tr' _. rewrite Hl. cbn [andb]. estep. done.
Qed.

(** ** Followers *)

(** Another node leads: the coordinator never says that this one does. *)
Definition follower_env : legality nodeE (list obs) := fun X e tr x tr' =>
  any_env X e tr x tr' /\
  match e in appE X return X -> Prop with AIsLeader => fun b => b = false | _ => fun _ => True end x.

(** C22: A follower stays out of the way.  While the coordinator reports another
    leader, a tick of the outbox relay touches neither the store nor the bus;
    and when writes require the leader, a publish request (with a bus and a
    store configured) is rejected with 503 before its body is read, and touches
    neither. *)
Theorem follower_is_silent r :
  coord a = true ->
  wp follower_env (relay_tick a) (fun _ tr => tr = []) [] /\
  (RequireLeaderForWrites (cfg a) = true -> bus a = true -> store a <> None ->
   wp follower_env (publish_event a Decode Unmarshal Quote r)
     (fun resp tr => status resp = StatusServiceUnavailable /\ tr = []) []).
Proof.
  intros Hc. split.
  - unfold relay_tick, atomic, perform. cbn [pbind]. intros paused tr [-> _]. cbn [observe app].
    destruct paused; [done|]. rewrite Hc. cbn [pbind]. intros leads tr' [-> ->]. done.
  - intros Hl Hb Hs. unfold publish_event. rewrite Hb, Hl, Hc. destruct (store a); [|done]. cbn [negb orb andb].
    unfold perform. cbn [pbind]. intros leads tr [-> ->]. cbn [negb pbind]. by intros leader tr' [-> _].
Qed.

(** ** Publishing with retries *)

(** The outcomes of the bus calls in a trace. *)
Definition outcomes (tr : list obs) : list (result string) :=
  omap (fun o => match o with OPublish _ _ _ r => Some r | _ => None end) tr.
Definition waits (tr : list obs) : list duration :=
  omap (fun o => match o with OWait d _ => Some d | _ => None end) tr.

(** The waits of the loop: [wait], doubled and capped each time. *)
Fixpoint wait_seq (n : nat) (wait mx : duration) : list duration :=
  match n with
  | O => []
  | S n' => wait :: wait_seq n' (let w := wrap64 (wait * 2) in if w >? mx then mx else w) mx
  end.

(** The wait before the [k+1]-th retry: the first is not capped. *)
Definition retry_wait (backoff mx : duration) (k : nat) : duration :=
  match k with O => backoff | _ => Z.min mx (backoff * 2 ^ Z.of_nat k) end.

Lemma wait_seq_closed n wait mx k d :
  0 < wait <= 2 ^ 61 -> 0 < mx <= 2 ^ 61 -> wait_seq n wait mx !! k = Some d -> d = retry_wait wait mx k.
Proof.
  revert wait k. induction n as [|n IH]; intros wait k Hw Hm; cbn [wait_seq]; [done|].
  destruct k as [|k]; cbn [lookup list_lookup]; [by intros [= <-]|].
  rewrite wrap64_id by (unfold in_int64, int_min, int_max; lia). intros Hk.
  assert (1 <= 2 ^ Z.of_nat k) by (pose proof (Z.pow_pos_nonneg 2 (Z.of_nat k)); lia).
  apply IH in Hk; [|destruct (_ >? _) eqn:Eg; zify_bools; lia|done]. subst d.
  unfold retry_wait at 2.
  replace (2 ^ Z.of_nat (S k)) with (2 * 2 ^ Z.of_nat k) by (rewrite Nat2Z.inj_succ, Z.pow_succ_r; lia).
  destruct k as [|k]; cbn [retry_wait]; destruct (_ >? _) eqn:Eg; zify_bools; change (2 ^ Z.of_nat 0) with 1; nia.
Qed.

(** What the loop with [n + 1] attempts left adds to the trace. *)
Definition retry_post (n : nat) (wait : duration) (tr : list obs) (r : result string) (tr' : list obs) : Prop :=
  exists new, tr' = tr ++ new /\ (length (outcomes new) <= S n)%nat /\
    (waits new `prefix_of` wait_seq n wait (publish_max_backoff a)) /\
    match r with
    | Ok b => exists errs, outcomes new = errs ++ [Ok b] /\ Forall (fun o => is_ok o = false) errs
    | Err _ => Forall (fun o => is_ok o = false) (outcomes new)
    end.

Lemma busPublish_any sub pay mid tr :
  wp any_env (busPublish a sub pay mid) (fun r tr' => exists new, tr' = tr ++ new /\ waits new = [] /\
    match r with
    | Ok b => outcomes new = [Ok b]
    | Err _ => (length (outcomes new) <= 1)%nat /\ Forall (fun o => is_ok o = false) (outcomes new)
    end) tr.
Proof.
  unfold busPublish, guarded, brk_Allow, brk_Failure, brk_Success. destruct (negb (bus a)).
  { estep. exists []. rewrite app_nil_r. cbn. split_and!; [done|done|lia|constructor]. }
  estep. destruct x; cbn [negb].
  - estep. destruct x as [b|e]; cbn [pbind]; estep; estep.
    + eexists. split; [done|]. by cbn.
    + eexists. split; [done|]. cbn. split_and!; [done|lia|by repeat constructor].
  - estep. exists []. rewrite app_nil_r. cbn. split_and!; [done|done|lia|constructor].
Qed.

Lemma outcomes_app tr tr' : outcomes (tr ++ tr') = outcomes tr ++ outcomes tr'.
Proof. apply omap_app. Qed.
Lemma waits_app tr tr' : waits (tr ++ tr') = waits tr ++ waits tr'.
Proof. apply omap_app. Qed.

Lemma publish_loop_any n wait sub pay mid tr :
  wp any_env (publish_loop a n wait sub pay mid) (retry_post n wait tr) tr.
Proof.
  revert wait tr. induction n as [|n IH]; intros wait tr; cbn [publish_loop]; apply wp_bind;
    (eapply wp_mono; [|apply busPublish_any]); intros [b|e] tr1 (new & -> & Hw & Ho).
  1,3: estep; exists new; rewrite Hw, Ho; cbn; split_and!; [done|lia|apply prefix_nil|by exists []].
  - destruct Ho as [Hl Ho]. estep. estep. exists new. rewrite Hw.
    split_and!; [done|lia|apply prefix_nil|done].
  - destruct Ho as [Hl Ho]. estep. estep. destruct x0 as [ctxErr|].
    + estep. exists (new ++ [OWait wait (Some ctxErr)]). rewrite app_assoc, outcomes_app, waits_app, Hw. cbn.
      rewrite app_nil_r. split_and!; [done|lia|apply prefix_cons, prefix_nil|done].
    + eapply wp_mono; [|apply IH]. intros r tr2 (new2 & -> & Hl2 & Hw2 & Hr).
      exists (new ++ OWait wait None :: new2).
      rewrite outcomes_app, waits_app, Hw.
      change (outcomes (OWait wait None :: new2)) with (outcomes new2).
      change ([] ++ waits (OWait wait None :: new2)) with (wait :: waits new2).
      split_and!; [by rewrite <- !app_assoc|rewrite length_app; lia|by apply prefix_cons|].
      destruct r as [b|e'].
      * destruct Hr as (errs & -> & He). exists (outcomes new ++ errs). rewrite app_assoc.
        split; [done|by apply Forall_app].
      * by apply Forall_app.
Qed.

(** C15: Publishing retries are bounded and stop at the first success.  In every
    environment [publishWithRetry] makes at most [max(1, PublishRetryMax)] bus
    calls; a success is the last of them and its broker id is the answer; a
    failure means that no call succeeded; and, for a backoff and a maximum of
    at most 2^61 ns, the wait before the first retry is the backoff, also when
    that is above the maximum, and the wait before the (k+1)-th retry, k >= 1,
    is [min(max, backoff * 2^k)]. *)
Theorem publish_retry_bounded sub pay mid :
  wp any_env (publishWithRetry a sub pay mid) (fun r tr =>
    Z.of_nat (length (outcomes tr)) <= Z.max 1 (PublishRetryMax (cfg a)) /\
    match r with
    | Ok b => exists errs, outcomes tr = errs ++ [Ok b] /\ Forall (fun o => is_ok o = false) errs
    | Err _ => Forall (fun o => is_ok o = false) (outcomes tr)
    end /\
    (publish_backoff a <= 2 ^ 61 -> publish_max_backoff a <= 2 ^ 61 ->
     forall k d, waits tr !! k = Some d -> d = retry_wait (publish_backoff a) (publish_max_backoff a) k)) [].
Proof.
  unfold publishWithRetry. eapply wp_mono; [|apply publish_loop_any].
  intros r tr (new & -> & Hl & Hw & Hr). cbn [app]. split_and!; [|done|].
  - unfold publish_attempts in Hl. destruct (_ <=? 0) eqn:E0; zify_bools; lia.
  - intros Hb Hm k d Hk. eapply wait_seq_closed.
    + split; [|done]. unfold publish_backoff in *. destruct (_ <=? 0) eqn:E0; zify_bools; [|lia].
      unfold Millisecond. lia.
    + split; [|done]. unfold publish_max_backoff in *. destruct (_ <=? 0) eqn:E0; zify_bools; [|lia].
      unfold Second, Millisecond. lia.
    + destruct Hw as [rest ->]. by apply lookup_app_l_Some.
Qed.

(** ** Validation *)


(** ** Starting and stopping *)

(** The start attempts and stops of a trace. *)
Definition starts (tr : list obs) : list (string * option error) :=
  omap (fun o => match o with OStart n r => Some (n, r) | _ => None end) tr.
Definition stops (tr : list obs) : list string :=
  omap (fun o => match o with OStop n => Some n | _ => None end) tr.

Lemma starts_app tr tr' : starts (tr ++ tr') = starts tr ++ starts tr'.
Proof. apply omap_app. Qed.
Lemma stops_app tr tr' : stops (tr ++ tr') = stops tr ++ stops tr'.
Proof. apply omap_app. Qed.

(** [k] failed attempts for a module, then a success. *)
Definition attempt_run (name : string) (n : nat) (ok : bool) (l : list (string * option error)) : Prop :=
  exists es, (length es <= n)%nat /\ l = map (fun e => (name, Some e)) es ++ (if ok then [(name, None)] else []).

Lemma start_loop_any n wait name tr :
  wp any_env (start_loop n wait name) (fun r tr' => exists new, tr' = tr ++ new /\ stops new = [] /\
    (forall d, d ∈ waits new -> d <= Z.max wait (10 * Second)) /\
    match r with
    | None => attempt_run name n true (starts new)
    | Some _ => attempt_run name (S n) false (starts new)
    end) tr.
Proof.
  revert wait tr. induction n as [|n IH]; intros wait tr; cbn [start_loop]; estep.
  - destruct x as [e|]; estep; eexists; (split; [done|]); cbn; split_and!; [done|set_solver| |done|set_solver|].
    + exists [e]. cbn. split; [lia|done].
    + exists []. cbn. split; [lia|done].
  - destruct x as [e|].
    + estep. destruct x as [ce|].
      * estep. exists [OStart name (Some e); OWait wait (Some ce)].
        rewrite <- app_assoc. cbn. split_and!; [done|done| |exists [e]; cbn; split; [lia|done]].
        intros d Hd. apply list_elem_of_singleton in Hd as ->. lia.
      * eapply wp_mono; [|apply IH]. cbn beta. intros r tr1 (new & -> & Hs & Hw & Hr).
        exists (OStart name (Some e) :: OWait wait None :: new).
        change (starts (OStart name (Some e) :: OWait wait None :: new)) with ((name, Some e) :: starts new).
        change (waits (OStart name (Some e) :: OWait wait None :: new)) with (wait :: waits new).
        split_and!; [by rewrite <- !app_assoc|exact Hs| |].
        -- intros d [->|Hd]%elem_of_cons; [lia|]. specialize (Hw d Hd).
           destruct (wait <? 10 * Second) eqn:E1; zify_bools; [|lia].
           destruct (_ >? _) eqn:E2; zify_bools; lia.
        -- destruct r as [e'|]; destruct Hr as (es & Hl & ->); exists (e :: es); cbn; split; [lia|done|lia|done].
    + estep. eexists. split; [done|]. cbn. split_and!; [done|set_solver|]. exists []. cbn. split; [lia|done].
Qed.

Definition max_attempts : Z := Z.max 1 (ModuleStartRetryMax (cfg a)).

(** Attempts of a whole start sequence: a run for each module in order. *)
Inductive start_run : list (Module_ (E := E)) -> bool -> list (string * option error) -> Prop :=
| sr_nil : start_run [] true []
| sr_ok m ms ok l l' : attempt_run (m_Name m) (Z.to_nat (max_attempts - 1)) true l ->
    start_run ms ok l' -> start_run (m :: ms) ok (l ++ l')
| sr_fail m ms l : attempt_run (m_Name m) (Z.to_nat max_attempts) false l -> start_run (m :: ms) false l.

Lemma start_modules_any ms tr :
  wp any_env (start_modules a ms) (fun r tr' => exists new, tr' = tr ++ new /\ stops new = [] /\
    start_run ms (match r with None => true | Some _ => false end) (starts new)) tr.
Proof.
  revert tr. induction ms as [|m ms IH]; intros tr; cbn [start_modules].
  { estep. exists []. rewrite app_nil_r. split_and!; [done|done|constructor]. }
  apply wp_bind. eapply wp_mono; [|apply start_loop_any]. intros r tr1 (new & -> & Hs & _ & Hr).
  rewrite gomax_max in Hr. fold max_attempts in Hr.
  destruct r as [e|].
  - estep. exists new. split_and!; [done|done|]. apply sr_fail.
    replace (Z.to_nat max_attempts) with (S (Z.to_nat (max_attempts - 1))) by (unfold max_attempts; lia). done.
  - eapply wp_mono; [|apply IH]. intros r tr2 (new2 & -> & Hs2 & Hr2).
    exists (new ++ new2). rewrite app_assoc, stops_app, Hs, Hs2, starts_app. split_and!; [done|done|].
    by apply sr_ok.
Qed.

Lemma stop_modules_any ms tr :
  wp any_env (stop_modules (RL := RL) ms) (fun _ tr' => tr' = tr ++ map (fun m => OStop (m_Name m)) ms) tr.
Proof.
  revert tr. induction ms as [|m ms IH]; intros tr; cbn [stop_modules].
  - estep. by rewrite app_nil_r.
  - estep. eapply wp_mono; [|apply IH]. intros ? tr1 ->. by rewrite <- app_assoc.
Qed.

(** C24: Modules start in order and stop in reverse.  In every environment [Run]
    starts the modules one after the other, each with at most
    [max(1, ModuleStartRetryMax)] attempts and the next only after the previous
    one succeeded; it returns without error only if all of them started, and
    then every module is stopped exactly once, in the reverse order. *)
Theorem run_starts_and_stops :
  wp any_env (Run a) (fun r tr =>
    (exists ok, start_run (modules a) ok (starts tr) /\ (r = None -> ok = true)) /\
    (r = None -> stops tr = reverse (map m_Name (modules a))) /\
    (r <> None -> stops tr = [])) [].
Proof.
  unfold Run. apply wp_bind. eapply wp_mono; [|apply start_modules_any].
  intros r tr (new & -> & Hs & Hr). cbn [app]. destruct r as [e|].
  { estep. split_and!; [by exists false|done|done]. }
  estep. apply wp_bind. eapply wp_mono; [|instantiate (1 := (fun _ tr' => tr' = new))].
  2: { destruct (store a); [destruct (bus a)|]; repeat estep; done. }
  intros _ tr' ->. apply wp_bind. eapply wp_mono; [|instantiate (1 := (fun _ tr' => tr' = new))].
  2: { destruct (advanced a); repeat estep; done. }
  intros _ tr' ->. estep. destruct x0 as [e|].
  - estep. split_and!; [by exists true|done|done].
  - apply wp_bind. eapply wp_mono; [|apply stop_modules_any]. intros _ tr' ->. estep.
    assert (forall ms, starts (map (fun m => OStop (m_Name (E := E) m)) ms) = [] /\
      stops (map (fun m => OStop (m_Name (E := E) m)) ms) = map m_Name ms) as Hstop.
    { induction ms as [|m ms [I1 I2]]; [done|]. split; [exact I1|].
      cbn [map]. change (stops (OStop (m_Name m) :: ?l)) with (m_Name m :: stops l). by rewrite I2. }
    destruct (Hstop (reverse (modules a))) as [H1 H2].
    rewrite starts_app, stops_app, H1, H2, Hs, app_nil_r. cbn. split_and!; [by exists true| |done].
    intros _. by rewrite <- fmap_reverse.
Qed.
End App.
End Env.

(** ** A concrete node

    The default configuration with one admin token, a bus and no store. *)

Definition demo_vars (k : string) : string :=
  if bool_decide (k = "API_ACL_ADMIN_TOKENS") then "root-token" else "".
Definition demo_conf : AppConf (E := fun _ => Empty_set) :=
  New_conf (FromEnv demo_vars None) [mkModule "natsbus" true false None].
Definition demo_get (path token : string) : request :=
  mkRequest "GET" path "10.0.0.1:5000"
    (fun k => if bool_decide (k = "Authorization") then "Bearer " +:+ token else "") (fun _ => "") "".


(** A node with a bus, the Cassandra store and a coordinator, which must lead to
    write. *)
Definition follower_conf : AppConf (E := storeE) :=
  New_conf (FromEnv (fun k => if bool_decide (k = "REQUIRE_LEADER_FOR_WRITES") then "true" else "") None)
    [mkModule "natsbus" true false None; mkModule "etcdcoord" false true None;
     mkModule "cassstore" false false (Some (CassStore.cass_store (fun s => s) StoreInv.demo_module))].

Definition follower_post (path body : string) : request :=
  mkRequest "POST" path "10.0.0.1:5000" (fun _ => "") (fun _ => "") body.

Lemma follower_is_silent_witness :
  store follower_conf <> None /\
  wp (follower_env (RL := IPLimiter.countdown)) (relay_tick follower_conf) (fun _ tr => tr = []) [] /\
  wp (follower_env (RL := IPLimiter.countdown))
    (publish_event follower_conf (fun _ _ => None) (fun _ => Invalid) (fun s => s) (follower_post "/events" "{}"))
    (fun resp tr => status resp = StatusServiceUnavailable /\ tr = []) [].
Proof.
  assert (store follower_conf <> None) as Hs by discriminate.
  destruct (follower_is_silent (RL := IPLimiter.countdown) follower_conf (fun _ _ => None) (fun _ => Invalid)
    (fun s => s) (follower_post "/events" "{}")) as [H1 H2]; [vm_compute; reflexivity|].
  split; [exact Hs|]. split; [exact H1|].
  apply H2; [vm_compute; reflexivity|vm_compute; reflexivity|exact Hs].
Defined.

(** A client that takes ASCII text as label values. *)
Definition ascii_label (v : string) : bool := GoStrings.all_chars (fun c => (Ascii.nat_of_ascii c <? 128)%nat) v.

Lemma stream_never_served_witness :
  wp any_env (server (RL := IPLimiter.countdown) demo_conf (fun _ _ => None) (fun _ => Invalid) (fun s => s)
      (fun _ => None) IPLimiter.by_key (fun _ => "") ascii_label (fun _ _ => Ret (mkResponse [] 200 NoBody))
      ServerWriter (demo_get "/stream" "root-token"))
    (fun resp tr' => 400 <= status resp /\ tr' = []) [].
Proof.
  apply (stream_never_served demo_conf (fun _ => None) (fun _ _ => None) (fun _ => Invalid) (fun s => s)
    IPLimiter.by_key (fun _ => "") (fun _ _ => Ret (mkResponse [] 200 NoBody)) ascii_label ServerWriter
    (demo_get "/stream" "root-token") []); reflexivity.
Defined.

(** GET /%ff *)
Definition bad_path : string := String (Ascii.ascii_of_nat 47) (String (Ascii.ascii_of_nat 255) "").

Lemma panic_recovered_witness :
  wp any_env (server (RL := IPLimiter.countdown) demo_conf (fun _ _ => None) (fun _ => Invalid) (fun s => s)
      (fun _ => None) IPLimiter.by_key (fun _ => "") ascii_label (fun _ _ => Ret (mkResponse [] 200 NoBody))
      ServerWriter (demo_get bad_path "root-token"))
    (fun resp _ =>
      (status resp = StatusInternalServerError /\ rbody resp = Text "internal server error") \/
      status resp = StatusTooManyRequests \/ status resp = StatusServiceUnavailable) [].
Proof.
  apply (panic_recovered demo_conf (fun _ => None) (fun _ _ => None) (fun _ => Invalid) (fun s => s)
    IPLimiter.by_key (fun _ => "") (fun _ _ => Ret (mkResponse [] 200 NoBody)) ascii_label ServerWriter
    (demo_get bad_path "root-token") []); [discriminate|discriminate|reflexivity].
Defined.
End AppThms.
