(* ===== verification/Lanes.v ===== *)
(** * A node on its own: open circuits and request lanes

    Here the shared state of the application is real: a critical section
    changes it as the code does, at any clock reading in [P].  Everything
    outside (store, bus, other modules) still answers anything. *)

From S2P Require Import Prelude Prog Contracts GoStrings Config Breaker Limits App Handlers AppThms.

Module Lanes.
Import GoStrings Config Limits App Handlers AppThms.

Section Node.
Context {RL : RateLimiter} {E : Type -> Type}.
Abbreviation nodeE := (appE (RL := RL) (E := E)).
Abbreviation nstate := (AppState (RL := RL) * list obs)%type.

Definition node_env (P : gotime -> Prop) : legality nodeE nstate := fun X e =>
  match e in appE X return nstate -> X -> nstate -> Prop with
  | AAtomic f => fun s x s' => exists now, P now /\ f now s.1 = (x, s'.1) /\ s'.2 = s.2
  | e' => fun s x s' => s'.1 = s.1 /\ s'.2 = s.2 ++ observe e' x
  end.

#[local] Arguments wp : simpl never.

Lemma wp_atomic {X A} P (f : gotime -> AppState -> X * AppState) (k : X -> prog nodeE A) Q s :
  (forall now, P now -> wp (node_env P) (k (f now s.1).1) Q ((f now s.1).2, s.2)) ->
  wp (node_env P) (Vis (AAtomic f) k) Q s.
Proof.
  intros Hk x [s1 tr1] (now & Hn & Hf & Htr). cbn in *. subst tr1.
  specialize (Hk now Hn). by rewrite Hf in Hk.
Qed.

(** ** Open circuits *)

Section App.
Variable a : AppConf (E := E).

(** The breaker of [p] is open and [now] lies before the end of its pause. *)
Definition circuit_open (p : part) (s : nstate) (now : gotime) : Prop :=
  exists b, get_breaker p s.1 = Some b /\ Breaker.state b = Breaker.breakerOpen /\
    Since now (Breaker.openedAt b) < Breaker.openDuration b.

Lemma guarded_open {A} p msg (call : prog nodeE (result A)) s :
  wp (node_env (circuit_open p s)) (guarded p msg call) (fun r s' => r = Err (newError msg) /\ s' = s) s.
Proof.
  unfold guarded, brk_Allow, atomic, perform. cbn [pbind]. apply wp_atomic.
  intros now (b & Hb & Hst & Hlt). rewrite Hb. unfold Breaker.Allow. rewrite Hst.
  destruct (_ >=? _) eqn:Eg; zify_bools; [lia|]. cbn [fst snd negb].
  assert (set_breaker p b s.1 = s.1) as ->.
  { destruct s as [[] tr], p; cbn in *; simplify_eq; try done. by rewrite insert_id. }
  split; [done|by destruct s].
Qed.

(** C23: An open circuit isolates the dependency.  While the store's breaker is
    open and its pause has not passed, each of the five store wrappers answers
    [cassandra circuit open] at once: no statement is sent and no state
    changes; likewise [busPublish] and the bus's breaker. *)
Theorem circuit_open_isolates st ev eid broker limit consumer mid stream sub pay (s : nstate) :
  store a = Some st -> bus a = true ->
  let open_err {A} : result A := Err (newError "cassandra circuit open") in
  wp (node_env (circuit_open PStore s)) (storeAppendEventExactlyOnce a ev) (fun r s' => r = open_err /\ s' = s) s /\
  wp (node_env (circuit_open PStore s)) (storeMarkOutboxPublished a eid broker)
    (fun r s' => r = Some (newError "cassandra circuit open") /\ s' = s) s /\
  wp (node_env (circuit_open PStore s)) (storePendingOutboxEvents a limit) (fun r s' => r = open_err /\ s' = s) s /\
  wp (node_env (circuit_open PStore s)) (storeClaimInboxMessage a consumer mid) (fun r s' => r = open_err /\ s' = s) s /\
  wp (node_env (circuit_open PStore s)) (storeRecentEvents a stream limit) (fun r s' => r = open_err /\ s' = s) s /\
  wp (node_env (circuit_open PBus s)) (busPublish a sub pay mid)
    (fun r s' => r = Err (newError "nats circuit open") /\ s' = s) s.
Proof.
  intros Hst Hbus. cbn zeta.
  unfold storeAppendEventExactlyOnce, storeMarkOutboxPublished, storePendingOutboxEvents, storeClaimInboxMessage,
    storeRecentEvents, busPublish. rewrite Hst, Hbus. cbn [negb].
  split_and!; try apply guarded_open.
  apply wp_bind. eapply wp_mono; [|apply guarded_open]. intros r s' [-> ->]. by split.
Qed.

(** ** Lanes *)

Definition lanes (s : AppState (RL := RL)) : chan * chan * chan := (guard s, pubGuard s, queryGuard s).

Definition lane_ok (c : chan) : Prop := 0 <= ch_len c <= ch_cap c.
Definition lanes_ok (s : AppState (RL := RL)) : Prop := forall l, lane_ok (get_lane l s).

(** The program leaves the lanes as it found them, whatever the clock and the
    outside answer. *)
Definition balanced {A} (p : prog nodeE A) : Prop :=
  forall s, lanes_ok s.1 -> wp (node_env (fun _ => True)) p (fun _ s' => lanes s'.1 = lanes s.1) s.

Lemma lanes_ok_eq s s' : lanes s' = lanes s -> lanes_ok s -> lanes_ok s'.
Proof.
  intros [= E1 E2 E3] H l. pose proof (H l) as Hl. unfold lane_ok in *.
  destruct l; cbn [get_lane] in *; by rewrite ?E1, ?E2, ?E3.
Qed.

Lemma bal_ret {A} (x : A) : balanced (Ret x).
Proof. intros s _. done. Qed.

Lemma bal_bind {A B} (p : prog nodeE A) (f : A -> prog nodeE B) :
  balanced p -> (forall x, balanced (f x)) -> balanced (pbind p f).
Proof.
  intros Hp Hf s Hs. apply wp_bind. eapply wp_mono; [|by apply Hp]. intros x s' Hl.
  eapply wp_mono; [|apply Hf; exact (lanes_ok_eq _ _ Hl Hs)]. cbn beta. intros. congruence.
Qed.

Lemma bal_atomic {X} (f : gotime -> AppState -> X * AppState) :
  (forall now s, lanes (f now s).2 = lanes s) -> balanced (atomic f).
Proof. intros Hf s Hs. unfold atomic, perform. apply wp_atomic. intros now _. apply Hf. Qed.

(** Effects other than critical sections. *)
Definition outside {X} (e : nodeE X) : Prop := match e with AAtomic _ => False | _ => True end.

Lemma bal_outside {X A} (e : nodeE X) (k : X -> prog nodeE A) :
  outside e -> (forall x, balanced (k x)) -> balanced (Vis e k).
Proof.
  intros He Hk s Hs x s' HL. assert (s'.1 = s.1) as E1 by (destruct e; naive_solver).
  eapply wp_mono; [|apply Hk; by rewrite E1]. cbn beta. intros. by rewrite E1 in *.
Qed.

Lemma bal_lift {A} (p : prog E A) : balanced (lift p).
Proof. induction p as [x|X e k IH]; cbn [lift]; [apply bal_ret|by apply bal_outside]. Qed.

Lemma lanes_breaker p b s : lanes (set_breaker p b s) = lanes s.
Proof. by destruct s, p. Qed.

#[local] Instance lane_eq_dec : EqDecision lane.
Proof. solve_decision. Defined.

(** A section between a granted acquire and its release. *)
Lemma bal_section {A} l (refuse : A) (body : prog nodeE A) :
  balanced body ->
  balanced (let! ok := acquireGuard l in
            if negb ok then Ret refuse else
            let! resp := body in let! _ := releaseGuard l in Ret resp).
Proof.
  intros Hb s Hs. unfold acquireGuard, releaseGuard, update, atomic, perform. cbn [pbind].
  apply wp_atomic. intros now _. unfold Guard.acquireGuard.
  pose proof (Hs l) as Hl. unfold lane_ok in Hl.
  destruct (ch_len (get_lane l s.1) <? ch_cap (get_lane l s.1)) eqn:El; zify_bools; cbn [fst snd negb].
  2: { destruct s as [[] tr], l; cbn;
         match goal with |- context [mkChan (ch_cap ?c) (ch_len ?c)] => by destruct c end. }
  apply wp_bind. eapply wp_mono; [|apply Hb].
  2: { intros l'. pose proof (Hs l') as Hl2. unfold lane_ok in *.
       destruct s as [[] tr], l, l'; cbn in *; lia. }
  intros resp s' Hl'. apply wp_atomic. intros now' _. cbn [fst snd].
  assert (get_lane l s'.1 = mkChan (ch_cap (get_lane l s.1)) (ch_len (get_lane l s.1) + 1)) as Hg.
  { unfold lanes in Hl'. destruct s as [[] tr], l; cbn in *; congruence. }
  rewrite Hg. unfold Guard.releaseGuard. cbn. destruct (_ >? 0) eqn:E0; zify_bools; [|lia].
  replace (ch_len (get_lane l s.1) + 1 - 1) with (ch_len (get_lane l s.1)) by lia.
  unfold lanes in *. destruct s as [[] tr], s' as [[] tr'], l; cbn in *; simplify_eq/=;
    match goal with |- context [mkChan (ch_cap ?c) (ch_len ?c)] => by destruct c end.
Qed.

Ltac lanes_tac :=
  intros; repeat case_match; cbn; rewrite ?lanes_breaker; try done;
  match goal with s : AppState |- _ => by destruct s end.

Ltac bal :=
  repeat match goal with
  | |- balanced (Ret _) => apply bal_ret
  | |- balanced (pbind _ _) => apply bal_bind; [|intros]
  | |- balanced (lift _) => apply bal_lift
  | |- balanced (perform (AAtomic _)) => fail
  | |- balanced (perform _) => apply bal_outside; [exact I|intros; apply bal_ret]
  | |- balanced (atomic _) => apply bal_atomic; lanes_tac
  | |- balanced (update _) => apply bal_atomic; lanes_tac
  | |- balanced (if ?b then _ else _) => destruct b
  | |- balanced (match ?x with _ => _ end) => destruct x
  end.

Lemma bal_guarded {A} p msg (call : prog nodeE (result A)) : balanced call -> balanced (guarded p msg call).
Proof. intros Hc. unfold guarded, brk_Allow, brk_Failure, brk_Success. bal; exact Hc. Qed.

Lemma bal_publish n wait sub pay mid : balanced (publish_loop a n wait sub pay mid).
Proof.
  revert wait. induction n as [|n IH]; intros wait; cbn [publish_loop]; unfold busPublish; bal; try apply IH;
    apply bal_guarded; bal.
Qed.

Lemma bal_failure eid e : balanced (recordOutboxFailure a eid e).
Proof. unfold recordOutboxFailure. bal. Qed.

Lemma bal_mark eid b : balanced (storeMarkOutboxPublished a eid b).
Proof. unfold storeMarkOutboxPublished. bal; apply bal_guarded; bal. Qed.

Variable Decode : Z -> string -> option publishRequest.
Variable Unmarshal : string -> json_value.
Variable Quote : string -> string.
Variable ParseAddrPort : string -> option string.
Variable visit : IPLimiter.ipRateLimiter (RL := RL) -> list (string * IPLimiter.ipLimiterEntry).
Variable Marshal : BusMessage -> string.
Variable label_ok : string -> bool.
Variable metrics : Handler (RL := RL) (E := E).

Lemma bal_publish_event r : balanced (publish_event a Decode Unmarshal Quote r).
Proof.
  unfold publish_event, publish_body, publish_stored, publishWithRetry, subject_Allow, storeAppendEventExactlyOnce.
  bal; try apply bal_publish; try apply bal_failure; try apply bal_mark; apply bal_guarded; bal.
Qed.

Definition bal_handler (next : Handler (RL := RL) (E := E)) : Prop := forall w r, balanced (next w r).

Lemma bal_events : bal_handler (handleEvents a Decode Unmarshal Quote).
Proof.
  intros w r. unfold handleEvents. case_bool_decide; [|case_bool_decide; [|apply bal_ret]].
  - apply bal_section, bal_publish_event.
  - apply bal_section. unfold list_events, storeRecentEvents. bal; apply bal_guarded; bal.
Qed.

Lemma bal_health : bal_handler (handleHealth a).
Proof.
  intros w r. unfold handleHealth. apply bal_bind; [|intros; bal].
  induction (modules a) as [|m ms IH]; cbn [check_modules]; [apply bal_ret|].
  apply bal_bind; [unfold check_module, brk_Allow, brk_Failure, brk_Success; bal|].
  intros st. apply bal_bind; [exact IH|]. intros. bal.
Qed.

Lemma bal_stream : bal_handler (handleStream a Marshal).
Proof.
  intros w r. unfold handleStream. bal.
  match goal with |- balanced (stream_loop _ _ _ ?l) => induction l as [|msg msgs IH] end; cbn [stream_loop]; bal;
    try exact IH. unfold storeClaimInboxMessage. bal. apply bal_guarded. bal.
Qed.

Lemma bal_secure scope next : bal_handler next -> bal_handler (secure a ParseAddrPort scope next).
Proof.
  intros Hn w r. unfold secure, deny, auth_IsBlocked, auth_Failure, auth_Success.
  destruct (DisableAPITokenAuth (cfg a)); [apply Hn|]. bal; apply Hn.
Qed.

Lemma bal_mux : bal_handler metrics ->
  bal_handler (mux a Decode Unmarshal Quote ParseAddrPort Marshal metrics).
Proof.
  intros Hm w r. unfold mux.
  repeat (case_bool_decide; [try (apply bal_secure; intros ? ?)|]);
    try apply Hm; try apply bal_health; try apply bal_events; try apply bal_stream.
  all: unfold handleLive, handleStartup, handleLeader, handleDeadLetters, handleReplayDeadLetter,
    handleOutboxRelayAdmin, load_paused; bal.
Qed.

(** C21: No request leaks a lane.  Whatever a request is, whatever the clock, the
    store and the bus answer, and on whichever branch, error or panic the
    handlers leave, once the request's handler has ended (a timed-out handler
    may end after its response was sent) the global guard and the publish and
    query lanes hold exactly the tokens they held before the request. *)
Theorem server_releases_lanes w r s :
  (forall w r, exists resp, metrics w r = Ret resp) -> lanes_ok s.1 ->
  wp (node_env (fun _ => True))
    (server a Decode Unmarshal Quote ParseAddrPort visit Marshal label_ok metrics w r)
    (fun _ s' => lanes s'.1 = lanes s.1) s.
Proof.
  intros Hm Hs. revert s Hs. change (balanced (server a Decode Unmarshal Quote ParseAddrPort visit Marshal label_ok metrics w r)).
  assert (bal_handler (mux a Decode Unmarshal Quote ParseAddrPort Marshal metrics)) as Hmux.
  { apply bal_mux. intros w1 r1. destruct (Hm w1 r1) as [resp ->]. apply bal_ret. }
  assert (forall w r, balanced (withConcurrencyLimit (withRateLimit ParseAddrPort visit
    (instrument label_ok (mux a Decode Unmarshal Quote ParseAddrPort Marshal metrics))) w r)) as Hinner.
  { intros w1 r1. apply bal_section. unfold withRateLimit, instrument, limiter_Allow. bal. apply Hmux. }
  unfold server, withRecovery, withCORS, withSecurityHeaders, withRequestID, withRequestTimeout, newRequestID.
  bal; apply Hinner.
Qed.
End App.
End Node.

(** ** A concrete node: its store answers nothing but an error *)

Definition dead_store : EventStore (fun _ => Empty_set) :=
  mkEventStore _ (fun _ => Ret (Err (newError "down"))) (fun _ _ => Ret (Some (newError "down")))
    (fun _ => Ret (Err (newError "down"))) (fun _ _ => Ret (Err (newError "down")))
    (fun _ _ => Ret (Err (newError "down"))) None.
Definition dead_modules : list (Module_ (E := fun _ => Empty_set)) :=
  [mkModule "natsbus" true false None; mkModule "cassstore" false false (Some dead_store)].
Definition dead_conf : AppConf (E := fun _ => Empty_set) := New_conf (FromEnv demo_vars None) dead_modules.
Definition dead_state : AppState (RL := IPLimiter.countdown) := New_state 0 (FromEnv demo_vars None) dead_modules.

(** Both breakers were opened by failures at time 5. *)
Definition open_state : AppState (RL := IPLimiter.countdown) :=
  let trip := fun p s => match get_breaker p s with
                         | Some b => set_breaker p (Nat.iter 5 (Breaker.Failure 5) b) s | None => s end in
  trip PStore (trip PBus dead_state).

Lemma circuit_open_isolates_witness :
  circuit_open PStore (open_state, []) 6 /\
  wp (node_env (circuit_open PStore (open_state, []))) (storeRecentEvents dead_conf "orders" 10)
    (fun r s' => r = Err (newError "cassandra circuit open") /\ s' = (open_state, [])) (open_state, []).
Proof.
  split.
  - eexists. split; [reflexivity|]. split; vm_compute; reflexivity.
  - apply (circuit_open_isolates dead_conf dead_store
      (mkEventRecord "" "" "" "" "" "" 0 0 "" 0) "" "" 10 "" "" "orders" "" "" (open_state, []));
      vm_compute; reflexivity.
Defined.

Lemma server_releases_lanes_witness :
  wp (node_env (fun _ => True))
    (server dead_conf (fun _ _ => None) (fun _ => Invalid) (fun s => s)
      (fun _ => None) IPLimiter.by_key (fun _ => "") ascii_label (fun _ _ => Ret (mkResponse [] 200 NoBody))
      ServerWriter (demo_get "/events" "root-token"))
    (fun _ s' => lanes s'.1 = lanes dead_state) (dead_state, []).
Proof.
  apply (server_releases_lanes dead_conf (fun _ _ => None) (fun _ => Invalid) (fun s => s) (fun _ => None)
    IPLimiter.by_key (fun _ => "") ascii_label (fun _ _ => Ret (mkResponse [] 200 NoBody)) ServerWriter
    (demo_get "/events" "root-token") (dead_state, [])).
  - intros w r. eexists. reflexivity.
  - intros []; vm_compute; split; discriminate.
Defined.
End Lanes.
