(* ===== verification/NodeState.v ===== *)
(** * The shared state of a node stays well-formed

    Any number of goroutines of one node (requests, the relay, the cleanup,
    [Run]) work on one [AppState] at once, critical section by critical
    section, with arbitrary clocks and answers of everything else, and may be
    abandoned anywhere.  [state_wf] is the type the state keeps. *)

From S2P Require Import Prelude Prog Contracts GoStrings Config Breaker Limits App Handlers AppThms.

Module NodeState.
Import GoStrings Config Limits App Handlers AppThms.

(** ** Breakers *)

(** The settings of the configuration; a closed circuit has fewer failures and
    a half-open one fewer successes than it takes to leave that state. *)
Definition breaker_wf (c : Config) (b : Breaker.circuitBreaker) : Prop :=
  Breaker.failureThreshold b = Breaker.failureThreshold (cfg_breaker c "") /\
  Breaker.halfOpenSuccesses b = Breaker.halfOpenSuccesses (cfg_breaker c "") /\
  Breaker.openDuration b = Breaker.openDuration (cfg_breaker c "") /\
  match Breaker.state b with
  | Breaker.breakerClosed => Breaker.consecutiveFailures b < Breaker.failureThreshold b
  | Breaker.breakerOpen => True
  | Breaker.breakerHalfOpen => Breaker.consecutiveSuccess b < Breaker.halfOpenSuccesses b
  end.

Lemma breaker_new c nm : breaker_wf c (cfg_breaker c nm).
Proof. split_and!; [done..|]. cbn. rewrite !gomax_max. lia. Qed.

Lemma breaker_Allow c now b : breaker_wf c b -> breaker_wf c (Breaker.Allow now b).2.
Proof.
  intros (H1 & H2 & H3 & H4). unfold Breaker.Allow. destruct (Breaker.state b) eqn:Es; [|destruct (_ >=? _)|];
    try (split_and!; cbn; by rewrite ?Es).
  split_and!; [done..|]. cbn in *. rewrite H2, !gomax_max. lia.
Qed.

Lemma breaker_Success c b : breaker_wf c b -> breaker_wf c (Breaker.Success b).
Proof.
  intros (H1 & H2 & H3 & H4). unfold Breaker.Success.
  destruct (Breaker.state b) eqn:Es; [| |destruct (_ >=? _) eqn:G]; zify_bools;
    split_and!; cbn in *; rewrite ?Es; try done; try lia; rewrite H1, !gomax_max; lia.
Qed.

Lemma breaker_Failure c now b : breaker_wf c b -> breaker_wf c (Breaker.Failure now b).
Proof.
  intros (H1 & H2 & H3 & H4). unfold Breaker.Failure. destruct (_ || _) eqn:G; [by split_and!|].
  apply orb_false_iff in G as [G Gh]. zify_bools. split_and!; [done..|]. cbn.
  destruct (Breaker.state b); [lia|done|done].
Qed.

(** ** Limiters: every address and every subject has a limiter of its own *)

Section NodeState.
Context {RL : RateLimiter} {E : Type -> Type}.

Record own_limiters (l : IPLimiter.ipRateLimiter (RL := RL)) : Prop := mkOwn {
  own_ptr ip e : IPLimiter.data l !! ip = Some e -> (IPLimiter.lim e < length (IPLimiter.heap l))%nat;
  own_inj ip ip' e e' : IPLimiter.data l !! ip = Some e -> IPLimiter.data l !! ip' = Some e' ->
    IPLimiter.lim e = IPLimiter.lim e' -> ip = ip'
}.

Lemma own_subset l l' :
  own_limiters l -> IPLimiter.data l' ⊆ IPLimiter.data l -> IPLimiter.heap l' = IPLimiter.heap l -> own_limiters l'.
Proof.
  intros [W1 W2] Hd Hh. constructor; intros *; rewrite ?Hh; [|]; intros; [eapply W1|eapply W2]; eauto using lookup_weaken.
Qed.

Lemma own_allow now order ip l : own_limiters l -> own_limiters (IPLimiter.allow_locked now order ip l).2.
Proof.
  intros Hl. unfold IPLimiter.allow_locked.
  set (l1 := if After now (IPLimiter.nextSweep l) then _ else l).
  assert (own_limiters l1) as Hl1.
  { subst l1. case_match; [|done]. unfold IPLimiter.sweepLocked. case_match; eapply own_subset; try done.
    apply map_filter_subseteq. }
  destruct (IPLimiter.data l1 !! ip) as [e|] eqn:He; cbn.
  { destruct Hl1 as [W1 W2]. constructor; cbn; intros *; rewrite ?lookup_insert; repeat case_decide; intros;
      simplify_eq/=; eauto. }
  set (l2 := if _ >=? _ then _ else l1).
  assert (own_limiters l2) as [W1 W2].
  { subst l2. case_match; [|done]. unfold IPLimiter.evictOldestLocked. case_match; [|done].
    eapply own_subset; [done| |done]. apply delete_subseteq. }
  constructor; cbn.
  - intros i e. rewrite lookup_insert, length_app. cbn. case_decide; intros; simplify_eq/=; [lia|].
    assert (IPLimiter.lim e < length (IPLimiter.heap l2))%nat by eauto. lia.
  - intros i i' e e'. rewrite !lookup_insert. repeat case_decide; intros; simplify_eq/=; try done; [..|by eauto].
    + match goal with H : IPLimiter.data l2 !! _ = Some _ |- _ => apply W1 in H end. lia.
    + match goal with H : IPLimiter.data l2 !! _ = Some _ |- _ => apply W1 in H end. lia.
Qed.

Lemma own_step now p l : own_limiters l -> own_limiters (IPLimiter.lim_step now p l).2.
Proof.
  intros [W1 W2]. unfold IPLimiter.lim_step. destruct (IPLimiter.heap l !! p) as [x|]; [|done].
  destruct (lim_Allow now x) as [ok x']. constructor; cbn; rewrite ?length_insert; eauto.
Qed.

Lemma subject_step now p l : SubjectLimiter.swf l -> SubjectLimiter.swf (RL := RL) (SubjectLimiter.subject_lim now p l).2.
Proof.
  intros [W1 W2]. unfold SubjectLimiter.subject_lim. destruct (SubjectLimiter.lims l !! p) as [x|]; [|done].
  destruct (lim_Allow now x) as [ok x']. constructor; cbn; rewrite ?length_insert; eauto.
Qed.

(** ** The state *)

Definition lane_cap (c : Config) (l : lane) : Z :=
  match l with
  | LGuard => gomax 1 (MaxConcurrentRequests c)
  | LPub => gomax 1 (MaxConcurrentPublishes c)
  | LQuery => gomax 1 (MaxConcurrentQueries c)
  end.

Record state_wf (c : Config) (names : list string) (s : AppState (RL := RL)) : Prop := mkStateWf {
  sw_lane l : ch_cap (get_lane l s) = lane_cap c l /\ 0 <= ch_len (get_lane l s) <= lane_cap c l;
  sw_breaker p b : get_breaker p s = Some b -> breaker_wf c b;
  sw_names n : is_Some (moduleBreakers s !! n) <-> n ∈ names;
  sw_limiter : own_limiters (limiter_ s);
  sw_subject : SubjectLimiter.swf (subjectLimiter s)
}.

Section Kept.
Variables (c : Config) (names : list string).
Abbreviation wf := (state_wf c names).
Abbreviation nodeE := (appE (RL := RL) (E := E)).

Lemma wf_set_breaker p b b' s : wf s -> get_breaker p s = Some b -> breaker_wf c b' -> wf (set_breaker p b' s).
Proof.
  intros [W1 W2 W3 W4 W5] Hb Hb'. destruct s, p as [| |n]; constructor; cbn in *; try done.
  1-3: intros [| |n'] b2; cbn; intros; simplify_eq; try done; try (by apply (W2 PBus)); try (by apply (W2 PStore));
    try (by eapply (W2 (PModule _))).
  - rewrite lookup_insert in *. case_decide; simplify_eq; [done|]. by eapply (W2 (PModule _)).
  - intros n'. rewrite <- W3, lookup_insert_is_Some'. split; [intros [<-|?]; eauto|by right].
Qed.

Lemma wf_set_lane l n s : wf s -> 0 <= n <= lane_cap c l -> wf (set_lane l (mkChan (ch_cap (get_lane l s)) n) s).
Proof.
  intros [W1 W2 W3 W4 W5] Hn. pose proof (W1 l) as [Hc _].
  destruct s, l; constructor; cbn in *; try done; try (intros [| |?]; apply (W2 _));
    intros l'; pose proof (W1 l'); destruct l'; cbn in *; try done.
Qed.

Lemma wf_set_limiter l s : wf s -> own_limiters l -> wf (set_limiter l s).
Proof. intros [W1 W2 W3 W4 W5] Hl. destruct s. by constructor. Qed.
Lemma wf_set_subject l s : wf s -> SubjectLimiter.swf l -> wf (set_subject l s).
Proof. intros [W1 W2 W3 W4 W5] Hl. destruct s. by constructor. Qed.

(** Every critical section of the program keeps the state well-formed. *)
Fixpoint kept {A} (p : prog nodeE A) : Prop :=
  match p with
  | Ret _ => True
  | Vis e k =>
      match e in appE X return Prop with
      | AAtomic f => forall now s, wf s -> wf (f now s).2
      | _ => True
      end /\ forall x, kept (k x)
  end.

Lemma kept_bind {A B} (p : prog nodeE A) (f : A -> prog nodeE B) :
  kept p -> (forall x, kept (f x)) -> kept (pbind p f).
Proof.
  intros Hp Hf. induction p as [x|X e k IH]; cbn in *; [done|]. destruct Hp as [He Hk]. split; [done|]. auto.
Qed.

Lemma kept_atomic {X} (f : gotime -> AppState -> X * AppState) :
  (forall now s, wf s -> wf (f now s).2) -> kept (atomic f).
Proof. by split. Qed.

Lemma kept_lift {A} (p : prog E A) : kept (lift p).
Proof. induction p as [x|X e k IH]; [done|]. by split. Qed.

Lemma kept_Allow p : kept (brk_Allow p).
Proof.
  apply kept_atomic. intros now s Hs. destruct (get_breaker p s) as [b|] eqn:Hb; [|done].
  pose proof (breaker_Allow c now b (sw_breaker _ _ _ Hs _ _ Hb)). destruct (Breaker.Allow now b) as [ok b'].
  by eapply wf_set_breaker.
Qed.
Lemma kept_Success p : kept (brk_Success p).
Proof.
  apply kept_atomic. intros now s Hs. cbn. destruct (get_breaker p s) as [b|] eqn:Hb; [|done].
  eapply wf_set_breaker; [done..|]. apply breaker_Success. by eapply sw_breaker.
Qed.
Lemma kept_Failure p : kept (brk_Failure p).
Proof.
  apply kept_atomic. intros now s Hs. cbn. destruct (get_breaker p s) as [b|] eqn:Hb; [|done].
  eapply wf_set_breaker; [done..|]. apply breaker_Failure. by eapply sw_breaker.
Qed.

Lemma kept_acquire l : kept (acquireGuard l).
Proof.
  apply kept_atomic. intros now s Hs. destruct (sw_lane _ _ _ Hs l) as [Hc Hn]. unfold Guard.acquireGuard.
  destruct (_ <? _) eqn:G; zify_bools; cbn; apply wf_set_lane; try done; lia.
Qed.
Lemma kept_release l : kept (releaseGuard l).
Proof.
  apply kept_atomic. intros now s Hs. destruct (sw_lane _ _ _ Hs l) as [Hc Hn]. cbn. unfold Guard.releaseGuard.
  destruct (_ >? _) eqn:G; zify_bools; cbn; apply wf_set_lane; try done; lia.
Qed.

Lemma kept_subject subject : kept (subject_Allow subject).
Proof.
  apply kept_bind; [|intros p]; apply kept_atomic; intros now s Hs.
  - pose proof (SubjectLimiter.subject_locked_spec subject (subjectLimiter s) (sw_subject _ _ _ Hs)) as H.
    destruct (SubjectLimiter.subject_locked _ _) as [p l]. apply wf_set_subject; [done|apply H].
  - pose proof (subject_step now p _ (sw_subject _ _ _ Hs)) as H.
    destruct (SubjectLimiter.subject_lim _ _ _) as [ok l]. by apply wf_set_subject.
Qed.

Lemma kept_limiter visit ip : kept (limiter_Allow visit ip).
Proof.
  unfold limiter_Allow. apply kept_bind; [by split|]. intros now.
  apply kept_bind; [|intros p]; apply kept_atomic; intros now' s Hs.
  - pose proof (own_allow now visit ip _ (sw_limiter _ _ _ Hs)) as H.
    destruct (IPLimiter.allow_locked _ _ _ _) as [p l]. by apply wf_set_limiter.
  - pose proof (own_step now' p _ (sw_limiter _ _ _ Hs)) as H.
    destruct (IPLimiter.lim_step _ _ _) as [ok l]. by apply wf_set_limiter.
Qed.

(** Updates of the fields the invariant does not mention. *)
Lemma kept_plain f : (forall s, get_lane LGuard (f s) = get_lane LGuard s /\ get_lane LPub (f s) = get_lane LPub s /\
    get_lane LQuery (f s) = get_lane LQuery s /\ busBreaker (f s) = busBreaker s /\ storeBreaker (f s) = storeBreaker s /\
    moduleBreakers (f s) = moduleBreakers s /\ limiter_ (f s) = limiter_ s /\ subjectLimiter (f s) = subjectLimiter s) ->
  forall s, wf s -> wf (f s).
Proof.
  intros Hf s [W1 W2 W3 W4 W5]. destruct (Hf s) as (E1 & E2 & E3 & E4 & E5 & E6 & E7 & E8). constructor.
  - intros []; rewrite ?E1, ?E2, ?E3; apply W1.
  - intros [| |n] b; cbn; rewrite ?E4, ?E5, ?E6; [apply (W2 PBus)|apply (W2 PStore)|apply (W2 (PModule n))].
  - intros n. by rewrite E6.
  - by rewrite E7.
  - by rewrite E8.
Qed.

Lemma kept_update f : (forall s, wf s -> wf (f s)) -> kept (update f).
Proof. intros Hf. apply kept_atomic. intros now s. apply Hf. Qed.

Lemma kept_read {X} (f : AppState -> X) : kept (atomic (fun _ s => (f s, s))).
Proof. by apply kept_atomic. Qed.

Ltac plain := apply kept_plain; intros []; by split_and!.

Lemma kept_auth ip : kept (auth_IsBlocked ip) /\ kept (auth_Failure ip) /\ kept (auth_Success ip).
Proof.
  split_and!; apply kept_atomic; intros now s; cbn.
  - destruct (AuthGuard.IsBlocked now ip (authGuard s)) as [b g]. revert s. cbn.
    apply (kept_plain (set_auth g)). by intros [].
  - apply (kept_plain (fun s => set_auth (AuthGuard.Failure now ip (authGuard s)) s)). by intros [].
  - apply (kept_plain (fun s => set_auth (AuthGuard.Success ip (authGuard s)) s)). by intros [].
Qed.

(** ** The programs *)

Variable a : AppConf (E := E).

Ltac keep :=
  repeat match goal with
  | |- kept (Ret _) => exact I
  | |- kept (pbind _ _) => apply kept_bind; [|intros]
  | |- kept (lift _) => apply kept_lift
  | |- kept (perform (AAtomic _)) => fail
  | |- kept (perform _) => by split
  | |- kept (brk_Allow _) => apply kept_Allow
  | |- kept (brk_Success _) => apply kept_Success
  | |- kept (brk_Failure _) => apply kept_Failure
  | |- kept (acquireGuard _) => apply kept_acquire
  | |- kept (releaseGuard _) => apply kept_release
  | |- kept (subject_Allow _) => apply kept_subject
  | |- kept (limiter_Allow _ _) => apply kept_limiter
  | |- kept (auth_IsBlocked _) => apply kept_auth
  | |- kept (auth_Failure _) => apply kept_auth
  | |- kept (auth_Success _) => apply kept_auth
  | |- kept (atomic (fun _ s => (_, s))) => apply kept_read
  | |- kept (update _) => apply kept_update; plain
  | |- kept (if ?b then _ else _) => destruct b
  | |- kept (match ?x with _ => _ end) => destruct x
  end.

Lemma kept_guarded {A} p msg (call : prog nodeE (result A)) : kept call -> kept (guarded p msg call).
Proof. intros Hc. unfold guarded. keep; exact Hc. Qed.

Lemma kept_publish n wait sub pay mid : kept (publish_loop a n wait sub pay mid).
Proof.
  revert wait. induction n as [|n IH]; intros wait; cbn [publish_loop]; unfold busPublish; keep; try apply IH;
    apply kept_guarded; keep.
Qed.

Lemma kept_failure eid e : kept (recordOutboxFailure a eid e).
Proof. unfold recordOutboxFailure. keep. Qed.

Lemma kept_mark eid b : kept (storeMarkOutboxPublished a eid b).
Proof. unfold storeMarkOutboxPublished. keep; apply kept_guarded; keep. Qed.

Lemma kept_relay ticks : kept (runOutboxRelay a ticks).
Proof.
  induction ticks as [|n IH]; cbn [runOutboxRelay]; [done|]. apply kept_bind; [|done].
  unfold relay_tick, relayOutboxBatch, storePendingOutboxEvents. keep; [apply kept_guarded; keep|].
  match goal with |- kept (relay_events _ ?l) => induction l as [|ev evs IHl] end; cbn [relay_events]; [done|].
  apply kept_bind; [|done]. unfold relay_event, claimOutboxLease. keep; [apply kept_publish|apply kept_mark|apply kept_failure].
Qed.

Lemma kept_cleanup ticks : kept (runCleanupLoop (RL := RL) a ticks).
Proof.
  unfold runCleanupLoop. keep. match goal with |- kept (cleanup_ticks _ ?ad _) => generalize ad end. intros adv.
  induction ticks as [|n IH]; cbn [cleanup_ticks]; [done|]. apply kept_bind; [|done]. unfold cleanup_tick. keep.
Qed.

Variable Decode : Z -> string -> option publishRequest.
Variable Unmarshal : string -> json_value.
Variable Quote : string -> string.
Variable ParseAddrPort : string -> option string.
Variable visit : IPLimiter.ipRateLimiter (RL := RL) -> list (string * IPLimiter.ipLimiterEntry).
Variable Marshal : BusMessage -> string.
Variable label_ok : string -> bool.

Lemma kept_publish_event r : kept (publish_event a Decode Unmarshal Quote r).
Proof.
  unfold publish_event, publish_body, publish_stored, publishWithRetry, storeAppendEventExactlyOnce.
  keep; try apply kept_publish; try apply kept_failure; try apply kept_mark; apply kept_guarded; keep.
Qed.

Definition khandler (next : Handler (RL := RL) (E := E)) : Prop := forall w r, kept (next w r).

Lemma kept_events : khandler (handleEvents a Decode Unmarshal Quote).
Proof.
  intros w r. unfold handleEvents, handlePublishEvent, handleListEvents, list_events, storeRecentEvents.
  keep; [apply kept_publish_event|apply kept_guarded; keep].
Qed.

Lemma kept_health : khandler (handleHealth a).
Proof.
  intros w r. unfold handleHealth. apply kept_bind; [|intros; keep].
  induction (modules a) as [|m ms IH]; cbn [check_modules]; [done|].
  apply kept_bind; [unfold check_module; keep|]. intros st. apply kept_bind; [exact IH|]. intros. keep.
Qed.

Lemma kept_stream : khandler (handleStream a Marshal).
Proof.
  intros w r. unfold handleStream. keep.
  match goal with |- kept (stream_loop _ _ _ ?l) => induction l as [|msg msgs IH] end; cbn [stream_loop]; keep;
    try exact IH. unfold storeClaimInboxMessage. keep. apply kept_guarded. keep.
Qed.

Lemma kept_secure scope next : khandler next -> khandler (secure a ParseAddrPort scope next).
Proof.
  intros Hn w r. unfold secure, deny. destruct (DisableAPITokenAuth (cfg a)); [apply Hn|]. keep; apply Hn.
Qed.

Lemma kept_server render w r :
  kept (server a Decode Unmarshal Quote ParseAddrPort visit Marshal label_ok (fun _ req => Ret (render req)) w r).
Proof.
  assert (khandler (mux a Decode Unmarshal Quote ParseAddrPort Marshal (fun _ req => Ret (render req)))) as Hmux.
  { intros w1 r1. unfold mux. repeat (case_bool_decide; [try (apply kept_secure; intros ? ?)|]);
      try apply kept_health; try apply kept_events; try apply kept_stream.
    all: unfold handleLive, handleStartup, handleLeader, handleDeadLetters, handleReplayDeadLetter,
      handleOutboxRelayAdmin, load_paused; keep. }
  unfold server, withRecovery, withCORS, withSecurityHeaders, withRequestID, withRequestTimeout, newRequestID,
    withConcurrencyLimit, withRateLimit, instrument. keep; apply Hmux.
Qed.

Lemma kept_run : kept (Run a).
Proof.
  assert (forall n wait name, kept (start_loop (RL := RL) (E := E) n wait name)) as Hstart.
  { induction n as [|n IH]; intros wait name; cbn [start_loop]; keep. apply IH. }
  unfold Run. keep.
  - induction (modules a) as [|m ms IH]; cbn [start_modules]; unfold startModuleWithRetry; keep; auto.
  - induction (reverse (modules a)) as [|m ms IH]; cbn [stop_modules]; keep; auto.
Qed.
End Kept.

(** ** Any interleaving *)

(** The goroutines of the node. *)
Inductive goroutine (a : AppConf (E := E)) : prog (appE (RL := RL) (E := E)) unit -> Prop :=
| g_run : goroutine a (let! _ := Run a in Ret tt)
| g_request Decode Unmarshal Quote ParseAddrPort visit Marshal label_ok render w r :
    goroutine a (let! _ := server a Decode Unmarshal Quote ParseAddrPort visit Marshal label_ok
                   (fun _ req => Ret (render req)) w r in Ret tt)
| g_relay ticks : goroutine a (runOutboxRelay a ticks)
| g_cleanup ticks : goroutine a (runCleanupLoop a ticks).

Definition node_legal : legality (appE (RL := RL) (E := E)) AppState := fun X e =>
  match e in appE X return AppState -> X -> AppState -> Prop with
  | AAtomic f => fun s x s' => exists now, f now s = (x, s')
  | _ => fun s _ s' => s' = s
  end.

Definition node_calls (a : AppConf (E := E)) (p : prog _ unit) (Q : unit -> AppState (RL := RL) -> Prop) : Prop :=
  goroutine a p /\ Q = (fun _ _ => True).

Lemma kept_sound c names (p : prog _ unit) s :
  kept c names p ->
  sound node_legal (state_wf c names) (fun _ => ∅ : gset nat) (fun _ _ _ => True) ∅ p (fun _ _ _ => True) s.
Proof.
  revert s. induction p as [x|X e k IH]; intros s Hp; [done|]. destruct Hp as [He Hk].
  intros s1 x s2 _ HI _ HL. assert (state_wf c names s2) as HI2.
  { destruct e; try (by rewrite HL). destruct HL as [now Hf]. specialize (He now s1 HI). by rewrite Hf in He. }
  split_and!; [done|done|done|]. exists ∅. split; [done|]. by apply IH.
Qed.

Lemma names_fold (ms : list (App.Module_ (E := E))) (F : App.Module_ -> Breaker.circuitBreaker) (mb : gmap string Breaker.circuitBreaker) n b :
  foldl (fun mb m => <[m_Name m := F m]> mb) mb ms !! n = Some b ->
  mb !! n = Some b \/ exists m, m ∈ ms /\ b = F m.
Proof.
  revert mb. induction ms as [|m ms IH]; intros mb; cbn; [by left|].
  intros [H|(m' & ? & ->)]%IH; [|right; exists m'; set_solver].
  rewrite lookup_insert in H. case_decide; simplify_eq; [right; exists m; set_solver|by left].
Qed.

Lemma names_dom (ms : list (App.Module_ (E := E))) (F : App.Module_ -> Breaker.circuitBreaker) (mb : gmap string Breaker.circuitBreaker) n :
  is_Some (foldl (fun mb m => <[m_Name m := F m]> mb) mb ms !! n) <-> is_Some (mb !! n) \/ n ∈ map m_Name ms.
Proof.
  revert mb. induction ms as [|m ms IH]; intros mb; cbn; [set_solver|].
  rewrite IH, lookup_insert_is_Some', elem_of_cons. naive_solver.
Qed.

Lemma new_state_wf now c (ms : list (App.Module_ (E := E))) : state_wf c (map m_Name ms) (New_state now c ms).
Proof.
  constructor; cbn.
  - intros []; cbn; rewrite ?gomax_max; lia.
  - intros [| |n] b; cbn; [intros [= <-]; apply breaker_new..|].
    intros [H|(m & _ & ->)]%names_fold; [by rewrite lookup_empty in H|apply breaker_new].
  - intros n. rewrite names_dom, lookup_empty. split; [intros [[]|]|]; [done|done|by right].
  - by constructor.
  - by constructor.
Qed.

(** C11: The shared state of a node is well-formed in every interleaving.
    Whatever [Run], requests, relay and cleanup goroutines do at once from the
    state [New] builds: each lane holds between zero and its configured number
    of tokens; every breaker has the configured settings, a closed one fewer
    failures than the threshold and a half-open one fewer successes than it
    needs; exactly the modules have breakers; and no two addresses and no two
    subjects share a limiter. *)
Theorem node_state_wf now c ms ts s :
  reachable node_legal (node_calls (New_conf c ms)) (New_state now c ms) (ts, s) ->
  state_wf c (map m_Name ms) s.
Proof.
  intros Hr. set (R := fun (_ : gset nat) (_ _ : AppState (RL := RL)) => True).
  assert (forall g, PreOrder (R g)) as HR by (by repeat constructor).
  apply (reachable_sound (K := nat) (HR := HR) node_legal (state_wf c (map m_Name ms)) (fun _ => ∅) R
    (node_calls (New_conf c ms)) (New_state now c ms) ts s (new_state_wf now c ms)); [|done].
  intros p Q s' [Hp ->] _. apply kept_sound. destruct Hp as [| | |].
  - apply kept_bind; [apply kept_run|done].
  - apply kept_bind; [apply kept_server|done].
  - apply kept_relay.
  - apply kept_cleanup.
Qed.
End NodeState.

(** ** A concrete node: it answers one request *)

Abbreviation noE := (fun _ : Type => Empty_set).

Definition node_handler : handler (appE (RL := IPLimiter.countdown) (E := noE)) AppState := fun X e s =>
  match e in appE X return X * AppState with
  | AStore e => match e return _ with end
  | AAtomic f => f 0 s
  | ANow => (0, s)
  | APublish _ _ _ => (Ok "SHIRO_EVENTS:1", s)
  | AWait _ | AModStart _ | AModReady _ | AModStop _ | AServe => (None, s)
  | AIsLeader => (true, s)
  | ALeaderID => ("node-1", s)
  | AGo _ | AWrite _ => (tt, s)
  | ATimedOut => (false, s)
  | ARandHex => (Ok "00", s)
  | ASubscribe _ => (Ok [], s)
  end.

Lemma node_handler_ok : respects node_handler node_legal.
Proof. intros X e s. destruct e; try done. exists 0. cbn. by destruct (f 0 s). Qed.

Definition one_request : prog (appE (RL := IPLimiter.countdown) (E := noE)) unit :=
  let! _ := server demo_conf (fun _ _ => None) (fun _ => Invalid) (fun s => s) (fun _ => None) IPLimiter.by_key
    (fun _ => "") ascii_label (fun _ _ => Ret (mkResponse [] 200 NoBody)) ServerWriter (demo_get "/livez" "") in
  Ret tt.
Definition node_d0 : AppState (RL := IPLimiter.countdown) := New_state 0 (cfg demo_conf) (modules demo_conf).
Definition node_d1 : AppState (RL := IPLimiter.countdown) := (run node_handler one_request node_d0).2.

Lemma node_state_wf_witness :
  reqs node_d1 !! ("/livez", "GET", "200") = Some 1 /\ state_wf (cfg demo_conf) ["natsbus"] node_d1.
Proof.
  split; [vm_compute; reflexivity|].
  apply (node_state_wf 0 (cfg demo_conf) (modules demo_conf) [mkThread (Ret tt) (fun _ _ => True)] node_d1).
  eapply (reachable_run _ _ _ [] node_d0 one_request); [apply rtc_refl| |].
  - split; [apply (g_request _ _ _ _ _ _ _ _ (fun _ => mkResponse [] 200 NoBody))|done].
  - pose proof (run_exec _ _ one_request node_d0 node_handler_ok) as He.
    destruct (run node_handler one_request node_d0).1. exact He.
Defined.
End NodeState.
